(* ===== verification/_CoqProject ===== *)
-Q . S2P
Prelude.v
Text.v
Headers.v
Hash.v
Status.v
Path.v
Crd.v
DescriptorSet.v
ServiceSpec.v
Health.v
ResourceChange.v
ServiceStore.v
StoreInv.v
StoreRace.v
StoreRouting.v
StoreLabels.v
Discovery.v
DiscoveryInv.v
DiscoveryProps.v
DiscoveryOrigin.v
Cache.v
Redis.v
RedisDiscovery.v
StorageSpec.v
Session.v
Proxy.v
ProxyProps.v
StoreTypes.v
Lifecycle.v
LifecycleProps.v
LifecycleEnd.v
EndToEnd.v
Main.v
World.v
WorldInv.v
WorldProps.v
WorldRun.v
Tracing.v
Server.v
TestUtil.v
TestServers.v
Cli.v
Unbuilt.v
