(* ===== verification/Prelude.v ===== *)
(** * grcache: a caching proxy for gRPC, verified

    grcache sits between gRPC clients and services. It learns the services it proxies
    from [GrcacheService] resources of a Kubernetes cluster, finds their backends by DNS,
    and caches the responses of methods that carry a TTL in Redis. This library models
    its Rust sources (file names below are relative to [src/grcache-proxy/src] and
    [src/grcache-shared/src]) as executable definitions and proves what the parts promise
    to each other.

    ** The program and the files

    - [Prelude], [Text]: what the sources use of Rust: results with panics ([outcome]),
      bytes, UTF-8, [split], [rsplit_once], [trim], [to_le_bytes], hexadecimal, [parse::<u8>],
      the order of a [BTreeSet]; the tactics and lemmas all files share.
    - [Headers], [Hash], [Status], [Path]: [grpc/headers.rs], [grpc/hash.rs],
      [grpc/status.rs] and [parse_grpc_path] of [proxy/mod.rs]: pure functions of a request
      or of trailers. Header maps and hashes are interfaces ([HeaderMap], [Digest]).
    - [Crd], [DescriptorSet], [ServiceSpec]: [config/crd.rs], [qualified_service.rs],
      [field_ref.rs], [descriptor_set.rs] and [service/mod.rs]: resources, descriptor
      sets and the specification of a service. Protobuf reflection, files, buckets and
      SHA-256 are interfaces.
    - [Health]: [health.rs], the readiness counter; its atomic operations interleave in
      the relation [step].
    - [ResourceChange]: [resource_change.rs], from watcher events to changes, with the view
      of the cluster as abstract specification. The order in which a [HashMap] is visited
      is left open ([HashOrder]).
    - [ServiceStore]: [service_store.rs], the routing table: one definition for each
      method, [run_task] for the tasks that load descriptor sets, [store_step] for their
      interleaving with the loop. [StoreInv], [StoreRace], [StoreRouting], [StoreTypes] and
      [StoreLabels] hold the invariant and the theorems. DNS discovery is the interface
      [DnsHandle].
    - [Discovery]: [discovery/dns.rs] and [discovery/mod.rs]: shared handles behind weak
      references, the command queue and the lookup loops, with every [await] of a loop a
      step of its own ([loop_step], [disc_step]). [DiscoveryInv] holds the invariant,
      [DiscoveryProps] the theorems and the instance of [DnsHandle], and
      [DiscoveryOrigin] follows each backend to the answer of the resolver it is from.
    - [Cache], [Redis]: pingora's storage trait as a class, [cache/redis_replicas.rs] and
      [test_util/mock_storage.rs] as its instances. bincode, Redis and the connection pools
      are interfaces. [StorageSpec] is the abstract specification of a storage that others
      may share and change ([store_env]), which both instances implement.
    - [Session], [Proxy]: pingora's session as an interface, and every handler of
      [proxy/mod.rs] in a state and error monad. [ProxyProps] holds the theorems.
    - [Lifecycle]: the order in which pingora calls the handlers, as a step relation, for
      any number of requests over one storage, to which others may write ([foreign] says
      what); [LifecycleProps] holds its invariant and the theorems, proved against
      [StorageSpec], and [LifecycleEnd] what becomes of a hit in Redis.
    - [EndToEnd], [RedisDiscovery]: the compositions: cluster, changes, store, routing
      table; resolver, discovery, balancer, peer; resolver, discovery, connection pools.
    - [Main]: [main.rs] and [config/mod.rs]: startup, the interleaving of all services, and
      what a panic of the store does.
    - [World]: the whole running process: the services of [Main] and the requests of
      [Lifecycle] in one state, where [request_filter] reads the table of the store,
      [upstream_peer] selects from the balancers of discovery, and references to handles
      are counted. [WorldInv] holds the invariant, [WorldProps] and [WorldRun] the theorems.
    - [Server]: [main] of [main.rs] from its arguments to the running server, and the HTTP
      service of the proxy. Files, TOML, sockets and pingora's server are interfaces
      ([MainEnv], [Net]).
    - [Tracing]: [tracing.rs], the globals of OpenTelemetry and the whole of
      [early_request_filter]. [Cli]: [grcache-cli/src/main.rs], with the buffered writer
      of the standard library.
    - [TestUtil], [TestServers]: [test_util/mod.rs], [test_util/proxy.rs] and [test/]: the
      proxy, the client and the server of the tests. [Unbuilt]: [proxy/logic.rs] and
      [cache/local.rs], which are not part of the build.

    ** How the code is represented

    A Rust function that can fail returns an [outcome]: [Ok], [Err], or [Panic] for a failed
    [unwrap], an index out of range or [todo!]. State is passed explicitly; concurrent parts
    are step relations over a state record, and theorems about them quantify over
    [rtc step]. Maps and sets are stdpp's [gmap] and [gset]; a [BTreeSet] is visited in
    order by [btree_iter]. Strings and bodies are lists of bytes. Integers are [Z] with the
    width written out where the code can overflow ([u64] in [Health], [as_i64] in [Proxy],
    [usize_le] in [Text]); generation numbers and reference counts are [nat], since a
    process cannot count to 2^64. Code of other crates is a class with laws that state its
    documented behaviour, and has a concrete instance with which the theorems are
    instantiated at the end of each file.

    The only loops that are not structural are the body loop of [request_filter] ([drain],
    whose fuel is the number of chunks plus one, shown sufficient in [drain_spec]) and
    the rounds of a discovery loop ([run_round], five steps, shown sufficient in
    [discovery_round]).

    ** What the theorems show

    - The routing table follows the cluster ([cluster_routing]), in pieces: the change
      stream refines the view of the cluster ([resource_changes_refine],
      [relist_is_silent]); the store panics only on unqualified names, and a loading task
      only if it cannot load or build its service ([store_panics_iff]); the store selects duplicates deterministically
      ([selection_deterministic]), and its generations make the order of loading tasks
      irrelevant ([task_order_irrelevant]), deletions final ([unload_is_final]) and
      entries monotone ([service_generation_monotone]); when the tasks are done, none has
      failed and no resource was renamed, every name is routed as its resource says
      ([quiescent_routing]). Entries are well typed
      ([service_table_typed]), and so is what a routed request carries
      ([routed_request_typed]). An update that renames a service leaves the old name
      routed ([rename_leaves_stale_route]), services with bucket sources are never routed
      ([bucket_service_unroutable]), and the cluster a resource is for is not looked at
      ([cluster_label_ignored]).
    - Requests reach a backend the resolver returned ([peer_from_dns]): handles are shared
      ([handles_shared]), live handles are served ([live_handle_served]), a round brings
      the answer into the balancers ([discovery_round]), loops never panic
      ([discovery_panic_free]) and stop with their handle ([dead_handle_stops],
      [ready_and_death_are_final]); every backend is from an answer of the resolver
      ([backends_from_resolver]).
    - The process as a whole: the handles in use are served by discovery
      ([used_handles_served]), a request is connected only to an address of the upstream
      that a resource gives its service ([request_peer_origin]) and, unless the cache
      answers it or its key cannot be computed, can always get there
      ([routed_request_connects]). The loop of the store panics on an unqualified name and
      nothing else; discovery does not panic; the handlers panic on a request to be cached
      that has an empty body, and on a damaged value in the storage
      ([process_panics_iff]). These theorems assume that [main] runs in a Tokio runtime; as
      it is written it does not and panics ([main_starts_iff], [main_without_runtime]).
    - The proxy answers with the codes it documents ([request_filter_branches]), headers
      outside the vary set are not forwarded ([strip_headers_no_leak]), and equal digests
      mean equal upstream requests, or a collision of the two strings that were hashed
      ([key_digest_separates], [same_digest_same_request]). What the later handlers find is
      in [later_handlers].
    - Over all interleavings of requests, with others writing to the storage: what is
      served from the cache is always a complete body, of an earlier response that was fit
      to be stored or of an entry of others ([cache_provenance], [response_stored_iff]).
      But the key that is used ignores the digest ([same_uri_same_entry]), an error in the
      header block is stored ([response_stored_iff]), an entry is served only when it is
      older than its TTL and younger than a minute ([served_age_bounds]), and a hit in Redis
      sends its body over and over until the client goes away ([redis_hit_endless]).
    - The Redis backend returns what was stored ([redis_store_lookup]), treats every
      failure but damaged metadata as a miss and panics on an empty value
      ([redis_lookup_exact]), which it never writes itself
      ([redis_lookup_safe]), keeps a pool for each backend ([pools_follow_backends]), and
      has one for every key after discovery ([redis_pools_from_dns]).
    - Readiness is signalled exactly when everything has reported ([health_ready_safe],
      [health_ready_live], [health_counter_exact]), for the whole system in
      [system_ready_safe]; but after a panic of the store's loop the process can report
      readiness from any state ([panic_reports_ready]).
    - Parsers and builders: [parse_grpc_path_branches], [parse_format_grpc_path],
      [status_ok_iff], [qualified_parse_display], [make_vary_headers_set_total],
      [bucket_load_integrity], [service_build_correct], [grpc_frame_round_trip].
    - Around the proxy: [test_proxy_answers], [mock_server_verdict], [tracing_init_effect],
      [cli_writes_schema], [logic_refuses_same_paths], [local_cache_panics].

    ** What is not modelled

    Log output, time (the delays between rounds, the expiry of Redis keys), memory orders
    weaker than sequential consistency in [health.rs], and the parsing of configuration,
    resources and arguments, which serde and clap derive. In [World] the storage is any
    storage that keeps its specification, so that the connection pools of Redis are not
    tied to the balancer of discovery there ([redis_pools_from_dns] does this for a round).
    pingora decides when it calls the handlers:
    [life_step] allows the orders that the comment in [proxy/mod.rs] and its documentation
    give, with the choices they leave open; the clock it reads need not be monotone. Three
    assumptions about it matter: a miss handler is finished only while the cache of the
    request is enabled, [cache_hit_filter] returning [true] expires the entry, and
    [get_retry_buffer] returns [None] for an empty buffer. *)

From stdpp Require Import gmap strings list fin_maps sorting numbers.
From Stdlib Require Import Strings.Byte.

Declare Scope grcache_scope.
Delimit Scope grcache_scope with grc.
Open Scope grcache_scope.

(** ** Tactics shared by the components *)

(** Case analysis on every [match], [if] and [decide] left in the goal, keeping
    the equations, and closing the contradictory branches. *)
Ltac crush_match := try done; repeat (case_match; simplify_eq/=; try done).

(** The same in the hypotheses [H]. *)
Ltac crush_in H :=
  repeat (match type of H with
          | context [match ?x with _ => _ end] => destruct x eqn:?
          end; simplify_eq/=; try done).

(** Equations between closed terms, by evaluation in the kernel. *)
Ltac vm_refl := match goal with |- _ = ?y => vm_cast_no_check (eq_refl y) end.

Create HintDb grc discriminated.

(** ** Results: values, errors and panics *)

(** What a Rust function returns: a value, an [Err], or a panic (a failed
    [unwrap], an index out of range, [todo!], [unreachable!]). *)
Inductive outcome (E A : Type) : Type :=
| Ok (a : A)
| Err (e : E)
| Panic.
Arguments Ok {E A} a.
Arguments Err {E A} e.
Arguments Panic {E A}.

#[global] Instance outcome_ret {E} : MRet (outcome E) := λ A a, Ok a.
#[global] Instance outcome_bind {E} : MBind (outcome E) := λ A B f m,
  match m with Ok a => f a | Err e => Err e | Panic => Panic end.
#[global] Instance outcome_fmap {E} : FMap (outcome E) := λ A B f m,
  match m with Ok a => Ok (f a) | Err e => Err e | Panic => Panic end.

(** [Option::unwrap]. *)
Definition unwrap {E A} (o : option A) : outcome E A :=
  match o with Some a => Ok a | None => Panic end.

(** [Option::ok_or_else]. *)
Definition ok_or {E A} (e : E) (o : option A) : outcome E A :=
  match o with Some a => Ok a | None => Err e end.

(** [Result::map_err]. *)
Definition map_err {E E' A} (f : E → E') (m : outcome E A) : outcome E' A :=
  match m with Ok a => Ok a | Err e => Err (f e) | Panic => Panic end.

(** [Result::unwrap]: an error becomes a panic. *)
Definition unwrap_res {E E' A} (m : outcome E A) : outcome E' A :=
  match m with Ok a => Ok a | Err _ => Panic | Panic => Panic end.

(** [Result::ok]. *)
Definition ok {E A} (m : outcome E A) : option A :=
  match m with Ok a => Some a | _ => None end.

Section outcome_lemmas.
Context {E A B : Type}.

Lemma outcome_bind_Ok (m : outcome E A) (f : A → outcome E B) b :
  m ≫= f = Ok b ↔ ∃ a, m = Ok a ∧ f a = Ok b.
Proof. destruct m; naive_solver. Qed.

Lemma outcome_bind_Panic (m : outcome E A) (f : A → outcome E B) :
  m ≫= f = Panic ↔ m = Panic ∨ ∃ a, m = Ok a ∧ f a = Panic.
Proof. destruct m; naive_solver. Qed.

Lemma map_err_Ok {E'} (g : E → E') (m : outcome E A) a :
  map_err g m = Ok a ↔ m = Ok a.
Proof. destruct m; naive_solver. Qed.
End outcome_lemmas.

(** ** Bytes and byte strings *)

(** A Rust [&[u8]], [Vec<u8>] or [Bytes] is a list of bytes. A [str] or [String]
    is its UTF-8 bytes, so both have this type. *)
Abbreviation bytes := (list byte).

#[global] Instance byte_eq_dec : EqDecision byte := Byte.byte_eq_dec.

(** The numeric value of a byte. *)
Definition bn (b : byte) : N := Byte.to_N b.

(** The byte of a number, modulo 256. *)
Definition byte_of_Z (z : Z) : byte :=
  default x00 (Byte.of_N (Z.to_N (z mod 256))).

(** A string literal of the source. *)
Definition lit (s : string) : bytes := String.list_byte_of_string s.

Lemma bn_inj (a b : byte) : bn a = bn b → a = b.
Proof.
  intros H. apply (f_equal Byte.of_N) in H. unfold bn in H.
  rewrite !Byte.of_to_N in H. by simplify_eq.
Qed.

#[global] Program Instance byte_countable : Countable byte :=
  inj_countable bn Byte.of_N _.
Next Obligation. intros b. apply Byte.of_to_N. Qed.

Lemma bn_lt_256 (b : byte) : (bn b < 256)%N.
Proof. pose proof (Byte.to_N_bounded b). unfold bn. lia. Qed.

Lemma bn_byte_of_Z z : bn (byte_of_Z z) = Z.to_N (z mod 256).
Proof.
  unfold bn, byte_of_Z.
  assert (0 ≤ z mod 256 < 256)%Z by (apply Z.mod_pos_bound; lia).
  destruct (Byte.of_N (Z.to_N (z mod 256))) as [b|] eqn:Hb; simpl.
  - by apply Byte.to_of_N.
  - apply Byte.of_N_None_iff in Hb. lia.
Qed.

Lemma byte_of_Z_bn b : byte_of_Z (Z.of_N (bn b)) = b.
Proof.
  apply bn_inj. rewrite bn_byte_of_Z. pose proof (bn_lt_256 b).
  rewrite Z.mod_small by lia. lia.
Qed.

(** ** Order on byte strings: Rust's [Ord] of [str] and [[u8]] *)

Definition bytes_le (a b : bytes) : Prop :=
  String.le (String.string_of_list_byte a) (String.string_of_list_byte b).

Lemma string_of_list_byte_inj (a b : bytes) :
  String.string_of_list_byte a = String.string_of_list_byte b → a = b.
Proof.
  intros H. apply (f_equal String.list_byte_of_string) in H.
  by rewrite !String.list_byte_of_string_of_list_byte in H.
Qed.

#[global] Instance bytes_le_dec : RelDecision bytes_le.
Proof. intros a b. unfold bytes_le. apply _. Defined.

#[global] Instance bytes_le_po : PartialOrder bytes_le.
Proof.
  split; [split|].
  - intros a. unfold bytes_le. reflexivity.
  - intros a b c. unfold bytes_le. by intros; etrans.
  - intros a b. unfold bytes_le. intros. apply string_of_list_byte_inj.
    by apply (anti_symm String.le).
Qed.

#[global] Instance bytes_le_total : Total bytes_le.
Proof. intros a b. apply (total String.le). Qed.

(** A [BTreeSet<String>] is a finite set; [btree_iter] is its iteration order. *)
Definition btree_iter (s : gset bytes) : list bytes :=
  merge_sort bytes_le (elements s).

Lemma btree_iter_perm s : btree_iter s ≡ₚ elements s.
Proof. apply merge_sort_Permutation. Qed.

Lemma btree_iter_sorted s : StronglySorted bytes_le (btree_iter s).
Proof. apply (StronglySorted_merge_sort _). Qed.

Lemma btree_iter_NoDup s : NoDup (btree_iter s).
Proof. rewrite btree_iter_perm. apply NoDup_elements. Qed.

Lemma elem_of_btree_iter s x : x ∈ btree_iter s ↔ x ∈ s.
Proof. by rewrite btree_iter_perm, elem_of_elements. Qed.
