(* ===== verification/Text.v ===== *)
(** * Text: the Rust standard library's string and integer functions

    The byte-string functions the source calls: [str::from_utf8], [str::split] and
    [str::rsplit_once] with a one-character pattern, [str::trim], ASCII lower case,
    [u64::to_le_bytes], lower-case hexadecimal, decimal printing and
    [str::parse::<u8>], each with the lemmas the components use. *)

From stdpp Require Import gmap strings list numbers.
From Stdlib Require Import Strings.Byte.
From S2P Require Import Prelude.

(** ** UTF-8 validation: [std::str::from_utf8] *)

Definition in_range (lo hi : N) (b : byte) : bool :=
  (lo <=? bn b)%N && (bn b <=? hi)%N.

(** A continuation byte. *)
Definition utf8_cont (b : byte) : bool := in_range 0x80 0xBF b.

(** The well-formed byte sequences of the Unicode standard (no overlong form, no
    surrogate, nothing above U+10FFFF). *)
Fixpoint utf8_valid (s : bytes) : bool :=
  match s with
  | [] => true
  | b0 :: s1 =>
    if in_range 0x00 0x7F b0 then utf8_valid s1 else
    match s1 with
    | [] => false
    | b1 :: s2 =>
      if in_range 0xC2 0xDF b0 then utf8_cont b1 && utf8_valid s2 else
      match s2 with
      | [] => false
      | b2 :: s3 =>
        if in_range 0xE0 0xEF b0 then
          in_range (if (bn b0 =? 0xE0)%N then 0xA0 else 0x80)%N
                   (if (bn b0 =? 0xED)%N then 0x9F else 0xBF)%N b1
          && utf8_cont b2 && utf8_valid s3
        else
        match s3 with
        | [] => false
        | b3 :: s4 =>
          in_range 0xF0 0xF4 b0
          && in_range (if (bn b0 =? 0xF0)%N then 0x90 else 0x80)%N
                      (if (bn b0 =? 0xF4)%N then 0x8F else 0xBF)%N b1
          && utf8_cont b2 && utf8_cont b3 && utf8_valid s4
        end
      end
    end
  end.

Definition is_ascii (b : byte) : bool := in_range 0x00 0x7F b.

Lemma utf8_valid_ascii s : Forall is_ascii s → utf8_valid s = true.
Proof.
  induction 1 as [|b s Hb _ IH]; [done|]. simpl. unfold is_ascii in Hb.
  by destruct (in_range 0 127 b).
Qed.

(** ** Splitting and joining *)

(** [s.split(sep)] for a one-byte separator: always at least one piece. *)
Fixpoint split_byte (sep : byte) (s : bytes) : list bytes :=
  match s with
  | [] => [[]]
  | c :: s' =>
    if decide (c = sep) then [] :: split_byte sep s'
    else match split_byte sep s' with
         | p :: ps => (c :: p) :: ps
         | [] => [[c]]
         end
  end.

(** The pieces with [sep] between them. *)
Fixpoint join (sep : bytes) (ps : list bytes) : bytes :=
  match ps with
  | [] => []
  | [p] => p
  | p :: ps' => p ++ sep ++ join sep ps'
  end.

(** [s.rsplit_once(sep)]: around the last separator. *)
Fixpoint rsplit_once (sep : byte) (s : bytes) : option (bytes * bytes) :=
  match s with
  | [] => None
  | c :: s' =>
    match rsplit_once sep s' with
    | Some (a, b) => Some (c :: a, b)
    | None => if decide (c = sep) then Some ([], s') else None
    end
  end.

Lemma join_cons sep p q ps : join sep (p :: q :: ps) = p ++ sep ++ join sep (q :: ps).
Proof. done. Qed.

Lemma split_byte_not_nil sep s : split_byte sep s ≠ [].
Proof. destruct s; simpl; crush_match. Qed.

Lemma split_byte_cons_sep sep s : split_byte sep (sep :: s) = [] :: split_byte sep s.
Proof. simpl. by rewrite decide_True. Qed.

Lemma join_split sep s : join [sep] (split_byte sep s) = s.
Proof.
  induction s as [|c s IH]; simpl; [done|].
  pose proof (split_byte_not_nil sep s). case_decide; subst.
  - destruct (split_byte sep s); [done|]. by rewrite join_cons, IH.
  - destruct (split_byte sep s) as [|p [|q ps]]; [done|..]; simpl in *; by rewrite IH.
Qed.

Lemma split_byte_pieces sep s : Forall (λ p, sep ∉ p) (split_byte sep s).
Proof.
  induction s as [|c s IH]; simpl; [by constructor; [set_solver|]|].
  case_decide; [by constructor; [set_solver|]|].
  destruct (split_byte sep s); [by repeat constructor; set_solver|].
  inversion_clear IH. constructor; set_solver.
Qed.

Lemma split_byte_app sep p s :
  sep ∉ p → split_byte sep (p ++ sep :: s) = p :: split_byte sep s.
Proof.
  induction p as [|c p IH]; intros Hp; cbn [app].
  - apply split_byte_cons_sep.
  - simpl. rewrite decide_False by set_solver. by rewrite IH by set_solver.
Qed.

Lemma split_byte_no_sep sep p : sep ∉ p → split_byte sep p = [p].
Proof.
  induction p as [|c p IH]; intros Hp; [done|]. simpl.
  rewrite decide_False by set_solver. by rewrite IH by set_solver.
Qed.

Lemma split_join sep ps :
  ps ≠ [] → Forall (λ p, sep ∉ p) ps → split_byte sep (join [sep] ps) = ps.
Proof.
  induction ps as [|p [|q ps] IH]; intros Hne Hps; [done|..].
  - inversion_clear Hps. by apply split_byte_no_sep.
  - rewrite join_cons. inversion_clear Hps.
    change ([sep] ++ ?l) with (sep :: l). rewrite split_byte_app by done.
    by rewrite IH.
Qed.

Lemma rsplit_once_None sep s : rsplit_once sep s = None ↔ sep ∉ s.
Proof.
  induction s as [|c s IH]; simpl; [set_solver|].
  destruct (rsplit_once sep s) as [[a b]|] eqn:Hs.
  - split; [done|]. intros H. exfalso. destruct IH as [_ IH].
    assert (sep ∉ s) as Hn by set_solver. by apply IH in Hn.
  - destruct IH as [IH _]. specialize (IH eq_refl). case_decide; set_solver.
Qed.

Lemma rsplit_once_Some sep s a b :
  rsplit_once sep s = Some (a, b) ↔ s = a ++ sep :: b ∧ sep ∉ b.
Proof.
  revert a b. induction s as [|c s IH]; intros a b; simpl.
  { split; [done|]. by intros [?%symmetry%app_nil _]; destruct_and!. }
  destruct (rsplit_once sep s) as [[a' b']|] eqn:Hs.
  - destruct (IH a' b') as [[-> Hb'] _]; [done|]. split.
    + by intros; simplify_eq.
    + intros [Heq Hb]. destruct a as [|x a]; injection Heq as -> Heq; [set_solver|].
      destruct (IH a b) as [_ IH']. by specialize (IH' (conj Heq Hb)); simplify_eq.
  - apply rsplit_once_None in Hs. case_decide; subst.
    + split; [intros; by simplify_eq|]. intros [Heq Hb].
      destruct a as [|x a]; simplify_eq/=; [done|]. set_solver.
    + split; [done|]. intros [Heq Hb]. destruct a; simplify_eq/=. set_solver.
Qed.

#[export] Hint Resolve split_byte_not_nil split_byte_pieces : grc.
#[export] Hint Rewrite join_split : grc.

(** ** ASCII white space and case *)

(** White space among the ASCII characters: U+0009 to U+000D and the space. *)
Definition is_ws (b : byte) : bool := in_range 0x09 0x0D b || (bn b =? 0x20)%N.

Fixpoint trim_start (s : bytes) : bytes :=
  match s with
  | [] => []
  | c :: s' => if is_ws c then trim_start s' else s
  end.

(** [s.trim()] of an ASCII string. *)
Definition trim (s : bytes) : bytes := reverse (trim_start (reverse (trim_start s))).

Definition to_lower (b : byte) : byte :=
  if in_range 0x41 0x5A b then byte_of_Z (Z.of_N (bn b) + 32) else b.

(** The ASCII lower-case form of a string. *)
Definition lower (s : bytes) : bytes := to_lower <$> s.

Lemma trim_start_suffix s : trim_start s `suffix_of` s.
Proof.
  induction s as [|c s IH]; simpl; [done|]. destruct (is_ws c); [|done].
  by apply suffix_cons_r.
Qed.

Lemma elem_of_trim c s : c ∈ trim s → c ∈ s.
Proof.
  unfold trim. rewrite elem_of_reverse. intros H.
  destruct (trim_start_suffix (reverse (trim_start s))) as [k Hk].
  assert (c ∈ reverse (trim_start s)) as H' by (rewrite Hk; set_solver).
  rewrite elem_of_reverse in H'.
  destruct (trim_start_suffix s) as [k' Hk']. rewrite Hk'. set_solver.
Qed.

Lemma to_lower_idemp b : to_lower (to_lower b) = to_lower b.
Proof. by destruct b. Qed.

Lemma lower_idemp s : lower (lower s) = lower s.
Proof.
  unfold lower. induction s as [|c s IH]; [done|].
  by rewrite !fmap_cons, to_lower_idemp, IH.
Qed.

#[export] Hint Rewrite lower_idemp : grc.

(** ** Fixed-width little-endian integers *)

(** [z.to_le_bytes()] of an [n]-byte integer. *)
Fixpoint le_bytes (n : nat) (z : Z) : bytes :=
  match n with
  | O => []
  | S n' => byte_of_Z z :: le_bytes n' (z / 256)
  end.

(** The integer of little-endian bytes. *)
Fixpoint le_value (s : bytes) : Z :=
  match s with
  | [] => 0
  | b :: s' => Z.of_N (bn b) + 256 * le_value s'
  end.

Lemma length_le_bytes n z : length (le_bytes n z) = n.
Proof. revert z. induction n; intros z; simpl; auto. Qed.

Lemma le_value_bytes n z :
  (0 ≤ z < 256 ^ Z.of_nat n)%Z → le_value (le_bytes n z) = z.
Proof.
  revert z. induction n as [|n IH]; intros z Hz; simpl; [lia|].
  rewrite Nat2Z.inj_succ, Z.pow_succ_r in Hz by lia.
  assert (0 ≤ z mod 256 < 256)%Z by (apply Z.mod_pos_bound; lia).
  rewrite IH.
  - rewrite bn_byte_of_Z. pose proof (Z.div_mod z 256). lia.
  - split; [apply Z.div_pos; lia|]. apply Z.div_lt_upper_bound; lia.
Qed.

Lemma le_bytes_value s : le_bytes (length s) (le_value s) = s.
Proof.
  induction s as [|b s IH]; [done|]. simpl. pose proof (bn_lt_256 b).
  rewrite (Z.mul_comm 256), Z.div_add, (Z.div_small (Z.of_N (bn b))) by lia.
  rewrite Z.add_0_l, IH. f_equal. rewrite <- (byte_of_Z_bn b) at 2.
  unfold byte_of_Z. rewrite Z.mod_add by lia. done.
Qed.

Lemma le_value_bound s : (0 ≤ le_value s < 256 ^ Z.of_nat (length s))%Z.
Proof.
  induction s as [|b s IH]; simpl le_value; simpl length; [lia|].
  pose proof (bn_lt_256 b). rewrite Nat2Z.inj_succ, Z.pow_succ_r by lia. lia.
Qed.

(** [usize::to_le_bytes] on the 64-bit targets the build produces. *)
Definition usize_le (z : Z) : bytes := le_bytes 8 z.

Lemma usize_le_inj z1 z2 :
  (0 ≤ z1 < 2 ^ 64)%Z → (0 ≤ z2 < 2 ^ 64)%Z → usize_le z1 = usize_le z2 → z1 = z2.
Proof.
  intros H1 H2 Heq. apply (f_equal le_value) in Heq. unfold usize_le in Heq.
  rewrite !le_value_bytes in Heq; [done|..].
  - by change (256 ^ Z.of_nat 8)%Z with (2 ^ 64)%Z.
  - by change (256 ^ Z.of_nat 8)%Z with (2 ^ 64)%Z.
Qed.

(** ** Lower-case hexadecimal: [format!("{:x}", digest)] *)

Definition hex_digit (n : N) : byte :=
  byte_of_Z (Z.of_N (if (n <? 10)%N then n + 48 else n + 87)%N).

Definition hex_byte (b : byte) : bytes :=
  [hex_digit (bn b / 16); hex_digit (bn b mod 16)].

Fixpoint hex (s : bytes) : bytes :=
  match s with [] => [] | b :: s' => hex_byte b ++ hex s' end.

(** The two hexadecimal digits determine the byte: decided over the 256 bytes. *)
Definition all_bytes : list byte := byte_of_Z ∘ Z.of_nat <$> seq 0 256.

Lemma elem_of_all_bytes b : b ∈ all_bytes.
Proof.
  unfold all_bytes. apply list_elem_of_fmap. exists (N.to_nat (bn b)).
  pose proof (bn_lt_256 b). split.
  - simpl. rewrite <- (byte_of_Z_bn b) at 1. f_equal. lia.
  - apply elem_of_seq. lia.
Qed.

Definition unhex_byte (s : bytes) : option byte := find (λ b, bool_decide (hex_byte b = s)) all_bytes.

Lemma hex_byte_inj a b : hex_byte a = hex_byte b → a = b.
Proof.
  intros H. assert (unhex_byte (hex_byte a) = Some a) as Ha by (by destruct a; vm_compute).
  assert (unhex_byte (hex_byte b) = Some b) as Hb by (by destruct b; vm_compute).
  congruence.
Qed.

Lemma hex_inj s1 s2 : hex s1 = hex s2 → s1 = s2.
Proof.
  revert s2. induction s1 as [|a s1 IH]; intros [|b s2] Heq; [done..|].
  cbn [hex] in Heq. assert (hex_byte a = hex_byte b ∧ hex s1 = hex s2) as [Hab Hs].
  { unfold hex_byte in *. simpl in Heq. injection Heq as -> -> ->. done. }
  apply hex_byte_inj in Hab as ->. by rewrite (IH _ Hs).
Qed.

Lemma length_hex s : length (hex s) = 2 * length s.
Proof. induction s as [|b s IH]; simpl in *; [done|]. rewrite IH. lia. Qed.

(** Upper-case letters never occur in the output. *)
Lemma hex_lower s : lower (hex s) = hex s.
Proof.
  induction s as [|b s IH]; [done|]. cbn [hex]. unfold lower in *.
  rewrite fmap_app, IH. f_equal. by destruct b.
Qed.

(** ** Decimal integers: [str::parse::<u8>] *)

Inductive ParseIntError := IntEmpty | IntInvalidDigit | IntPosOverflow.

#[global] Instance ParseIntError_eq_dec : EqDecision ParseIntError.
Proof. solve_decision. Defined.

(** [char::to_digit(10)]. *)
Definition to_digit (b : byte) : option N :=
  if in_range 0x30 0x39 b then Some (bn b - 0x30)%N else None.

(** The checked loop of [u8::from_str_radix(_, 10)]: the digit is looked at before
    the overflow of the multiplication is reported. *)
Fixpoint parse_u8_digits (acc : N) (s : bytes) : outcome ParseIntError N :=
  match s with
  | [] => Ok acc
  | c :: s' =>
    match to_digit c with
    | None => Err IntInvalidDigit
    | Some d =>
      if (255 <? acc * 10)%N then Err IntPosOverflow
      else if (255 <? acc * 10 + d)%N then Err IntPosOverflow
      else parse_u8_digits (acc * 10 + d) s'
    end
  end.

(** An optional [+], then at least one digit. *)
Definition parse_u8 (s : bytes) : outcome ParseIntError N :=
  match s with
  | [] => Err IntEmpty
  | [c] => if decide (c = x2b ∨ c = x2d) then Err IntInvalidDigit
           else parse_u8_digits 0 s
  | c :: s' => if decide (c = x2b) then parse_u8_digits 0 s' else parse_u8_digits 0 s
  end.

(** The value of a string of digits, and the grammar the parser accepts. *)
Definition dec_value (acc : N) (ds : bytes) : N :=
  foldl (λ a c, a * 10 + default 0%N (to_digit c))%N acc ds.

Definition all_digits (ds : bytes) : Prop := Forall (λ c, is_Some (to_digit c)) ds.

Lemma dec_value_ge acc ds : (acc ≤ dec_value acc ds)%N.
Proof.
  revert acc. induction ds as [|c ds IH]; intros acc; simpl; [done|].
  specialize (IH (acc * 10 + default 0 (to_digit c))%N). unfold dec_value in *. lia.
Qed.

Lemma parse_u8_digits_Ok acc ds n :
  (acc ≤ 255)%N →
  parse_u8_digits acc ds = Ok n ↔ all_digits ds ∧ dec_value acc ds = n ∧ (n ≤ 255)%N.
Proof.
  revert acc. induction ds as [|c ds IH]; intros acc Hacc; simpl.
  { unfold all_digits, dec_value. simpl. split; [|naive_solver].
    intros [= ->]. by split_and!. }
  pose proof (dec_value_ge (acc * 10 + default 0 (to_digit c))%N ds) as Hge.
  unfold all_digits in *. rewrite list.Forall_cons.
  change (dec_value acc (c :: ds)) with (dec_value (acc * 10 + default 0 (to_digit c))%N ds).
  destruct (to_digit c) as [d|] eqn:Hd; simpl in *.
  - destruct (N.ltb_spec 255 (acc * 10)); [split; [done|naive_solver lia]|].
    destruct (N.ltb_spec 255 (acc * 10 + d)); [split; [done|naive_solver lia]|].
    rewrite IH by done. split; [|naive_solver].
    intros (? & ? & ?). split_and!; eauto.
  - split; [done|]. intros ([[? ?] _] & _). done.
Qed.

Lemma to_digit_sign c : c = x2b ∨ c = x2d → to_digit c = None.
Proof. by intros [->| ->]. Qed.

(** The parser accepts exactly an optional [+] and a non-empty string of digits
    whose value fits a byte. *)
Lemma parse_u8_Ok s n :
  parse_u8 s = Ok n ↔
  ∃ ds, (s = ds ∨ s = x2b :: ds) ∧ ds ≠ [] ∧ all_digits ds
        ∧ dec_value 0 ds = n ∧ (n ≤ 255)%N.
Proof.
  assert (∀ c ds, c = x2b ∨ c = x2d → ¬ all_digits (c :: ds)) as Hsign.
  { intros c ds Hc Hall. apply list.Forall_cons in Hall as [[? Hd] _].
    by rewrite to_digit_sign in Hd. }
  unfold parse_u8. destruct s as [|c [|c' s]].
  - split; [done|]. intros (ds & [<-|?] & ? & _); done.
  - case_decide as Hc.
    + split; [done|]. intros (ds & [<-|[= -> <-]] & ? & Hd & _); [|done].
      by destruct (Hsign c [] Hc).
    + rewrite parse_u8_digits_Ok by done. split; [intros; exists [c]; naive_solver|].
      intros (ds & [<-|[= -> <-]] & ? & Hd & ?); naive_solver.
  - case_decide as Hc; [subst|]; rewrite parse_u8_digits_Ok by done.
    + split; [intros; exists (c' :: s); naive_solver|].
      intros (ds & [<-|[= <-]] & ? & Hd & ?); [|naive_solver].
      destruct (Hsign x2b (c' :: s)); auto.
    + split; [intros; exists (c :: c' :: s); naive_solver|].
      intros (ds & [<-|[= -> <-]] & ? & Hd & ?); naive_solver.
Qed.

(** Accepted text is ASCII, so it is valid UTF-8. *)
Lemma all_digits_ascii ds : all_digits ds → Forall is_ascii ds.
Proof.
  apply Forall_impl. intros c [d Hd]. unfold to_digit, is_ascii, in_range in *.
  destruct (N.leb_spec 48 (bn c)), (N.leb_spec (bn c) 57); simplify_eq/=.
  destruct (N.leb_spec 0 (bn c)), (N.leb_spec (bn c) 127); simpl; done || lia.
Qed.

(** ** UTF-8 and concatenation *)

(** A valid string starts with one complete character, which can be put in front of
    any string without changing its validity. *)
Lemma utf8_valid_first a :
  utf8_valid a = true → a ≠ [] →
  ∃ c r, a = c ++ r ∧ c ≠ [] ∧ utf8_valid r = true ∧ ∀ s, utf8_valid (c ++ s) = utf8_valid s.
Proof.
  intros Ha Hne. destruct a as [|b0 a]; [done|]. cbn [utf8_valid] in Ha.
  destruct (in_range 0 127 b0) eqn:R0.
  { exists [b0], a. split_and!; try done. intros s. simpl. by rewrite R0. }
  destruct a as [|b1 a]; [done|]. destruct (in_range 194 223 b0) eqn:R1.
  { apply andb_true_iff in Ha as [C1 Ha]. exists [b0; b1], a. split_and!; try done.
    intros s. simpl. by rewrite R0, R1, C1. }
  destruct a as [|b2 a]; [done|]. destruct (in_range 224 239 b0) eqn:R2.
  { rewrite !andb_true_iff in Ha. destruct Ha as [[C1 C2] Ha].
    exists [b0; b1; b2], a. split_and!; try done.
    intros s. simpl. by rewrite R0, R1, R2, C1, C2. }
  destruct a as [|b3 a]; [done|]. rewrite !andb_true_iff in Ha.
  destruct Ha as [[[[C0 C1] C2] C3] Ha]. exists [b0; b1; b2; b3], a. split_and!; try done.
  intros s. simpl. by rewrite R0, R1, R2, C0, C1, C2, C3.
Qed.

Lemma utf8_valid_app a b : utf8_valid a = true → utf8_valid (a ++ b) = utf8_valid b.
Proof.
  remember (length a) as n eqn:Hn. revert a Hn.
  induction (lt_wf n) as [n _ IH]. intros a -> Ha. destruct a as [|b0 a]; [done|].
  destruct (utf8_valid_first (b0 :: a) Ha) as (c & r & Heq & Hc & Hr & Hs); [done|].
  rewrite Heq, <- app_assoc, Hs. eapply (IH (length r)); [|done..].
  rewrite Heq, length_app. destruct c; simpl; [done|lia].
Qed.
