(* ===== verification/Headers.v ===== *)
(** * Headers: header maps and [grpc/headers.rs]

    [HeaderMap] is the interface of [http::HeaderMap] the proxy uses (the crate is not
    part of the repository): its operations are a class, what the crate documents
    about them is [HeaderMapLaws], and [hlist] is a concrete instance. Two header maps
    that answer every lookup alike are equivalent ([≡ₕ]); the operations respect that
    equivalence.

    [make_vary_headers_set] and [find_strip_headers] are the functions of
    [grcache-proxy/src/grpc/headers.rs]; [strip_headers] is the loop of
    [request_filter] that removes what [find_strip_headers] returns. *)

From stdpp Require Import gmap strings list.
From Stdlib Require Import Strings.Byte.
From S2P Require Import Prelude Text.

(** ** Pingora errors *)

(** [pingora::ErrorType], the variants the proxy raises. *)
Inductive ErrorType :=
| HTTPStatus (code : Z)
| InvalidHTTPHeader
| ReadError.

(** [pingora::Error]: its type and its context message. *)
Record PError := mkPError { etype : ErrorType; econtext : bytes }.

#[global] Instance ErrorType_eq_dec : EqDecision ErrorType.
Proof. solve_decision. Defined.
#[global] Instance PError_eq_dec : EqDecision PError.
Proof. solve_decision. Defined.

(** ** The header map interface *)

(** Bytes of a header value: [HeaderValue] holds neither control characters other
    than the tab, nor DEL. *)
Definition header_value_byte (b : byte) : bool :=
  (0x20 <=? bn b)%N && negb (bn b =? 0x7F)%N || (bn b =? 0x09)%N.

(** Visible ASCII: what [HeaderValue::to_str] accepts. *)
Definition visible_ascii (b : byte) : bool :=
  in_range 0x20 0x7E b || (bn b =? 0x09)%N.

Class HeaderMap (H : Type) := {
  (** [keys()]: every name once, in lower case. *)
  hm_keys : H → list bytes;
  (** [get_all(name).iter()]: the values of a name, in order. *)
  hm_get_all : H → bytes → list bytes;
  (** [remove_header(name)]. *)
  hm_remove : H → bytes → H;
  (** [HeaderValue::to_str]. *)
  hv_to_str : bytes → option bytes;
}.
#[global] Hint Mode HeaderMap ! : typeclass_instances.

Class HeaderMapLaws (H : Type) `{!HeaderMap H} : Prop := {
  hm_keys_NoDup (h : H) : NoDup (hm_keys h);
  hm_keys_spec (h : H) k : k ∈ hm_keys h ↔ lower k = k ∧ hm_get_all h k ≠ [];
  hm_get_all_lower (h : H) k : hm_get_all h (lower k) = hm_get_all h k;
  hm_get_all_remove (h : H) k k' :
    hm_get_all (hm_remove h k) k' =
    if decide (lower k = lower k') then [] else hm_get_all h k';
  hm_values (h : H) k v : v ∈ hm_get_all h k → Forall header_value_byte v;
  hv_to_str_spec v : hv_to_str (H:=H) v = if forallb visible_ascii v then Some v else None;
}.

(** [get(name)]: the first value. *)
Definition hm_get {H} `{HeaderMap H} (h : H) (k : bytes) : option bytes :=
  head (hm_get_all h k).

(** ** [make_vary_headers_set] *)

(** [http::header::ToStrError]. *)
Inductive ToStrError := mkToStrError.

(** [collect::<Result<BTreeSet<_>, _>>()]: the first error, or the set. *)
Fixpoint collect_set {E} (l : list (outcome E bytes)) : outcome E (gset bytes) :=
  match l with
  | [] => Ok ∅
  | r :: l' => x ← r; s ← collect_set l'; Ok ({[x]} ∪ s)
  end.

Section ops.
Context {H : Type} `{!HeaderMap H}.

(** The [flat_map] of the source: [Result::into_iter] of an [Err] yields nothing, and
    every piece that is left is wrapped in [Ok]. *)
Definition vary_items (headers : H) : list (outcome ToStrError bytes) :=
  flat_map (λ v, match hv_to_str (H:=H) v with
                 | Some i => Ok <$> split_byte x2c i
                 | None => []
                 end) (hm_get_all headers (lit "vary")).

Definition make_vary_headers_set (headers : H) : outcome PError (gset bytes) :=
  map_err (λ _, mkPError InvalidHTTPHeader (lit "invalid vary header"))
    (collect_set (map (fmap (M:=outcome ToStrError) trim) (vary_items headers))).

(** ** [find_strip_headers] *)

Definition CORE_HEADERS : list bytes :=
  [lit "host"; lit "content-type"; lit "te"; lit "vary"; lit "user-agent"].

Definition keep_header (vary_set propagation_set : gset bytes) (key_str : bytes) : bool :=
  bool_decide (key_str ∈ CORE_HEADERS) || bool_decide (key_str ∈ vary_set)
  || bool_decide (key_str ∈ propagation_set).

Definition find_strip_headers (req_headers : H)
    (vary_set propagation_set : gset bytes) : list bytes :=
  List.filter (λ key_str, negb (keep_header vary_set propagation_set key_str))
    (hm_keys req_headers).

(** The loop of [request_filter]: remove every header found. *)
Definition strip_headers (headers : H) (vary_set propagation_set : gset bytes) : H :=
  foldl hm_remove headers (find_strip_headers headers vary_set propagation_set).

(** ** Observational equivalence *)

Definition hm_equiv (h1 h2 : H) : Prop := ∀ k, hm_get_all h1 k = hm_get_all h2 k.
End ops.

Infix "≡ₕ" := hm_equiv (at level 70, no associativity) : grcache_scope.

#[global] Instance hm_equiv_equivalence `{!HeaderMap H} : Equivalence (hm_equiv (H:=H)).
Proof. split; unfold hm_equiv; repeat intro; congruence. Qed.

(** ** A concrete header map: the list of fields *)

Abbreviation hlist := (list (bytes * bytes)).

Definition hlist_get_all (h : hlist) (k : bytes) : list bytes :=
  snd <$> List.filter (λ p, bool_decide (lower p.1 = lower k)
                            && forallb header_value_byte p.2) h.

Definition hlist_keys (h : hlist) : list bytes :=
  remove_dups (lower ∘ fst <$> List.filter (λ p, forallb header_value_byte p.2) h).

#[global] Instance hlist_HeaderMap : HeaderMap hlist := {|
  hm_keys := hlist_keys;
  hm_get_all := hlist_get_all;
  hm_remove h k := List.filter (λ p, negb (bool_decide (lower p.1 = lower k))) h;
  hv_to_str v := if forallb visible_ascii v then Some v else None;
|}.

Lemma elem_of_list_filter_bool {A} (f : A → bool) (l : list A) x :
  x ∈ List.filter f l ↔ x ∈ l ∧ f x = true.
Proof. by rewrite !list_elem_of_In, filter_In. Qed.

Lemma elem_of_hlist_get_all (h : hlist) k v :
  v ∈ hlist_get_all h k ↔
  ∃ n, (n, v) ∈ h ∧ lower n = lower k ∧ forallb header_value_byte v = true.
Proof.
  unfold hlist_get_all. rewrite list_elem_of_fmap. split.
  - intros ([n v'] & -> & Hin). apply elem_of_list_filter_bool in Hin as [? Hb].
    apply andb_true_iff in Hb as [Hn ?]. apply bool_decide_eq_true in Hn. eauto.
  - intros (n & ? & ? & ?). exists (n, v). split; [done|].
    apply elem_of_list_filter_bool. split; [done|]. simpl.
    by rewrite andb_true_iff, bool_decide_eq_true.
Qed.

Lemma hlist_get_all_remove (h : hlist) k k' :
  hlist_get_all (hm_remove h k) k' =
  if decide (lower k = lower k') then [] else hlist_get_all h k'.
Proof.
  unfold hlist_get_all. simpl. induction h as [|[n v] h IH]; simpl.
  { by case_decide. }
  destruct (bool_decide_reflect (lower n = lower k)) as [Hn|Hn]; simpl.
  - rewrite IH. case_decide; [done|]. by rewrite bool_decide_eq_false_2 by congruence.
  - destruct (bool_decide_reflect (lower n = lower k')) as [Hn'|Hn']; simpl; [|done].
    rewrite (decide_False (P:=lower k = lower k')) in * by congruence.
    destruct (forallb header_value_byte v); simpl; [|done]. by f_equal.
Qed.

Lemma not_nil_elem {A} (l : list A) : l ≠ [] ↔ ∃ v, v ∈ l.
Proof. destruct l as [|a l]; split; [done| |set_solver|done]. by intros [v ?%elem_of_nil]. Qed.

Lemma elem_of_hlist_keys (h : hlist) k :
  k ∈ hlist_keys h ↔ lower k = k ∧ hlist_get_all h k ≠ [].
Proof.
  rewrite not_nil_elem. unfold hlist_keys.
  rewrite elem_of_remove_dups, list_elem_of_fmap.
  setoid_rewrite elem_of_hlist_get_all. split.
  - intros ([n v] & -> & [Hin ?]%elem_of_list_filter_bool). simpl.
    rewrite !lower_idemp. split; [done|]. by exists v, n.
  - intros (Hk & v & n & ? & Hn & ?). exists (n, v). simpl. split; [congruence|].
    by apply elem_of_list_filter_bool.
Qed.

#[global] Instance hlist_HeaderMapLaws : HeaderMapLaws hlist.
Proof.
  split.
  - intros h. apply NoDup_remove_dups.
  - apply elem_of_hlist_keys.
  - intros h k. simpl. unfold hlist_get_all. by rewrite lower_idemp.
  - apply hlist_get_all_remove.
  - intros h k v (n & _ & _ & Hv)%elem_of_hlist_get_all. apply Forall_forall.
    intros b Hb. rewrite forallb_forall in Hv. apply Is_true_true, Hv.
    by apply list_elem_of_In.
  - done.
Qed.

(** ** Properties *)

Section laws.
Context {H : Type} `{HeaderMapLaws H}.
Implicit Types (h : H) (vs ps : gset bytes) (k : bytes).

Lemma hm_get_all_same k k' h : lower k = lower k' → hm_get_all h k = hm_get_all h k'.
Proof. intros Hk. by rewrite <- hm_get_all_lower, Hk, hm_get_all_lower. Qed.

#[global] Instance hm_remove_proper : Proper (hm_equiv ==> (=) ==> hm_equiv) (hm_remove (H:=H)).
Proof. intros h1 h2 Hh k ? <- k'. by rewrite !hm_get_all_remove, Hh. Qed.

#[global] Instance hm_get_proper : Proper (hm_equiv ==> (=) ==> (=)) (hm_get (H:=H)).
Proof. intros h1 h2 Hh k ? <-. unfold hm_get. by rewrite Hh. Qed.

Lemma hm_keys_equiv h1 h2 k : h1 ≡ₕ h2 → k ∈ hm_keys h1 ↔ k ∈ hm_keys h2.
Proof. intros Hh. by rewrite !hm_keys_spec, Hh. Qed.

Lemma get_all_foldl_remove ks h k :
  hm_get_all (foldl hm_remove h ks) k =
  if bool_decide (lower k ∈ lower <$> ks) then [] else hm_get_all h k.
Proof.
  revert h. induction ks as [|k0 ks IH]; intros h; simpl; [done|].
  rewrite IH, hm_get_all_remove.
  destruct (bool_decide_reflect (lower k ∈ lower <$> ks)).
  - by rewrite bool_decide_eq_true_2 by set_solver.
  - case_decide.
    + by rewrite bool_decide_eq_true_2 by set_solver.
    + by rewrite bool_decide_eq_false_2 by set_solver.
Qed.

Lemma keep_header_true vs ps k :
  keep_header vs ps k = true ↔ k ∈ CORE_HEADERS ∨ k ∈ vs ∨ k ∈ ps.
Proof. unfold keep_header. rewrite !orb_true_iff, !bool_decide_eq_true. tauto. Qed.

Lemma elem_of_find_strip_headers h vs ps k :
  k ∈ find_strip_headers h vs ps ↔ k ∈ hm_keys h ∧ keep_header vs ps k = false.
Proof.
  unfold find_strip_headers. by rewrite elem_of_list_filter_bool, negb_true_iff.
Qed.

(** What is left of a header after stripping: all its values when its lower-case
    name is kept, nothing otherwise. *)
Lemma get_all_strip_headers h vs ps k :
  hm_get_all (strip_headers h vs ps) k =
  if keep_header vs ps (lower k) then hm_get_all h k else [].
Proof.
  unfold strip_headers. rewrite get_all_foldl_remove.
  assert (∀ k', k' ∈ find_strip_headers h vs ps → lower k' = k') as Hlow.
  { intros k' [Hk _]%elem_of_find_strip_headers. by apply hm_keys_spec in Hk as [? _]. }
  assert (lower k ∈ lower <$> find_strip_headers h vs ps
          ↔ lower k ∈ find_strip_headers h vs ps) as Hiff.
  { rewrite list_elem_of_fmap. split.
    - intros (k' & Heq & Hk'). by rewrite Heq, (Hlow k') .
    - intros Hk. exists (lower k). by rewrite lower_idemp. }
  destruct (bool_decide_reflect (lower k ∈ lower <$> find_strip_headers h vs ps)) as [Hin|Hin];
    rewrite Hiff, elem_of_find_strip_headers in Hin.
  - by destruct Hin as [_ ->].
  - destruct (keep_header vs ps (lower k)) eqn:Hkeep; [done|].
    destruct (hm_get_all h k) as [|v l] eqn:Hget; [done|].
    exfalso. apply Hin. split; [|done]. apply hm_keys_spec.
    by rewrite lower_idemp, hm_get_all_lower, Hget.
Qed.

Lemma collect_set_Ok {E} (l : list bytes) :
  collect_set (E:=E) (Ok <$> l) = Ok (list_to_set l).
Proof.
  induction l as [|x l IH]; [done|]. rewrite fmap_cons. cbn [collect_set].
  by rewrite IH.
Qed.

(** The pieces the pipeline collects, without the [Ok] around each of them. *)
Definition vary_pieces (headers : H) : list bytes :=
  flat_map (λ v, if forallb visible_ascii v then split_byte x2c v else [])
    (hm_get_all headers (lit "vary")).

Lemma vary_items_Ok h : vary_items h = Ok <$> vary_pieces h.
Proof.
  unfold vary_items, vary_pieces.
  induction (hm_get_all h (lit "vary")) as [|v l IH]; [done|].
  cbn [flat_map]. rewrite fmap_app, IH, hv_to_str_spec.
  by destruct (forallb visible_ascii v).
Qed.

Lemma make_vary_headers_set_eq h :
  make_vary_headers_set h = Ok (list_to_set (trim <$> vary_pieces h)).
Proof.
  unfold make_vary_headers_set. rewrite vary_items_Ok.
  assert (∀ l, map (fmap (M:=outcome ToStrError) trim) (Ok <$> l) = Ok <$> (trim <$> l)) as ->.
  { induction l as [|x l IH]; [done|]. by rewrite !fmap_cons, <- IH. }
  by rewrite collect_set_Ok.
Qed.

Lemma elem_of_vary_pieces h x :
  x ∈ vary_pieces h ↔ ∃ v, v ∈ hm_get_all h (lit "vary")
    ∧ forallb visible_ascii v = true ∧ x ∈ split_byte x2c v.
Proof.
  unfold vary_pieces. rewrite list_elem_of_In, in_flat_map. split.
  - intros (v & Hv & Hx). exists v. rewrite list_elem_of_In.
    destruct (forallb visible_ascii v); [|done]. by rewrite list_elem_of_In.
  - intros (v & Hv & Hvis & Hx). exists v. rewrite <- !list_elem_of_In. by rewrite Hvis.
Qed.

#[global] Instance make_vary_headers_set_proper :
  Proper (hm_equiv ==> (=)) (make_vary_headers_set (H:=H)).
Proof.
  intros h1 h2 Hh. rewrite !make_vary_headers_set_eq. unfold vary_pieces. by rewrite Hh.
Qed.

Lemma elem_of_split_byte sep s p c : p ∈ split_byte sep s → c ∈ p → c ∈ s.
Proof.
  intros Hp Hc. rewrite <- (join_split sep s). revert Hp.
  generalize (split_byte sep s) as ps.
  induction ps as [|q [|q' ps] IH]; [set_solver..|]. rewrite join_cons. set_solver.
Qed.

(** Every name of a vary set is visible ASCII, so it holds no NUL byte. *)
Lemma vary_set_visible h s x :
  make_vary_headers_set h = Ok s → x ∈ s → Forall visible_ascii x.
Proof.
  rewrite make_vary_headers_set_eq. intros [= <-].
  rewrite elem_of_list_to_set, list_elem_of_fmap.
  intros (p & -> & (v & _ & Hvis & Hp)%elem_of_vary_pieces).
  rewrite forallb_forall in Hvis. apply Forall_forall. intros c Hc%elem_of_trim.
  apply Is_true_true, Hvis, list_elem_of_In. by eapply elem_of_split_byte.
Qed.

(** [make_vary_headers_set] never fails: it returns exactly the comma-separated
    pieces, with surrounding white space removed, of those [vary] values that are
    visible ASCII. A [vary] value that is not is skipped, so the
    [InvalidHTTPHeader] error of the source is never raised. *)
Theorem make_vary_headers_set_total h :
  ∃ s, make_vary_headers_set h = Ok s ∧
  ∀ x, x ∈ s ↔ ∃ v p, v ∈ hm_get_all h (lit "vary")
    ∧ forallb visible_ascii v = true ∧ p ∈ split_byte x2c v ∧ x = trim p.
Proof.
  eexists. split; [apply make_vary_headers_set_eq|]. intros x.
  rewrite elem_of_list_to_set, list_elem_of_fmap. setoid_rewrite elem_of_vary_pieces.
  naive_solver.
Qed.

(** C25: Protection against cache leaks. Whatever else two requests carry, when they
    agree on the core headers, the headers they declare in [vary] and the propagated
    ones, the header maps sent upstream after stripping cannot be told apart; and no
    header outside these three groups is left in them. *)
Theorem strip_headers_no_leak h1 h2 vs ps :
  (∀ k, k ∈ CORE_HEADERS ∨ k ∈ vs ∨ k ∈ ps → hm_get_all h1 k = hm_get_all h2 k) →
  strip_headers h1 vs ps ≡ₕ strip_headers h2 vs ps
  ∧ ∀ k, hm_get_all (strip_headers h1 vs ps) k ≠ [] →
      lower k ∈ CORE_HEADERS ∨ lower k ∈ vs ∨ lower k ∈ ps.
Proof.
  intros Hagree. split; intros k; rewrite !get_all_strip_headers;
    destruct (keep_header vs ps (lower k)) eqn:Hk; try done;
    apply keep_header_true in Hk; [|done].
  rewrite <- (hm_get_all_lower h1), <- (hm_get_all_lower h2). by apply Hagree.
Qed.

(** The membership test of [find_strip_headers] is case-sensitive while header
    maps hold lower-case names: a header whose only spelling in [vary] has an
    upper-case letter is removed from the request, although it was declared to vary. *)
Theorem vary_name_with_upper_case_is_stripped h vs ps n :
  n ∈ vs →
  lower n ∉ vs →
  lower n ∉ CORE_HEADERS →
  lower n ∉ ps →
  hm_get_all (strip_headers h vs ps) n = [].
Proof.
  intros _ Hv Hc Hp. rewrite get_all_strip_headers.
  destruct (keep_header vs ps (lower n)) eqn:Hk; [|done].
  apply keep_header_true in Hk. tauto.
Qed.
End laws.

(** ** Witnesses *)

Definition hdr (n v : string) : bytes * bytes := (lit n, lit v).

(** A request that varies on its tenant and carries a session cookie. *)
Definition sample_headers : hlist :=
  [hdr "host" "api"; hdr "Vary" "x-tenant, accept"; hdr "X-Tenant" "a"; hdr "cookie" "s=1"].

Definition sample_vary : gset bytes := {[lit "x-tenant"; lit "accept"]}.

(** Evaluate [make_vary_headers_set] at a concrete list of fields. *)
Lemma make_vary_headers_set_eval (h : hlist) (l : list bytes) :
  (trim <$> vary_pieces h) = l → make_vary_headers_set h = Ok (list_to_set l).
Proof. intros <-. apply make_vary_headers_set_eq. Qed.

Example sample_vary_set : make_vary_headers_set sample_headers = Ok sample_vary.
Proof.
  rewrite (make_vary_headers_set_eval _ [lit "x-tenant"; lit "accept"]) by reflexivity.
  apply (f_equal Ok). unfold sample_vary. set_solver.
Qed.

Lemma make_vary_headers_set_total_witness :
  ∃ s, make_vary_headers_set sample_headers = Ok s ∧ lit "accept" ∈ s.
Proof.
  destruct (make_vary_headers_set_total sample_headers) as (s & Hs & Hmem).
  exists s. split; [exact Hs|]. apply Hmem.
  exists (lit "x-tenant, accept"), (lit " accept"). split_and!.
  - apply list_elem_of_In. vm_compute. auto.
  - reflexivity.
  - apply list_elem_of_In. vm_compute. auto.
  - reflexivity.
Defined.

(** The cookie differs and is gone, the tenant and the host are kept. *)
Lemma strip_headers_no_leak_witness :
  strip_headers sample_headers sample_vary ∅
  ≡ₕ strip_headers (hdr "Cookie" "s=2" :: take 3 sample_headers) sample_vary ∅.
Proof.
  apply strip_headers_no_leak. intros k Hk. unfold sample_vary, CORE_HEADERS in Hk.
  rewrite !elem_of_union, !elem_of_singleton, elem_of_empty in Hk.
  rewrite !elem_of_cons, elem_of_nil in Hk.
  destruct_or?; subst; vm_compute; reflexivity || done.
Defined.

Lemma vary_name_with_upper_case_is_stripped_witness :
  make_vary_headers_set [hdr "vary" "X-Tenant"; hdr "x-tenant" "a"] = Ok {[lit "X-Tenant"]}
  ∧ hm_get_all (strip_headers [hdr "vary" "X-Tenant"; hdr "x-tenant" "a"]
                  {[lit "X-Tenant"]} ∅) (lit "X-Tenant") = [].
Proof.
  split.
  { rewrite (make_vary_headers_set_eval _ [lit "X-Tenant"]) by reflexivity.
    apply (f_equal Ok). set_solver. }
  apply vary_name_with_upper_case_is_stripped; by apply (bool_decide_unpack _); vm_compute.
Defined.
