(* ===== verification/Hash.v ===== *)
(** * Hash: [grpc/hash.rs], what goes into the cache key digest

    [hash_vary] and [hash_body] feed a BLAKE2b-128 hasher. The hasher is the interface
    [Digest] (the crate is not part of the repository): [update] absorbs data, and
    absorbing two strings one after the other is absorbing their concatenation.

    The main result is that what is fed to the hasher determines the request: its vary
    set, the combined value of every header in it, its path and its body. *)

From stdpp Require Import gmap strings list.
From Stdlib Require Import Strings.Byte.
From S2P Require Import Prelude Text Headers.

(** ** The hasher interface *)

Class Digest (D : Type) := {
  d_new : D;
  d_update : D → bytes → D;
  d_finalize : D → bytes;
}.
#[global] Hint Mode Digest ! : typeclass_instances.

Class DigestLaws (D : Type) `{!Digest D} : Prop := {
  d_update_app (d : D) a b : d_update (d_update d a) b = d_update d (a ++ b);
  d_update_nil (d : D) : d_update d [] = d;
}.

(** [pingora::http::RequestHeader]: what the proxy reads of it. *)
Record RequestHeader (H : Type) := mkRequestHeader {
  (** Scheme and authority of the URI, which HTTP/2 requests carry in pseudo-headers. *)
  uri_origin : bytes;
  (** The path with its query. *)
  raw_path : bytes;
  rh_headers : H;
}.
Arguments mkRequestHeader {H}.
Arguments uri_origin {H}.
Arguments raw_path {H}.
Arguments rh_headers {H}.

(** The whole URI of a request. *)
Definition uri {H} (r : RequestHeader H) : bytes := uri_origin r ++ raw_path r.

(** [s.len().to_le_bytes()]. *)
Definition len_le (s : bytes) : bytes := usize_le (Z.of_nat (length s)).

(** [itertools::intersperse]. *)
Fixpoint intersperse {A} (sep : A) (l : list A) : list A :=
  match l with
  | [] => []
  | [x] => [x]
  | x :: l' => x :: sep :: intersperse sep l'
  end.

Section hash.
Context {H D : Type} `{!HeaderMap H, !Digest D}.

(** One round of the loop over the values of a header. *)
Definition hash_value (hasher : D) (value : option bytes) : D :=
  match value with
  | None => d_update hasher (lit ", ")
  | Some value => d_update hasher value
  end.

Definition hash_vary (hasher : D) (vary_set : gset bytes) (headers : H) : D :=
  foldl (λ hasher vary_header,
    let hasher := d_update hasher vary_header in
    let hasher := d_update hasher [x00] in
    let values := hm_get_all headers vary_header in
    let hasher := foldl hash_value hasher (intersperse None (Some <$> values)) in
    d_update hasher [x00; x00]) hasher (btree_iter vary_set).

Definition hash_body (hasher : D) (header : RequestHeader H) (body : bytes) : D :=
  let hasher := d_update hasher (len_le (raw_path header)) in
  let hasher := d_update hasher (raw_path header) in
  let hasher := d_update hasher (len_le body) in
  d_update hasher body.

(** The digest [cache_key_callback] computes. *)
Definition key_digest (vary_set : gset bytes) (header : RequestHeader H)
    (body : bytes) : bytes :=
  d_finalize (hash_body (hash_vary d_new vary_set (rh_headers header)) header body).

(** ** The bytes that are hashed *)

(** The vary set with the combined value of each header. *)
Definition vary_entries (vary_set : gset bytes) (headers : H) : list (bytes * bytes) :=
  (λ n, (n, join (lit ", ") (hm_get_all headers n))) <$> btree_iter vary_set.

Definition entry_bytes (e : bytes * bytes) : bytes := e.1 ++ [x00] ++ e.2 ++ [x00; x00].

Definition entries_bytes (l : list (bytes * bytes)) : bytes := concat (entry_bytes <$> l).

Definition body_bytes (path body : bytes) : bytes :=
  len_le path ++ path ++ len_le body ++ body.

Definition key_preimage (vary_set : gset bytes) (header : RequestHeader H)
    (body : bytes) : bytes :=
  entries_bytes (vary_entries vary_set (rh_headers header))
  ++ body_bytes (raw_path header) body.

Context `{!DigestLaws D}.

Lemma foldl_hash_value d values :
  foldl hash_value d (intersperse None (Some <$> values))
  = d_update d (join (lit ", ") values).
Proof.
  revert d. induction values as [|v [|v' vs] IH]; intros d.
  - simpl. by rewrite d_update_nil.
  - done.
  - rewrite join_cons. change (intersperse None (Some <$> v :: v' :: vs))
      with (Some v :: None :: intersperse None (Some <$> v' :: vs)).
    cbn [foldl hash_value]. by rewrite IH, !d_update_app, app_assoc.
Qed.

Lemma hash_vary_preimage d vs (h : H) :
  hash_vary d vs h = d_update d (entries_bytes (vary_entries vs h)).
Proof.
  unfold hash_vary, entries_bytes, vary_entries. revert d.
  induction (btree_iter vs) as [|n l IH]; intros d; simpl.
  - by rewrite d_update_nil.
  - rewrite foldl_hash_value, IH, !d_update_app. f_equal.
    unfold entry_bytes. by rewrite <- !app_assoc.
Qed.

(** The whole computation absorbs exactly [key_preimage]. *)
Lemma key_digest_preimage vs (header : RequestHeader H) body :
  key_digest vs header body
  = d_finalize (d_update (D:=D) d_new (key_preimage vs header body)).
Proof.
  unfold key_digest, hash_body, key_preimage, body_bytes.
  by rewrite hash_vary_preimage, !d_update_app, !app_assoc.
Qed.
End hash.

Arguments key_digest {H} D {_ _} vary_set header body.

(** ** Decoding: the preimage determines the request *)

(** Two texts that hold no NUL and are followed by a NUL. *)
Lemma nul_split (a b r s : bytes) :
  x00 ∉ a → x00 ∉ b → a ++ x00 :: r = b ++ x00 :: s → a = b ∧ r = s.
Proof.
  revert b. induction a as [|c a IH]; intros [|d b] Ha Hb Heq; simplify_eq/=.
  - done.
  - set_solver.
  - set_solver.
  - destruct (IH b) as [-> ->]; [set_solver..|done|done].
Qed.

(** Entries whose names and values hold no NUL, with an empty name at most first. *)
Definition no_nul (e : bytes * bytes) : Prop := x00 ∉ e.1 ∧ x00 ∉ e.2.

Definition good_entries (l : list (bytes * bytes)) : Prop :=
  Forall no_nul l ∧ Forall (λ e, e.1 ≠ []) (tail l).

Definition small_path (p : bytes) : Prop := (0 < Z.of_nat (length p) < 65536)%Z.

Lemma usize_le_small z :
  (0 < z < 65536)%Z → ∃ b0 b1,
  usize_le z = [b0; b1; x00; x00; x00; x00; x00; x00] ∧ ¬ (b0 = x00 ∧ b1 = x00).
Proof.
  intros Hz. exists (byte_of_Z z), (byte_of_Z (z / 256)). split.
  - unfold usize_le. cbn [le_bytes].
    assert (z / 256 / 256 = 0)%Z as -> by (rewrite Z.div_div by lia; apply Z.div_small; lia).
    done.
  - intros [H0 H1]. apply (f_equal bn) in H0, H1. rewrite bn_byte_of_Z in H0, H1.
    assert (0 ≤ z / 256 < 256)%Z.
    { split; [apply Z.div_pos; lia|apply Z.div_lt_upper_bound; lia]. }
    rewrite (Z.mod_small (z / 256)) in H1 by lia.
    pose proof (Z.mod_pos_bound z 256). pose proof (Z.div_mod z 256).
    change (bn x00) with 0%N in *. lia.
Qed.

(** What follows an entry never starts with two NUL bytes. *)
Lemma rest_not_nul_nul l p b s :
  Forall no_nul l → Forall (λ e, e.1 ≠ []) l → small_path p →
  entries_bytes l ++ body_bytes p b ≠ x00 :: x00 :: s.
Proof.
  intros Hn Hne Hp Heq. destruct l as [|[n v] l].
  - destruct (usize_le_small (Z.of_nat (length p))) as (b0 & b1 & Hb & Hnz);
      [done|].
    unfold body_bytes, len_le in Heq. rewrite Hb in Heq. simplify_eq/=. auto.
  - apply list.Forall_cons in Hn as [[Hn _] _]. apply list.Forall_cons in Hne as [Hne _].
    simpl in *. destruct n as [|c n]; [done|]. simplify_eq/=. set_solver.
Qed.

(** Neither can the path length be read as an entry. *)
Lemma body_not_entry l e p b p' b' :
  good_entries (e :: l) → small_path p → small_path p' →
  body_bytes p b ≠ entries_bytes (e :: l) ++ body_bytes p' b'.
Proof.
  intros [Hn Hne] Hp Hp' Heq. apply list.Forall_cons in Hn as [[Hn Hv] Hl]. simpl in Hne.
  pose proof (λ s, rest_not_nul_nul l p' b' s Hl Hne Hp') as Hrest.
  destruct (usize_le_small (Z.of_nat (length p))) as (b0 & b1 & Hb & Hnz);
      [done|].
  unfold body_bytes at 1, len_le at 1 in Heq. rewrite Hb in Heq.
  change (entries_bytes (e :: l)) with (entry_bytes e ++ entries_bytes l) in Heq.
  unfold entry_bytes in Heq. rewrite <- !app_assoc in Heq. cbn [app] in Heq.
  revert Heq. generalize dependent (entries_bytes l ++ body_bytes p' b').
  intros R HR Heq. set (r := p ++ _) in Heq. clearbody r.
  (* find the NUL that ends the name, then the one that ends the value *)
  assert (∀ a w : bytes, x00 ∉ a → x00 ∉ w → ∀ r', 
    a ++ x00 :: w ++ x00 :: x00 :: x00 :: x00 :: r'
    = e.1 ++ x00 :: e.2 ++ x00 :: x00 :: R → False) as Hdec.
  { intros a w Ha Hw r' Hd. apply nul_split in Hd as [_ Hd]; [|done..].
    apply nul_split in Hd as [_ Hd]; [|done..]. simplify_eq/=. by eapply HR. }
  destruct (decide (b0 = x00)) as [->|H0], (decide (b1 = x00)) as [->|H1]; [tauto|..].
  - eapply (Hdec [] [b1]); [set_solver..|]. exact Heq.
  - eapply (Hdec [b0] []); [set_solver..|]. exact Heq.
  - eapply (Hdec [b0; b1] []); [set_solver..|]. exact Heq.
Qed.

Lemma good_entries_tail e l : good_entries (e :: l) → good_entries l.
Proof.
  intros [Hn Hne]. inversion_clear Hn. split; [done|]. simpl in Hne.
  by destruct l; [|inversion_clear Hne].
Qed.

Lemma entries_bytes_inj l1 l2 p1 p2 b1 b2 :
  good_entries l1 → good_entries l2 → small_path p1 → small_path p2 →
  entries_bytes l1 ++ body_bytes p1 b1 = entries_bytes l2 ++ body_bytes p2 b2 →
  l1 = l2 ∧ body_bytes p1 b1 = body_bytes p2 b2.
Proof.
  revert l2. induction l1 as [|e1 l1 IH]; intros [|e2 l2] G1 G2 P1 P2 Heq.
  - done.
  - by apply body_not_entry in Heq.
  - symmetry in Heq. by apply body_not_entry in Heq.
  - cbn [entries_bytes fmap list_fmap concat] in Heq.
    change (concat (entry_bytes <$> ?l)) with (entries_bytes l) in Heq.
    pose proof (proj1 G1) as [[Hn1 Hv1] _]%list.Forall_cons.
    pose proof (proj1 G2) as [[Hn2 Hv2] _]%list.Forall_cons.
    unfold entry_bytes in Heq. rewrite <- !app_assoc in Heq. cbn [app] in Heq.
    apply nul_split in Heq as [Hname Heq]; [|done..].
    apply nul_split in Heq as [Hval Heq]; [|done..]. injection Heq as Heq.
    destruct (IH l2) as [-> ?]; eauto using good_entries_tail.
    destruct e1, e2. simpl in *. by subst.
Qed.

Lemma bytes_le_nil (a : bytes) : bytes_le [] a.
Proof. by destruct a. Qed.

(** In sorted order, only the first name of a set can be empty. *)
Lemma btree_iter_tail_not_nil (s : gset bytes) :
  Forall (λ n, n ≠ []) (tail (btree_iter s)).
Proof.
  pose proof (btree_iter_sorted s) as Hs. pose proof (btree_iter_NoDup s) as Hd.
  destruct (btree_iter s) as [|a l]; simpl; [done|].
  inversion_clear Hs as [|?? _ Hle]. apply NoDup_cons in Hd as [Ha _].
  apply Forall_forall. intros n Hn ->. apply Ha.
  rewrite Forall_forall in Hle. specialize (Hle _ Hn).
  by rewrite (anti_symm bytes_le a []) by auto using bytes_le_nil.
Qed.

Lemma btree_iter_inj (s1 s2 : gset bytes) : btree_iter s1 = btree_iter s2 → s1 = s2.
Proof. intros Heq. apply set_eq. intros x. by rewrite <- !elem_of_btree_iter, Heq. Qed.

Lemma join_no_nul sep ps :
  x00 ∉ sep → Forall (λ p, x00 ∉ p) ps → x00 ∉ join sep ps.
Proof.
  intros Hsep. induction 1 as [|p [|q ps] Hp Hps IH]; [set_solver|done|].
  rewrite join_cons. set_solver.
Qed.

Lemma header_value_no_nul (v : bytes) : Forall header_value_byte v → x00 ∉ v.
Proof. rewrite Forall_forall. intros Hv Hin. by destruct (Hv _ Hin). Qed.

Lemma visible_no_nul (v : bytes) : Forall visible_ascii v → x00 ∉ v.
Proof. rewrite Forall_forall. intros Hv Hin. by destruct (Hv _ Hin). Qed.

Section requests.
Context {H : Type} `{HeaderMapLaws H}.

Lemma vary_entries_good (h : H) (vs : gset bytes) :
  (∀ n, n ∈ vs → x00 ∉ n) → good_entries (vary_entries vs h).
Proof.
  intros Hvs. unfold vary_entries. split.
  - apply Forall_fmap, Forall_forall. intros n Hn%elem_of_btree_iter. split; simpl; [auto|].
    apply join_no_nul; [by apply (bool_decide_unpack _)|].
    apply Forall_forall. intros v Hv%hm_values. by apply header_value_no_nul.
  - pose proof (btree_iter_tail_not_nil vs) as Ht.
    destruct (btree_iter vs); simpl in *; [done|]. by apply Forall_fmap.
Qed.

Lemma body_bytes_inj p1 p2 b1 b2 :
  small_path p1 → small_path p2 →
  (Z.of_nat (length b1) < 2 ^ 64)%Z → (Z.of_nat (length b2) < 2 ^ 64)%Z →
  body_bytes p1 b1 = body_bytes p2 b2 → p1 = p2 ∧ b1 = b2.
Proof.
  unfold body_bytes, len_le, small_path. intros Hp1 Hp2 Hb1 Hb2 Heq.
  apply app_inj_1 in Heq as [Hlen Heq]; [|by unfold usize_le; rewrite !length_le_bytes].
  apply usize_le_inj in Hlen; [|lia..].
  apply app_inj_1 in Heq as [-> Heq]; [|lia]. split; [done|].
  by apply app_inj_1 in Heq as [_ ->]; [|by unfold usize_le; rewrite !length_le_bytes].
Qed.

(** Requests whose vary names hold no NUL, as [make_vary_headers_set] yields them,
    with a non-empty path under 64 KiB and a body whose length is a [usize]. *)
Definition hashable (vs : gset bytes) (r : RequestHeader H) (body : bytes) : Prop :=
  (∀ n, n ∈ vs → x00 ∉ n) ∧ small_path (raw_path r) ∧ (Z.of_nat (length body) < 2 ^ 64)%Z.

(** The same request as far as the cache is concerned. *)
Definition same_request (vs1 vs2 : gset bytes) (r1 r2 : RequestHeader H)
    (body1 body2 : bytes) : Prop :=
  vs1 = vs2 ∧ raw_path r1 = raw_path r2 ∧ body1 = body2
  ∧ ∀ n, n ∈ vs1 → join (lit ", ") (hm_get_all (rh_headers r1) n)
                   = join (lit ", ") (hm_get_all (rh_headers r2) n).

Lemma key_preimage_same vs1 vs2 r1 r2 body1 body2 :
  hashable vs1 r1 body1 → hashable vs2 r2 body2 →
  key_preimage vs1 r1 body1 = key_preimage vs2 r2 body2 →
  same_request vs1 vs2 r1 r2 body1 body2.
Proof.
  intros (Hv1 & Hp1 & Hb1) (Hv2 & Hp2 & Hb2) Heq.
  apply entries_bytes_inj in Heq as [Hent Hbody]; auto using vary_entries_good.
  apply body_bytes_inj in Hbody as [Hpath ->]; [|done..].
  unfold vary_entries in Hent.
  assert (btree_iter vs1 = btree_iter vs2) as Hvs.
  { apply (f_equal (fmap fst)) in Hent. rewrite <- !list_fmap_compose in Hent.
    by rewrite !list_fmap_id in Hent. }
  rewrite Hvs in Hent. apply btree_iter_inj in Hvs as ->.
  split_and!; [done..|]. intros n Hn%elem_of_btree_iter.
  revert Hent. induction (btree_iter vs2) as [|m l IH]; intros Hent; [set_solver|].
  rewrite !fmap_cons in Hent. injection Hent as Hm Hl.
  apply elem_of_cons in Hn as [->|Hn]; [done|by apply IH].
Qed.

Lemma key_preimage_of_same vs1 vs2 r1 r2 body1 body2 :
  same_request vs1 vs2 r1 r2 body1 body2 →
  key_preimage vs1 r1 body1 = key_preimage vs2 r2 body2.
Proof.
  intros (-> & Hp & -> & Hval). unfold key_preimage. rewrite Hp. f_equal.
  unfold entries_bytes, vary_entries. do 2 f_equal. apply list_fmap_ext.
  intros i n Hn%list_elem_of_lookup_2. by rewrite Hval by (by apply elem_of_btree_iter).
Qed.

Context {D : Type} `{DigestLaws D}.

(** The digest separates requests. Two requests get the same digest exactly when
    they are the same request (vary set, combined value of every vary header, path
    and body), unless two different inputs of the hash function collide. *)
Theorem key_digest_separates vs1 vs2 (r1 r2 : RequestHeader H) body1 body2 :
  hashable vs1 r1 body1 →
  hashable vs2 r2 body2 →
  (same_request vs1 vs2 r1 r2 body1 body2 →
     key_digest D vs1 r1 body1 = key_digest D vs2 r2 body2)
  ∧ (key_digest D vs1 r1 body1 = key_digest D vs2 r2 body2 →
     same_request vs1 vs2 r1 r2 body1 body2
     ∨ ∃ a b, a ≠ b ∧ d_finalize (d_update (d_new : D) a) = d_finalize (d_update (d_new : D) b)).
Proof.
  intros G1 G2. rewrite !key_digest_preimage. split.
  - intros Hsame. by rewrite (key_preimage_of_same _ _ _ _ _ _ Hsame).
  - intros Heq. destruct (decide (key_preimage vs1 r1 body1 = key_preimage vs2 r2 body2)) as [Hk|Hk].
    + left. by apply key_preimage_same.
    + right. eauto.
Qed.

(** The digest only looks at the header map through its lookups. *)
Lemma key_digest_equiv vs (r1 r2 : RequestHeader H) body :
  raw_path r1 = raw_path r2 → rh_headers r1 ≡ₕ rh_headers r2 →
  key_digest D vs r1 body = key_digest D vs r2 body.
Proof.
  intros Hp Hh. rewrite !key_digest_preimage, (key_preimage_of_same vs vs r1 r2 body body); [done|].
  split_and!; [done..|]. intros n _. by rewrite Hh.
Qed.
End requests.

(** ** Witnesses *)

(** A hasher that keeps its whole input: the interface's laws can hold. *)
#[global] Instance tape_Digest : Digest bytes := {|
  d_new := []; d_update d a := d ++ a; d_finalize d := d |}.
#[global] Instance tape_DigestLaws : DigestLaws bytes.
Proof. split; intros; simpl; [by rewrite app_assoc|apply app_nil_r]. Qed.

Definition sample_request (path : string) : RequestHeader hlist :=
  mkRequestHeader (lit "http://localhost") (lit path) sample_headers.

Lemma sample_hashable (body : bytes) :
  (Z.of_nat (length body) < 2 ^ 64)%Z →
  hashable sample_vary (sample_request "/example.TestService/GetData") body.
Proof.
  intros Hb. split_and!; [|by vm_compute|done].
  intros n. unfold sample_vary. rewrite elem_of_union, !elem_of_singleton.
  intros [->| ->]; by apply (bool_decide_unpack _); vm_compute.
Qed.

Lemma key_digest_separates_witness :
  key_digest bytes sample_vary (sample_request "/example.TestService/GetData") (lit "a")
  ≠ key_digest bytes sample_vary (sample_request "/example.TestService/GetData") (lit "b").
Proof.
  intros Heq.
  apply (key_digest_separates (D:=bytes) _ _ _ _ _ _
           (sample_hashable (lit "a") eq_refl) (sample_hashable (lit "b") eq_refl)) in Heq.
  destruct Heq as [(_ & _ & Hb & _)|(a & b & Hne & Hab)].
  - discriminate Hb.
  - exact (Hne Hab).
Defined.
