(* ===== verification/Status.v ===== *)
(** * Status: [grpc/status.rs], the gRPC status of a response

    [GrpcStatus::parse] reads the first [grpc-status] trailer as a [u8];
    [GrpcStatus::is_ok] decides whether the response may be cached. *)

From stdpp Require Import gmap strings list.
From Stdlib Require Import Strings.Byte.
From S2P Require Import Prelude Text Headers.

(** [status::ParseError]. *)
Inductive StatusParseError :=
| NoStatusHeader
| InvalidStatusHeaderText
| InvalidStatusHeaderInt (e : ParseIntError).

Record GrpcStatus := mkGrpcStatus { code : N }.

Definition grpc_status : bytes := lit "grpc-status".

Definition is_ok (s : GrpcStatus) : bool := (code s =? 0)%N.

Section status.
Context {H : Type} `{!HeaderMap H}.

(** [GrpcStatus::parse]. *)
Definition status_parse (trailers : H) : outcome StatusParseError GrpcStatus :=
  status_value_bin ← ok_or NoStatusHeader (hm_get trailers grpc_status);
  status_value_str ←
    (if utf8_valid status_value_bin then Ok status_value_bin
     else Err InvalidStatusHeaderText);
  status_code ← map_err InvalidStatusHeaderInt (parse_u8 status_value_str);
  Ok (mkGrpcStatus status_code).

Lemma status_parse_get t v :
  hm_get t grpc_status = Some v →
  status_parse t = if utf8_valid v
                   then mkGrpcStatus <$> map_err InvalidStatusHeaderInt (parse_u8 v)
                   else Err InvalidStatusHeaderText.
Proof.
  intros Hv. unfold status_parse. rewrite Hv. simpl. destruct (utf8_valid v); [|done].
  simpl. by destruct (map_err InvalidStatusHeaderInt (parse_u8 v)).
Qed.

Lemma parse_u8_utf8 v n : parse_u8 v = Ok n → utf8_valid v = true.
Proof.
  intros (ds & Hv & _ & Hd & _)%parse_u8_Ok. apply all_digits_ascii in Hd.
  apply utf8_valid_ascii. destruct Hv as [->| ->]; [done|]. by constructor.
Qed.

Lemma parse_u8_no_panic v : parse_u8 v ≠ Panic.
Proof.
  assert (∀ s acc, parse_u8_digits acc s ≠ Panic) as Hd.
  { induction s as [|c s IH]; intros acc; simpl; crush_match. }
  unfold parse_u8. destruct v as [|c [|c' s]]; [done| |]; case_decide; auto.
Qed.

Lemma status_parse_no_panic t : status_parse t ≠ Panic.
Proof.
  destruct (hm_get t grpc_status) as [v|] eqn:Hv; [|unfold status_parse; by rewrite Hv].
  rewrite (status_parse_get _ _ Hv). destruct (utf8_valid v); [|done].
  pose proof (parse_u8_no_panic v). by destruct (parse_u8 v).
Qed.

(** A string of digits is worth zero exactly when it is all zeros. *)
Lemma dec_value_zero ds :
  all_digits ds → dec_value 0 ds = 0%N ↔ Forall (λ c, c = x30) ds.
Proof.
  induction 1 as [|c ds [d Hd] Hds IH]; [split; [constructor|done]|].
  rewrite list.Forall_cons, <- IH. unfold dec_value in *. cbn [foldl]. rewrite Hd.
  change (0 * 10 + default 0 (Some d))%N with d.
  pose proof (dec_value_ge d ds) as Hge. unfold dec_value in Hge.
  assert (c = x30 ↔ d = 0%N) as Hc.
  { unfold to_digit in Hd. split; [by intros ->; injection Hd as <-|].
    intros ->. apply bn_inj. change (bn x30) with 48%N. unfold in_range in Hd.
    destruct (N.leb_spec 48 (bn c)), (N.leb_spec (bn c) 57); simplify_eq/=. lia. }
  rewrite Hc. split.
  - intros Heq. assert (d = 0%N) as -> by lia. done.
  - by intros [-> ->].
Qed.

(** Every branch of [GrpcStatus::parse]. Without the trailer it reports
    [NoStatusHeader]; otherwise it looks at the first value only: invalid UTF-8 is
    [InvalidStatusHeaderText], a decimal in 0..255 with an optional [+] gives that
    code, and anything else is [InvalidStatusHeaderInt]. It never panics. *)
Theorem status_parse_branches t :
  match hm_get t grpc_status with
  | None => status_parse t = Err NoStatusHeader
  | Some v =>
    if utf8_valid v then
      (∃ n, status_parse t = Ok (mkGrpcStatus n) ∧ (n ≤ 255)%N ∧
         ∃ ds, (v = ds ∨ v = x2b :: ds) ∧ ds ≠ [] ∧ all_digits ds ∧ dec_value 0 ds = n)
      ∨ (∃ e, status_parse t = Err (InvalidStatusHeaderInt e) ∧
         ¬ ∃ ds, (v = ds ∨ v = x2b :: ds) ∧ ds ≠ [] ∧ all_digits ds
                 ∧ (dec_value 0 ds ≤ 255)%N)
    else status_parse t = Err InvalidStatusHeaderText
  end.
Proof.
  destruct (hm_get t grpc_status) as [v|] eqn:Hv.
  - rewrite (status_parse_get _ _ Hv). destruct (utf8_valid v); [|done].
    destruct (parse_u8 v) as [n|e|] eqn:Hp; simpl.
    + left. exists n. apply parse_u8_Ok in Hp as (ds & ? & ? & ? & ? & ?). naive_solver.
    + right. exists e. split; [done|]. intros (ds & ? & ? & ? & ?).
      assert (parse_u8 v = Ok (dec_value 0 ds)) by (apply parse_u8_Ok; eauto 10). congruence.
    + by apply parse_u8_no_panic in Hp.
  - unfold status_parse. by rewrite Hv.
Qed.

(** A response counts as successful exactly when its first [grpc-status] value is
    a non-empty string of zeros, after an optional [+]. *)
Theorem status_ok_iff t :
  (∃ s, status_parse t = Ok s ∧ is_ok s = true) ↔
  ∃ v ds, hm_get t grpc_status = Some v ∧ (v = ds ∨ v = x2b :: ds)
          ∧ ds ≠ [] ∧ Forall (λ c, c = x30) ds.
Proof.
  split.
  - intros ([n] & Hp & Hok). unfold is_ok in Hok. simpl in Hok. apply N.eqb_eq in Hok as ->.
    destruct (hm_get t grpc_status) as [v|] eqn:Hv; [|unfold status_parse in Hp; by rewrite Hv in Hp].
    rewrite (status_parse_get _ _ Hv) in Hp. destruct (utf8_valid v); [|done].
    destruct (parse_u8 v) as [m| |] eqn:Hu; simplify_eq/=.
    apply parse_u8_Ok in Hu as (ds & ? & ? & Hd & Hz & _). apply dec_value_zero in Hz; [|done].
    by exists v, ds.
  - intros (v & ds & Hv & Hds & Hne & Hz). exists (mkGrpcStatus 0). split; [|done].
    assert (all_digits ds) as Hd by (by eapply Forall_impl; [exact Hz|]; intros ? ->; eexists).
    assert (parse_u8 v = Ok 0%N) as Hu.
    { apply parse_u8_Ok. exists ds. split_and!; auto; [by apply dec_value_zero|done]. }
    by rewrite (status_parse_get _ _ Hv), (parse_u8_utf8 _ _ Hu), Hu.
Qed.
End status.

(** ** Concrete trailers *)

Example status_0 : status_parse [hdr "grpc-status" "0"] = Ok (mkGrpcStatus 0).
Proof. reflexivity. Qed.
Example status_overflow :
  status_parse [hdr "grpc-status" "256"] = Err (InvalidStatusHeaderInt IntPosOverflow).
Proof. reflexivity. Qed.
Example status_negative :
  status_parse [hdr "grpc-status" "-1"] = Err (InvalidStatusHeaderInt IntInvalidDigit).
Proof. reflexivity. Qed.
