(* ===== verification/Path.v ===== *)
(** * Path: [parse_grpc_path] of [proxy/mod.rs]

    The path of a gRPC request is [/service/method]. [parse_grpc_path] takes the pieces
    between slashes from an iterator; [format_grpc_path] is how a client writes it. *)

From stdpp Require Import gmap strings list.
From Stdlib Require Import Strings.Byte.
From S2P Require Import Prelude Text.

Definition slash : byte := x2f.

(** The errors of [parse_grpc_path], as [anyhow] carries them. *)
Inductive PathError :=
| PathUtf8
| PathNoLeadingSlash
| PathNotTwoElements.

(** [Iterator::next] of a list of pieces. *)
Definition next {A} (parts : list A) : option A * list A := (head parts, tail parts).

Definition parse_grpc_path (path : bytes) : outcome PathError (bytes * bytes) :=
  path ← (if utf8_valid path then Ok path else Err PathUtf8);
  let parts := split_byte slash path in
  let '(lead, parts) := next parts in
  if bool_decide (lead ≠ Some []) then Err PathNoLeadingSlash else
  let '(service, parts) := next parts in
  let '(method, parts) := next parts in
  if bool_decide (method = None) || bool_decide (is_Some (fst (next parts)))
  then Err PathNotTwoElements
  else s ← unwrap service; m ← unwrap method; Ok (s, m).

(** [format!("/{}/{}", service, method)] of the gRPC client. *)
Definition format_grpc_path (service method : bytes) : bytes :=
  [slash] ++ service ++ [slash] ++ method.

(** ** Properties *)

Lemma split_two s m :
  slash ∉ s → slash ∉ m → split_byte slash (format_grpc_path s m) = [[]; s; m].
Proof.
  intros Hs Hm. unfold format_grpc_path. cbn [app].
  by rewrite split_byte_cons_sep, split_byte_app, split_byte_no_sep.
Qed.

Lemma split_two_inv p s m :
  split_byte slash p = [[]; s; m] → p = format_grpc_path s m ∧ slash ∉ s ∧ slash ∉ m.
Proof.
  intros Hp. pose proof (split_byte_pieces slash p) as Hf. rewrite Hp in Hf.
  rewrite !list.Forall_cons in Hf. destruct Hf as (_ & Hs & Hm & _).
  split; [|done]. rewrite <- (join_split slash p), Hp. done.
Qed.

Lemma split_head p : head (split_byte slash p) = Some [] ↔ p = [] ∨ head p = Some slash.
Proof.
  destruct p as [|c p]; simpl; [naive_solver|].
  case_decide; [naive_solver|]. destruct (split_byte slash p); naive_solver.
Qed.

(** The parser, in terms of the list of pieces. *)
Lemma parse_grpc_path_pieces p :
  parse_grpc_path p =
  if utf8_valid p then
    match split_byte slash p with
    | [] :: s :: m :: [] => Ok (s, m)
    | [] :: _ => Err PathNotTwoElements
    | _ => Err PathNoLeadingSlash
    end
  else Err PathUtf8.
Proof.
  unfold parse_grpc_path. destruct (utf8_valid p); [|done]. simpl.
  by destruct (split_byte slash p) as [|[|c a] [|s [|m [|x ps]]]].
Qed.

(** [parse_grpc_path] on every input. Invalid UTF-8, a non-empty path that does not
    start with a slash, and a path that is not two elements are told apart; otherwise
    the path is [/service/method] with no further slash and the two names are returned.
    The two [unwrap]s never panic. *)
Theorem parse_grpc_path_branches p :
  match parse_grpc_path p with
  | Ok (s, m) => utf8_valid p = true ∧ p = format_grpc_path s m ∧ slash ∉ s ∧ slash ∉ m
  | Err PathUtf8 => utf8_valid p = false
  | Err PathNoLeadingSlash => utf8_valid p = true ∧ p ≠ [] ∧ head p ≠ Some slash
  | Err PathNotTwoElements => utf8_valid p = true ∧ (p = [] ∨ head p = Some slash)
      ∧ ¬ ∃ s m, p = format_grpc_path s m ∧ slash ∉ s ∧ slash ∉ m
  | Panic => False
  end.
Proof.
  rewrite parse_grpc_path_pieces. destruct (utf8_valid p); [|done].
  pose proof (split_head p) as Hhead. pose proof (split_byte_not_nil slash p) as Hnil.
  assert ((∃ s m, p = format_grpc_path s m ∧ slash ∉ s ∧ slash ∉ m) →
          ∃ s m, split_byte slash p = [[]; s; m]) as Htwo.
  { intros (s & m & -> & Hs & Hm). exists s, m. by apply split_two. }
  destruct (split_byte slash p) as [|[|c a] [|s [|m [|x ps]]]] eqn:Hp; simpl in *;
    try done; try naive_solver.
  apply split_two_inv in Hp. naive_solver.
Qed.

(** Round trip. The path a client writes for a service and a method whose names hold
    no slash is parsed back to the same two names. *)
Theorem parse_format_grpc_path s m :
  utf8_valid s = true →
  utf8_valid m = true →
  slash ∉ s →
  slash ∉ m →
  parse_grpc_path (format_grpc_path s m) = Ok (s, m).
Proof.
  intros Us Um Hs Hm. rewrite parse_grpc_path_pieces, split_two by done.
  unfold format_grpc_path.
  by rewrite !utf8_valid_app by done; rewrite Um.
Qed.

Lemma parse_format_grpc_path_witness :
  parse_grpc_path (lit "/example.TestService/GetData")
  = Ok (lit "example.TestService", lit "GetData").
Proof.
  change (lit "/example.TestService/GetData")
    with (format_grpc_path (lit "example.TestService") (lit "GetData")).
  apply parse_format_grpc_path; [reflexivity..| |];
    by apply (bool_decide_unpack _); vm_compute.
Defined.

Example parse_root : parse_grpc_path (lit "/") = Err PathNotTwoElements.
Proof. reflexivity. Qed.
Example parse_three : parse_grpc_path (lit "/a/b/c") = Err PathNotTwoElements.
Proof. reflexivity. Qed.
Example parse_relative : parse_grpc_path (lit "a/b") = Err PathNoLeadingSlash.
Proof. reflexivity. Qed.
