(* ===== verification/Crd.v ===== *)
(** * Crd: the [GrcacheService] resource ([config/crd.rs]) and names of services

    The data of the custom resource, the defaults its deserialisation fills in, the
    object reference that identifies a resource in the cluster, [QualifiedService]
    ([service/qualified_service.rs]) and [FieldRef] ([field_ref.rs]). *)

From stdpp Require Import gmap strings list countable.
From Stdlib Require Import Strings.Byte.
From S2P Require Import Prelude Text.

(** ** [config/crd.rs] *)

Definition default_string : bytes := lit "default".

Definition default_grpc_port : Z := 50051.

Inductive Upstream :=
| Dns (url : bytes) (port : Z).

Inductive DescriptorSetSource :=
| SrcFile (path : bytes)
| SrcBucket (bucket_name : bytes) (hash : bytes)
| SrcInline (data : bytes).

Record GrcacheServiceSpec := mkSpec {
  cluster : bytes;
  upstream_name : option bytes;
  upstream : Upstream;
  service_name : bytes;
  descriptor_set_source : option DescriptorSetSource;
}.

(** The resource: metadata and specification. *)
Record GrcacheService := mkService {
  meta_namespace : option bytes;
  meta_name : bytes;
  resource_version : option bytes;
  spec : GrcacheServiceSpec;
}.

(** [kube::runtime::reflector::ObjectRef]: equality is on namespace and name. *)
Record ObjectRef := mkRef { ref_namespace : option bytes; ref_name : bytes }.

#[global] Instance ObjectRef_eq_dec : EqDecision ObjectRef.
Proof. solve_decision. Defined.

#[global] Program Instance ObjectRef_countable : Countable ObjectRef :=
  inj_countable' (λ r, (ref_namespace r, ref_name r)) (λ p, mkRef p.1 p.2) _.
Next Obligation. by intros []. Qed.

#[global] Instance Upstream_eq_dec : EqDecision Upstream.
Proof. solve_decision. Defined.
#[global] Instance DescriptorSetSource_eq_dec : EqDecision DescriptorSetSource.
Proof. solve_decision. Defined.
#[global] Instance GrcacheServiceSpec_eq_dec : EqDecision GrcacheServiceSpec.
Proof. solve_decision. Defined.
#[global] Instance GrcacheService_eq_dec : EqDecision GrcacheService.
Proof. solve_decision. Defined.

(** [ObjectRef::from_obj], and [make_key] of [resource_change.rs]. *)
Definition from_obj (o : GrcacheService) : ObjectRef := mkRef (meta_namespace o) (meta_name o).

(** ** [service/qualified_service.rs] *)

Definition dot : byte := x2e.

Record QualifiedService := mkQualified { package : bytes; qs_name : bytes }.

Inductive QualifiedError := FailedParseQualifiedService (name : bytes).

(** [Display]. *)
Definition qualified_display (q : QualifiedService) : bytes :=
  package q ++ [dot] ++ qs_name q.

Definition qualified_parse (qualified_service : bytes)
    : outcome QualifiedError QualifiedService :=
  match rsplit_once dot qualified_service with
  | Some (package, service_name) => Ok (mkQualified package service_name)
  | None => Err (FailedParseQualifiedService qualified_service)
  end.

(** ** [field_ref.rs] *)

Inductive PathComponent := Field (name : bytes).

Record FieldRef := mkFieldRef { components : list PathComponent }.

(** [field_ref::ParseError] has no constructor. *)
Inductive FieldRefParseError := .

Definition field_ref_parse (string : bytes) : outcome FieldRefParseError FieldRef :=
  Ok (mkFieldRef (Field <$> split_byte dot string)).

(** ** Properties *)

Lemma qualified_parse_Ok s q :
  qualified_parse s = Ok q ↔ s = qualified_display q ∧ dot ∉ qs_name q.
Proof.
  unfold qualified_parse, qualified_display. destruct q as [p n]. simpl.
  rewrite <- rsplit_once_Some. destruct (rsplit_once dot s) as [[a b]|]; [|naive_solver].
  split; by intros [= -> ->].
Qed.

Lemma qualified_parse_no_panic s : qualified_parse s ≠ Panic.
Proof. unfold qualified_parse. by destruct (rsplit_once dot s) as [[]|]. Qed.

Lemma qualified_parse_dot s e : qualified_parse s = Err e → dot ∉ s.
Proof.
  rewrite <- rsplit_once_None. unfold qualified_parse. by destruct (rsplit_once dot s) as [[]|].
Qed.

(** [QualifiedService::parse] inverts [Display]: it succeeds with [q] exactly when
    the text is what [q] displays as and the service name holds no dot (the split is
    at the last dot); it fails, naming its input, exactly when the text has no dot. *)
Theorem qualified_parse_display s :
  (∀ q, qualified_parse s = Ok q ↔ s = qualified_display q ∧ dot ∉ qs_name q)
  ∧ (qualified_parse s = Err (FailedParseQualifiedService s) ↔ dot ∉ s).
Proof.
  split; [apply qualified_parse_Ok|].
  rewrite <- rsplit_once_None. unfold qualified_parse.
  destruct (rsplit_once dot s) as [[]|]; naive_solver.
Qed.

(** [FieldRef::parse] accepts every text, with at least one component, and the
    components joined by dots are the text again. *)
Theorem field_ref_parse_join s :
  ∃ r, field_ref_parse s = Ok r ∧ components r ≠ []
    ∧ join [dot] ((λ '(Field n), n) <$> components r) = s.
Proof.
  eexists. split; [done|]. simpl. split.
  - intros Hnil%fmap_nil_inv. by apply split_byte_not_nil in Hnil.
  - rewrite <- list_fmap_compose. rewrite <- (join_split dot s) at 2. f_equal.
    induction (split_byte dot s) as [|p ps IH]; [done|]. by rewrite fmap_cons, IH.
Qed.

Example parse_example :
  qualified_parse (lit "my.pkg.Service") = Ok (mkQualified (lit "my.pkg") (lit "Service")).
Proof. reflexivity. Qed.
