(* ===== verification/DescriptorSet.v ===== *)
(** * DescriptorSet: [service/descriptor_set.rs], loading a descriptor set

    [from_source] reads the bytes of a descriptor set from a file, a bucket or inline
    base64 data, checks the SHA-256 of a bucket object, and parses them. The file
    system, the bucket, SHA-256, base64 and the protobuf parser are the interface
    [SourceEnv]; [LoadFromBucket] is the trait of the source. *)

From stdpp Require Import gmap strings list.
From Stdlib Require Import Strings.Byte.
From S2P Require Import Prelude Text Crd.

(** [trait LoadFromBucket]: [file_from_bucket(bucket_id, object_name)]. *)
Class LoadFromBucket (AnyError Ctx : Type) :=
  file_from_bucket : Ctx → bytes → bytes → outcome AnyError bytes.

(** [DummyPanicContext] implements the trait by panicking. *)
Inductive DummyPanicContext := mkDummyPanicContext.
#[global] Instance DummyPanicContext_load {AnyError} : LoadFromBucket AnyError DummyPanicContext :=
  λ _ _ _, Panic.

Class SourceEnv (FileDescriptorSet AnyError : Type) := {
  IoError : Type;
  DecodeError : Type;
  PbError : Type;
  (** [File::open(path)] then [read_to_end]. *)
  read_file : bytes → outcome IoError bytes;
  (** [Sha256::digest]. *)
  sha256 : bytes → bytes;
  (** [BASE64_STANDARD.decode]. *)
  base64_decode : bytes → outcome DecodeError bytes;
  (** [FileDescriptorSet::parse_from_bytes]. *)
  parse_from_bytes : bytes → outcome PbError FileDescriptorSet;
}.

Section from_source.
Context {FileDescriptorSet AnyError Ctx : Type}.
Context `{env : SourceEnv FileDescriptorSet AnyError, !LoadFromBucket AnyError Ctx}.

(** [descriptor_set::Error]. *)
Inductive DescriptorSetError :=
| FileRetrieval (e : IoError)
| Base64DecodeError (e : DecodeError)
| ProtoParse (e : PbError)
| BucketLoad (error : AnyError) (bucket_name : bytes)
| ChecksumMismatch (reference file : bytes).

Definition sha256_hex (data : bytes) : bytes := hex (sha256 data).

Definition from_source (context : Ctx) (source : DescriptorSetSource)
    : outcome DescriptorSetError FileDescriptorSet :=
  buf ← match source with
        | SrcFile path => map_err FileRetrieval (read_file path)
        | SrcBucket name hash =>
          buf ← map_err (λ error, BucketLoad error name) (file_from_bucket context name hash);
          let file_hash := sha256_hex buf in
          if decide (hash ≠ file_hash) then Err (ChecksumMismatch hash file_hash)
          else Ok buf
        | SrcInline data => map_err Base64DecodeError (base64_decode data)
        end;
  map_err ProtoParse (parse_from_bytes buf).

Lemma from_source_bucket ctx name hash :
  from_source ctx (SrcBucket name hash) =
  match file_from_bucket ctx name hash with
  | Ok buf => if decide (hash = sha256_hex buf)
              then map_err ProtoParse (parse_from_bytes buf)
              else Err (ChecksumMismatch hash (sha256_hex buf))
  | Err error => Err (BucketLoad error name)
  | Panic => Panic
  end.
Proof.
  unfold from_source. simpl. destruct (file_from_bucket ctx name hash) as [buf| |]; try done.
  simpl. destruct (decide (hash = sha256_hex buf)) as [Heq|Hne].
  - by rewrite decide_False by auto.
  - by rewrite decide_True.
Qed.

Lemma from_source_bucket_Ok ctx name hash ds :
  from_source ctx (SrcBucket name hash) = Ok ds ↔
  ∃ buf, file_from_bucket ctx name hash = Ok buf ∧ hash = sha256_hex buf
         ∧ parse_from_bytes buf = Ok ds.
Proof.
  rewrite from_source_bucket. destruct (file_from_bucket ctx name hash) as [buf| |]; [|naive_solver..].
  case_decide; [|naive_solver]. rewrite map_err_Ok. naive_solver.
Qed.
End from_source.
Arguments DescriptorSetError {_ _} _.
Arguments from_source {_ _ _ _ _} context source.

Section integrity.
Context {FileDescriptorSet AnyError : Type} `{env : SourceEnv FileDescriptorSet AnyError}.

(** C34: Integrity of bucket objects. A descriptor set loaded from a bucket was parsed
    from bytes whose SHA-256, in lower-case hexadecimal, is the hash of the resource.
    So whatever two buckets hold, when both loads of the same hash succeed they give
    the same descriptor set, unless two different files have the same SHA-256. *)
Theorem bucket_load_integrity {Ctx1 Ctx2 : Type}
    `{!LoadFromBucket AnyError Ctx1, !LoadFromBucket AnyError Ctx2}
    (c1 : Ctx1) (c2 : Ctx2) name1 name2 hash ds1 ds2 :
  from_source c1 (SrcBucket name1 hash) = Ok ds1 →
  from_source c2 (SrcBucket name2 hash) = Ok ds2 →
  (∃ buf, file_from_bucket c1 name1 hash = Ok buf ∧ hash = sha256_hex buf
          ∧ parse_from_bytes buf = Ok ds1)
  ∧ (ds1 = ds2 ∨ ∃ a b, a ≠ b ∧ sha256 a = sha256 b).
Proof.
  intros H1 H2. apply from_source_bucket_Ok in H1 as (b1 & Hf1 & -> & Hp1), H2 as (b2 & _ & Hh & Hp2).
  split; [by eauto|]. apply hex_inj in Hh.
  destruct (decide (b1 = b2)) as [->|Hne]; [left; congruence|right; eauto].
Qed.

(** Every error path of a bucket source. A failing bucket is reported with the
    bucket's name, a file with another digest as [ChecksumMismatch] with both hashes
    (so a reference hash that is not in lower case never loads), and with
    [DummyPanicContext], the context the service store passes, it always panics. *)
Theorem bucket_load_errors {Ctx : Type} `{!LoadFromBucket AnyError Ctx} (c : Ctx) name hash :
  (∀ e, file_from_bucket c name hash = Err e →
        from_source c (SrcBucket name hash) = Err (BucketLoad e name))
  ∧ (∀ buf, file_from_bucket c name hash = Ok buf → hash ≠ sha256_hex buf →
        from_source c (SrcBucket name hash) = Err (ChecksumMismatch hash (sha256_hex buf)))
  ∧ (lower hash ≠ hash → ∀ ds, from_source c (SrcBucket name hash) ≠ Ok ds)
  ∧ from_source mkDummyPanicContext (SrcBucket name hash) = Panic.
Proof.
  rewrite !from_source_bucket. split_and!.
  - by intros e ->.
  - intros buf ->. by case_decide.
  - intros Hlow ds. destruct (file_from_bucket c name hash); try done.
    case_decide as Hh; [|done]. destruct Hlow. rewrite Hh. apply hex_lower.
  - done.
Qed.
End integrity.

(** ** Witnesses: the unit tests of the source *)

(** An environment for the witnesses: every buffer parses to itself, and the digest is
    a short checksum. *)
Definition toy_sha (s : bytes) : bytes := [byte_of_Z (Z.of_nat (length s)); default x00 (head s)].

#[local] Instance toy_env : SourceEnv bytes unit := {|
  IoError := unit; DecodeError := unit; PbError := unit;
  read_file _ := Err tt;
  sha256 := toy_sha;
  base64_decode _ := Err tt;
  parse_from_bytes buf := Ok buf;
|}.

(** [DummyBucketLoader] of the tests. *)
Record DummyBucketLoader := mkLoader { object_name : bytes; data : bytes }.
#[global] Instance DummyBucketLoader_load : LoadFromBucket unit DummyBucketLoader :=
  λ l _ name, if decide (name = object_name l) then Ok (data l) else Err tt.

(** [test_descriptor_set_from_bucket]. *)
Lemma bucket_load_integrity_witness :
  ∃ buf, hex (toy_sha (lit "")) = sha256_hex buf ∧ parse_from_bytes buf = Ok (lit "").
Proof.
  destruct (bucket_load_integrity
    (mkLoader (hex (toy_sha (lit ""))) (lit "")) (mkLoader (hex (toy_sha (lit ""))) (lit ""))
    (lit "some_bucket") (lit "some_bucket") (hex (toy_sha (lit ""))) (lit "") (lit ""))
    as [(buf & _ & Hh & Hp) _]; [reflexivity..|].
  exists buf. split; [exact Hh|exact Hp].
Defined.

(** [test_descriptor_set_from_bucket_with_wrong_hash]. *)
Example from_bucket_with_wrong_hash :
  from_source (mkLoader (hex (toy_sha (lit ""))) (lit "a")) (SrcBucket (lit "some_bucket") (hex (toy_sha (lit ""))))
  = Err (ChecksumMismatch (hex (toy_sha (lit ""))) (hex (toy_sha (lit "a")))).
Proof. reflexivity. Qed.
