(* ===== verification/ServiceSpec.v ===== *)
(** * ServiceSpec: [service/mod.rs], what the proxy knows of a gRPC service

    [ServiceSpec::build] turns a descriptor set into the map of methods with their cache
    options. Protobuf reflection is the interface [Reflection]. *)

From stdpp Require Import gmap strings list.
From Stdlib Require Import Strings.Byte.
From S2P Require Import Prelude Text Crd.

(** [GrcacheMethodOptions] of [options.proto]: an [int32] number of seconds. *)
Record GrcacheMethodOptions := mkOptions { cache_ttl : Z }.

Definition is_i32 (z : Z) : Prop := (-2 ^ 31 ≤ z < 2 ^ 31)%Z.

(** The part of [protobuf::reflect] the source uses. *)
Class Reflection := {
  FileDescriptorProto : Type;
  FileDescriptor : Type;
  ServiceDescriptor : Type;
  MethodDescriptor : Type;
  ProtobufError : Type;
  (** [FileDescriptor::new_dynamic(proto, dependencies)]. *)
  new_dynamic : FileDescriptorProto → list FileDescriptor → outcome ProtobufError FileDescriptor;
  fd_package : FileDescriptor → bytes;
  fd_services : FileDescriptor → list ServiceDescriptor;
  sd_name : ServiceDescriptor → bytes;
  sd_methods : ServiceDescriptor → list MethodDescriptor;
  md_name : MethodDescriptor → bytes;
  (** [exts::grcache.get(&method.proto().options)]. *)
  md_grcache : MethodDescriptor → option GrcacheMethodOptions;
}.

Section spec.
Context {R : Reflection}.

(** [service::Error]. *)
Inductive ServiceError :=
| DescriptorError (e : ProtobufError)
| ServiceNotFound (service : QualifiedService).

Inductive ValidationError :=
| InvalidCacheTTL (value : Z)
| HashOnInvalidFieldRef (field_ref : bytes) (source : FieldRefParseError)
| HashOnFieldNotFound (field : bytes).

Record CacheSpec := mkCacheSpec {
  hash_on : list FieldRef;
  cs_descriptor : GrcacheMethodOptions;
}.

Record MethodSpec := mkMethodSpec {
  ms_name : bytes;
  ms_descriptor : MethodDescriptor;
  cache_spec : option CacheSpec;
}.

Record ServiceSpec := mkServiceSpec {
  ss_name : QualifiedService;
  passthrough : bool;
  methods : gmap bytes MethodSpec;
}.

(** [MethodSpec::build]: the specification and the validation errors it reports. *)
Definition method_build (method : MethodDescriptor) : MethodSpec * list ValidationError :=
  let '(cache_spec, errors) :=
    match md_grcache method with
    | None => (None, [])
    | Some opt =>
      let errors := if (cache_ttl opt <? 0)%Z then [InvalidCacheTTL (cache_ttl opt)] else [] in
      let success := negb (cache_ttl opt <? 0)%Z in
      (if success then Some (mkCacheSpec [] opt) else None, errors)
    end in
  (mkMethodSpec (md_name method) method cache_spec, errors).

Definition build_passthrough (service : QualifiedService) : ServiceSpec :=
  mkServiceSpec service true ∅.

(** The loop that links every file against the files before it. *)
Fixpoint load_files (files : list FileDescriptorProto) (dyns : list FileDescriptor)
    : outcome ServiceError (list FileDescriptor) :=
  match files with
  | [] => Ok dyns
  | descr :: files' =>
    d ← map_err DescriptorError (new_dynamic descr dyns);
    load_files files' (dyns ++ [d])
  end.

(** [flat_map] over the files, then [find]. *)
Definition find_service (descriptor_set : list FileDescriptor) (service : QualifiedService)
    : outcome ServiceError ServiceDescriptor :=
  let candidates := flat_map (λ f, (λ s, (fd_package f, s)) <$> fd_services f) descriptor_set in
  ok_or (ServiceNotFound service)
    (snd <$> List.find (λ '(p, s), bool_decide (p = package service)
                                   && bool_decide (sd_name s = qs_name service)) candidates).

(** [collect::<HashMap<_, _>>()]: a later method with the same name replaces. *)
Definition collect_methods (ms : list MethodDescriptor) : gmap bytes MethodSpec :=
  foldl (λ acc m, let spec := (method_build m).1 in <[ms_name spec := spec]> acc) ∅ ms.

(** [ServiceSpec::build]. *)
Definition service_build (descriptor_set : list FileDescriptorProto)
    (service : QualifiedService) : outcome ServiceError (ServiceSpec * list ValidationError) :=
  dyns ← load_files descriptor_set [];
  service_descriptor ← find_service dyns service;
  let validation_errors := flat_map (λ m, (method_build m).2) (sd_methods service_descriptor) in
  let methods := collect_methods (sd_methods service_descriptor) in
  Ok (mkServiceSpec service false methods, validation_errors).

(** ** Properties *)

Lemma ms_name_build m : ms_name (method_build m).1 = md_name m.
Proof. unfold method_build. by destruct (md_grcache m). Qed.

Lemma ms_descriptor_build m : ms_descriptor (method_build m).1 = m.
Proof. unfold method_build. by destruct (md_grcache m). Qed.

Lemma method_build_cache m c :
  cache_spec (method_build m).1 = Some c ↔
  ∃ opt, md_grcache m = Some opt ∧ (0 ≤ cache_ttl opt)%Z ∧ c = mkCacheSpec [] opt.
Proof.
  unfold method_build. destruct (md_grcache m) as [opt|]; simpl; [|naive_solver].
  destruct (Z.ltb_spec (cache_ttl opt) 0); simpl; [naive_solver lia|].
  split; [intros [= <-]; eauto|]. by intros (? & [= ->] & _ & ->).
Qed.

Lemma method_build_errors m :
  (method_build m).2 =
  match md_grcache m with
  | Some opt => if (cache_ttl opt <? 0)%Z then [InvalidCacheTTL (cache_ttl opt)] else []
  | None => []
  end.
Proof. unfold method_build. by destruct (md_grcache m). Qed.

Lemma collect_methods_snoc ms m :
  collect_methods (ms ++ [m]) = <[md_name m := (method_build m).1]> (collect_methods ms).
Proof. unfold collect_methods. rewrite foldl_app. simpl. by rewrite ms_name_build. Qed.

(** A name maps to the last method of that name. *)
Lemma collect_methods_lookup ms n :
  collect_methods ms !! n =
  (λ m, (method_build m).1) <$> last (List.filter (λ m, bool_decide (md_name m = n)) ms).
Proof.
  induction ms as [|m ms IH] using rev_ind; [done|].
  rewrite collect_methods_snoc, List.filter_app. simpl.
  destruct (bool_decide_reflect (md_name m = n)) as [->|Hn].
  - by rewrite lookup_insert_eq, last_snoc.
  - by rewrite lookup_insert_ne, IH, app_nil_r.
Qed.

Lemma find_service_Ok fs q sd :
  find_service fs q = Ok sd →
  ∃ f, f ∈ fs ∧ sd ∈ fd_services f ∧ fd_package f = package q ∧ sd_name sd = qs_name q.
Proof.
  unfold find_service. set (cands := flat_map _ _). destruct (List.find _ cands) as [[p s]|] eqn:Hf; [|done].
  intros [= <-]. apply find_some in Hf as [Hin Hb].
  apply andb_true_iff in Hb as [Hp%bool_decide_eq_true Hs%bool_decide_eq_true].
  apply in_flat_map in Hin as (f & Hf & (s' & [= -> ->] & Hs')%list_elem_of_In%list_elem_of_fmap).
  exists f. by rewrite list_elem_of_In.
Qed.

Lemma find_service_Err fs q :
  find_service fs q = Err (ServiceNotFound q) ↔
  ∀ f sd, f ∈ fs → sd ∈ fd_services f → ¬ (fd_package f = package q ∧ sd_name sd = qs_name q).
Proof.
  unfold find_service. set (cands := flat_map _ _).
  assert (∀ p s, In (p, s) cands ↔ ∃ f, f ∈ fs ∧ p = fd_package f ∧ s ∈ fd_services f) as Hc.
  { intros p s. unfold cands. rewrite in_flat_map. setoid_rewrite <- list_elem_of_In.
    setoid_rewrite list_elem_of_fmap. naive_solver. }
  destruct (List.find _ cands) as [[p s]|] eqn:Hf; simpl.
  - split; [done|]. intros Hno. apply find_some in Hf as [Hin Hb].
    apply andb_true_iff in Hb as [Hp%bool_decide_eq_true Hs%bool_decide_eq_true].
    apply Hc in Hin as (f & Hf & -> & Hin). by destruct (Hno f s).
  - split; [|done]. intros _ f sd Hin Hsd [Hp Hs].
    assert (In (fd_package f, sd) cands) as Hin' by (apply Hc; eauto).
    apply (find_none _ _ Hf) in Hin'. simpl in Hin'.
    by rewrite !bool_decide_eq_true_2 in Hin'.
Qed.

(** The cache options of a method: those the proto declares, if the TTL is not negative. *)
Definition declared_cache (m : MethodDescriptor) : option CacheSpec :=
  opt ← md_grcache m; if decide (0 ≤ cache_ttl opt)%Z then Some (mkCacheSpec [] opt) else None.

Lemma method_build_spec m : (method_build m).1 = mkMethodSpec (md_name m) m (declared_cache m).
Proof.
  unfold method_build, declared_cache. destruct (md_grcache m) as [opt|]; simpl; [|done].
  destruct (Z.ltb_spec (cache_ttl opt) 0); simpl; [rewrite decide_False by lia|rewrite decide_True by lia]; done.
Qed.

(** C33: What [ServiceSpec::build] returns: an error exactly if a file cannot be linked or
    no file has a service of the requested package and name; and on success the
    specification of such a service, in which every method name maps to the last method so
    named, with its name, its descriptor, and the cache options its proto declares, unless
    their TTL is negative; the validation errors are exactly the negative TTLs, in
    declaration order. *)
Theorem service_build_correct files q :
  match load_files files [] with
  | Ok dyns =>
    (service_build files q = Err (ServiceNotFound q) ↔
       ∀ f sd, f ∈ dyns → sd ∈ fd_services f → ¬ (fd_package f = package q ∧ sd_name sd = qs_name q))
    ∧ (service_build files q ≠ Err (ServiceNotFound q) →
       ∃ f sd s errs, service_build files q = Ok (s, errs)
       ∧ f ∈ dyns ∧ sd ∈ fd_services f ∧ fd_package f = package q ∧ sd_name sd = qs_name q
       ∧ ss_name s = q ∧ passthrough s = false
       ∧ (∀ n, methods s !! n =
            (λ m, mkMethodSpec n m (declared_cache m))
            <$> last (List.filter (λ m, bool_decide (md_name m = n)) (sd_methods sd)))
       ∧ errs = InvalidCacheTTL <$> List.filter (λ t, t <? 0)%Z (omap (λ m, cache_ttl <$> md_grcache m) (sd_methods sd)))
  | Err e => service_build files q = Err e
  | Panic => service_build files q = Panic
  end.
Proof.
  unfold service_build. destruct (load_files files []) as [dyns|e|]; simpl; [|done..].
  destruct (find_service dyns q) as [sd|e|] eqn:Hfind; simpl.
  - split; [split; [done|]; intros Hno%find_service_Err; congruence|]. intros _.
    destruct (find_service_Ok _ _ _ Hfind) as (f & ? & ? & ? & ?).
    eexists f, sd, _, _. split_and!; [done..| |].
    + simpl. intros n. rewrite collect_methods_lookup.
      destruct (last _) as [md|] eqn:Hlast; simpl; [|done]. rewrite method_build_spec. do 2 f_equal.
      apply last_Some in Hlast as [l Hl].
      assert (md ∈ List.filter (λ m, bool_decide (md_name m = n)) (sd_methods sd)) as Hin
        by (rewrite Hl; set_solver).
      by apply list_elem_of_In, filter_In in Hin as [_ Hn%bool_decide_eq_true].
    + clear. induction (sd_methods sd) as [|m ms IH]; [done|]. cbn [flat_map omap list_omap].
      rewrite IH, method_build_errors. destruct (md_grcache m) as [opt|]; [|done].
      simpl. by destruct (cache_ttl opt <? 0)%Z.
  - assert (e = ServiceNotFound q) as ->.
    { unfold find_service in Hfind. by destruct (List.find _ _); simplify_eq/=. }
    rewrite <- find_service_Err, Hfind. naive_solver.
  - unfold find_service in Hfind. by destruct (List.find _ _).
Qed.
End spec.

(** ** Witness: the descriptor set of the proxy's tests *)

(** Reflection over plain records. *)
Record PlainMethod := mkPlainMethod { pm_name : bytes; pm_ttl : option Z }.
Record PlainService := mkPlainService { ps_name : bytes; ps_methods : list PlainMethod }.
Record PlainFile := mkPlainFile { pf_package : bytes; pf_services : list PlainService }.

Definition plain_reflection : Reflection := {|
  FileDescriptorProto := PlainFile;
  FileDescriptor := PlainFile;
  ServiceDescriptor := PlainService;
  MethodDescriptor := PlainMethod;
  ProtobufError := unit;
  new_dynamic f _ := Ok f;
  fd_package := pf_package;
  fd_services := pf_services;
  sd_name := ps_name;
  sd_methods := ps_methods;
  md_name := pm_name;
  md_grcache m := mkOptions <$> pm_ttl m;
|}.

(** [tests/data/test_service.proto], with a method whose TTL is negative added. *)
Definition test_file : PlainFile :=
  mkPlainFile (lit "example")
    [mkPlainService (lit "TestService")
       [mkPlainMethod (lit "GetData") (Some 3600%Z); mkPlainMethod (lit "Bad") (Some (-1)%Z);
        mkPlainMethod (lit "SaveData") None]].

Definition test_service : QualifiedService := mkQualified (lit "example") (lit "TestService").

Definition test_spec : ServiceSpec (R:=plain_reflection) :=
  mkServiceSpec (R:=plain_reflection) test_service false
    (collect_methods (R:=plain_reflection) (ps_methods
       (mkPlainService (lit "TestService")
       [mkPlainMethod (lit "GetData") (Some 3600%Z); mkPlainMethod (lit "Bad") (Some (-1)%Z);
        mkPlainMethod (lit "SaveData") None]))).

Definition test_cache (n : bytes) : option (option CacheSpec) :=
  cache_spec (R:=plain_reflection) <$> methods (R:=plain_reflection) test_spec !! n.

(** The cached method, the one with the negative TTL and the one without options. *)
Example test_spec_methods :
  service_build (R:=plain_reflection) [test_file] test_service = Ok (test_spec, [InvalidCacheTTL (-1)])
  ∧ test_cache (lit "GetData") = Some (Some (mkCacheSpec [] (mkOptions 3600)))
  ∧ test_cache (lit "Bad") = Some None ∧ test_cache (lit "SaveData") = Some None.
Proof. split_and!; reflexivity. Qed.
