(* ===== verification/Health.v ===== *)
(** * Health: [health.rs], readiness tracking

    A tracker counts the endpoints that still block readiness in an atomic [u64] and
    flips a watch to [true] when the last one reports. [endpoint_ready] is
    [HealthEndpoint::ready], [health_add] is [Health::add], [endpoint_drop] the [Drop]
    implementation. The calls run in several tasks, so [step] interleaves their atomic
    operations: the swap of the endpoint's flag, the [fetch_sub] of the counter and the
    update of the watch are separate steps, with the calls between two of them in
    [inflight]. *)

From stdpp Require Import gmap list fin_maps relations.
From S2P Require Import Prelude.

(** An [AtomicU64] wraps around. *)
Definition u64 (z : Z) : Z := z mod 2 ^ 64.

(** Where a call of [ready] is after its swap returned [true]. *)
Inductive pc :=
| NeedSub  (** the counter has to be decremented *)
| NeedSend (** this call saw the count go to zero and has to signal *).

#[global] Instance pc_eq_dec : EqDecision pc.
Proof. solve_decision. Defined.

Record Health := mkHealth {
  ready_blocks : Z;            (** [State::ready_blocks] *)
  ready : bool;                (** the value of the watch [State::ready] *)
  notified : nat;              (** notifications sent to the watch's receivers *)
  endpoints : gmap nat bool;   (** [can_indicate_ready] of every endpoint alive *)
  inflight : list pc;          (** calls of [ready] between two atomic operations *)
}.

(** [Health::new]: the tracker and its root endpoint, number 0. *)
Definition health_new : Health := mkHealth 1 false 0 {[0 := true]} [].

(** [Health::add]: the endpoint is called [e]. *)
Definition health_add (e : nat) (blocks_ready : bool) (s : Health) : Health :=
  let blocks := if blocks_ready then u64 (ready_blocks s + 1) else ready_blocks s in
  mkHealth blocks (ready s) (notified s) (<[e := blocks_ready]> (endpoints s)) (inflight s).

(** [can_indicate_ready.swap(false)]. *)
Definition ready_swap (e : nat) (s : Health) : bool * Health :=
  (default false (endpoints s !! e),
   mkHealth (ready_blocks s) (ready s) (notified s)
     (alter (λ _, false) e (endpoints s)) (inflight s)).

(** [ready_blocks.fetch_sub(1)]: the value before. *)
Definition ready_fetch_sub (s : Health) : Z * Health :=
  (ready_blocks s,
   mkHealth (u64 (ready_blocks s - 1)) (ready s) (notified s) (endpoints s) (inflight s)).

(** [ready.send_if_modified(..)]: set to [true], notify when it was not. *)
Definition ready_send (s : Health) : Health :=
  mkHealth (ready_blocks s) true (if ready s then notified s else S (notified s))
    (endpoints s) (inflight s).

(** [HealthEndpoint::ready], run without interruption. *)
Definition endpoint_ready (e : nat) (s : Health) : Health :=
  let '(can_indicate_ready, s) := ready_swap e s in
  if can_indicate_ready then
    let '(before_count, s) := ready_fetch_sub s in
    if (before_count =? 1)%Z then ready_send s else s
  else s.

(** [Drop]: [ready], and the endpoint is gone. *)
Definition remove_endpoint (e : nat) (s : Health) : Health :=
  mkHealth (ready_blocks s) (ready s) (notified s) (delete e (endpoints s)) (inflight s).

Definition endpoint_drop (e : nat) (s : Health) : Health :=
  remove_endpoint e (endpoint_ready e s).

(** ** Interleaved execution *)

Definition with_inflight (l : list pc) (s : Health) : Health :=
  mkHealth (ready_blocks s) (ready s) (notified s) (endpoints s) l.

Inductive step : Health → Health → Prop :=
| step_add s e b :
    endpoints s !! e = None →
    step s (health_add e b s)
| step_swap s e s' can :
    is_Some (endpoints s !! e) →
    ready_swap e s = (can, s') →
    step s (if can then with_inflight (NeedSub :: inflight s') s' else s')
| step_sub s s' before l1 l2 :
    inflight s = l1 ++ NeedSub :: l2 →
    ready_fetch_sub s = (before, s') →
    step s (with_inflight (l1 ++ (if (before =? 1)%Z then [NeedSend] else []) ++ l2) s')
| step_send s l1 l2 :
    inflight s = l1 ++ NeedSend :: l2 →
    step s (with_inflight (l1 ++ l2) (ready_send s))
| step_removed s e :
    endpoints s !! e = Some false →
    step s (remove_endpoint e s).

(** ** Counting the blocks *)

(** Endpoints that may still report. *)
Definition blocking (s : Health) : gmap nat bool := filter (λ kv, kv.2 = true) (endpoints s).

Definition count_pc (p : pc) (l : list pc) : nat := length (List.filter (λ q, bool_decide (q = p)) l).

(** Endpoints that may still report, and calls that did not decrement yet. *)
Definition pending_blocks (s : Health) : nat := size (blocking s) + count_pc NeedSub (inflight s).

Lemma count_pc_app p l1 l2 : count_pc p (l1 ++ l2) = count_pc p l1 + count_pc p l2.
Proof. unfold count_pc. by rewrite List.filter_app, length_app. Qed.

Lemma u64_add_mod z k : u64 (u64 z + k) = u64 (z + k).
Proof. unfold u64. by rewrite Zplus_mod_idemp_l. Qed.

Lemma blocking_lookup s e : blocking s !! e = Some true ↔ endpoints s !! e = Some true.
Proof. unfold blocking. rewrite map_lookup_filter_Some. naive_solver. Qed.

Lemma pending_add e b s :
  endpoints s !! e = None →
  pending_blocks (health_add e b s) = (if b then 1 else 0) + pending_blocks s.
Proof.
  intros He. unfold pending_blocks, blocking, health_add. simpl. destruct b.
  - rewrite map_filter_insert_True by done. rewrite map_size_insert_None; [lia|].
    apply map_lookup_filter_None. auto.
  - rewrite map_filter_insert_False by done. by rewrite delete_id by done.
Qed.

Lemma pending_swap_true e s s' :
  ready_swap e s = (true, s') →
  S (size (blocking s')) = size (blocking s) ∧ inflight s' = inflight s.
Proof.
  unfold ready_swap. intros [= He <-]. destruct (endpoints s !! e) as [b|] eqn:Hb; simplify_eq/=.
  split; [|done]. unfold blocking. simpl.
  assert (alter (λ _, false) e (endpoints s) = <[e := false]> (endpoints s)) as ->.
  { apply map_eq. intros i. rewrite lookup_alter, lookup_insert.
    case_decide; subst; [by rewrite Hb|done]. }
  assert (filter (λ kv, kv.2 = true) (endpoints s) !! e = Some true) as Hl
    by (by apply map_lookup_filter_Some).
  rewrite map_filter_insert_False, map_filter_delete, map_size_delete_Some by (done || eauto).
  assert (size (filter (λ kv, kv.2 = true) (endpoints s)) ≠ 0); [|lia].
  apply map_size_non_empty_iff. intros Hem. by rewrite Hem, lookup_empty in Hl.
Qed.

Lemma pending_swap_false e s s' :
  is_Some (endpoints s !! e) → ready_swap e s = (false, s') → s' = s.
Proof.
  unfold ready_swap. intros [b Hb] [= He <-]. rewrite Hb in He. simpl in He. subst.
  destruct s. simpl in *. f_equal. apply map_eq. intros i.
  rewrite lookup_alter. case_decide; subst; [by rewrite Hb|done].
Qed.

Lemma pending_removed e s :
  endpoints s !! e = Some false → pending_blocks (remove_endpoint e s) = pending_blocks s.
Proof.
  intros He. unfold pending_blocks, blocking, remove_endpoint. simpl.
  rewrite map_filter_delete, delete_id; [done|].
  apply map_lookup_filter_None. right. intros b Hb. by simplify_eq.
Qed.

(** ** The invariant *)

Record health_inv (s : Health) : Prop := {
  (** no increment or decrement is lost *)
  inv_count : ready_blocks s = u64 (Z.of_nat (pending_blocks s));
  (** once nothing is pending, the signal was given or is about to be *)
  inv_signal : pending_blocks s = 0 → ready s = true ∨ NeedSend ∈ inflight s;
  (** the receivers are notified once *)
  inv_notified : notified s = if ready s then 1 else 0;
}.

Lemma health_inv_new : health_inv health_new.
Proof. split; by vm_compute. Qed.

Lemma health_inv_swap e s s' :
  health_inv s → ready_swap e s = (true, s') →
  health_inv (with_inflight (NeedSub :: inflight s') s').
Proof.
  intros [Hc Hs Hn] Hsw. pose proof (pending_swap_true _ _ _ Hsw) as [Hsz Hin].
  assert (pending_blocks (with_inflight (NeedSub :: inflight s') s') = pending_blocks s) as Hp.
  { unfold pending_blocks. change (count_pc NeedSub (inflight (with_inflight (NeedSub :: inflight s') s')))
      with (S (count_pc NeedSub (inflight s'))).
    change (blocking (with_inflight _ s')) with (blocking s'). rewrite Hin. lia. }
  unfold ready_swap in Hsw. injection Hsw as _ Hs'. split; rewrite ?Hp; subst s'; simpl; try done.
  intros Hz. destruct (Hs Hz); [auto|right; set_solver].
Qed.

Lemma health_inv_sub s l1 l2 :
  health_inv s → inflight s = l1 ++ NeedSub :: l2 →
  let l' := l1 ++ (if (ready_blocks s =? 1)%Z then [NeedSend] else []) ++ l2 in
  health_inv (with_inflight l' (ready_fetch_sub s).2)
  ∧ S (pending_blocks (with_inflight l' (ready_fetch_sub s).2)) = pending_blocks s.
Proof.
  intros [Hc Hs Hn] Hl l'.
  assert (S (pending_blocks (with_inflight l' (ready_fetch_sub s).2)) = pending_blocks s) as Hp.
  { unfold pending_blocks, blocking, l'. simpl. rewrite Hl, !count_pc_app.
    destruct (ready_blocks s =? 1)%Z; unfold count_pc; simpl; lia. }
  split; [|done]. split; [|intros Hz|done].
  - change (u64 (ready_blocks s - 1) = u64 (Z.of_nat (pending_blocks
      (with_inflight l' (ready_fetch_sub s).2)))).
    rewrite Hc. unfold Z.sub. rewrite u64_add_mod. f_equal. lia.
  - right. rewrite Hz in Hp. rewrite <- Hp in Hc. unfold l'. simpl. rewrite Hc. simpl.
    set_solver.
Qed.

Lemma health_inv_step s s' : step s s' → health_inv s → health_inv s'.
Proof.
  intros Hstep Hinv. destruct Hstep as
    [s e b He|s e s' can He Hsw|s s' before l1 l2 Hl Hsub|s l1 l2 Hl|s e He].
  - destruct Hinv as [Hc Hs Hn]. split; simpl; [|rewrite pending_add by done|done].
    + rewrite pending_add, Hc by done. destruct b; [|done]. rewrite u64_add_mod.
      f_equal. lia.
    + destruct b; [done|]. exact Hs.
  - destruct can.
    + by eapply health_inv_swap.
    + apply pending_swap_false in Hsw as ->; done.
  - unfold ready_fetch_sub in Hsub. injection Hsub as <- <-. by apply health_inv_sub.
  - destruct Hinv as [Hc Hs Hn].
    assert (pending_blocks (with_inflight (l1 ++ l2) (ready_send s)) = pending_blocks s) as Hp.
    { unfold pending_blocks, blocking. simpl. by rewrite Hl, !count_pc_app. }
    split; simpl; [by rewrite Hp|by left|]. rewrite Hn. by destruct (ready s).
  - destruct Hinv as [Hc Hs Hn]. split; simpl; rewrite ?pending_removed by done; done.
Qed.

Lemma health_inv_reachable s : rtc step health_new s → health_inv s.
Proof.
  intros Hr. cut (∀ s0, rtc step s0 s → health_inv s0 → health_inv s);
    [eauto using health_inv_new|]. induction 1; eauto using health_inv_step.
Qed.

Lemma ready_step s s' : step s s' → ready s = true → ready s' = true.
Proof.
  destruct 1 as [|s e s' can He Hsw|s s' before l1 l2 Hl Hsub| |]; simpl; try done.
  - unfold ready_swap in Hsw. injection Hsw as <- <-. by destruct (default _ _).
  - unfold ready_fetch_sub in Hsub. by injection Hsub as <- <-.
Qed.

(** The fewer than 2^64 blocks a real process can have at once. *)
Definition bounded (s : Health) : Prop := (Z.of_nat (pending_blocks s) < 2 ^ 64)%Z.

Definition bstep (s s' : Health) : Prop := step s s' ∧ bounded s ∧ bounded s'.

(** A state in which every blocking endpoint has reported. *)
Definition all_reported (s : Health) : Prop :=
  blocking s = ∅ ∧ count_pc NeedSub (inflight s) = 0.

Lemma all_reported_pending s : pending_blocks s = 0 ↔ all_reported s.
Proof. unfold pending_blocks, all_reported. rewrite <- map_size_empty_iff. lia. Qed.

(** Only the decrement that brings the count to zero schedules a signal. *)
Lemma step_schedules s s' :
  health_inv s → bstep s s' → ready s = false → NeedSend ∉ inflight s →
  ready s' = true ∨ NeedSend ∈ inflight s' → all_reported s'.
Proof.
  intros Hinv [Hstep [Hb Hb']] Hr Hn Hsig. destruct Hstep as
    [s e b He|s e s' can He Hsw|s s' before l1 l2 Hl Hsub|s l1 l2 Hl|s e He].
  - by destruct Hsig as [Hsig|Hsig]; simpl in Hsig; [congruence|].
  - unfold ready_swap in Hsw. injection Hsw as <- <-.
    destruct (default false (endpoints s !! e)); simpl in Hsig;
      (destruct Hsig as [Hsig|Hsig]; [congruence|set_solver]).
  - unfold ready_fetch_sub in Hsub. injection Hsub as <- <-.
    destruct (health_inv_sub s l1 l2 Hinv Hl) as [_ Hp]. apply all_reported_pending.
    simpl in *. destruct (Z.eqb_spec (ready_blocks s) 1) as [H1|H1].
    + destruct Hinv as [Hc _ _]. unfold u64, bounded in *. rewrite Z.mod_small in Hc by lia. lia.
    + destruct Hsig as [?|Hsig]; [congruence|]. simpl in Hsig. rewrite Hl in Hn. set_solver.
  - rewrite Hl in Hn. set_solver.
  - by destruct Hsig as [Hsig|Hsig]; simpl in Hsig; [congruence|].
Qed.

Lemma signal_history s0 s :
  rtc bstep s0 s → health_inv s0 → ready s0 = false → NeedSend ∉ inflight s0 →
  ready s = true ∨ NeedSend ∈ inflight s →
  ∃ s', rtc bstep s0 s' ∧ rtc bstep s' s ∧ all_reported s'.
Proof.
  induction 1 as [s|s0 s1 s Hstep Hrest IH]; intros Hinv Hr Hn Hsig;
    [by destruct Hsig; [congruence|]|].
  destruct (decide (ready s1 = true ∨ NeedSend ∈ inflight s1)) as [Hs1|Hs1].
  - exists s1. split_and!; [by apply rtc_once|done|]. by eapply step_schedules.
  - destruct IH as (s' & ? & ? & ?); [by eapply health_inv_step; [apply Hstep|]| | |done|].
    + by destruct (ready s1); [destruct Hs1; left|].
    + intros ?. apply Hs1. by right.
    + exists s'. split_and!; [by eapply rtc_l|done|done].
Qed.

(** ** Theorems *)

(** The counter is exact under every interleaving: in every reachable state it is
    the number of endpoints that may still report plus the calls of [ready] that have
    not decremented yet, so no block is lost, counted twice or under-run; and the
    watch's receivers are notified at most once, exactly when it is [true]. *)
Theorem health_counter_exact s :
  rtc step health_new s →
  ready_blocks s = u64 (Z.of_nat (size (blocking s) + count_pc NeedSub (inflight s)))
  ∧ notified s = (if ready s then 1 else 0).
Proof. intros [? _ ?]%health_inv_reachable. done. Qed.

(** C23: Readiness is never signalled early: when the watch is [true], the execution
    went through a state in which every blocking endpoint had reported (with fewer
    than 2^64 blocks at any time, so that the counter does not wrap). *)
Theorem health_ready_safe s :
  rtc bstep health_new s →
  ready s = true →
  ∃ s', rtc bstep health_new s' ∧ rtc bstep s' s ∧ all_reported s'.
Proof.
  intros Hr Hs. eapply signal_history; eauto using health_inv_new.
  apply not_elem_of_nil.
Qed.

(** C24: Readiness is always signalled in the end: when every blocking endpoint has
    reported or was dropped and no call is in progress, the watch is [true]; and once
    it is, no step sets it back. *)
Theorem health_ready_live s :
  rtc step health_new s →
  (blocking s = ∅ → inflight s = [] → ready s = true)
  ∧ (ready s = true → ∀ s', rtc step s s' → ready s' = true).
Proof.
  intros Hr. split.
  - intros Hb Hi. apply health_inv_reachable in Hr as [_ Hsig _].
    destruct Hsig as [?|Hin]; [|done|].
    + apply all_reported_pending. split; [done|]. by rewrite Hi.
    + rewrite Hi in Hin. by apply elem_of_nil in Hin.
  - clear Hr. intros Hs s' Hrest. induction Hrest; eauto using ready_step.
Qed.

(** [HealthEndpoint::ready] is idempotent, and run without interruption it is one of
    the interleaved executions. *)
Theorem endpoint_ready_idempotent e s :
  is_Some (endpoints s !! e) →
  endpoint_ready e (endpoint_ready e s) = endpoint_ready e s
  ∧ rtc step s (endpoint_ready e s).
Proof.
  intros [b Hb].
  assert (endpoints (endpoint_ready e s) !! e = Some false) as Hf.
  { unfold endpoint_ready, ready_swap, ready_fetch_sub. rewrite Hb.
    destruct b; simpl; [destruct (ready_blocks s =? 1)%Z; simpl|];
      by rewrite lookup_alter, decide_True, Hb. }
  split.
  - unfold endpoint_ready at 1, ready_swap. rewrite Hf. simpl.
    set (t := endpoint_ready e s) in *. destruct t. simpl in *. f_equal.
    apply map_eq. intros i. rewrite lookup_alter. case_decide; subst; [by rewrite Hf|done].
  - unfold endpoint_ready. destruct (ready_swap e s) as [can s1] eqn:Hsw.
    pose proof (step_swap _ _ _ _ (mk_is_Some _ _ Hb) Hsw) as Hst. destruct can.
    + eapply rtc_l; [exact Hst|]. simpl.
      set (s2 := with_inflight _ s1) in *.
      pose proof (step_sub s2 (ready_fetch_sub s2).2 (ready_blocks s2) [] (inflight s1)
                    eq_refl eq_refl) as Hst2. simpl in Hst2.
      destruct (ready_blocks s1 =? 1)%Z; simpl in Hst2.
      * eapply rtc_l; [exact Hst2|]. apply rtc_once.
        pose proof (step_send (with_inflight (NeedSend :: inflight s1) (ready_fetch_sub s2).2)
          [] (inflight s1) eq_refl) as Hst3. by destruct s1.
      * apply rtc_once. by destruct s1.
    + by apply rtc_once.
Qed.

(** ** Witnesses: the root endpoint reports *)

Definition run1 : Health := with_inflight [NeedSub] (ready_swap 0 health_new).2.
Definition run2 : Health := with_inflight [NeedSend] (ready_fetch_sub run1).2.
Definition run3 : Health := with_inflight [] (ready_send run2).

Lemma run_bsteps : rtc bstep health_new run3.
Proof.
  apply (rtc_l _ _ run1); [|apply (rtc_l _ _ run2); [|apply rtc_once]].
  - split; [|by vm_compute]. by apply (step_swap health_new 0 (ready_swap 0 health_new).2 true).
  - split; [|by vm_compute]. by apply (step_sub run1 (ready_fetch_sub run1).2 1 [] []).
  - split; [|by vm_compute]. by apply (step_send run2 [] []).
Qed.

Lemma run_steps : rtc step health_new run3.
Proof. eapply rtc_subrel; [|apply run_bsteps]. by intros x y [? _]. Qed.

Lemma health_counter_exact_witness : ready_blocks run3 = 0%Z ∧ notified run3 = 1.
Proof. destruct (health_counter_exact run3 run_steps) as [_ Hn]. split; [reflexivity|exact Hn]. Defined.

Lemma health_ready_safe_witness :
  ∃ s', rtc bstep health_new s' ∧ rtc bstep s' run3 ∧ all_reported s'.
Proof. apply (health_ready_safe run3 run_bsteps). reflexivity. Defined.

Lemma health_ready_live_witness : ready run3 = true.
Proof. apply (proj1 (health_ready_live run3 run_steps)); vm_compute; reflexivity. Defined.

Lemma endpoint_ready_idempotent_witness :
  endpoint_ready 0 (endpoint_ready 0 health_new) = endpoint_ready 0 health_new.
Proof. apply (endpoint_ready_idempotent 0 health_new). by exists true. Defined.
