(* ===== verification/ResourceChange.v ===== *)
(** * ResourceChange: [resource_change.rs], from watcher events to changes

    [resource_changes] turns the events of a Kubernetes watcher into a stream of
    changes: it drops updates that carry a version already seen and, after a relist,
    emits the deletions the watch has missed. [on_event] is one round of its loop.

    [view_event] is the abstract specification: what the cluster holds according to
    the watcher's protocol. The refinement theorem says that a consumer that applies
    the changes in order holds exactly that, whenever no relist is in progress. *)

From stdpp Require Import gmap strings list fin_maps.
From S2P Require Import Prelude Crd.

(** What the source asks of a resource ([Lookup + Resource + Clone]): [make_key] and
    [resource_version()]. *)
Class KResource (K : Type) := {
  make_key : K → ObjectRef;
  k_version : K → option bytes;
}.
#[global] Hint Mode KResource ! : typeclass_instances.

#[global] Instance GrcacheService_resource : KResource GrcacheService := {|
  make_key := from_obj; k_version := resource_version |}.

(** [watcher::Event] and the items of the watcher's stream. *)
Inductive Event (K : Type) :=
| Init
| InitApply (r : K)
| InitDone
| EvApply (r : K)
| EvDelete (r : K)
| WatchError (e : bytes).
Arguments Init {K}. Arguments InitApply {K} r. Arguments InitDone {K}.
Arguments EvApply {K} r. Arguments EvDelete {K} r. Arguments WatchError {K} e.

(** [ResourceChange], and the items of the stream the source returns. *)
Inductive Change (K : Type) :=
| Ready
| Apply (r : K)
| Delete (k : ObjectRef)
| ChangeError (e : bytes).
Arguments Ready {K}. Arguments Apply {K} r. Arguments Delete {K} k. Arguments ChangeError {K} e.

(** The two maps the generator keeps. *)
Record ChangeState := mkChangeState {
  objects : gmap ObjectRef bytes;
  init_present : gset ObjectRef;
}.

Definition change_init : ChangeState := mkChangeState ∅ ∅.

(** The order in which a [HashMap] visits its keys: any order, and another one at each
    visit. *)
Class HashOrder := {
  visit : nat → list ObjectRef → list ObjectRef;
  visit_perm n l : visit n l ≡ₚ l;
}.

Section changes.
Context {K : Type} `{!KResource K, !HashOrder}.

(** The [match objects.entry(key)] of the two apply events. *)
Definition entry_apply (key : ObjectRef) (ver : bytes) (r : K) (objs : gmap ObjectRef bytes)
    : gmap ObjectRef bytes * list (Change K) :=
  match objs !! key with
  | Some old => if decide (old ≠ ver) then (<[key := ver]> objs, [Apply r]) else (objs, [])
  | None => (<[key := ver]> objs, [Apply r])
  end.

(** [objects.retain(..)]: what stays, and what is reported as removed in the order of the
    [n]th visit. *)
Definition retained (st : ChangeState) : gmap ObjectRef bytes :=
  filter (λ kv, kv.1 ∈ init_present st) (objects st).

Definition removed (n : nat) (st : ChangeState) : list ObjectRef :=
  filter (.∉ init_present st) (visit n (map_to_list (objects st)).*1).

(** The [n]th event: the new state and the items yielded, or a panic when a resource has no
    version. *)
Definition on_event (n : nat) (ev : Event K) (st : ChangeState)
    : outcome Empty_set (ChangeState * list (Change K)) :=
  match ev with
  | Init => Ok (mkChangeState (objects st) ∅, [])
  | InitApply r =>
    let key := make_key r in
    ver ← unwrap (k_version r);
    let present := {[key]} ∪ init_present st in
    let '(objs, out) := entry_apply key ver r (objects st) in
    Ok (mkChangeState objs present, out)
  | InitDone =>
    Ok (mkChangeState (retained st) ∅, (Delete <$> removed n st) ++ [Ready])
  | EvApply r =>
    let key := make_key r in
    ver ← unwrap (k_version r);
    let '(objs, out) := entry_apply key ver r (objects st) in
    Ok (mkChangeState objs (init_present st), out)
  | EvDelete r =>
    let key := make_key r in
    Ok (mkChangeState (delete key (objects st)) (init_present st), [Delete key])
  | WatchError e => Ok (st, [ChangeError e])
  end.

(** The [while let] loop over the events seen so far, the first of which is the [n]th. *)
Fixpoint resource_changes (n : nat) (evs : list (Event K)) (st : ChangeState)
    : outcome Empty_set (ChangeState * list (Change K)) :=
  match evs with
  | [] => Ok (st, [])
  | ev :: evs' =>
    '(st1, out) ← on_event n ev st;
    '(st2, out') ← resource_changes (S n) evs' st1;
    Ok (st2, out ++ out')
  end.

(** ** The consumer and the specification *)

(** A consumer that keeps a copy of the resources. *)
Definition apply_change (m : gmap ObjectRef K) (c : Change K) : gmap ObjectRef K :=
  match c with
  | Apply r => <[make_key r := r]> m
  | Delete k => delete k m
  | Ready | ChangeError _ => m
  end.

Definition apply_changes (m : gmap ObjectRef K) (cs : list (Change K)) : gmap ObjectRef K :=
  foldl apply_change m cs.

(** What the cluster holds: the view, and the listing in progress if there is one. *)
Record View := mkView { view : gmap ObjectRef K; listing : option (gmap ObjectRef K) }.

Definition view_init : View := mkView ∅ None.

(** The watcher's protocol: a listing is bracketed by [Init] and [InitDone], may be
    started again at any time, and replaces the view when it is done; single updates
    and deletions come between listings. [None] is a protocol violation. *)
Definition view_event (ev : Event K) (v : View) : option View :=
  match ev, listing v with
  | Init, _ => Some (mkView (view v) (Some ∅))
  | InitApply r, Some l => Some (mkView (view v) (Some (<[make_key r := r]> l)))
  | InitDone, Some l => Some (mkView l None)
  | EvApply r, None => Some (mkView (<[make_key r := r]> (view v)) None)
  | EvDelete r, None => Some (mkView (delete (make_key r) (view v)) None)
  | WatchError _, _ => Some v
  | _, _ => None
  end.

Fixpoint view_events (evs : list (Event K)) (v : View) : option View :=
  match evs with
  | [] => Some v
  | ev :: evs' => v' ← view_event ev v; view_events evs' v'
  end.

(** ** Hypotheses on the resources *)

(** The resource an event carries. *)
Definition event_resource (ev : Event K) : option K :=
  match ev with
  | InitApply r | EvApply r | EvDelete r => Some r
  | _ => None
  end.

(** Kubernetes: every resource has a version, and the version identifies the state of
    the resource. *)
Definition versioned (P : K → Prop) : Prop :=
  (∀ r, P r → is_Some (k_version r))
  ∧ ∀ r1 r2, P r1 → P r2 → make_key r1 = make_key r2 → k_version r1 = k_version r2 → r1 = r2.

(** ** The simulation *)

Context (P : K → Prop) (HP : versioned P).

(** The version map records exactly the consumer's copy. *)
Definition tracks (objs : gmap ObjectRef bytes) (m : gmap ObjectRef K) : Prop :=
  (∀ k, objs !! k = m !! k ≫= k_version)
  ∧ ∀ k r, m !! k = Some r → make_key r = k ∧ P r.

(** The consumer's copy against the view: equal to it between listings; while a listing
    is in progress it holds the listed resources, beside resources of an earlier view
    or of a listing that was started again. *)
Definition sim (st : ChangeState) (m : gmap ObjectRef K) (v : View) : Prop :=
  tracks (objects st) m ∧
  match listing v with
  | None => m = view v
  | Some l => init_present st = dom l ∧ l ⊆ m
  end.

Lemma tracks_empty : tracks ∅ ∅.
Proof. split; intros k; [done|]. intros r. by rewrite lookup_empty. Qed.

(** An apply event leaves the consumer with the new resource, whether or not it is
    passed on. *)
Lemma entry_apply_tracks objs m r ver objs' out :
  tracks objs m → P r → k_version r = Some ver →
  entry_apply (make_key r) ver r objs = (objs', out) →
  apply_changes m out = <[make_key r := r]> m ∧ tracks objs' (<[make_key r := r]> m).
Proof.
  intros [Hv Hk] Hr Hver He.
  assert (tracks (<[make_key r := ver]> objs) (<[make_key r := r]> m)) as Hins.
  { split; intros k; [|intros r']; rewrite ?lookup_insert; case_decide; subst; naive_solver. }
  unfold entry_apply in He. specialize (Hv (make_key r)) as Hvr.
  destruct (objs !! make_key r) as [old|] eqn:Hold; [case_decide as Hne|]; simplify_eq/=; try done.
  destruct (m !! make_key r) as [r'|] eqn:Hm; simplify_eq/=.
  destruct (Hk _ _ Hm) as [Hkey Hr'].
  assert (r' = r) as -> by (apply HP; congruence).
  rewrite insert_id by done. by split.
Qed.

Lemma apply_changes_app m cs1 cs2 :
  apply_changes m (cs1 ++ cs2) = apply_changes (apply_changes m cs1) cs2.
Proof. apply foldl_app. Qed.

(** Deletions can be applied in any order. *)
Lemma apply_deletes_lookup m ks k :
  apply_changes m (Delete <$> ks) !! k = if decide (k ∈ ks) then None else m !! k.
Proof.
  revert m. induction ks as [|k' ks IH]; intros m; [done|].
  cbn [fmap list_fmap apply_changes foldl apply_change].
  change (foldl apply_change (delete k' m) (Delete <$> ks))
    with (apply_changes (delete k' m) (Delete <$> ks)).
  rewrite IH, lookup_delete. repeat case_decide; set_solver.
Qed.

Lemma elem_of_removed n st k :
  k ∈ removed n st ↔ is_Some (objects st !! k) ∧ k ∉ init_present st.
Proof.
  unfold removed. rewrite list_elem_of_filter, visit_perm, list_elem_of_fmap. split.
  - intros [? ([k' v] & -> & Hin%elem_of_map_to_list)]. simpl. eauto.
  - intros [[v Hv] Hk]. split; [done|]. exists (k, v). split; [done|]. by apply elem_of_map_to_list.
Qed.

Lemma init_done_sim n st m v l :
  sim st m v → listing v = Some l →
  apply_changes m ((Delete <$> removed n st) ++ [Ready]) = l ∧ tracks (retained st) l.
Proof.
  intros [[Hv Hk] Hl] Hlist. rewrite Hlist in Hl. destruct Hl as [Hp Hm].
  assert (∀ k r, l !! k = Some r → m !! k = Some r) as Hsub
    by (intros k r Hr; by eapply lookup_weaken).
  assert (∀ k, k ∈ init_present st ↔ is_Some (l !! k)) as Hpres.
  { intros k. by rewrite Hp, elem_of_dom. }
  split.
  - rewrite apply_changes_app. cbn [apply_changes foldl apply_change].
    apply map_eq. intros k. change (foldl apply_change m (Delete <$> removed n st))
      with (apply_changes m (Delete <$> removed n st)).
    rewrite apply_deletes_lookup. destruct (l !! k) as [r|] eqn:Hlk.
    + rewrite decide_False; [by rewrite (Hsub _ _ Hlk)|].
      rewrite elem_of_removed, Hpres, Hlk. naive_solver.
    + destruct (m !! k) as [r|] eqn:Hmk; [|by case_decide].
      rewrite decide_True; [done|]. rewrite elem_of_removed, Hpres, Hlk, Hv, Hmk. simpl.
      split; [|by intros [? ?]]. apply (proj1 HP). by apply (Hk _ _ Hmk).
  - split.
    + intros k. unfold retained. destruct (l !! k) as [r|] eqn:Hlk; simpl.
      * rewrite map_lookup_filter, Hv, (Hsub _ _ Hlk). simpl.
        destruct (k_version r); simpl; [|done]. rewrite option_guard_True; [done|].
        simpl. by rewrite Hpres, Hlk.
      * apply map_lookup_filter_None. right. intros ver _ Hin. simpl in Hin.
        rewrite Hpres, Hlk in Hin. by destruct Hin.
    + intros k r Hr. by apply Hk, Hsub.
Qed.

(** The event's resource satisfies [P]. *)
Definition event_ok (ev : Event K) : Prop := ∀ r, event_resource ev = Some r → P r.

Lemma on_event_sim n ev st m v v' :
  sim st m v → view_event ev v = Some v' → event_ok ev →
  ∃ st' out, on_event n ev st = Ok (st', out) ∧ sim st' (apply_changes m out) v'.
Proof.
  intros Hsim Hview Hok. destruct v as [vw ls]. pose proof Hsim as [Htr Hl]. simpl in Hl.
  destruct ev as [|r| |r|r|e]; simpl in Hview.
  - injection Hview as <-. eexists _, _. split; [done|]. split; [done|]. simpl.
    split; [by rewrite dom_empty_L|]. apply map_empty_subseteq.
  - destruct ls as [l|]; simplify_eq/=. destruct Hl as [Hp Hm].
    assert (P r) as Hr by (by apply Hok). destruct (proj1 HP r Hr) as [ver Hver].
    rewrite Hver. simpl. destruct (entry_apply (make_key r) ver r (objects st)) as [objs out] eqn:He.
    destruct (entry_apply_tracks _ _ _ _ _ _ Htr Hr Hver He) as [Hm' Htr'].
    eexists _, _. split; [done|]. rewrite Hm'. split; [done|]. simpl.
    split; [by rewrite dom_insert_L, Hp|]. by apply insert_mono.
  - destruct ls as [l|]; simplify_eq/=. eexists _, _. split; [done|].
    destruct (init_done_sim n _ _ _ _ Hsim eq_refl) as [Hm' Htr'].
    rewrite Hm'. by split.
  - destruct ls as [l|]; simplify_eq/=.
    assert (P r) as Hr by (by apply Hok). destruct (proj1 HP r Hr) as [ver Hver].
    rewrite Hver. simpl. destruct (entry_apply (make_key r) ver r (objects st)) as [objs out] eqn:He.
    destruct (entry_apply_tracks _ _ _ _ _ _ Htr Hr Hver He) as [Hm' Htr'].
    eexists _, _. split; [done|]. rewrite Hm'. by split.
  - destruct ls as [l|]; simplify_eq/=. eexists _, _. split; [done|]. split; [|done].
    destruct Htr as [Hv Hk]. split; intros k; simpl; rewrite !lookup_delete; case_decide; naive_solver.
  - simplify_eq/=. eexists _, _. split; [done|]. done.
Qed.

Lemma resource_changes_sim n evs st m v v' :
  sim st m v → view_events evs v = Some v' → Forall event_ok evs →
  ∃ st' out, resource_changes n evs st = Ok (st', out) ∧ sim st' (apply_changes m out) v'.
Proof.
  revert n st m v. induction evs as [|ev evs IH]; intros n st m v Hsim Hview Hok.
  { simplify_eq/=. by eexists _, _. }
  simpl in Hview. apply bind_Some in Hview as (v1 & Hv1 & Hview).
  apply list.Forall_cons in Hok as [Hok1 Hok].
  destruct (on_event_sim n _ _ _ _ _ Hsim Hv1 Hok1) as (st1 & out1 & H1 & Hsim1).
  destruct (IH (S n) _ _ _ Hsim1 Hview Hok) as (st2 & out2 & H2 & Hsim2).
  exists st2, (out1 ++ out2). simpl. rewrite H1. simpl. rewrite H2. simpl.
  by rewrite apply_changes_app.
Qed.

Lemma sim_init : sim change_init ∅ view_init.
Proof. split; [apply tracks_empty|done]. Qed.

(** C13: Refinement. For every sequence of events that follows the watcher's protocol, on
    resources whose version identifies their state, the generator does not panic, and
    a consumer that applied all the changes yielded so far holds exactly what the
    cluster holds, whenever no listing is in progress, in whatever order the generator
    visits its map of objects: nothing is missed by dropping
    updates with a known version, and relisting removes what was deleted meanwhile. *)
Theorem resource_changes_refine n evs v :
  view_events evs view_init = Some v →
  Forall event_ok evs →
  ∃ st out, resource_changes n evs change_init = Ok (st, out)
  ∧ (listing v = None → apply_changes ∅ out = view v)
  ∧ (∀ l, listing v = Some l → l ⊆ apply_changes ∅ out).
Proof.
  intros Hview Hok.
  destruct (resource_changes_sim n _ _ _ _ _ sim_init Hview Hok) as (st & out & Hrun & _ & Hl).
  exists st, out. split; [done|]. destruct (listing v); naive_solver.
Qed.

(** A complete relist. *)
Definition relist (rs : list K) : list (Event K) :=
  [Init] ++ (InitApply <$> rs) ++ [InitDone].

(** Listing resources the consumer has yields nothing. *)
Lemma init_apply_known n rs st m :
  tracks (objects st) m → (∀ r, r ∈ rs → m !! make_key r = Some r) →
  resource_changes n (InitApply <$> rs) st
  = Ok (mkChangeState (objects st) (list_to_set (make_key <$> rs) ∪ init_present st), []).
Proof.
  revert n st. induction rs as [|r rs IH]; intros n st Htr Hrs; simpl.
  { rewrite (left_id_L ∅ (∪)). by destruct st. }
  assert (m !! make_key r = Some r) as Hm by (apply Hrs; set_solver).
  destruct Htr as [Hv Hk]. destruct (Hk _ _ Hm) as [_ Hr].
  destruct (proj1 HP r Hr) as [ver Hver]. rewrite Hver. simpl.
  assert (entry_apply (make_key r) ver r (objects st) = (objects st, [])) as ->.
  { unfold entry_apply. rewrite Hv, Hm. simpl. rewrite Hver. by rewrite decide_False by auto. }
  simpl. change (list_fmap (Event K) ?x) with (fmap (M:=list) (B:=Event K)).
  rewrite IH; [|by split|set_solver]. simpl. do 3 f_equal. set_solver.
Qed.

Lemma resource_changes_app n evs1 evs2 st :
  resource_changes n (evs1 ++ evs2) st =
  '(st1, out1) ← resource_changes n evs1 st;
  '(st2, out2) ← resource_changes (n + length evs1) evs2 st1;
  Ok (st2, out1 ++ out2).
Proof.
  revert n st. induction evs1 as [|ev evs1 IH]; intros n st; simpl.
  { rewrite Nat.add_0_r. by destruct (resource_changes n evs2 st) as [[]| |]. }
  destruct (on_event n ev st) as [[st1 out1]| |]; simpl; try done. rewrite IH. rewrite Nat.add_succ_r.
  destruct (resource_changes (S n) evs1 st1) as [[st2 out2]| |]; simpl; try done.
  destruct (resource_changes _ evs2 st2) as [[st3 out3]| |]; simpl; try done.
  by rewrite app_assoc.
Qed.

(** A reconnect does not churn: when the watcher lists again exactly the resources
    the cluster held, in any order, no change but [Ready] is passed on. *)
Theorem relist_is_silent n evs v rs :
  view_events evs view_init = Some v →
  Forall event_ok evs →
  listing v = None →
  (∀ k r, view v !! k = Some r ↔ r ∈ rs ∧ make_key r = k) →
  ∃ st out st', resource_changes n evs change_init = Ok (st, out)
  ∧ resource_changes (n + length evs) (relist rs) st = Ok (st', [Ready])
  ∧ objects st' = objects st.
Proof.
  intros Hview Hok Hlist Hrs.
  destruct (resource_changes_sim n _ _ _ _ _ sim_init Hview Hok) as (st & out & Hrun & Htr & Hl).
  rewrite Hlist in Hl. set (m := apply_changes ∅ out) in *.
  assert (∀ k, is_Some (objects st !! k) → k ∈ make_key <$> rs) as Hin.
  { intros k [ver Hver]. destruct Htr as [Hv Hk]. rewrite Hv in Hver.
    destruct (m !! k) as [r|] eqn:Hmk; [|done]. rewrite Hl in Hmk. apply Hrs in Hmk as [? <-].
    by apply list_elem_of_fmap_2. }
  set (present := list_to_set (make_key <$> rs) ∪ (∅ : gset ObjectRef)).
  set (st1 := mkChangeState (objects st) present).
  assert (∀ n, removed n st1 = []) as Hrem.
  { intros n'. apply elem_of_nil_inv. intros k [Hk Hn]%elem_of_removed. apply Hn. simpl. set_solver. }
  assert (retained st1 = objects st) as Hret.
  { unfold retained. apply map_filter_id. intros k ver Hk. simpl.
    assert (k ∈ make_key <$> rs) by eauto. set_solver. }
  exists st, out, (mkChangeState (objects st) ∅). split_and!; [done| |done].
  unfold relist. rewrite resource_changes_app. simpl. rewrite resource_changes_app.
  rewrite (init_apply_known _ rs (mkChangeState (objects st) ∅) m); [|done|].
  - simpl. fold present. fold st1. by rewrite Hrem, Hret.
  - intros r Hr. rewrite Hl. by apply Hrs.
Qed.
End changes.

(** ** Witnesses *)

(** Maps are visited in the order of their lists. *)
#[local] Instance list_order : HashOrder := {| visit _ l := l; visit_perm _ _ := reflexivity _ |}.

Definition svc (name version svc_name : string) : GrcacheService :=
  mkService (Some (lit "default")) (lit name) (Some (lit version))
    (mkSpec default_string None (Dns (lit "up") default_grpc_port) (lit svc_name) None).

(** Two services are listed, one is updated, the watch restarts and one is gone. *)
Definition sample_events : list (Event GrcacheService) :=
  [Init; InitApply (svc "a" "1" "p.A"); InitApply (svc "b" "2" "p.B"); InitDone;
   EvApply (svc "a" "3" "p.A2"); WatchError (lit "gone");
   Init; InitApply (svc "a" "3" "p.A2"); InitDone].

Definition sample_resources : list GrcacheService :=
  [svc "a" "1" "p.A"; svc "b" "2" "p.B"; svc "a" "3" "p.A2"].

Lemma sample_versioned : versioned (.∈ sample_resources).
Proof.
  split.
  - intros r Hr. by repeat (apply elem_of_cons in Hr as [->|Hr]; [eexists; reflexivity|]);
      apply elem_of_nil in Hr.
  - intros r1 r2 H1 H2.
    repeat (apply elem_of_cons in H1 as [->|H1]; [|]); [..|by apply elem_of_nil in H1];
    repeat (apply elem_of_cons in H2 as [->|H2]; [|]); (by apply elem_of_nil in H2) || done.
Qed.

Lemma sample_events_ok : Forall (event_ok (.∈ sample_resources)) sample_events.
Proof.
  unfold sample_events. rewrite !list.Forall_cons. split_and!; [..|by constructor];
    intros r Hr; simpl in Hr; simplify_eq; apply list_elem_of_In; simpl; auto.
Qed.

Lemma resource_changes_refine_witness :
  ∃ st out, resource_changes 0 sample_events change_init = Ok (st, out)
  ∧ (apply_changes ∅ out : gmap ObjectRef GrcacheService)
    = {[mkRef (Some (lit "default")) (lit "a") := svc "a" "3" "p.A2"]}.
Proof.
  destruct (resource_changes_refine (.∈ sample_resources) sample_versioned 0 sample_events
    (mkView {[mkRef (Some (lit "default")) (lit "a") := svc "a" "3" "p.A2"]} None))
    as (st & out & Hrun & Hout & _).
  - reflexivity.
  - exact sample_events_ok.
  - exists st, out. split; [exact Hrun|]. apply Hout. reflexivity.
Defined.

Lemma relist_is_silent_witness :
  ∃ st out st', resource_changes 0 sample_events change_init = Ok (st, out)
  ∧ resource_changes 9 (relist [svc "a" "3" "p.A2"]) st = Ok (st', [Ready])
  ∧ objects st' = objects st.
Proof.
  apply (relist_is_silent (.∈ sample_resources) sample_versioned 0 sample_events
    (mkView {[mkRef (Some (lit "default")) (lit "a") := svc "a" "3" "p.A2"]} None)).
  - reflexivity.
  - exact sample_events_ok.
  - reflexivity.
  - intros k r. simpl. rewrite lookup_singleton_Some, list_elem_of_singleton. naive_solver.
Defined.
