(* ===== verification/ServiceStore.v ===== *)
(** * ServiceStore: [service_store.rs], the table of services the proxy routes by

    [ServiceConfigState] follows the [GrcacheService] resources of the cluster and
    maintains the shared map [services] from gRPC service names to [ServiceData].
    Descriptor sets are loaded by spawned tasks that finish in any order; a generation
    number keeps an old task from overwriting newer data.

    The operations are translated one by one ([update_service_if_newer],
    [remove_noupdate], [remove_service], [apply_service], [update_service], [on_change]
    for the loop of [K8SConfigService::start], [run_task] for the spawned task);
    [store_step] interleaves the loop with the tasks. DNS discovery is used through the
    interface [DnsHandle], which the file Discovery implements. *)

From stdpp Require Import gmap strings list fin_maps relations.
From Stdlib Require Import Strings.Byte.
From S2P Require Import Prelude Text Crd ServiceSpec ResourceChange.

(** ** Selecting among duplicate resources *)

(** [Ord] of [Option<String>]: [None] first. *)
Definition opt_le (a b : option bytes) : Prop :=
  match a, b with
  | None, _ => True
  | Some _, None => False
  | Some x, Some y => bytes_le x y
  end.

#[global] Instance opt_le_dec : RelDecision opt_le.
Proof. intros [x|] [y|]; simpl; apply _. Defined.

(** [Ord] of the key [(&v.namespace, &v.name)]. *)
Definition ref_le (a b : ObjectRef) : Prop :=
  opt_le (ref_namespace a) (ref_namespace b) ∧
  (ref_namespace a = ref_namespace b → bytes_le (ref_name a) (ref_name b)).

#[global] Instance ref_le_dec : RelDecision ref_le.
Proof. intros a b. unfold ref_le. apply _. Defined.

(** [iter().min_by_key(..)]: the first of the smallest elements. *)
Definition min_by_key (l : list ObjectRef) : option ObjectRef :=
  match l with
  | [] => None
  | a :: l' => Some (foldl (λ m x, if decide (ref_le m x) then m else x) a l')
  end.

(** ** The interface of DNS discovery *)

(** [backends_for_hostname(hostname, port)]. *)
Class DnsHandle (Dns LB : Type) :=
  backends_for_hostname : Dns → bytes → Z → Dns * LB.
#[global] Hint Mode DnsHandle ! - : typeclass_instances.

(** The host and port a handle was made for. *)
Class LbTarget (LB : Type) := lb_target : LB → bytes * Z.

(** In the states discovery can be in, the handle returned is for the host and port
    asked for. *)
Class DnsHandleLaws (Dns LB : Type) `{!DnsHandle Dns LB, !LbTarget LB} := {
  dns_ok : Dns → Prop;
  backends_for_target (d : Dns) h p :
    dns_ok d → lb_target (backends_for_hostname d h p).2 = (h, p);
  backends_for_ok (d : Dns) h p :
    dns_ok d → dns_ok (backends_for_hostname d h p).1;
}.

Section store.
Context {R : Reflection} {DnsSt LB : Type} `{!DnsHandle DnsSt LB}.

Record ServiceData := mkServiceData {
  generation : nat;
  service_spec : option ServiceSpec;
  load_balancer : option LB;
}.

(** What a spawned task holds. *)
Record Task := mkTask {
  t_source : DescriptorSetSource;
  t_service_name : bytes;
  t_service : QualifiedService;
  t_generation : nat;
  t_load_balancer : LB;
}.

(** The shared map, the private state of the loop, and the tasks still running. *)
Record ServiceConfigState := mkStore {
  services : gmap bytes ServiceData;
  store_ready : bool;
  spec_generation : nat;
  raw_services : gmap ObjectRef GrcacheService;
  ref_by_grpc_service : gmap bytes (gset ObjectRef);
  dns : DnsSt;
  tasks : list Task;
}.

(** [K8SConfigService::new] and the initial state of [start]. *)
Definition store_new (d : DnsSt) : ServiceConfigState := mkStore ∅ false 0 ∅ ∅ d [].

Definition with_services (m : gmap bytes ServiceData) (st : ServiceConfigState) : ServiceConfigState :=
  mkStore m (store_ready st) (spec_generation st) (raw_services st) (ref_by_grpc_service st)
    (dns st) (tasks st).

(** [update_service_if_newer] on the shared map. The logging that follows an insertion
    unwraps the specification. *)
Definition update_service_if_newer (service_name : bytes) (data : ServiceData)
    (services : gmap bytes ServiceData) : outcome Empty_set (gmap bytes ServiceData) :=
  let insert := _ ← unwrap (service_spec data); Ok (<[service_name := data]> services) in
  match services !! service_name with
  | Some value => if (generation value <? generation data)%nat then insert else Ok services
  | None => insert
  end.

(** [update_service]. *)
Definition update_service (grpc_service : bytes) (st : ServiceConfigState)
    : outcome Empty_set ServiceConfigState :=
  objects ← (unwrap (ref_by_grpc_service st !! grpc_service) : outcome _ (gset ObjectRef));
  let generation := spec_generation st in
  if decide (objects = ∅) then
    Ok (mkStore (<[grpc_service := mkServiceData generation None None]> (services st))
          (store_ready st) (S generation) (raw_services st) (ref_by_grpc_service st)
          (dns st) (tasks st))
  else
    object_ref ← unwrap (min_by_key (elements objects));
    object ← unwrap (raw_services st !! object_ref);
    let service_name := service_name (spec object) in
    service ← unwrap_res (qualified_parse service_name);
    let '(dns', lb) :=
      match upstream (spec object) with Dns url port => backends_for_hostname (dns st) url port end in
    match descriptor_set_source (spec object) with
    | Some source =>
      Ok (mkStore (services st) (store_ready st) (S generation) (raw_services st)
            (ref_by_grpc_service st) dns'
            (tasks st ++ [mkTask source service_name service generation lb]))
    | None =>
      let spec := build_passthrough service in
      services' ← update_service_if_newer service_name
                    (mkServiceData generation (Some spec) (Some lb)) (services st);
      Ok (mkStore services' (store_ready st) (S generation) (raw_services st)
            (ref_by_grpc_service st) dns' (tasks st))
    end.

(** [remove_noupdate]. *)
Definition remove_noupdate (object_ref : ObjectRef) (st : ServiceConfigState)
    : outcome Empty_set (ServiceConfigState * option GrcacheService) :=
  let previous := raw_services st !! object_ref in
  let raw' := delete object_ref (raw_services st) in
  match previous with
  | Some p =>
    let name := service_name (spec p) in
    objects ← (unwrap (ref_by_grpc_service st !! name) : outcome _ (gset ObjectRef));
    Ok (mkStore (services st) (store_ready st) (spec_generation st) raw'
          (<[name := objects ∖ {[object_ref]}]> (ref_by_grpc_service st)) (dns st) (tasks st),
        previous)
  | None =>
    Ok (mkStore (services st) (store_ready st) (spec_generation st) raw'
          (ref_by_grpc_service st) (dns st) (tasks st), previous)
  end.

(** [remove]. *)
Definition remove_service (object_ref : ObjectRef) (st : ServiceConfigState)
    : outcome Empty_set ServiceConfigState :=
  '(st, previous) ← remove_noupdate object_ref st;
  match previous with
  | Some previous => update_service (service_name (spec previous)) st
  | None => Ok st
  end.

(** The insertions of [apply]. *)
Definition insert_service (object : GrcacheService) (st : ServiceConfigState) : ServiceConfigState :=
  let object_ref := from_obj object in
  let grpc_service := service_name (spec object) in
  mkStore (services st) (store_ready st) (spec_generation st)
    (<[object_ref := object]> (raw_services st))
    (<[grpc_service := {[object_ref]} ∪ default ∅ (ref_by_grpc_service st !! grpc_service)]>
       (ref_by_grpc_service st))
    (dns st) (tasks st).

(** [apply]. *)
Definition apply_service (object : GrcacheService) (st : ServiceConfigState)
    : outcome Empty_set ServiceConfigState :=
  '(st, _) ← remove_noupdate (from_obj object) st;
  update_service (service_name (spec object)) (insert_service object st).

(** One round of the loop of [K8SConfigService::start]; a watch error is only logged. *)
Definition on_change (change : Change GrcacheService) (st : ServiceConfigState)
    : outcome Empty_set ServiceConfigState :=
  match change with
  | Ready => Ok (mkStore (services st) true (spec_generation st) (raw_services st)
                   (ref_by_grpc_service st) (dns st) (tasks st))
  | Apply object => apply_service object st
  | Delete object_ref => remove_service object_ref st
  | ChangeError _ => Ok st
  end.

Fixpoint on_changes (cs : list (Change GrcacheService)) (st : ServiceConfigState)
    : outcome Empty_set ServiceConfigState :=
  match cs with
  | [] => Ok st
  | c :: cs' => st' ← on_change c st; on_changes cs' st'
  end.

(** The body of a spawned task, given what loading its descriptor set returned. *)
Definition run_task {E} (loaded : outcome E (list FileDescriptorProto)) (t : Task)
    (services : gmap bytes ServiceData) : outcome Empty_set (gmap bytes ServiceData) :=
  descriptor_set ← unwrap_res loaded;
  '(spec, _) ← unwrap_res (service_build descriptor_set (t_service t));
  update_service_if_newer (t_service_name t)
    (mkServiceData (t_generation t) (Some spec) (Some (t_load_balancer t))) services.

(** A task that panics dies alone: the map is left as it was. *)
Definition finish_task {E} (loaded : outcome E (list FileDescriptorProto)) (t : Task)
    (services : gmap bytes ServiceData) : gmap bytes ServiceData :=
  match run_task loaded t services with Ok m => m | _ => services end.

(** ** Interleaving the loop with the tasks *)

Definition with_tasks (m : gmap bytes ServiceData) (l : list Task) (st : ServiceConfigState)
    : ServiceConfigState :=
  mkStore m (store_ready st) (spec_generation st) (raw_services st) (ref_by_grpc_service st)
    (dns st) l.

Inductive task_step : ServiceConfigState → ServiceConfigState → Prop :=
| task_step_finish st l1 t l2 E (loaded : outcome E (list FileDescriptorProto)) :
    tasks st = l1 ++ t :: l2 →
    task_step st (with_tasks (finish_task loaded t (services st)) (l1 ++ l2) st).

(** Discovery runs on its own between the steps of the store. *)
Definition with_dns (d : DnsSt) (st : ServiceConfigState) : ServiceConfigState :=
  mkStore (services st) (store_ready st) (spec_generation st) (raw_services st)
    (ref_by_grpc_service st) d (tasks st).

Inductive store_step : ServiceConfigState → ServiceConfigState → Prop :=
| store_step_change st c st' :
    on_change c st = Ok st' → store_step st st'
| store_step_task st st' :
    task_step st st' → store_step st st'
| store_step_dns st d :
    store_step st (with_dns d st).
End store.

Arguments ServiceData {R} LB.
Arguments ServiceConfigState {R} DnsSt LB.
Arguments Task LB : clear implicits.
