(* ===== verification/StoreInv.v ===== *)
(** * StoreInv: the invariant of the service store, and freedom from panics

    The index [ref_by_grpc_service] and the resources agree, every generation number in
    use is below the counter and belongs to one update. With it, the [unwrap]s and the
    indexing of [service_store.rs] never fail, except on a resource whose service name
    has no dot. *)

From stdpp Require Import gmap strings list fin_maps relations.
From Stdlib Require Import Strings.Byte.
From S2P Require Import Prelude Text Crd ServiceSpec ResourceChange ServiceStore.

(** ** The order on references *)

#[global] Instance opt_le_po : PartialOrder opt_le.
Proof.
  split; [split|].
  - intros [x|]; simpl; done.
  - intros [x|] [y|] [z|]; simpl; try done. apply (transitivity (R:=bytes_le)).
  - intros [x|] [y|]; simpl; try done. intros. f_equal. by apply (anti_symm bytes_le).
Qed.

#[global] Instance opt_le_total : Total opt_le.
Proof. intros [x|] [y|]; simpl; auto. apply (total bytes_le). Qed.

#[global] Instance ref_le_po : PartialOrder ref_le.
Proof.
  unfold ref_le. split; [split|].
  - by intros [ns n].
  - intros [a x] [b y] [c z]; simpl. intros [Hab Hxy] [Hbc Hyz]. split; [by etrans|].
    intros ->. assert (c = b) as -> by (by apply (anti_symm opt_le)). etrans; eauto.
  - intros [a x] [b y]; simpl. intros [Hab Hxy] [Hba Hyx].
    assert (a = b) as -> by (by apply (anti_symm opt_le)). f_equal.
    apply (anti_symm bytes_le); auto.
Qed.

#[global] Instance ref_le_total : Total ref_le.
Proof.
  intros [a x] [b y]. unfold ref_le. simpl.
  destruct (decide (a = b)) as [->|Hne].
  - by destruct (total bytes_le x y); [left|right].
  - destruct (total opt_le a b); [left|right]; split; auto; congruence.
Qed.

Lemma foldl_min_spec l a :
  let m := foldl (λ m x, if decide (ref_le m x) then m else x) a l in
  (m = a ∨ m ∈ l) ∧ ref_le m a ∧ ∀ x, x ∈ l → ref_le m x.
Proof.
  revert a. induction l as [|y l IH]; intros a; simpl.
  { split_and!; [auto|done|]. intros x Hx. by apply elem_of_nil in Hx. }
  case_decide as Hle.
  - destruct (IH a) as (Hin & Ha & Hl). split_and!; [set_solver|done|].
    intros x [->|Hx]%elem_of_cons; [by etrans|auto].
  - destruct (IH y) as (Hin & Hy & Hl).
    assert (ref_le y a) by (by destruct (total ref_le a y)).
    split_and!; [set_solver|by etrans|]. intros x [->|Hx]%elem_of_cons; auto.
Qed.

Lemma min_by_key_spec l m :
  min_by_key l = Some m ↔ m ∈ l ∧ ∀ x, x ∈ l → ref_le m x.
Proof.
  destruct l as [|a l]; simpl.
  { split; [done|]. by intros [?%elem_of_nil _]. }
  pose proof (foldl_min_spec l a) as Hspec. cbn zeta in Hspec.
  set (m' := foldl _ a l) in *. destruct Hspec as (Hin & Ha & Hl).
  assert (m' ∈ a :: l ∧ ∀ x, x ∈ a :: l → ref_le m' x) as [Hin' Hle'].
  { split; [set_solver|]. intros x [->|Hx]%elem_of_cons; auto. }
  split; [by intros [= <-]|]. intros [Hm Hle]. f_equal. apply (anti_symm ref_le); auto.
Qed.

Lemma min_by_key_None l : min_by_key l = None ↔ l = [].
Proof. by destruct l. Qed.

Section inv.
Context {R : Reflection} {DnsSt LB : Type} `{!DnsHandle DnsSt LB}.
Implicit Types (st : ServiceConfigState DnsSt LB).

(** The references of a service name. *)
Definition refs_of (st : ServiceConfigState DnsSt LB) (n : bytes) : gset ObjectRef :=
  default ∅ (ref_by_grpc_service st !! n).

(** The resource selected for a service name. *)
Definition selected (st : ServiceConfigState DnsSt LB) (n : bytes) : option GrcacheService :=
  min_by_key (elements (refs_of st n)) ≫= λ r, raw_services st !! r.

Record store_inv (st : ServiceConfigState DnsSt LB) : Prop := {
  inv_raw : ∀ r o, raw_services st !! r = Some o →
    from_obj o = r ∧ dot ∈ service_name (spec o);
  inv_refs : ∀ n r, r ∈ refs_of st n ↔
    ∃ o, raw_services st !! r = Some o ∧ service_name (spec o) = n;
  inv_gen : ∀ n d, services st !! n = Some d → generation d < spec_generation st;
  inv_task_gen : ∀ t, t ∈ tasks st → t_generation t < spec_generation st;
  inv_task_nodup : NoDup (t_generation <$> tasks st);
  inv_task_fresh : ∀ d t, services st !! t_service_name t = Some d → t ∈ tasks st →
    generation d ≠ t_generation t;
}.

Lemma store_inv_new d : store_inv (store_new d).
Proof.
  split; unfold refs_of; simpl.
  - intros r o. by rewrite lookup_empty.
  - intros n r. rewrite lookup_empty. simpl. setoid_rewrite lookup_empty. set_solver.
  - intros n d'. by rewrite lookup_empty.
  - intros t Ht. by apply elem_of_nil in Ht.
  - constructor.
  - intros d' t. by rewrite lookup_empty.
Qed.

Lemma selected_Some st n o :
  store_inv st → selected st n = Some o → raw_services st !! from_obj o = Some o
  ∧ service_name (spec o) = n ∧ dot ∈ n.
Proof.
  intros Hinv (r & Hr & Ho)%bind_Some. apply min_by_key_spec in Hr as [Hin _].
  apply elem_of_elements in Hin. apply (inv_refs _ Hinv) in Hin as (o' & Ho' & <-).
  assert (o' = o) as -> by congruence. by destruct (inv_raw _ Hinv _ _ Ho) as [-> ?].
Qed.

Lemma selected_None st n :
  store_inv st → selected st n = None ↔ refs_of st n = ∅.
Proof.
  intros Hinv. unfold selected. split.
  - intros Hs. destruct (min_by_key (elements (refs_of st n))) as [r|] eqn:Hr.
    + pose proof Hr as [Hin _]%min_by_key_spec. apply elem_of_elements in Hin.
      apply (inv_refs _ Hinv) in Hin as (o & Ho & _). simpl in Hs. congruence.
    + apply min_by_key_None, elements_empty_iff in Hr. by apply leibniz_equiv.
  - by intros ->.
Qed.

(** The handle [update_service] asks for. *)
Definition handle_for (st : ServiceConfigState DnsSt LB) (o : GrcacheService) : DnsSt * LB :=
  match upstream (spec o) with Dns url port => backends_for_hostname (dns st) url port end.

(** The three results of [update_service]. *)
Definition unloaded (n : bytes) (st : ServiceConfigState DnsSt LB) : ServiceConfigState DnsSt LB :=
  mkStore (<[n := mkServiceData (spec_generation st) None None]> (services st))
    (store_ready st) (S (spec_generation st)) (raw_services st) (ref_by_grpc_service st)
    (dns st) (tasks st).

Definition spawned (n : bytes) (o : GrcacheService) (q : QualifiedService)
    (source : DescriptorSetSource) (st : ServiceConfigState DnsSt LB) : ServiceConfigState DnsSt LB :=
  mkStore (services st) (store_ready st) (S (spec_generation st)) (raw_services st)
    (ref_by_grpc_service st) (handle_for st o).1
    (tasks st ++ [mkTask source n q (spec_generation st) (handle_for st o).2]).

Definition passed_through (n : bytes) (o : GrcacheService) (q : QualifiedService)
    (st : ServiceConfigState DnsSt LB) : ServiceConfigState DnsSt LB :=
  mkStore (<[n := mkServiceData (spec_generation st) (Some (build_passthrough q))
                    (Some (handle_for st o).2)]> (services st))
    (store_ready st) (S (spec_generation st)) (raw_services st) (ref_by_grpc_service st)
    (handle_for st o).1 (tasks st).

(** [update_service] in terms of the selected resource: with the invariant, none of its
    [unwrap]s fails. *)
Lemma update_service_eq st n :
  store_inv st → is_Some (ref_by_grpc_service st !! n) →
  match selected st n with
  | None => update_service n st = Ok (unloaded n st)
  | Some o => ∃ q, qualified_parse n = Ok q ∧
    update_service n st = Ok (match descriptor_set_source (spec o) with
                              | Some source => spawned n o q source st
                              | None => passed_through n o q st
                              end)
  end.
Proof.
  intros Hinv [objs Hobjs]. unfold update_service. rewrite Hobjs. simpl.
  assert (refs_of st n = objs) as Hrefs by (unfold refs_of; by rewrite Hobjs).
  destruct (selected st n) as [o|] eqn:Hsel.
  - destruct (selected_Some _ _ _ Hinv Hsel) as (Hraw & Hname & Hdot).
    assert (objs ≠ ∅) as Hne.
    { rewrite <- Hrefs. intros He. apply (selected_None _ _ Hinv) in He. congruence. }
    rewrite decide_False by done.
    unfold selected in Hsel. rewrite Hrefs in Hsel. apply bind_Some in Hsel as (r & Hr & Ho).
    rewrite Hr. simpl. rewrite Ho. simpl. rewrite Hname.
    destruct (qualified_parse n) as [q| |] eqn:Hq; [|exfalso..].
    + exists q. split; [done|]. simpl. unfold spawned, passed_through, handle_for.
      destruct (upstream (spec o)) as [url port].
      destruct (backends_for_hostname (dns st) url port) as [dns' lb]. simpl.
      destruct (descriptor_set_source (spec o)); [done|].
      unfold update_service_if_newer. simpl.
      destruct (services st !! n) as [d|] eqn:Hd; [|done].
      apply (inv_gen _ Hinv) in Hd. apply Nat.ltb_lt in Hd. by rewrite Hd.
    + unfold qualified_parse in Hq. crush_in Hq. by apply rsplit_once_None in Heqo0.
    + by apply qualified_parse_no_panic in Hq.
  - apply (selected_None _ _ Hinv) in Hsel. rewrite Hrefs in Hsel. subst objs.
    by rewrite decide_True.
Qed.

(** ** Preservation *)

(** Writing data of the current generation to the map. *)
Lemma store_inv_installed st n d dns' :
  store_inv st → generation d = spec_generation st →
  store_inv (mkStore (<[n := d]> (services st)) (store_ready st) (S (spec_generation st))
               (raw_services st) (ref_by_grpc_service st) dns' (tasks st)).
Proof.
  intros [Hraw Hrefs Hgen Htg Hnd Hfr] Hd. split; simpl; try done.
  - intros n' d'. rewrite lookup_insert. case_decide; [intros [= <-]; lia|].
    intros Hd'%Hgen. lia.
  - intros t Ht%Htg. lia.
  - intros d' t. rewrite lookup_insert. case_decide; [|apply Hfr].
    intros [= <-] Ht%Htg. lia.
Qed.

Lemma store_inv_unloaded st n : store_inv st → store_inv (unloaded n st).
Proof. intros Hinv. by apply store_inv_installed. Qed.

Lemma store_inv_passed_through st n o q : store_inv st → store_inv (passed_through n o q st).
Proof. intros Hinv. by apply store_inv_installed. Qed.

Lemma store_inv_spawned st n o q src : store_inv st → store_inv (spawned n o q src st).
Proof.
  intros [Hraw Hrefs Hgen Htg Hnd Hfr]. split; simpl; try done.
  - intros n' d Hd%Hgen. lia.
  - intros t [Ht%Htg| ->%list_elem_of_singleton]%elem_of_app; simpl; lia.
  - rewrite fmap_app. apply NoDup_app. split_and!; [done| |apply NoDup_singleton].
    intros g (t & -> & Ht%Htg)%list_elem_of_fmap. simpl.
    rewrite list_elem_of_singleton. lia.
  - intros d t Hd [Ht| ->%list_elem_of_singleton]%elem_of_app; [by eapply Hfr|].
    apply Hgen in Hd. simpl. lia.
Qed.

Lemma update_service_inv st n :
  store_inv st → is_Some (ref_by_grpc_service st !! n) →
  ∃ st', update_service n st = Ok st' ∧ store_inv st'
    ∧ raw_services st' = raw_services st ∧ ref_by_grpc_service st' = ref_by_grpc_service st.
Proof.
  intros Hinv Hn. pose proof (update_service_eq st n Hinv Hn) as Heq.
  destruct (selected st n) as [o|].
  - destruct Heq as (q & _ & Heq). rewrite Heq. eexists. split; [done|].
    destruct (descriptor_set_source (spec o));
      split_and!; auto using store_inv_spawned, store_inv_passed_through.
  - rewrite Heq. eexists. split_and!; auto using store_inv_unloaded.
Qed.

(** [remove_noupdate] takes the resource out of the map and out of the index. *)
Lemma remove_noupdate_inv st r :
  store_inv st →
  ∃ st', remove_noupdate r st = Ok (st', raw_services st !! r) ∧ store_inv st'
    ∧ raw_services st' = delete r (raw_services st)
    ∧ (∀ n, refs_of st' n = refs_of st n ∖ {[r]})
    ∧ (∀ n, is_Some (ref_by_grpc_service st !! n) → is_Some (ref_by_grpc_service st' !! n))
    ∧ (∀ p, raw_services st !! r = Some p → is_Some (ref_by_grpc_service st' !! service_name (spec p)))
    ∧ services st' = services st ∧ tasks st' = tasks st ∧ spec_generation st' = spec_generation st
    ∧ dns st' = dns st ∧ store_ready st' = store_ready st.
Proof.
  intros Hinv. pose proof Hinv as [Hraw Hrefs Hgen Htg Hnd Hfr].
  unfold remove_noupdate.
  assert (∀ n, (∀ p, raw_services st !! r = Some p → service_name (spec p) ≠ n) →
            refs_of st n ∖ {[r]} = refs_of st n) as Hother.
  { intros n Hp. assert (r ∉ refs_of st n); [|set_solver].
    intros (p & Hr & Hn)%Hrefs. by eapply Hp. }
  assert (∀ st', raw_services st' = delete r (raw_services st) →
            (∀ n, refs_of st' n = refs_of st n ∖ {[r]}) →
            ∀ n r', r' ∈ refs_of st' n ↔
            ∃ o, raw_services st' !! r' = Some o ∧ service_name (spec o) = n) as Hrefs'.
  { intros st' Hr' Hf n r'. rewrite Hf, Hr', elem_of_difference, Hrefs, not_elem_of_singleton.
    setoid_rewrite lookup_delete_Some. naive_solver. }
  destruct (raw_services st !! r) as [p|] eqn:Hp; simpl.
  - assert (r ∈ refs_of st (service_name (spec p))) as Hin by (apply Hrefs; eauto).
    unfold refs_of in Hin.
    destruct (ref_by_grpc_service st !! service_name (spec p)) as [objs|] eqn:Hobjs; [|set_solver].
    simpl. eexists. split; [done|].
    match goal with |- store_inv ?s ∧ _ => set (st' := s) end.
    assert (∀ n, refs_of st' n = refs_of st n ∖ {[r]}) as Hf.
    { intros n. destruct (decide (service_name (spec p) = n)) as [<-|Hne].
      - unfold refs_of, st'. simpl. by rewrite lookup_insert_eq, Hobjs.
      - rewrite Hother by (intros; by simplify_eq). unfold refs_of, st'. simpl.
        by rewrite lookup_insert_ne. }
    split_and!; try done.
    + split; try done; [|by apply Hrefs']. intros r' o. simpl.
      rewrite lookup_delete_Some. naive_solver.
    + intros n Hn. unfold st'. simpl. rewrite lookup_insert. case_decide; eauto.
    + intros p' [= <-]. unfold st'. simpl. rewrite lookup_insert_eq. eauto.
  - eexists. split; [done|].
    match goal with |- store_inv ?s ∧ _ => set (st' := s) end.
    assert (∀ n, refs_of st' n = refs_of st n ∖ {[r]}) as Hf.
    { intros n. by rewrite Hother. }
    split_and!; try done. split; try done; [|by apply Hrefs']. intros r' o. simpl.
    rewrite lookup_delete_Some. naive_solver.
Qed.

Lemma insert_service_refs st o n :
  refs_of (insert_service o st) n =
  if decide (service_name (spec o) = n) then {[from_obj o]} ∪ refs_of st n else refs_of st n.
Proof.
  unfold refs_of, insert_service. simpl. rewrite lookup_insert. by case_decide; subst.
Qed.

Lemma insert_service_inv st o :
  store_inv st → raw_services st !! from_obj o = None → dot ∈ service_name (spec o) →
  store_inv (insert_service o st).
Proof.
  intros [Hraw Hrefs Hgen Htg Hnd Hfr] Hnone Hdot. split; try done.
  - intros r o'. simpl. rewrite lookup_insert. case_decide; [naive_solver|apply Hraw].
  - intros n r. rewrite insert_service_refs. simpl.
    setoid_rewrite lookup_insert_Some. case_decide.
    + rewrite elem_of_union, elem_of_singleton, Hrefs.
      split; [|naive_solver]. intros [->|(o' & ? & ?)]; [naive_solver|].
      exists o'. split; [|done]. right. split; [|done]. intros <-. congruence.
    + rewrite Hrefs. split; [|naive_solver]. intros (o' & ? & ?).
      exists o'. split; [|done]. right. split; [|done]. intros <-. congruence.
Qed.

(** The state [apply] reaches before [update_service]. *)
Lemma apply_service_eq st o :
  store_inv st →
  ∃ st1, remove_noupdate (from_obj o) st = Ok (st1, raw_services st !! from_obj o)
    ∧ store_inv st1 ∧ raw_services st1 !! from_obj o = None
    ∧ apply_service o st = update_service (service_name (spec o)) (insert_service o st1)
    ∧ raw_services (insert_service o st1) = <[from_obj o := o]> (raw_services st)
    ∧ is_Some (ref_by_grpc_service (insert_service o st1) !! service_name (spec o))
    ∧ services st1 = services st ∧ tasks st1 = tasks st ∧ spec_generation st1 = spec_generation st
    ∧ dns st1 = dns st.
Proof.
  intros Hinv. destruct (remove_noupdate_inv st (from_obj o) Hinv)
    as (st1 & Hrm & Hinv1 & Hraw & Hrefs & _ & _ & Hsv & Htk & Hg & Hdns & _).
  exists st1. split_and!; try done.
  - by rewrite Hraw, lookup_delete_eq.
  - unfold apply_service. by rewrite Hrm.
  - simpl. by rewrite Hraw, insert_delete_eq.
  - simpl. rewrite lookup_insert_eq. eauto.
Qed.

Lemma apply_service_inv st o :
  store_inv st → dot ∈ service_name (spec o) →
  ∃ st', apply_service o st = Ok st' ∧ store_inv st'
    ∧ raw_services st' = <[from_obj o := o]> (raw_services st).
Proof.
  intros Hinv Hdot.
  destruct (apply_service_eq st o Hinv) as (st1 & _ & Hinv1 & Hnone & -> & Hraw & Hsome & _).
  destruct (update_service_inv (insert_service o st1) (service_name (spec o)))
    as (st' & Hup & Hinv' & Hraw' & _); [by apply insert_service_inv|done|].
  exists st'. rewrite Hup. split_and!; [done..|]. congruence.
Qed.

Lemma apply_service_panics st o :
  store_inv st → dot ∉ service_name (spec o) → apply_service o st = Panic.
Proof.
  intros Hinv Hdot.
  destruct (apply_service_eq st o Hinv) as (st1 & _ & Hinv1 & Hnone & -> & Hraw & _).
  set (st2 := insert_service o st1) in *. set (n := service_name (spec o)) in *.
  assert (ref_by_grpc_service st2 !! n = Some {[from_obj o]}) as Hobjs.
  { assert (refs_of st1 n = ∅) as He.
    { apply set_eq. intros r. split; [|set_solver]. intros (o' & Ho' & Hn)%(inv_refs _ Hinv1).
      apply (inv_raw _ Hinv1) in Ho' as [_ Hd]. congruence. }
    unfold st2, insert_service. simpl. rewrite lookup_insert_eq. f_equal.
    change (default ∅ (ref_by_grpc_service st1 !! service_name (spec o))) with (refs_of st1 n).
    rewrite He. set_solver. }
  unfold update_service. rewrite Hobjs. simpl.
  rewrite decide_False by set_solver. rewrite elements_singleton. simpl.
  assert (raw_services st2 !! from_obj o = Some o) as Ho by (by rewrite Hraw, lookup_insert_eq).
  change (<[from_obj o := o]> (raw_services st1)) with (raw_services st2). rewrite Ho. simpl.
  unfold qualified_parse. change (service_name (spec o)) with n.
  by rewrite (proj2 (rsplit_once_None _ _) Hdot).
Qed.

Lemma remove_service_inv st r :
  store_inv st →
  ∃ st', remove_service r st = Ok st' ∧ store_inv st'
    ∧ raw_services st' = delete r (raw_services st).
Proof.
  intros Hinv. destruct (remove_noupdate_inv st r Hinv)
    as (st1 & Hrm & Hinv1 & Hraw & _ & _ & Hsome & _).
  unfold remove_service. rewrite Hrm. simpl.
  destruct (raw_services st !! r) as [p|]; [|by eauto].
  destruct (update_service_inv st1 (service_name (spec p))) as (st' & Hup & Hinv' & Hraw' & _);
    [done|by apply Hsome|].
  exists st'. rewrite Hup. split_and!; [done..|]. congruence.
Qed.

Lemma on_change_inv c st st' : store_inv st → on_change c st = Ok st' → store_inv st'.
Proof.
  intros Hinv. destruct c as [|o|r|e]; simpl.
  - intros [= <-]. by destruct Hinv.
  - destruct (decide (dot ∈ service_name (spec o))) as [Hd|Hd].
    + destruct (apply_service_inv st o Hinv Hd) as (st'' & -> & ? & _). congruence.
    + by rewrite apply_service_panics.
  - destruct (remove_service_inv st r Hinv) as (st'' & -> & ? & _). congruence.
  - congruence.
Qed.

(** ** What a change does to the table, the tasks and discovery *)

(** Nothing, or a tombstone, or a handle of discovery that goes into the table or into a
    new task, for the upstream of a resource that has the service name. *)
Inductive store_effect (st st' : ServiceConfigState DnsSt LB) : Prop :=
| effect_none :
    services st' = services st → tasks st' = tasks st → dns st' = dns st → store_effect st st'
| effect_unloaded n g :
    services st' = <[n := mkServiceData g None None]> (services st) → tasks st' = tasks st →
    dns st' = dns st → store_effect st st'
| effect_routed o url port g sp :
    raw_services st' !! from_obj o = Some o → upstream (spec o) = Dns url port →
    services st' = <[service_name (spec o) :=
      mkServiceData g (Some sp) (Some (backends_for_hostname (dns st) url port).2)]> (services st) →
    tasks st' = tasks st → dns st' = (backends_for_hostname (dns st) url port).1 → store_effect st st'
| effect_spawned o url port g src q :
    raw_services st' !! from_obj o = Some o → upstream (spec o) = Dns url port →
    services st' = services st →
    tasks st' = tasks st
      ++ [mkTask src (service_name (spec o)) q g (backends_for_hostname (dns st) url port).2] →
    dns st' = (backends_for_hostname (dns st) url port).1 → store_effect st st'.

Lemma update_service_effect st st' n :
  store_inv st → is_Some (ref_by_grpc_service st !! n) → update_service n st = Ok st' →
  store_effect st st' ∧ raw_services st' = raw_services st ∧ store_ready st' = store_ready st.
Proof.
  intros Hinv Hn Hup. pose proof (update_service_eq st n Hinv Hn) as Heq.
  destruct (selected st n) as [o|] eqn:Hsel.
  - destruct (selected_Some _ _ _ Hinv Hsel) as (Hraw & <- & _).
    destruct Heq as (q & _ & Heq). rewrite Heq in Hup. injection Hup as <-.
    unfold spawned, passed_through, handle_for. destruct (upstream (spec o)) as [url port] eqn:Hu.
    destruct (descriptor_set_source (spec o)) as [src|]; (split; [|done]).
    + by eapply (effect_spawned _ _ o url port).
    + by eapply (effect_routed _ _ o url port).
  - rewrite Heq in Hup. injection Hup as <-. split; [by eapply effect_unloaded|done].
Qed.

(** The effect does not depend on the resources the loop keeps for itself. *)
Lemma store_effect_from st1 st2 st' :
  services st1 = services st2 → tasks st1 = tasks st2 → dns st1 = dns st2 →
  store_effect st1 st' → store_effect st2 st'.
Proof.
  intros Hs Ht Hd [];
    [eapply effect_none|eapply effect_unloaded|eapply (effect_routed _ _ o url port)
    |eapply (effect_spawned _ _ o url port)]; rewrite <- ?Hs, <- ?Ht, <- ?Hd; eassumption.
Qed.

Lemma on_change_effect c st st' :
  store_inv st → on_change c st = Ok st' →
  store_effect st st' ∧ (store_ready st = true → store_ready st' = true)
  ∧ ∀ r o, raw_services st' !! r = Some o → raw_services st !! r = Some o ∨ c = Apply o.
Proof.
  intros Hinv. destruct c as [|o|r|e]; simpl.
  - intros [= <-]. split_and!; [by apply effect_none|done|auto].
  - destruct (decide (dot ∈ service_name (spec o))) as [Hd|Hd]; [|by rewrite apply_service_panics].
    destruct (remove_noupdate_inv st (from_obj o) Hinv)
      as (st1 & Hrm & Hinv1 & Hraw & _ & _ & _ & Hsv & Htk & _ & Hdn & Hrd).
    unfold apply_service. rewrite Hrm. simpl. intros Hup.
    assert (raw_services st1 !! from_obj o = None) as Hnone by (by rewrite Hraw, lookup_delete_eq).
    destruct (update_service_effect (insert_service o st1) st' (service_name (spec o))) as (He & Hr' & Hrd');
      [by apply insert_service_inv|simpl; rewrite lookup_insert_eq; eauto|done|].
    split_and!; [by eapply store_effect_from; [..|exact He]|by rewrite Hrd'; simpl; rewrite Hrd|].
    intros r o'. rewrite Hr'. simpl. rewrite lookup_insert, Hraw, lookup_delete.
    repeat case_decide; naive_solver.
  - destruct (remove_noupdate_inv st r Hinv)
      as (st1 & Hrm & Hinv1 & Hraw & _ & _ & Hsome & Hsv & Htk & _ & Hdn & Hrd).
    unfold remove_service. rewrite Hrm. simpl.
    assert (∀ r' o, raw_services st1 !! r' = Some o → raw_services st !! r' = Some o ∨ Delete r = Apply o)
      as Hsub by (intros r' o; rewrite Hraw, lookup_delete; case_decide; naive_solver).
    destruct (raw_services st !! r) as [p|].
    + intros Hup. destruct (update_service_effect st1 st' (service_name (spec p))) as (He & Hr' & Hrd');
        [done|by apply Hsome|done|].
      split_and!; [by eapply store_effect_from; [..|exact He]|by rewrite Hrd', Hrd|by rewrite Hr'].
    + intros [= <-]. split_and!; [by apply effect_none|by rewrite Hrd|done].
  - intros [= <-]. split_and!; [by apply effect_none|done|auto].
Qed.

(** A finished task either leaves the map alone or writes its own generation. *)
Lemma finish_task_cases {E} (loaded : outcome E (list FileDescriptorProto)) (t : Task LB)
    (m : gmap bytes (ServiceData LB)) :
  finish_task loaded t m = m ∨
  ∃ s, finish_task loaded t m =
       <[t_service_name t := mkServiceData (t_generation t) (Some s) (Some (t_load_balancer t))]> m
    ∧ ∀ d, m !! t_service_name t = Some d → generation d < t_generation t.
Proof.
  unfold finish_task, run_task. destruct (unwrap_res loaded) as [ds| |]; simpl; auto.
  destruct (unwrap_res (service_build ds (t_service t))) as [[s errs]| |]; simpl; auto.
  unfold update_service_if_newer. simpl.
  destruct (m !! t_service_name t) as [d|] eqn:Hd; simpl.
  - destruct (Nat.ltb_spec (generation d) (t_generation t)); [|by left].
    right. exists s. split; [done|]. naive_solver.
  - right. exists s. split; [done|]. naive_solver.
Qed.

(** The other tasks have other generations. *)
Lemma tasks_distinct (l1 : list (Task LB)) t l2 :
  NoDup (t_generation <$> l1 ++ t :: l2) →
  NoDup (t_generation <$> l1 ++ l2)
  ∧ ∀ t', t' ∈ l1 ++ l2 → t_generation t' ≠ t_generation t.
Proof.
  rewrite !fmap_app, fmap_cons, !NoDup_app, NoDup_cons.
  intros (Hn1 & Hdis & Hnt & Hn2). split; [set_solver|].
  intros t' [Ht'|Ht']%elem_of_app Heq.
  - apply (Hdis (t_generation t')); [by apply list_elem_of_fmap_2|]. rewrite Heq. set_solver.
  - apply Hnt. rewrite <- Heq. by apply list_elem_of_fmap_2.
Qed.

Lemma task_step_inv st st' : store_inv st → task_step st st' → store_inv st'.
Proof.
  intros [Hraw Hrefs Hgen Htg Hnd Hfr] Hstep.
  destruct Hstep as [st l1 t l2 E loaded Hl]. rewrite Hl in *.
  assert (∀ t', t' ∈ l1 ++ l2 → t' ∈ l1 ++ t :: l2) as Hsub by set_solver.
  destruct (tasks_distinct l1 t l2 Hnd) as [Hnd' Hdiff].
  assert (t ∈ l1 ++ t :: l2) as Hin by set_solver.
  destruct (finish_task_cases loaded t (services st)) as [->|(s & -> & Hnew)]; split; simpl; eauto.
  - intros n d. rewrite lookup_insert. case_decide; [|apply Hgen]. intros [= <-]. simpl. auto.
  - intros d t'. rewrite lookup_insert. case_decide; [|eauto].
    intros [= <-] Ht'. simpl. apply not_eq_sym. auto.
Qed.

Lemma store_inv_reachable d st : rtc store_step (store_new d) st → store_inv st.
Proof.
  intros Hr. cut (∀ st0, rtc store_step st0 st → store_inv st0 → store_inv st);
    [eauto using store_inv_new|]. clear.
  induction 1 as [|st0 st1 st Hstep _ IH]; [done|]. intros Hinv. apply IH.
  destruct Hstep; [by eapply on_change_inv|by eapply task_step_inv|]. by destruct Hinv.
Qed.

(** ** Theorems *)

Lemma run_task_panics {E} (loaded : outcome E (list FileDescriptorProto)) (t : Task LB) (m : gmap bytes (ServiceData LB)) :
  run_task loaded t m = Panic ↔ ¬ ∃ ds r, loaded = Ok ds ∧ service_build ds (t_service t) = Ok r.
Proof.
  unfold run_task. destruct loaded as [ds|e|]; simpl; [|split; [by intros _ (? & ? & ? & _)|done]..].
  destruct (service_build ds (t_service t)) as [[s errs]|e|] eqn:Hb; simpl;
    [|split; [intros _ (? & ? & [= <-] & ?); congruence|done]..].
  split; [|intros []; eauto]. unfold update_service_if_newer. simpl. intros Hp.
  destruct (m !! t_service_name t); [|done]. by destruct (_ <? _)%nat.
Qed.

(** C19: Where the store can panic, in any reachable state and whatever tasks are running:
    deleting a resource always succeeds; applying one succeeds unless its service name
    has no dot, in which case [QualifiedService::parse(..).unwrap()] panics; and a loading
    task panics exactly if its descriptor set does not load or the service cannot be built
    from it, which leaves the routing table as it was. All other [unwrap]s and the map
    indexing are safe. *)
Theorem store_panics_iff d st :
  rtc store_step (store_new d) st →
  (∀ r, ∃ st', remove_service r st = Ok st' ∧ raw_services st' = delete r (raw_services st))
  ∧ (∀ o, dot ∈ service_name (spec o) →
       ∃ st', apply_service o st = Ok st'
         ∧ raw_services st' = <[from_obj o := o]> (raw_services st))
  ∧ (∀ o, apply_service o st = Panic ↔ dot ∉ service_name (spec o))
  ∧ (∀ E (loaded : outcome E (list FileDescriptorProto)) t, t ∈ tasks st →
       (run_task loaded t (services st) = Panic ↔
        ¬ ∃ ds r, loaded = Ok ds ∧ service_build ds (t_service t) = Ok r)
       ∧ (run_task loaded t (services st) = Panic → finish_task loaded t (services st) = services st)).
Proof.
  intros Hinv%store_inv_reachable. split_and!.
  - intros r. destruct (remove_service_inv st r Hinv) as (st' & ? & _ & ?). eauto.
  - intros o Hd. destruct (apply_service_inv st o Hinv Hd) as (st' & ? & _ & ?). eauto.
  - intros o. split; [|by apply apply_service_panics]. intros Hp Hd.
    destruct (apply_service_inv st o Hinv Hd) as (st' & ? & _). congruence.
  - intros E loaded t _. split; [apply run_task_panics|]. unfold finish_task. by intros ->.
Qed.

(** The index is exact in every reachable state: the references stored under a
    service name are those of the resources that have that name. *)
Theorem store_index_exact d st :
  rtc store_step (store_new d) st →
  ∀ n r, r ∈ refs_of st n ↔
    ∃ o, raw_services st !! r = Some o ∧ service_name (spec o) = n.
Proof. intros Hinv%store_inv_reachable. apply (inv_refs _ Hinv). Qed.
End inv.

(** Selection among duplicates is deterministic: whatever the order in which the
    hash set is visited, the resource chosen is the least by namespace and name. *)
Theorem selection_deterministic (s : gset ObjectRef) (visit : list ObjectRef) :
  visit ≡ₚ elements s →
  min_by_key visit = min_by_key (elements s)
  ∧ ∀ r, min_by_key visit = Some r ↔ r ∈ s ∧ ∀ x, x ∈ s → ref_le r x.
Proof.
  intros Hperm.
  assert (∀ r, min_by_key visit = Some r ↔ r ∈ s ∧ ∀ x, x ∈ s → ref_le r x) as Hs.
  { intros r. rewrite min_by_key_spec. setoid_rewrite Hperm. by setoid_rewrite elem_of_elements. }
  split; [|done]. apply option_eq. intros r. rewrite Hs, min_by_key_spec.
  by setoid_rewrite elem_of_elements.
Qed.

(** ** Sample runs *)

Lemma on_changes_reachable {R : Reflection} {DnsSt LB} `{!DnsHandle DnsSt LB} cs
    (st st' : ServiceConfigState DnsSt LB) :
  on_changes cs st = Ok st' → rtc store_step st st'.
Proof.
  revert st. induction cs as [|c cs IH]; intros st; simpl; [by intros [= <-]|].
  intros (st1 & Hc & Hcs)%outcome_bind_Ok. eapply rtc_l; [by apply (store_step_change _ c)|eauto].
Qed.

(** Discovery whose handles are the hosts and ports themselves. *)
Definition direct_dns : DnsHandle unit (bytes * Z) := λ d h p, (d, (h, p)).

(** A service with an inline descriptor set. *)
Definition svc_inline (name svc_name data : string) : GrcacheService :=
  mkService (Some (lit "default")) (lit name) (Some (lit "1"))
    (mkSpec default_string None (Dns (lit "up") default_grpc_port) (lit svc_name)
       (Some (SrcInline (lit data)))).

Definition sample_changes : list (Change GrcacheService) :=
  [Apply (svc "a" "1" "p.A"); Apply (svc_inline "b" "p.B" "x");
   Apply (svc_inline "b" "p.B" "y"); Ready].

Definition run_changes (cs : list (Change GrcacheService))
    : outcome Empty_set (ServiceConfigState (R:=plain_reflection) unit (bytes * Z)) :=
  on_changes (DnsHandle0:=direct_dns) cs (store_new tt).

(** The state after the changes, and that they do not panic. *)
Definition state_after (cs : list (Change GrcacheService))
    : ServiceConfigState (R:=plain_reflection) unit (bytes * Z) :=
  match run_changes cs with Ok st => st | _ => store_new tt end.

Definition runs (cs : list (Change GrcacheService)) : bool :=
  match run_changes cs with Ok _ => true | _ => false end.

Lemma state_after_reachable cs :
  runs cs = true → rtc (store_step (DnsHandle0:=direct_dns)) (store_new tt) (state_after cs).
Proof.
  unfold runs, state_after. intros Hr. destruct (run_changes cs) as [st| |] eqn:H; try done.
  by eapply on_changes_reachable.
Qed.

Lemma on_changes_snoc {R : Reflection} {DnsSt LB} `{!DnsHandle DnsSt LB} cs c
    (st : ServiceConfigState DnsSt LB) :
  on_changes (cs ++ [c]) st = on_changes cs st ≫= on_change c.
Proof.
  revert st. induction cs as [|c' cs IH]; intros st; simpl; [by destruct (on_change c st)|].
  destruct (on_change c' st); simpl; [apply IH|done..].
Qed.

(** The last change of a run. *)
Lemma state_after_snoc cs c :
  runs (cs ++ [c]) = true →
  on_change (DnsHandle0:=direct_dns) c (state_after cs) = Ok (state_after (cs ++ [c])).
Proof.
  unfold runs, state_after, run_changes. rewrite on_changes_snoc.
  destruct (on_changes cs _) as [st| |]; simpl; try done. by destruct (on_change c st).
Qed.

Lemma store_panics_iff_witness :
  apply_service (DnsHandle0:=direct_dns) (svc "c" "1" "nodot") (state_after sample_changes) = Panic
  ∧ ∃ st', remove_service (DnsHandle0:=direct_dns) (from_obj (svc "a" "1" "p.A"))
             (state_after sample_changes) = Ok st'.
Proof.
  destruct (store_panics_iff (DnsHandle0:=direct_dns) tt (state_after sample_changes)) as (Hr & _ & Hp & _).
  - apply state_after_reachable. vm_refl.
  - split; [apply Hp; by apply (bool_decide_unpack _); vm_compute|].
    destruct (Hr (from_obj (svc "a" "1" "p.A"))) as (st' & Hst' & _). exists st'. exact Hst'.
Defined.

Lemma store_index_exact_witness :
  ∀ r, r ∈ refs_of (state_after sample_changes) (lit "p.B") ↔
    ∃ o, raw_services (state_after sample_changes) !! r = Some o
      ∧ service_name (spec o) = lit "p.B".
Proof.
  intros r. apply (store_index_exact (DnsHandle0:=direct_dns) tt).
  apply state_after_reachable. vm_refl.
Defined.

Definition ref_a : ObjectRef := mkRef (Some (lit "default")) (lit "a").
Definition ref_b : ObjectRef := mkRef (Some (lit "default")) (lit "b").

Lemma selection_deterministic_witness :
  min_by_key [ref_b; ref_a] = min_by_key (elements ({[ref_a; ref_b]} : gset ObjectRef)).
Proof.
  destruct (selection_deterministic {[ref_a; ref_b]} [ref_b; ref_a]) as [Heq _]; [|exact Heq].
  rewrite elements_union_singleton.
  - rewrite elements_singleton. apply perm_swap.
  - apply not_elem_of_singleton. discriminate.
Defined.
