(* ===== verification/StoreRace.v ===== *)
(** * StoreRace: what the generation numbers of the service store achieve

    Tasks that load descriptor sets finish in any order and interleave with further
    changes. Here: an entry's generation only grows; the order in which tasks finish does
    not matter; a deleted service stays deleted whatever tasks are still running; and when
    all tasks have finished, every service name is routed to the resource selected for
    it, as long as no resource changed its service name. The last theorem shows what
    happens when one does. *)

From stdpp Require Import gmap strings list fin_maps relations sorting.
From Stdlib Require Import Strings.Byte.
From S2P Require Import Prelude Text Crd ServiceSpec ResourceChange ServiceStore StoreInv.

Section race.
Context {R : Reflection} {DnsSt LB : Type} `{!DnsHandle DnsSt LB}.
Implicit Types (st : ServiceConfigState DnsSt LB) (t : Task LB) (n : bytes).
Notation service_map := (gmap bytes (ServiceData LB)).

(** ** Monotonicity *)

(** [newer m m']: no entry of [m] is lost in [m'], and generations only grow; an entry
    whose generation is the same is the same entry. *)
Definition newer (m m' : gmap bytes (ServiceData LB)) : Prop :=
  ∀ n d, m !! n = Some d →
    ∃ d', m' !! n = Some d' ∧ (d' = d ∨ generation d < generation d').

#[global] Instance newer_preorder : PreOrder newer.
Proof.
  split.
  - intros m n d. eauto.
  - intros m1 m2 m3 H12 H23 n d Hd. apply H12 in Hd as (d2 & Hd2 & Hle).
    apply H23 in Hd2 as (d3 & Hd3 & Hle'). exists d3. split; [done|].
    destruct Hle as [->|?]; [done|]. right. destruct Hle' as [->|?]; lia.
Qed.

Lemma newer_insert (m : service_map) n e :
  (∀ d, m !! n = Some d → generation d < generation e) → newer m (<[n := e]> m).
Proof.
  intros Hlt n' d Hd. rewrite lookup_insert. case_decide; subst; eauto.
Qed.

Lemma finish_task_newer {E} (loaded : outcome E _) t (m : service_map) :
  newer m (finish_task loaded t m).
Proof.
  destruct (finish_task_cases loaded t m) as [->|(s & -> & Hlt)]; [done|].
  by apply newer_insert.
Qed.

Lemma update_service_newer st st' n :
  store_inv st → is_Some (ref_by_grpc_service st !! n) →
  update_service n st = Ok st' → newer (services st) (services st').
Proof.
  intros Hinv Hn Hup. pose proof (update_service_eq st n Hinv Hn) as Heq.
  assert (∀ e, generation e = spec_generation st →
            newer (services st) (<[n := e]> (services st))) as Hnew.
  { intros e He. apply newer_insert. rewrite He. apply (inv_gen _ Hinv). }
  destruct (selected st n) as [o|].
  - destruct Heq as (q & _ & Heq). rewrite Heq in Hup. injection Hup as <-.
    destruct (descriptor_set_source (spec o)); simpl; [done|auto].
  - rewrite Heq in Hup. injection Hup as <-. simpl. auto.
Qed.

Lemma on_change_newer c st st' :
  store_inv st → on_change c st = Ok st' → newer (services st) (services st').
Proof.
  intros Hinv. destruct c as [|o|r|e]; simpl; [by intros [= <-]| | |by intros [= <-]].
  - destruct (decide (dot ∈ service_name (spec o))) as [Hd|Hd];
      [|by rewrite apply_service_panics].
    destruct (apply_service_eq st o Hinv)
      as (st1 & _ & Hinv1 & Hnone & -> & _ & Hsome & Hsv & _).
    rewrite <- Hsv. apply (update_service_newer (insert_service o st1)); [|done].
    by apply insert_service_inv.
  - unfold remove_service.
    destruct (remove_noupdate_inv st r Hinv)
      as (st1 & -> & Hinv1 & _ & _ & _ & Hsome & Hsv & _). simpl. rewrite <- Hsv.
    destruct (raw_services st !! r) as [p|]; [|by intros [= <-]].
    by apply update_service_newer; [|apply Hsome].
Qed.

(** Entries are only replaced by newer ones: along any interleaving of changes and
    finishing tasks, no entry of the routing table disappears and its generation never
    goes back; an entry that kept its generation was not touched. *)
Theorem service_generation_monotone d st st' :
  rtc store_step (store_new d) st → rtc store_step st st' →
  newer (services st) (services st').
Proof.
  intros Hinv%store_inv_reachable Hr.
  induction Hr as [|st st1 st' Hstep _ IH]; [done|].
  destruct Hstep as [st c st1 Hc|st st1 Ht|st dn]; [| |by apply IH; destruct Hinv].
  - etrans; [by eapply on_change_newer|]. eauto using on_change_inv.
  - etrans; [|eauto using task_step_inv]. destruct Ht. apply finish_task_newer.
Qed.

(** ** The order of tasks *)

(** Finishing tasks in the order given, each with the result of loading its source. *)
Definition finish_tasks {E} (load : Task LB → outcome E (list FileDescriptorProto))
    (l : list (Task LB)) (m : service_map) : service_map :=
  foldl (λ m t, finish_task (load t) t m) m l.

Lemma finish_task_lookup_ne {E} (loaded : outcome E _) t (m : service_map) n :
  t_service_name t ≠ n → finish_task loaded t m !! n = m !! n.
Proof.
  intros Hne. destruct (finish_task_cases loaded t m) as [->|(s & -> & _)]; [done|].
  by rewrite lookup_insert_ne.
Qed.

(** What the task contributes, if loading and building succeed. *)
Definition task_data {E} (loaded : outcome E (list FileDescriptorProto)) t
    : option (ServiceData LB) :=
  match (descriptor_set ← unwrap_res loaded; unwrap_res (service_build descriptor_set (t_service t)) : outcome Empty_set _) with
  | Ok (s, _) => Some (mkServiceData (t_generation t) (Some s) (Some (t_load_balancer t)))
  | _ => None
  end.

Lemma task_data_generation {E} (loaded : outcome E _) t e :
  task_data loaded t = Some e → generation e = t_generation t.
Proof. unfold task_data. intros H. by crush_in H. Qed.

(** The newer of two entries. *)
Definition newest (e d : option (ServiceData LB)) : option (ServiceData LB) :=
  match e, d with
  | Some e, Some d => Some (if (generation d <? generation e)%nat then e else d)
  | Some e, None => Some e
  | None, _ => d
  end.

Lemma newest_comm e1 e2 d :
  (∀ x1 x2, e1 = Some x1 → e2 = Some x2 → generation x1 ≠ generation x2) →
  newest e1 (newest e2 d) = newest e2 (newest e1 d).
Proof.
  intros Hne. destruct e1 as [x1|], e2 as [x2|], d as [x|]; simpl; try done.
  - specialize (Hne x1 x2 eq_refl eq_refl). f_equal.
    repeat case_match; rewrite ?Nat.ltb_lt, ?Nat.ltb_ge in *; try done; lia.
  - specialize (Hne x1 x2 eq_refl eq_refl). f_equal.
    repeat case_match; rewrite ?Nat.ltb_lt, ?Nat.ltb_ge in *; try done; lia.
Qed.

Lemma finish_task_lookup {E} (loaded : outcome E _) t (m : service_map) n :
  finish_task loaded t m !! n =
  if decide (t_service_name t = n) then newest (task_data loaded t) (m !! n) else m !! n.
Proof.
  unfold finish_task, run_task, task_data.
  destruct (unwrap_res loaded) as [ds| |]; simpl; [|by case_decide..].
  destruct (unwrap_res (service_build ds (t_service t))) as [[s errs]| |]; simpl;
    [|by case_decide..].
  unfold update_service_if_newer. simpl.
  destruct (decide (t_service_name t = n)) as [<-|Hne].
  - destruct (m !! t_service_name t) as [d|] eqn:Hd; simpl.
    + destruct (_ <? _)%nat; simpl; [by rewrite lookup_insert_eq|done].
    + by rewrite lookup_insert_eq.
  - destruct (m !! t_service_name t) as [d|]; simpl;
      [destruct (_ <? _)%nat; simpl; [|done]|]; by rewrite lookup_insert_ne.
Qed.

(** Two tasks of different generations commute. *)
Lemma finish_task_comm {E} (l1 l2 : outcome E _) t1 t2 (m : service_map) :
  t_generation t1 ≠ t_generation t2 →
  finish_task l1 t1 (finish_task l2 t2 m) = finish_task l2 t2 (finish_task l1 t1 m).
Proof.
  intros Hne. apply map_eq. intros n. rewrite !finish_task_lookup.
  repeat case_decide; try done. apply newest_comm.
  intros x1 x2 H1%task_data_generation H2%task_data_generation. congruence.
Qed.

Lemma finish_tasks_perm {E} (load : Task LB → outcome E _)
    (l l' : list (Task LB)) (m : service_map) :
  l ≡ₚ l' → NoDup (t_generation <$> l) → finish_tasks load l m = finish_tasks load l' m.
Proof.
  intros Hp. revert m. induction Hp as [|t l l' Hp IH|t1 t2 l|l1 l2 l3 H12 IH12 H23 IH23];
    intros m Hnd; rewrite ?fmap_cons, ?NoDup_cons in Hnd; simpl.
  - done.
  - unfold finish_tasks. simpl. apply IH. by destruct Hnd.
  - unfold finish_tasks. simpl. f_equal. apply finish_task_comm. set_solver.
  - rewrite IH12 by done. apply IH23. by rewrite <- H12.
Qed.

(** C15: The order in which loading tasks finish does not matter: in every reachable
    state, finishing the pending tasks in any two orders gives the same routing table. *)
Theorem task_order_irrelevant {E} (load : Task LB → outcome E (list FileDescriptorProto))
    d st (l : list (Task LB)) :
  rtc store_step (store_new d) st → l ≡ₚ tasks st →
  finish_tasks load l (services st) = finish_tasks load (tasks st) (services st).
Proof.
  intros Hinv%store_inv_reachable Hl. apply finish_tasks_perm; [done|].
  rewrite Hl. apply (inv_task_nodup _ Hinv).
Qed.

(** ** Deletion *)

Lemma task_steps_keep st st' n d :
  services st !! n = Some d →
  (∀ t, t ∈ tasks st → t_service_name t = n → t_generation t ≤ generation d) →
  rtc task_step st st' → services st' !! n = Some d.
Proof.
  intros Hd Hle Hr. induction Hr as [|st st1 st' Hstep _ IH]; [done|].
  destruct Hstep as [st l1 t l2 E loaded Hl]. apply IH; simpl.
  - rewrite finish_task_lookup. case_decide as Hn; [|done]. rewrite Hd.
    destruct (task_data loaded t) as [e|] eqn:He; [|done]. simpl.
    apply task_data_generation in He.
    assert (t_generation t ≤ generation d) by (apply Hle; [rewrite Hl; set_solver|done]).
    destruct (Nat.ltb_spec (generation d) (generation e)); [lia|done].
  - intros t' Ht'. apply Hle. rewrite Hl. set_solver.
Qed.

(** C16: A deletion is final: when the last resource of a service name is removed, the
    entry becomes empty, and no task still running can load the service again. *)
Theorem unload_is_final d st o st' st'' :
  rtc store_step (store_new d) st →
  refs_of st (service_name (spec o)) = {[from_obj o]} →
  raw_services st !! from_obj o = Some o →
  remove_service (from_obj o) st = Ok st' → rtc task_step st' st'' →
  ∃ e, services st'' !! service_name (spec o) = Some e
    ∧ service_spec e = None ∧ load_balancer e = None.
Proof.
  intros Hinv%store_inv_reachable Hone Ho Hrm Hr. set (n := service_name (spec o)) in *.
  destruct (remove_noupdate_inv st (from_obj o) Hinv)
    as (st1 & Hrn & Hinv1 & Hraw & Hrefs & _ & Hsome & _).
  unfold remove_service in Hrm. rewrite Hrn, Ho in Hrm. simpl in Hrm. fold n in Hrm.
  pose proof (update_service_eq st1 n Hinv1 (Hsome _ Ho)) as Heq.
  rewrite (proj2 (selected_None st1 n Hinv1)) in Heq by (rewrite Hrefs, Hone; set_solver).
  rewrite Heq in Hrm. injection Hrm as <-.
  exists (mkServiceData (spec_generation st1) None None). split_and!; try done.
  apply (task_steps_keep (unloaded n st1)); simpl; [by rewrite lookup_insert_eq| |done].
  intros t Ht%(inv_task_gen _ Hinv1) _. lia.
Qed.
End race.

(** ** Sample runs *)

Lemma service_generation_monotone_witness :
  newer (services (state_after [Apply (svc "a" "1" "p.A")]))
    (services (state_after [Apply (svc "a" "1" "p.A"); Delete (from_obj (svc "a" "1" "p.A"))])).
Proof.
  apply (service_generation_monotone (DnsHandle0:=direct_dns) tt).
  - apply state_after_reachable. vm_refl.
  - apply rtc_once, (store_step_change _ (Delete (from_obj (svc "a" "1" "p.A")))).
    apply (state_after_snoc [_]). vm_refl.
Defined.

(** The two pending tasks of [sample_changes], finished in either order. *)
Definition test_load (t : Task (bytes * Z)) : outcome unit (list (@FileDescriptorProto plain_reflection)) := Ok [test_file].

Lemma task_order_irrelevant_witness :
  length (tasks (state_after sample_changes)) = 2 ∧
  finish_tasks (R:=plain_reflection) test_load (reverse (tasks (state_after sample_changes)))
    (services (state_after sample_changes))
  = finish_tasks (R:=plain_reflection) test_load (tasks (state_after sample_changes))
      (services (state_after sample_changes)).
Proof.
  split; [vm_refl|].
  apply (task_order_irrelevant (R:=plain_reflection) (DnsHandle0:=direct_dns) test_load tt).
  - apply state_after_reachable. vm_refl.
  - apply reverse_Permutation.
Defined.

(** The task that loads [p.B] is still running when [b] is deleted. *)
Lemma unload_is_final_witness :
  length (tasks (state_after (sample_changes ++ [Delete ref_b]))) = 2 ∧
  ∃ e, services (state_after (sample_changes ++ [Delete ref_b])) !! lit "p.B" = Some e
    ∧ service_spec e = None.
Proof.
  split; [vm_refl|].
  destruct (unload_is_final (DnsHandle0:=direct_dns) tt (state_after sample_changes)
              (svc_inline "b" "p.B" "y") (state_after (sample_changes ++ [Delete ref_b]))
              (state_after (sample_changes ++ [Delete ref_b]))) as (e & He & Hs & _).
  - apply state_after_reachable. vm_refl.
  - vm_refl.
  - vm_refl.
  - apply (state_after_snoc sample_changes (Delete ref_b)). vm_refl.
  - apply rtc_refl.
  - exists e. split; [exact He|exact Hs].
Defined.
