(* ===== verification/StoreRouting.v ===== *)
(** * StoreRouting: the routing table follows the resources

    The promise of the service store to the proxy: once the loading tasks have
    finished, each gRPC service name is routed to the upstream and the specification of
    the resource selected for it, and names without a resource are not routed. This
    holds as long as a resource keeps its service name; [rename_leaves_stale_route]
    shows that an update which changes it leaves the old name routed. *)

From stdpp Require Import gmap strings list fin_maps relations.
From Stdlib Require Import Strings.Byte.
From S2P Require Import Prelude Text Crd ServiceSpec ResourceChange ServiceStore StoreInv StoreRace.

Section routing.
Context {R : Reflection} {DnsSt LB : Type} `{DnsHandleLaws DnsSt LB}.
(** What loading a descriptor source returns. *)
Context {E : Type} (load : DescriptorSetSource → outcome E (list FileDescriptorProto)).
Implicit Types (st : ServiceConfigState DnsSt LB) (t : Task LB) (n : bytes) (o : GrcacheService).
Notation service_map := (gmap bytes (ServiceData LB)).

(** ** Specification *)

Definition target (o : GrcacheService) : bytes * Z :=
  match upstream (spec o) with Dns url port => (url, port) end.

(** The entry routes to the resource: its upstream, and the specification built from its
    descriptor set, or the passthrough specification if it has none. *)
Definition routed (o : GrcacheService) (d : ServiceData LB) : Prop :=
  ∃ q s lb, qualified_parse (service_name (spec o)) = Ok q
    ∧ service_spec d = Some s ∧ load_balancer d = Some lb ∧ lb_target lb = target o
    ∧ match descriptor_set_source (spec o) with
      | None => s = build_passthrough q
      | Some src => ∃ ds errs, load src = Ok ds ∧ service_build ds q = Ok (s, errs)
      end.

Definition tombstone (d : ServiceData LB) : Prop :=
  service_spec d = None ∧ load_balancer d = None.

(** The steps of a run in which no update changes the service name of a resource and no
    task fails. *)
Definition keeps_name (o : GrcacheService) (st : ServiceConfigState DnsSt LB) : Prop :=
  ∀ p, raw_services st !! from_obj o = Some p → service_name (spec p) = service_name (spec o).

Inductive quiet_step : ServiceConfigState DnsSt LB → ServiceConfigState DnsSt LB → Prop :=
| quiet_change st c st' :
    (∀ o, c = Apply o → keeps_name o st) → on_change c st = Ok st' → quiet_step st st'
| quiet_task st l1 t l2 m :
    tasks st = l1 ++ t :: l2 → run_task (load (t_source t)) t (services st) = Ok m →
    quiet_step st (with_tasks m (l1 ++ l2) st)
| quiet_dns st d :
    dns_ok d → quiet_step st (with_dns d st).

(** ** The invariant *)

(** The task will install the data of the resource. *)
Definition task_for (o : GrcacheService) (t : Task LB) : Prop :=
  t_service_name t = service_name (spec o) ∧ qualified_parse (service_name (spec o)) = Ok (t_service t)
  ∧ descriptor_set_source (spec o) = Some (t_source t)
  ∧ lb_target (t_load_balancer t) = target o.

(** Every task for [n] is older than [g]. *)
Definition older (l : list (Task LB)) (n : bytes) (g : nat) : Prop :=
  ∀ t, t ∈ l → t_service_name t = n → t_generation t < g.

(** The newest of the entry and of the tasks for [n] is the one of the selected
    resource. *)
Definition settled_at (m : service_map) (l : list (Task LB)) (n : bytes)
    (sel : option GrcacheService) : Prop :=
  match sel with
  | None => match m !! n with
            | Some d => tombstone d ∧ older l n (generation d)
            | None => older l n 0
            end
  | Some o =>
    (∃ d, m !! n = Some d ∧ routed o d ∧ older l n (generation d)) ∨
    (∃ t, t ∈ l ∧ task_for o t ∧ (∀ d, m !! n = Some d → generation d < t_generation t)
       ∧ older l n (S (t_generation t)))
  end.

Definition settled (st : ServiceConfigState DnsSt LB) : Prop :=
  ∀ n, settled_at (services st) (tasks st) n (selected st n).

Lemma older_all st n : store_inv st → older (tasks st) n (spec_generation st).
Proof. intros Hinv t Ht _. by apply (inv_task_gen _ Hinv). Qed.

(** ** Updates *)

(** [update_service] settles its name and leaves the others as they were. *)
Lemma update_service_settles st st' n :
  store_inv st → dns_ok (dns st) → is_Some (ref_by_grpc_service st !! n) → update_service n st = Ok st' →
  (∀ n', n' ≠ n → settled_at (services st) (tasks st) n' (selected st n')) → settled st'.
Proof.
  intros Hinv Hdns Hn Hup Hother. pose proof (update_service_eq st n Hinv Hn) as Heq.
  pose proof (older_all st n Hinv) as Hold.
  destruct (selected st n) as [o|] eqn:Hsel.
  - destruct Heq as (q & Hq & Heq). rewrite Heq in Hup. injection Hup as <-.
    destruct (selected_Some _ _ _ Hinv Hsel) as (_ & Hname & _).
    assert (lb_target (handle_for st o).2 = target o) as Hlb.
    { unfold handle_for, target. destruct (upstream (spec o)). by apply backends_for_target. }
    destruct (descriptor_set_source (spec o)) as [src|] eqn:Hsrc; intros n'.
    + change (selected (spawned n o q src st) n') with (selected st n'). simpl.
      destruct (decide (n' = n)) as [->|Hne].
      * rewrite Hsel. right. eexists. split; [apply elem_of_app; right; by apply list_elem_of_singleton|].
        unfold task_for. split_and!; [by rewrite <- Hname|by rewrite Hname|done|done|apply (inv_gen _ Hinv)|].
        intros t [Ht|Ht]%elem_of_app Hnm; [specialize (Hold t Ht Hnm); simpl; lia|].
        apply list_elem_of_singleton in Ht as ->. simpl. lia.
      * assert (∀ g, older (tasks st) n' g →
                  older (tasks st ++ [mkTask src n q (spec_generation st) (handle_for st o).2]) n' g)
          as Happ.
        { intros g Ho t [Ht|Ht]%elem_of_app Hnm; [auto|].
          apply list_elem_of_singleton in Ht as ->. by simpl in Hnm. }
        specialize (Hother n' Hne). unfold settled_at in *. destruct (selected st n') as [o'|].
        -- destruct Hother as [(d & ? & ? & ?)|(t & Ht & ? & ? & ?)]; [left; eauto|right].
           exists t. split_and!; auto. apply elem_of_app. auto.
        -- destruct (services st !! n'); naive_solver.
    + change (selected (passed_through n o q st) n') with (selected st n'). simpl.
      destruct (decide (n' = n)) as [->|Hne].
      * rewrite Hsel. left. rewrite lookup_insert_eq. eexists. split; [done|]. split; [|done].
        exists q, (build_passthrough q), (handle_for st o).2. rewrite Hname, Hsrc. done.
      * unfold settled_at. rewrite lookup_insert_ne by done. by apply Hother.
  - rewrite Heq in Hup. injection Hup as <-. intros n'.
    change (selected (unloaded n st) n') with (selected st n'). simpl.
    destruct (decide (n' = n)) as [->|Hne].
    + rewrite Hsel. unfold settled_at. by rewrite lookup_insert_eq.
    + unfold settled_at. rewrite lookup_insert_ne by done. by apply Hother.
Qed.

Lemma selected_ext st st' n :
  refs_of st' n = refs_of st n →
  (∀ r, r ∈ refs_of st n → raw_services st' !! r = raw_services st !! r) →
  selected st' n = selected st n.
Proof.
  intros Hrefs Hraw. unfold selected. rewrite Hrefs.
  destruct (min_by_key (elements (refs_of st n))) as [r|] eqn:Hr; [|done]. simpl.
  apply Hraw. apply min_by_key_spec in Hr as [Hin _]. by apply elem_of_elements.
Qed.

Lemma update_service_dns st st' n :
  store_inv st → is_Some (ref_by_grpc_service st !! n) → update_service n st = Ok st' →
  dns_ok (dns st) → dns_ok (dns st').
Proof.
  intros Hinv Hn Hup Hdns. pose proof (update_service_eq st n Hinv Hn) as Heq.
  assert (∀ o, dns_ok (handle_for st o).1) as Hh.
  { intros o. unfold handle_for. destruct (upstream (spec o)). by apply backends_for_ok. }
  destruct (selected st n) as [o|].
  - destruct Heq as (q & _ & Heq). rewrite Heq in Hup. injection Hup as <-.
    by destruct (descriptor_set_source (spec o)); simpl.
  - rewrite Heq in Hup. by injection Hup as <-.
Qed.

Lemma on_change_dns c st st' :
  store_inv st → on_change c st = Ok st' → dns_ok (dns st) → dns_ok (dns st').
Proof.
  intros Hinv. destruct c as [|o|r|e]; simpl; [by intros [= <-]| | |by intros [= <-]].
  - destruct (decide (dot ∈ service_name (spec o))) as [Hd|Hd];
      [|by rewrite apply_service_panics].
    destruct (apply_service_eq st o Hinv)
      as (st1 & _ & Hinv1 & Hnone & -> & _ & Hsome & _ & _ & _ & Hdn).
    rewrite <- Hdn. apply (update_service_dns (insert_service o st1)); [|done].
    by apply insert_service_inv.
  - unfold remove_service.
    destruct (remove_noupdate_inv st r Hinv)
      as (st1 & -> & Hinv1 & _ & _ & _ & Hsome & _ & _ & _ & Hdn & _). simpl. rewrite <- Hdn.
    destruct (raw_services st !! r) as [p|]; [|by intros [= <-]].
    apply update_service_dns; [done|]. by apply Hsome.
Qed.

Lemma on_change_settled c st st' :
  store_inv st → dns_ok (dns st) → settled st → (∀ o, c = Apply o → keeps_name o st) →
  on_change c st = Ok st' → settled st'.
Proof.
  intros Hinv Hdns Hset Hkeep. destruct c as [|o|r|e]; simpl; [by intros [= <-]| | |by intros [= <-]].
  - specialize (Hkeep o eq_refl).
    destruct (decide (dot ∈ service_name (spec o))) as [Hd|Hd];
      [|by rewrite apply_service_panics].
    destruct (remove_noupdate_inv st (from_obj o) Hinv)
      as (st1 & Hrm & Hinv1 & Hraw & Hrefs & _ & _ & Hsv & Htk & _ & Hdn & _).
    unfold apply_service. rewrite Hrm. simpl. intros Hup.
    eapply (update_service_settles (insert_service o st1)); [|simpl; congruence| |exact Hup|].
    + apply insert_service_inv; [done| |done]. by rewrite Hraw, lookup_delete_eq.
    + simpl. rewrite lookup_insert_eq. eauto.
    + intros n Hne. simpl. rewrite Hsv, Htk.
      assert (from_obj o ∉ refs_of st n) as Hnot.
      { intros (p & Hp & Hn)%(inv_refs _ Hinv). apply Hkeep in Hp. congruence. }
      rewrite (selected_ext st); [apply Hset| |].
      * rewrite insert_service_refs, decide_False by done. rewrite Hrefs. set_solver.
      * intros r Hr. simpl. rewrite lookup_insert_ne by set_solver.
        rewrite Hraw. by rewrite lookup_delete_ne by set_solver.
  - destruct (remove_noupdate_inv st r Hinv)
      as (st1 & Hrm & Hinv1 & Hraw & Hrefs & _ & Hsome & Hsv & Htk & _ & Hdn & _).
    unfold remove_service. rewrite Hrm. simpl.
    assert (∀ n, r ∉ refs_of st n → settled_at (services st1) (tasks st1) n (selected st1 n)) as Hn.
    { intros n Hnot. rewrite Hsv, Htk, (selected_ext st); [apply Hset| |].
      - rewrite Hrefs. set_solver.
      - intros r' Hr'. rewrite Hraw, lookup_delete_ne; [done|]. set_solver. }
    destruct (raw_services st !! r) as [p|] eqn:Hp; intros Hup.
    + eapply update_service_settles; [done|congruence|by apply Hsome|done|].
      intros n Hne. apply Hn. intros (p' & Hp' & <-)%(inv_refs _ Hinv). congruence.
    + injection Hup as <-. intros n. apply Hn.
      intros (p' & Hp' & _)%(inv_refs _ Hinv). congruence.
Qed.

(** ** Finishing tasks *)

Lemma older_sub l l' n g g' :
  (∀ t, t ∈ l' → t ∈ l) → g ≤ g' → older l n g → older l' n g'.
Proof. intros Hsub Hle Ho t Ht Hn. specialize (Ho t (Hsub t Ht) Hn). lia. Qed.

Lemma finish_task_run t (m m' : service_map) :
  run_task (load (t_source t)) t m = Ok m' →
  m' = finish_task (load (t_source t)) t m ∧
  ∃ e ds s errs, task_data (load (t_source t)) t = Some e ∧ load (t_source t) = Ok ds
    ∧ service_build ds (t_service t) = Ok (s, errs)
    ∧ e = mkServiceData (t_generation t) (Some s) (Some (t_load_balancer t)).
Proof.
  unfold finish_task. intros Hrun. rewrite Hrun. split; [done|].
  unfold run_task in Hrun. unfold task_data.
  destruct (load (t_source t)) as [ds| |]; simplify_eq/=.
  destruct (service_build ds (t_service t)) as [[s errs]| |] eqn:Hb; simplify_eq/=. eauto 10.
Qed.

Lemma task_settled st l1 t l2 m :
  store_inv st → settled st → tasks st = l1 ++ t :: l2 →
  run_task (load (t_source t)) t (services st) = Ok m →
  settled (with_tasks m (l1 ++ l2) st).
Proof.
  intros Hinv Hset Hl [-> (e & ds & s & errs & He & Hds & Hb & Hee)]%finish_task_run n.
  change (selected _ n) with (selected st n). simpl.
  specialize (Hset n). rewrite Hl in Hset. unfold settled_at in *. rewrite finish_task_lookup, He.
  assert (∀ t', t' ∈ l1 ++ l2 → t' ∈ l1 ++ t :: l2) as Hsub by set_solver.
  pose proof (inv_task_nodup _ Hinv) as Hnd. rewrite Hl in Hnd.
  destruct (tasks_distinct l1 t l2 Hnd) as [_ Hdiff].
  assert (∀ d, older (l1 ++ t :: l2) n (generation d) → t_service_name t = n →
            newest (Some e) (Some d) = Some d) as Hkeep.
  { intros d Ho Hn. simpl. rewrite Hee. simpl.
    specialize (Ho t ltac:(set_solver) Hn). destruct (Nat.ltb_spec (generation d) (t_generation t)); [lia|done]. }
  destruct (selected st n) as [o|] eqn:Hsel.
  - destruct Hset as [(d & Hd & Hr & Ho)|(t0 & Ht0 & Hfor & Hgt & Ho)].
    + left. exists d. rewrite Hd. split_and!; [|done|by eapply older_sub].
      case_decide; [by apply Hkeep|done].
    + destruct (decide (t_generation t0 = t_generation t)) as [Hg|Hg].
      * assert (t0 = t) as ->.
        { destruct (proj1 (elem_of_app _ _ _) Ht0) as [?|[?|?]%elem_of_cons]; [|done|];
            exfalso; apply (Hdiff t0); set_solver. }
        destruct (selected_Some _ _ _ Hinv Hsel) as (_ & Hname & _).
        rewrite decide_True by (by destruct Hfor as [-> _]).
        left. exists e. split_and!.
        -- destruct (services st !! n) as [d|] eqn:Hd; [|done]. simpl.
           specialize (Hgt d eq_refl). rewrite Hee. simpl. apply Nat.ltb_lt in Hgt. by rewrite Hgt.
        -- destruct Hfor as (_ & Hq & Hsrc & Hlb).
           exists (t_service t), s, (t_load_balancer t). rewrite Hsrc, Hee. split_and!; eauto.
        -- intros t' Ht' Hn. specialize (Ho t' (Hsub t' Ht') Hn). specialize (Hdiff t' Ht').
           rewrite Hee. simpl. lia.
      * right. exists t0. split_and!; [set_solver|done| |by eapply older_sub].
        intros d. case_decide as Hn; [|apply Hgt].
        assert (t_generation t < t_generation t0) as Hlt.
        { specialize (Ho t ltac:(set_solver) Hn). lia. }
        simpl. destruct (services st !! n) as [d'|]; intros [= <-].
        -- specialize (Hgt d' eq_refl). case_match; subst; simpl; lia.
        -- subst. simpl. lia.
  - destruct (services st !! n) as [d|] eqn:Hd.
    + destruct Hset as [Htomb Ho]. case_decide.
      * rewrite Hkeep by done. split; [done|]. by eapply older_sub.
      * split; [done|]. by eapply older_sub.
    + case_decide as Hn; [|by eapply older_sub].
      specialize (Hset t ltac:(set_solver) Hn). lia.
Qed.

(** ** Theorems *)

Lemma quiet_step_inv st st' :
  quiet_step st st' → store_inv st ∧ dns_ok (dns st) → store_inv st' ∧ dns_ok (dns st').
Proof.
  intros Hstep [Hinv Hdns]. destruct Hstep as [st c st' _ Hc|st l1 t l2 m Hl Hrun|st d Hd].
  - eauto using on_change_inv, on_change_dns.
  - apply finish_task_run in Hrun as [-> _]. split; [|done].
    eapply task_step_inv; [done|]. by constructor.
  - split; [by destruct Hinv|done].
Qed.

Lemma settled_new d : settled (store_new d).
Proof.
  intros n. unfold selected, refs_of, settled_at. simpl. rewrite !lookup_empty. simpl.
  rewrite elements_empty. simpl. intros t Ht. by apply elem_of_nil in Ht.
Qed.

Lemma quiet_settled d st :
  dns_ok d → rtc quiet_step (store_new d) st → store_inv st ∧ settled st.
Proof.
  intros Hd Hr.
  cut (∀ st0, rtc quiet_step st0 st → store_inv st0 ∧ dns_ok (dns st0) → settled st0 →
         store_inv st ∧ settled st); [eauto using store_inv_new, settled_new|]. clear Hr.
  induction 1 as [|st0 st1 st Hstep _ IH]; [tauto|]. intros Hinv Hset.
  apply IH; [by eapply quiet_step_inv|].
  destruct Hinv. destruct Hstep; [by eapply on_change_settled|by eapply task_settled|done].
Qed.

(** C14: The routing table follows the resources: after any interleaving of changes and
    finished loads in which no resource changed its service name and no load failed,
    when no load is pending, a service name is routed to the upstream and the
    specification of the least resource that has this name, and names no resource has
    are not routed. *)
Theorem quiescent_routing d st n :
  dns_ok d → rtc quiet_step (store_new d) st → tasks st = [] →
  match selected st n with
  | Some o => service_name (spec o) = n ∧ raw_services st !! from_obj o = Some o
      ∧ (∀ r p, raw_services st !! r = Some p → service_name (spec p) = n → ref_le (from_obj o) r)
      ∧ ∃ e, services st !! n = Some e ∧ routed o e
  | None => (∀ r p, raw_services st !! r = Some p → service_name (spec p) ≠ n)
      ∧ ∀ e, services st !! n = Some e → tombstone e
  end.
Proof.
  intros Hd Hr Hnil. destruct (quiet_settled d st Hd Hr) as [Hinv Hset]. specialize (Hset n). rewrite Hnil in Hset.
  unfold settled_at in Hset. destruct (selected st n) as [o|] eqn:Hsel.
  - pose proof (selected_Some _ _ _ Hinv Hsel) as (Hraw & Hname & _). split_and!; [done..| |].
    + intros r p Hp Hn. unfold selected in Hsel. apply bind_Some in Hsel as (r' & Hmin & Hr').
      destruct (inv_raw _ Hinv _ _ Hr') as [-> _]. apply min_by_key_spec in Hmin as [_ Hle].
      apply Hle, elem_of_elements, (inv_refs _ Hinv). eauto.
    + destruct Hset as [(e & ? & ? & _)|(t & Ht & _)]; [eauto|]. by apply elem_of_nil in Ht.
  - split.
    + intros r p Hp Hn. apply (selected_None _ _ Hinv) in Hsel.
      assert (r ∈ refs_of st n) by (apply (inv_refs _ Hinv); eauto). set_solver.
    + intros e He. rewrite He in Hset. by destruct Hset.
Qed.

(** C35: Renaming: an update that changes the service name of a resource updates only the
    new name. The entry of the old name keeps routing, although no resource has this
    name any more. *)
Theorem rename_leaves_stale_route d st p o :
  rtc store_step (store_new d) st →
  raw_services st !! from_obj o = Some p →
  refs_of st (service_name (spec p)) = {[from_obj o]} →
  service_name (spec o) ≠ service_name (spec p) → dot ∈ service_name (spec o) →
  ∃ st', apply_service o st = Ok st'
    ∧ services st' !! service_name (spec p) = services st !! service_name (spec p)
    ∧ ∀ r p', raw_services st' !! r = Some p' → service_name (spec p') ≠ service_name (spec p).
Proof.
  intros Hinv%store_inv_reachable Hp Hone Hne Hdot. set (n := service_name (spec p)) in *.
  destruct (apply_service_inv st o Hinv Hdot) as (st' & Hap & Hinv' & Hraw).
  exists st'. split_and!; [done| |].
  - destruct (apply_service_eq st o Hinv) as (st1 & _ & Hinv1 & Hnone & Heq & _ & Hsome & Hsv & _).
    rewrite Hap in Heq. symmetry in Heq. rewrite <- Hsv.
    pose proof (update_service_eq (insert_service o st1) _
      (insert_service_inv _ _ Hinv1 Hnone Hdot) Hsome) as Hup.
    destruct (selected (insert_service o st1) (service_name (spec o))) as [o'|].
    + destruct Hup as (q & _ & Hup). rewrite Hup in Heq. injection Heq as <-.
      destruct (descriptor_set_source (spec o')); simpl; [done|by rewrite lookup_insert_ne].
    + rewrite Hup in Heq. injection Heq as <-. simpl. by rewrite lookup_insert_ne.
  - intros r p'. rewrite Hraw, lookup_insert_Some. intros [[_ ->]|[Hr Hp']]; [done|].
    intros Hn. assert (r ∈ refs_of st n) by (apply (inv_refs _ Hinv); eauto). set_solver.
Qed.
End routing.


(** ** Sample runs *)

Definition direct_target : LbTarget (bytes * Z) := λ lb, lb.

#[local] Instance direct_laws : @DnsHandleLaws unit (bytes * Z) direct_dns direct_target.
Proof. by exists (λ _, True). Defined.

Definition test_source (src : DescriptorSetSource) : outcome unit (list (@FileDescriptorProto plain_reflection)) := Ok [test_file].

Lemma none_lookup {A} (x : option A) (p : A) : x = None → x = Some p → False.
Proof. by intros ->. Qed.

(** Two passthrough resources for one name; the one of the lesser name is routed. *)
Lemma quiescent_routing_witness :
  ∃ e, services (state_after [Apply (svc "b" "1" "p.A"); Apply (svc "a" "1" "p.A")])
         !! lit "p.A" = Some e
    ∧ routed (R:=plain_reflection) (LbTarget0:=direct_target) test_source (svc "a" "1" "p.A") e.
Proof.
  pose proof (quiescent_routing (H:=direct_laws) test_source tt
    (state_after [Apply (svc "b" "1" "p.A"); Apply (svc "a" "1" "p.A")]) (lit "p.A")) as Hq.
  assert (selected (state_after [Apply (svc "b" "1" "p.A"); Apply (svc "a" "1" "p.A")]) (lit "p.A")
          = Some (svc "a" "1" "p.A")) as Hsel by vm_refl.
  rewrite Hsel in Hq. destruct Hq as (_ & _ & _ & He); [exact I| | |exact He].
  - eapply rtc_l; [eapply (quiet_change _ _ (Apply (svc "b" "1" "p.A")))|].
    + intros o [= <-] p Hp. exfalso. revert Hp. apply none_lookup. vm_refl.
    + instantiate (1 := state_after [Apply (svc "b" "1" "p.A")]). vm_refl.
    + eapply rtc_l; [eapply (quiet_change _ _ (Apply (svc "a" "1" "p.A")))|].
      * intros o [= <-] p Hp. exfalso. revert Hp. apply none_lookup. vm_refl.
      * instantiate (1 := state_after [Apply (svc "b" "1" "p.A"); Apply (svc "a" "1" "p.A")]).
        vm_refl.
      * apply rtc_refl.
  - vm_refl.
Defined.

Lemma rename_leaves_stale_route_witness :
  ∃ st', apply_service (DnsHandle0:=direct_dns) (svc "a" "2" "p.B")
           (state_after [Apply (svc "a" "1" "p.A")]) = Ok st'
    ∧ services st' !! lit "p.A"
      = services (state_after [Apply (svc "a" "1" "p.A")]) !! lit "p.A".
Proof.
  destruct (rename_leaves_stale_route (DnsHandle0:=direct_dns) tt
    (state_after [Apply (svc "a" "1" "p.A")]) (svc "a" "1" "p.A") (svc "a" "2" "p.B"))
    as (st' & Hst' & Hs & _).
  - apply state_after_reachable. vm_refl.
  - vm_refl.
  - vm_refl.
  - discriminate.
  - by apply (bool_decide_unpack _); vm_compute.
  - exists st'. split; [exact Hst'|exact Hs].
Defined.
