(* ===== verification/StoreLabels.v ===== *)
(** * StoreLabels: what the service store does not look at

    A [GrcacheService] names the cluster of proxies it is for and, optionally, an
    upstream. The store reads neither: relabelling every resource commutes with all of
    its operations. *)

From stdpp Require Import gmap strings list fin_maps.
From Stdlib Require Import Strings.Byte.
From S2P Require Import Prelude Text Crd ServiceSpec ResourceChange ServiceStore StoreInv.

Section labels.
Context {R : Reflection} {DnsSt LB : Type} `{!DnsHandle DnsSt LB}.
Context (new_cluster : GrcacheService → bytes) (new_upstream_name : GrcacheService → option bytes).
Implicit Types (st : ServiceConfigState DnsSt LB).

Definition relabel (o : GrcacheService) : GrcacheService :=
  mkService (meta_namespace o) (meta_name o) (resource_version o)
    (mkSpec (new_cluster o) (new_upstream_name o) (upstream (spec o)) (service_name (spec o))
       (descriptor_set_source (spec o))).

Definition relabel_change (c : Change GrcacheService) : Change GrcacheService :=
  match c with
  | Apply o => Apply (relabel o)
  | Ready => Ready
  | Delete r => Delete r
  | ChangeError e => ChangeError e
  end.

Definition relabel_store (st : ServiceConfigState DnsSt LB) : ServiceConfigState DnsSt LB :=
  mkStore (services st) (store_ready st) (spec_generation st) (relabel <$> raw_services st)
    (ref_by_grpc_service st) (dns st) (tasks st).

Lemma update_service_relabel n st :
  update_service n (relabel_store st) = relabel_store <$> update_service n st.
Proof.
  unfold update_service. simpl. destruct (ref_by_grpc_service st !! n) as [objects|]; simpl; [|done].
  case_decide; simpl; [done|]. destruct (min_by_key (elements objects)) as [r|]; simpl; [|done].
  rewrite lookup_fmap. destruct (raw_services st !! r) as [o|]; simpl; [|done].
  destruct (unwrap_res (qualified_parse _)) as [q| |]; simpl; [|done..].
  destruct (match upstream (spec o) with Dns url port => _ end) as [d lb].
  destruct (descriptor_set_source (spec o)) as [source|]; simpl; [done|].
  by destruct (update_service_if_newer _ _ _).
Qed.

Lemma remove_noupdate_relabel r st :
  remove_noupdate r (relabel_store st) =
  prod_map relabel_store (fmap (M:=option) relabel) <$> remove_noupdate r st.
Proof.
  unfold remove_noupdate. simpl. rewrite lookup_fmap.
  destruct (raw_services st !! r) as [p|]; simpl.
  - destruct (ref_by_grpc_service st !! _) as [objects|]; simpl; [|done].
    unfold relabel_store. simpl. by rewrite fmap_delete.
  - unfold relabel_store. simpl. by rewrite fmap_delete.
Qed.

Lemma insert_service_relabel o st :
  insert_service (relabel o) (relabel_store st) = relabel_store (insert_service o st).
Proof. unfold insert_service, relabel_store. simpl. by rewrite fmap_insert. Qed.

Lemma on_change_relabel c st :
  on_change (relabel_change c) (relabel_store st) = relabel_store <$> on_change c st.
Proof.
  destruct c as [|o|r|e]; simpl; [done| | |done].
  - unfold apply_service. change (from_obj (relabel o)) with (from_obj o).
    rewrite remove_noupdate_relabel. destruct (remove_noupdate (from_obj o) st) as [[st1 p]| |]; simpl; [|done..].
    rewrite insert_service_relabel. apply update_service_relabel.
  - unfold remove_service. rewrite remove_noupdate_relabel.
    destruct (remove_noupdate r st) as [[st1 [p|]]| |]; simpl; [|done..].
    apply update_service_relabel.
Qed.

(** The store ignores the cluster and the upstream name of a resource: changing them in
    every resource of a stream of changes, in any way, gives the same routing table, the
    same loading tasks, the same requests to discovery and the same panics. So a proxy
    also routes the resources that are meant for other clusters, and resources that
    differ in the upstream name only are duplicates of one another. *)
Theorem cluster_label_ignored cs d :
  on_changes (relabel_change <$> cs) (store_new d) = relabel_store <$> on_changes cs (store_new d).
Proof.
  assert (store_new (LB:=LB) d = relabel_store (store_new d)) as Hnew
    by (unfold relabel_store, store_new; simpl; by rewrite fmap_empty).
  rewrite Hnew at 1. generalize (store_new (LB:=LB) d) as st.
  induction cs as [|c cs IH]; intros st; simpl; [done|]. rewrite on_change_relabel.
  destruct (on_change c st) as [st1| |]; simpl; [apply IH|done..].
Qed.
End labels.
