(* ===== verification/Discovery.v ===== *)
(** * Discovery: [discovery/mod.rs] and [discovery/dns.rs]

    A [ServiceBackendsHandle] holds the backends found for a host and port and two load
    balancers over them. [Handle::backends_for_hostname] shares one handle per host and
    port through weak references; a new handle comes with a command for the discovery
    service, which spawns [dns_discovery_loop] for it. The loop looks the host up, sends
    the addresses to the watch channel of the handle, updates the load balancers and
    stops when nobody holds the handle any more.

    Handles live in a store, [handles]; the strong references of an [Arc] are counted as
    those of its users ([clients]) and those of the loops that have upgraded their weak
    reference. A channel is created together with its handle and has its number.
    [disc_step] interleaves requests, dropped references, the service and the loops;
    every [await] of a loop is a separate step. Load balancers are pingora's: they are
    used through the interface [Balancer]. *)

From stdpp Require Import gmap strings list fin_maps relations countable.
From Stdlib Require Import Strings.Byte.
From S2P Require Import Prelude Text Crd.

(** ** Backends *)

Inductive SocketAddr :=
| Inet (ip : Z) (port : Z)
| Unix (path : bytes).

Record Backend := mkBackend { addr : SocketAddr; weight : nat }.

#[global] Instance SocketAddr_eq_dec : EqDecision SocketAddr.
Proof. solve_decision. Defined.
#[global] Instance Backend_eq_dec : EqDecision Backend.
Proof. solve_decision. Defined.

#[global] Program Instance SocketAddr_countable : Countable SocketAddr :=
  inj_countable' (λ a, match a with Inet i p => inl (i, p) | Unix s => inr s end)
    (λ a, match a with inl (i, p) => Inet i p | inr s => Unix s end) _.
Next Obligation. by intros []. Qed.

#[global] Program Instance Backend_countable : Countable Backend :=
  inj_countable' (λ b, (addr b, weight b)) (λ p, mkBackend p.1 p.2) _.
Next Obligation. by intros []. Qed.

(** [SocketAddr::as_inet]. *)
Definition as_inet (a : SocketAddr) : option (Z * Z) :=
  match a with Inet ip port => Some (ip, port) | Unix _ => None end.

(** ** The interface of a load balancer *)

(** pingora's [LoadBalancer<S>]: [from_backends] (empty until updated), the backends it
    chooses from, [update] with what the service discovery returned, and [select_with],
    which may advance the position of a round robin. *)
Class Balancer (L : Type) := {
  lb_new : L;
  lb_backends : L → gset Backend;
  lb_update : gset Backend → L → L;
  lb_select_with : bytes → nat → (Backend → bool → bool) → L → L * option Backend;
}.

(** Without health checks every backend is healthy, and a selection returns a backend
    that the filter accepts. *)
Class BalancerLaws (L : Type) `{!Balancer L} : Prop := {
  lb_new_empty : lb_backends lb_new = ∅;
  lb_update_backends s l : lb_backends (lb_update s l) = s;
  lb_select_sound key max accept l b :
    (lb_select_with key max accept l).2 = Some b → b ∈ lb_backends l ∧ accept b true = true;
  lb_select_first key max accept l :
    0 < max → lb_backends l ≠ ∅ → (∀ b, b ∈ lb_backends l → accept b true = true) →
    is_Some (lb_select_with key max accept l).2;
  lb_select_backends key max accept l :
    lb_backends (lb_select_with key max accept l).1 = lb_backends l;
}.

(** [select(key, max_iterations)]. *)
Definition lb_select {L} `{!Balancer L} (key : bytes) (max : nat) (l : L) : L * option Backend :=
  lb_select_with key max (λ _ healthy, healthy) l.

(** Without a filter a backend is selected exactly if there is one. *)
Lemma lb_select_cases {L} `{BalancerLaws L} key max (l : L) :
  0 < max →
  match (lb_select key max l).2 with
  | Some b => b ∈ lb_backends l
  | None => lb_backends l = ∅
  end.
Proof.
  intros Hmax. unfold lb_select.
  destruct (lb_select_with key max (λ _ healthy, healthy) l).2 as [b|] eqn:Hs.
  - by apply lb_select_sound in Hs as [? _].
  - destruct (decide (lb_backends l = ∅)) as [|Hne]; [done|].
    destruct (lb_select_first key max (λ _ healthy, healthy) l Hmax Hne) as [b Hb]; [done|congruence].
Qed.

Section discovery.
Context {RR Cons : Type} `{!Balancer RR, !Balancer Cons}.

(** ** State *)

(** A handle, with the values of its two watch channels and the references its users
    hold. *)
Record ServiceBackendsHandle := mkHandle {
  backends : gset Backend;
  load_balancer_round_robin : RR;
  load_balancer_consistent : Cons;
  ready : bool;
  clients : nat;
}.

(** A reference to a handle. [h_for] is the host and port it was created for. *)
Record HandleRef := mkHandleRef { h_id : nat; h_for : bytes * Z }.

Inductive Command :=
| StartDiscoveryLoop (host_port : bytes * Z) (channel : nat).

(** Where a discovery loop is; from [AtLookup] on it holds [handle_weak]. *)
Inductive LoopPc :=
| AtStart
| AtLookup (handle_weak : HandleRef)
| AtUpgrade (handle_weak : HandleRef)
| AtUpdateRoundRobin (lb : HandleRef)
| AtUpdateConsistent (lb : HandleRef)
| AtCheck (handle_weak : HandleRef)
| Stopped.

Record Loop := mkLoop { host_port : bytes * Z; channel : nat; pc : LoopPc }.

Record Discovery := mkDiscovery {
  service_backends : gmap (bytes * Z) HandleRef;
  handles : list ServiceBackendsHandle;
  commands : list Command;
  loops : list Loop;
}.

(** [Service::new]. *)
Definition discovery_new : Discovery := mkDiscovery ∅ [] [] [].

(** ** Reference counts *)

(** The loop holds the strong reference it got from [upgrade]. *)
Definition holds (id : nat) (l : Loop) : bool :=
  match pc l with
  | AtUpdateRoundRobin lb | AtUpdateConsistent lb => bool_decide (h_id lb = id)
  | _ => false
  end.

Definition held_by_loops (id : nat) (ls : list Loop) : nat := length (List.filter (holds id) ls).

Definition strong_count (st : Discovery) (id : nat) : nat :=
  match handles st !! id with
  | Some h => clients h + held_by_loops id (loops st)
  | None => 0
  end.

Definition on_handle (id : nat) (f : ServiceBackendsHandle → ServiceBackendsHandle)
    (st : Discovery) : Discovery :=
  mkDiscovery (service_backends st) (alter f id (handles st)) (commands st) (loops st).

Definition with_clients (f : nat → nat) (h : ServiceBackendsHandle) : ServiceBackendsHandle :=
  mkHandle (backends h) (load_balancer_round_robin h) (load_balancer_consistent h) (ready h)
    (f (clients h)).

Definition with_backends (s : gset Backend) (h : ServiceBackendsHandle) : ServiceBackendsHandle :=
  mkHandle s (load_balancer_round_robin h) (load_balancer_consistent h) (ready h) (clients h).

Definition with_ready (h : ServiceBackendsHandle) : ServiceBackendsHandle :=
  mkHandle (backends h) (load_balancer_round_robin h) (load_balancer_consistent h) true (clients h).

(** [load_balancer_*.update()]: [WatchServiceDiscovery::discover] returns the value of
    the watch channel. *)
Definition discover (h : ServiceBackendsHandle) : gset Backend := backends h.

Definition update_round_robin (h : ServiceBackendsHandle) : ServiceBackendsHandle :=
  mkHandle (backends h) (lb_update (discover h) (load_balancer_round_robin h))
    (load_balancer_consistent h) (ready h) (clients h).

Definition update_consistent (h : ServiceBackendsHandle) : ServiceBackendsHandle :=
  mkHandle (backends h) (load_balancer_round_robin h)
    (lb_update (discover h) (load_balancer_consistent h)) (ready h) (clients h).

(** ** Using a handle *)

Definition with_round_robin (l : RR) (h : ServiceBackendsHandle) : ServiceBackendsHandle :=
  mkHandle (backends h) l (load_balancer_consistent h) (ready h) (clients h).

Definition with_consistent (l : Cons) (h : ServiceBackendsHandle) : ServiceBackendsHandle :=
  mkHandle (backends h) (load_balancer_round_robin h) l (ready h) (clients h).

(** [Arc::clone] of a reference to a handle. *)
Definition clone_ref (r : HandleRef) (st : Discovery) : Discovery := on_handle (h_id r) (with_clients S) st.

(** [load_balancer_round_robin.select(..)] and [load_balancer_consistent.select_with(..)]:
    the balancers are shared, so that a selection moves the round robin for all users. *)
Definition select_round_robin (key : bytes) (max : nat) (r : HandleRef) (st : Discovery)
    : Discovery * option Backend :=
  match handles st !! h_id r with
  | Some h =>
    let '(l, b) := lb_select key max (load_balancer_round_robin h) in
    (on_handle (h_id r) (with_round_robin l) st, b)
  | None => (st, None)
  end.

Definition select_consistent (key : bytes) (max : nat) (accept : Backend → bool → bool) (r : HandleRef)
    (st : Discovery) : Discovery * option Backend :=
  match handles st !! h_id r with
  | Some h =>
    let '(l, b) := lb_select_with key max accept (load_balancer_consistent h) in
    (on_handle (h_id r) (with_consistent l) st, b)
  | None => (st, None)
  end.

(** ** [Handle::backends_for_hostname] *)

(** [Weak::upgrade]. *)
Definition upgrade (r : HandleRef) (st : Discovery) : option HandleRef :=
  if (strong_count st (h_id r) =? 0)%nat then None else Some r.

Definition backends_for (st : Discovery) (hostname : bytes) (port : Z) : Discovery * HandleRef :=
  let host_port := (hostname, port) in
  match service_backends st !! host_port ≫= λ r, upgrade r st with
  | Some lb => (on_handle (h_id lb) (with_clients S) st, lb)
  | None =>
    let id := length (handles st) in
    let data := mkHandleRef id host_port in
    (mkDiscovery (<[host_port := data]> (service_backends st))
       (handles st ++ [mkHandle ∅ lb_new lb_new false 1])
       (commands st ++ [StartDiscoveryLoop host_port id]) (loops st),
     data)
  end.

(** A user drops its reference. *)
Definition drop_ref (id : nat) (st : Discovery) : Discovery := on_handle id (with_clients pred) st.

(** ** [dns_discovery_loop] *)

Definition set_pc (i : nat) (p : LoopPc) (st : Discovery) : Discovery :=
  mkDiscovery (service_backends st) (handles st) (commands st)
    (alter (λ l, mkLoop (host_port l) (channel l) p) i (loops st)).

(** The set built from the addresses of a response. *)
Definition backends_of (addrs : list Z) (port : Z) : gset Backend :=
  list_to_set ((λ ip, mkBackend (Inet ip port) 1) <$> addrs).

(** [backends_sender.send_if_modified]: the new state, and whether the value changed. *)
Definition send_if_modified (channel : nat) (s : gset Backend) (st : Discovery) : Discovery * bool :=
  match handles st !! channel with
  | Some h => if decide (backends h = s) then (st, false)
              else (on_handle channel (with_backends s) st, true)
  | None => (st, false)
  end.

(** [ready_send.send(true)] fails, and is ignored, when the handle with its receiver is
    gone. *)
Definition send_ready (channel : nat) (st : Discovery) : Discovery :=
  if (strong_count st channel =? 0)%nat then st else on_handle channel with_ready st.

(** One step of loop [i], up to its next [await] or check; [response] is the answer of
    the resolver, used by the loop at [AtLookup]. *)
Definition loop_step (response : option (list Z)) (i : nat) (st : Discovery)
    : outcome Empty_set Discovery :=
  match loops st !! i with
  | None => Ok st
  | Some (mkLoop host_port channel pc) =>
    match pc with
    | AtStart =>
      handle_weak ← unwrap (service_backends st !! host_port);
      Ok (set_pc i (AtLookup handle_weak) st)
    | AtLookup handle_weak =>
      match response with
      | None =>
        Ok (if (strong_count st (h_id handle_weak) =? 0)%nat then set_pc i Stopped st else st)
      | Some addrs =>
        let '(st, has_changed) := send_if_modified channel (backends_of addrs host_port.2) st in
        Ok (set_pc i (if has_changed : bool then AtUpgrade handle_weak else AtCheck handle_weak) st)
      end
    | AtUpgrade handle_weak =>
      Ok (match upgrade handle_weak st with
          | Some lb => set_pc i (AtUpdateRoundRobin lb) st
          | None => set_pc i (AtCheck handle_weak) st
          end)
    | AtUpdateRoundRobin lb =>
      Ok (set_pc i (AtUpdateConsistent lb) (on_handle (h_id lb) update_round_robin st))
    | AtUpdateConsistent lb =>
      Ok (set_pc i (AtCheck lb) (on_handle (h_id lb) update_consistent st))
    | AtCheck handle_weak =>
      Ok (if (strong_count st (h_id handle_weak) =? 0)%nat then set_pc i Stopped st
          else set_pc i (AtLookup handle_weak) (send_ready channel st))
    | Stopped => Ok st
    end
  end.

(** ** [Service::start]: one command received, its loop spawned *)

Definition receive (st : Discovery) : Discovery :=
  match commands st with
  | StartDiscoveryLoop host_port channel :: cs =>
    mkDiscovery (service_backends st) (handles st) cs
      (loops st ++ [mkLoop host_port channel AtStart])
  | [] => st
  end.

Inductive disc_step : Discovery → Discovery → Prop :=
| disc_request st hostname port :
    disc_step st (backends_for st hostname port).1
| disc_drop st id h :
    handles st !! id = Some h → 0 < clients h → disc_step st (drop_ref id st)
| disc_clone st r h :
    handles st !! h_id r = Some h → 0 < clients h → disc_step st (clone_ref r st)
| disc_select_round_robin st key max r :
    disc_step st (select_round_robin key max r st).1
| disc_select_consistent st key max accept r :
    disc_step st (select_consistent key max accept r st).1
| disc_receive st :
    disc_step st (receive st)
| disc_loop st i response st' :
    loop_step response i st = Ok st' → disc_step st st'.
End discovery.

Arguments ServiceBackendsHandle : clear implicits.
Arguments Discovery : clear implicits.

(** ** A simple balancer *)

(** A balancer that takes the first backend accepted. *)
#[global] Instance set_balancer : Balancer (gset Backend) := {
  lb_new := ∅;
  lb_backends s := s;
  lb_update s _ := s;
  lb_select_with _ max accept s :=
    (s, if (max =? 0)%nat then None else List.find (λ b, accept b true) (elements s));
}.

#[global] Instance set_balancer_laws : BalancerLaws (gset Backend).
Proof.
  split; [done..| | |]; simpl.
  - intros _ max accept l b. destruct (max =? 0)%nat; [done|].
    intros [Hin Hacc]%List.find_some. split; [|done]. by apply elem_of_elements, list_elem_of_In.
  - intros _ max accept l Hmax Hne Hall. destruct (Nat.eqb_spec max 0); [lia|].
    destruct (List.find _ _) eqn:Hf; [eauto|]. apply set_choose_L in Hne as [b Hb].
    apply List.find_none with (x := b) in Hf; [|by apply list_elem_of_In, elem_of_elements].
    rewrite Hall in Hf; done.
  - done.
Qed.
