(* ===== verification/DiscoveryInv.v ===== *)
(** * DiscoveryInv: the invariant of DNS discovery

    Which handles are alive, that a live handle is the registered one and is served by
    exactly one command or loop, and that its load balancers follow the watch channel. *)

From stdpp Require Import gmap strings list fin_maps relations.
From Stdlib Require Import Strings.Byte.
From S2P Require Import Prelude Text Crd Discovery.

Section inv.
Context {RR Cons : Type} `{HRR : BalancerLaws RR, HCons : BalancerLaws Cons}.
Notation Discovery := (Discovery RR Cons).
Notation ServiceBackendsHandle := (ServiceBackendsHandle RR Cons).
Implicit Types (st : Discovery) (h : ServiceBackendsHandle) (l : Loop).

(** ** Live handles *)

(** Somebody holds a strong reference to the handle. *)
Definition live (st : Discovery) (id : nat) : Prop :=
  ∃ h, handles st !! id = Some h ∧
    (0 < clients h ∨ ∃ i l, loops st !! i = Some l ∧ holds id l = true).

Lemma held_by_loops_0 id ls :
  held_by_loops id ls = 0 ↔ ∀ i l, ls !! i = Some l → holds id l = false.
Proof.
  unfold held_by_loops. induction ls as [|l ls IH]; simpl; [done|].
  destruct (holds id l) eqn:Hl; simpl.
  - split; [done|]. intros Hall. specialize (Hall 0 l eq_refl). congruence.
  - rewrite IH. split; [|intros Hall i; apply (Hall (S i))]. intros Hall [|i] l'; simpl; [|apply Hall].
    congruence.
Qed.

Lemma strong_count_0 st id : strong_count st id = 0 ↔ ¬ live st id.
Proof.
  unfold strong_count, live. destruct (handles st !! id) as [h|] eqn:Hh; [|naive_solver].
  split.
  - intros Hc (h' & [= <-] & [Hcl|(i & l & Hl & Hhold)]); [lia|].
    assert (held_by_loops id (loops st) = 0) as H0 by lia.
    rewrite held_by_loops_0 in H0. specialize (H0 i l Hl). congruence.
  - intros Hn. destruct (decide (clients h = 0)) as [->|]; [|exfalso; apply Hn; exists h; auto with lia].
    simpl. apply held_by_loops_0. intros i l Hl.
    destruct (holds id l) eqn:Hhold; [|done]. exfalso. apply Hn. eauto 10.
Qed.

(** ** The invariant *)

Definition rr_synced h : Prop := lb_backends (load_balancer_round_robin h) = backends h.
Definition cons_synced h : Prop := lb_backends (load_balancer_consistent h) = backends h.

Definition weak_of (p : LoopPc) : option HandleRef :=
  match p with
  | AtStart | Stopped => None
  | AtLookup w | AtUpgrade w | AtUpdateRoundRobin w | AtUpdateConsistent w | AtCheck w => Some w
  end.

(** How far the load balancers of a live handle follow its channel, by the position of
    the loop that serves it. *)
Definition synced (p : LoopPc) h : Prop :=
  match p with
  | AtUpgrade _ | AtUpdateRoundRobin _ => True
  | AtUpdateConsistent _ => rr_synced h
  | AtStart | AtLookup _ | AtCheck _ => rr_synced h ∧ cons_synced h
  | Stopped => False
  end.

(** The host and port are registered, and the channel is the registered handle if it is
    alive. *)
Definition registered (st : Discovery) (k : bytes * Z) (c : nat) : Prop :=
  is_Some (service_backends st !! k) ∧ c < length (handles st)
  ∧ (live st c → service_backends st !! k = Some (mkHandleRef c k)).

Definition loop_ok (st : Discovery) (l : Loop) : Prop :=
  registered st (host_port l) (channel l)
  ∧ (∀ w, weak_of (pc l) = Some w →
       h_for w = host_port l ∧ h_id w < length (handles st)
       ∧ (live st (channel l) → h_id w = channel l))
  ∧ (∀ h, handles st !! channel l = Some h → live st (channel l) → synced (pc l) h).

Definition command_ok (st : Discovery) (cmd : Command) : Prop :=
  match cmd with
  | StartDiscoveryLoop k c =>
    registered st k c ∧ ∀ h, handles st !! c = Some h → live st c → rr_synced h ∧ cons_synced h
  end.

Definition command_channel (cmd : Command) : nat :=
  match cmd with StartDiscoveryLoop _ c => c end.

(** The channels commands and loops send to: one for each handle. *)
Definition channels (st : Discovery) : list nat :=
  (channel <$> loops st) ++ (command_channel <$> commands st).

Record disc_inv (st : Discovery) : Prop := {
  d_map : ∀ k r, service_backends st !! k = Some r → h_for r = k ∧ h_id r < length (handles st);
  d_live : ∀ id, live st id → ∃ k, service_backends st !! k = Some (mkHandleRef id k);
  d_command : ∀ cmd, cmd ∈ commands st → command_ok st cmd;
  d_loop : ∀ i l, loops st !! i = Some l → loop_ok st l;
  d_channels : channels st ≡ₚ seq 0 (length (handles st));
}.

Lemma disc_inv_new : disc_inv discovery_new.
Proof.
  split; simpl.
  - intros k r. by rewrite lookup_empty.
  - intros id (h & Hh & _). simpl in Hh. by rewrite lookup_nil in Hh.
  - intros cmd Hc. by apply elem_of_nil in Hc.
  - intros i l. by rewrite lookup_nil.
  - done.
Qed.

(** ** Framing *)

(** What a step must keep of the handles for the facts on other loops to remain. *)
Record frame (st st' : Discovery) (P : nat → Prop) : Prop := {
  f_len : length (handles st) ≤ length (handles st');
  f_known : ∀ k, is_Some (service_backends st !! k) → is_Some (service_backends st' !! k);
  f_live : ∀ id, id < length (handles st) → live st' id → live st id;
  f_ready : ∀ id h, handles st !! id = Some h →
    ∃ h', handles st' !! id = Some h' ∧ (ready h = true → ready h' = true);
  f_map : ∀ id k, id < length (handles st) → live st' id → service_backends st !! k = Some (mkHandleRef id k) →
    service_backends st' !! k = Some (mkHandleRef id k);
  f_sync : ∀ id h', P id → id < length (handles st) → handles st' !! id = Some h' →
    ∃ h, handles st !! id = Some h ∧ (rr_synced h → rr_synced h') ∧ (cons_synced h → cons_synced h');
}.

(** What every step keeps: no handle disappears, is revived, replaced while alive, or
    becomes unready. *)
Definition evolves (st st' : Discovery) : Prop := frame st st' (λ _, False).

Lemma frame_evolves st st' P : frame st st' P → evolves st st'.
Proof. intros Hf. split; [apply Hf..|]. done. Qed.

#[global] Instance evolves_preorder : PreOrder evolves.
Proof.
  split.
  - intros st. split; naive_solver.
  - intros st1 st2 st3 H12 H23. pose proof (f_len _ _ _ H12). split.
    + pose proof (f_len _ _ _ H23). lia.
    + intros k Hk. by apply (f_known _ _ _ H23), (f_known _ _ _ H12).
    + intros id Hid Hl. apply (f_live _ _ _ H12), (f_live _ _ _ H23); [done|lia|done].
    + intros id h Hh. destruct (f_ready _ _ _ H12 id h Hh) as (h2 & Hh2 & ?).
      destruct (f_ready _ _ _ H23 id h2 Hh2) as (h3 & Hh3 & ?). naive_solver.
    + intros id k Hid Hl Hk. apply (f_map _ _ _ H23); [lia|done|].
      apply (f_map _ _ _ H12); [done| |done]. apply (f_live _ _ _ H23); [lia|done].
    + done.
Qed.

Lemma registered_frame st st' P k c :
  frame st st' P → registered st k c → registered st' k c.
Proof.
  intros Hf (Hk & Hc & Hl). split_and!.
  - by apply (f_known _ _ _ Hf).
  - pose proof (f_len _ _ _ Hf). lia.
  - intros Hlive. apply (f_map _ _ _ Hf); [done..|]. apply Hl. by apply (f_live _ _ _ Hf).
Qed.

Lemma command_ok_frame st st' P cmd :
  frame st st' P → P (command_channel cmd) → command_ok st cmd → command_ok st' cmd.
Proof.
  intros Hf HP. destruct cmd as [k c]. intros [Hreg Hs]. split; [by eapply registered_frame|].
  destruct Hreg as (_ & Hc & _). intros h' Hh' Hlive.
  destruct (f_sync _ _ _ Hf c h' HP Hc Hh') as (h & Hh & Hr & Hco).
  destruct (Hs h Hh); [by apply (f_live _ _ _ Hf)|auto].
Qed.

Lemma loop_ok_frame st st' P l :
  frame st st' P → P (channel l) → loop_ok st l → loop_ok st' l.
Proof.
  intros Hf HP (Hreg & Hw & Hs). split; [by eapply registered_frame|].
  destruct Hreg as (_ & Hc & _). split.
  - intros w Hpc. destruct (Hw w Hpc) as (? & ? & Heq). pose proof (f_len _ _ _ Hf).
    split_and!; [done|lia|]. intros Hlive. apply Heq. by apply (f_live _ _ _ Hf).
  - intros h' Hh' Hlive. destruct (f_sync _ _ _ Hf _ h' HP Hc Hh') as (h & Hh & Hr & Hco).
    specialize (Hs h Hh (f_live _ _ _ Hf _ Hc Hlive)). unfold synced in *.
    destruct (pc l); naive_solver.
Qed.

(** ** Steps of a loop *)

(** Changing handles without touching the references. *)
Definition keeps_clients (f : ServiceBackendsHandle → ServiceBackendsHandle) : Prop :=
  ∀ h, clients (f h) = clients h ∧ (ready h = true → ready (f h) = true).

Lemma on_handle_lookup j f st id h' :
  handles (on_handle j f st) !! id = Some h' ↔
  ∃ h, handles st !! id = Some h ∧ h' = (if decide (j = id) then f h else h).
Proof.
  unfold on_handle. simpl. destruct (decide (j = id)) as [->|Hne].
  - rewrite list_lookup_alter_eq. destruct (handles st !! id); naive_solver.
  - rewrite list_lookup_alter_ne by done. naive_solver.
Qed.

Lemma on_handle_length j f st : length (handles (on_handle j f st)) = length (handles st).
Proof. apply length_alter. Qed.

Lemma on_handle_id j st : on_handle j (λ h, h) st = st.
Proof.
  destruct st as [m hs cs ls]. unfold on_handle. simpl. f_equal. apply list_eq. intros i.
  destruct (decide (j = i)) as [->|]; [|by rewrite list_lookup_alter_ne].
  rewrite list_lookup_alter_eq. by destruct (hs !! i).
Qed.

Lemma on_handle_live j f st id : keeps_clients f → live (on_handle j f st) id ↔ live st id.
Proof.
  intros Hf. unfold live. setoid_rewrite on_handle_lookup. split.
  - intros (h' & (h & Hh & ->) & Hc). exists h. split; [done|]. case_decide; [|done].
    by rewrite (proj1 (Hf h)) in Hc.
  - intros (h & Hh & Hc). eexists. split; [by exists h|]. case_decide; [|done]. by rewrite (proj1 (Hf h)).
Qed.

Lemma set_pc_lookup i p st j l :
  loops (set_pc i p st) !! j = Some l ↔
  ∃ l0, loops st !! j = Some l0 ∧
    l = (if decide (i = j) then mkLoop (host_port l0) (channel l0) p else l0).
Proof.
  unfold set_pc. simpl. destruct (decide (i = j)) as [->|Hne].
  - rewrite list_lookup_alter_eq. destruct (loops st !! j); naive_solver.
  - rewrite list_lookup_alter_ne by done. naive_solver.
Qed.

(** Moving a loop creates no live handle, as long as the reference it takes is alive. *)
Lemma set_pc_live i p st id :
  (∀ k c, holds id (mkLoop k c p) = true → live st id) → live (set_pc i p st) id → live st id.
Proof.
  intros Hp (h & Hh & [Hc|(j & l & Hl & Hhold)]); [by exists h; auto|].
  apply set_pc_lookup in Hl as (l0 & Hl0 & ->). case_decide; [by eapply Hp|].
  exists h. eauto 10.
Qed.

Lemma set_pc_channels i p st : channels (set_pc i p st) = channels st.
Proof.
  unfold channels, set_pc. simpl. f_equal. apply list_eq. intros j. rewrite !list_lookup_fmap.
  destruct (decide (i = j)) as [->|]; [|by rewrite list_lookup_alter_ne].
  rewrite list_lookup_alter_eq. by destruct (loops st !! j).
Qed.

(** Only loop [i] sends to its channel. *)
Lemma channel_unique st i j l l' :
  disc_inv st → loops st !! i = Some l → loops st !! j = Some l' →
  channel l = channel l' → i = j.
Proof.
  intros Hinv Hl Hl' Heq. pose proof (d_channels _ Hinv) as Hp.
  assert (NoDup (channels st)) as Hnd by (rewrite Hp; apply NoDup_seq).
  apply NoDup_app in Hnd as (Hnd & _). apply (NoDup_lookup _ i j (channel l) Hnd).
  - rewrite list_lookup_fmap, Hl. done.
  - rewrite list_lookup_fmap, Hl'. simpl. by rewrite Heq.
Qed.

Lemma channel_not_command st i l cmd :
  disc_inv st → loops st !! i = Some l → cmd ∈ commands st → command_channel cmd ≠ channel l.
Proof.
  intros Hinv Hl Hc Heq. pose proof (d_channels _ Hinv) as Hp.
  assert (NoDup (channels st)) as Hnd by (rewrite Hp; apply NoDup_seq).
  apply NoDup_app in Hnd as (_ & Hd & _). apply (Hd (channel l)).
  - apply list_elem_of_fmap. exists l. split; [done|]. by eapply list_elem_of_lookup_2.
  - apply list_elem_of_fmap. eauto.
Qed.

(** A step of loop [i] that changes one handle and moves the loop keeps the invariant if
    it keeps the facts on this loop. *)
Lemma loop_move_inv st i l j f p :
  disc_inv st → loops st !! i = Some l → keeps_clients f →
  (∀ k c id, holds id (mkLoop k c p) = true → live st id) →
  (∀ h, j ≠ channel l → (rr_synced h → rr_synced (f h)) ∧ (cons_synced h → cons_synced (f h))) →
  (let st' := set_pc i p (on_handle j f st) in
   registered st (host_port l) (channel l) →
   (∀ w, weak_of p = Some w → h_for w = host_port l ∧ h_id w < length (handles st)
     ∧ (live st (channel l) → h_id w = channel l)) ∧
   (∀ h, handles st !! channel l = Some h → live st (channel l) →
      synced p (if decide (j = channel l) then f h else h))) →
  disc_inv (set_pc i p (on_handle j f st)) ∧ evolves st (set_pc i p (on_handle j f st)).
Proof.
  intros Hinv Hl Hf Hhold Hsync Hok. cbn zeta in Hok. set (st' := set_pc i p _) in *.
  assert (∀ id, live st' id → live st id) as Hlive.
  { intros id Hid. apply (on_handle_live j f st id Hf).
    apply (set_pc_live i p); [|done]. intros k c Hh. apply on_handle_live; [done|]. eauto. }
  assert (frame st st' (λ id, id ≠ channel l)) as Hframe.
  { split; [by unfold st'; simpl; rewrite length_alter|intros k Hk; exact Hk|auto| |intros id k _ _ Hk; exact Hk|].
    { intros id h Hh. eexists. split; [by apply (on_handle_lookup j f st); exists h|].
      destruct (decide (j = id)); [apply Hf|done]. }
    intros id h' Hne Hid Hh'. apply (on_handle_lookup j f st) in Hh' as (h & Hh & ->).
    exists h. split; [done|]. destruct (decide (j = id)); [|by split].
    apply Hsync. congruence. }
  pose proof (d_loop _ Hinv _ _ Hl) as (Hreg & _ & _).
  destruct (Hok Hreg) as [Hw Hs]. split; [|by eapply frame_evolves]. split.
  - intros k r Hr. destruct (d_map _ Hinv k r Hr) as [? ?]. split; [done|].
    unfold st'. simpl. by rewrite length_alter.
  - intros id Hid. apply (d_live _ Hinv). auto.
  - intros cmd Hc. eapply command_ok_frame; [done| |by apply (d_command _ Hinv)].
    by eapply channel_not_command.
  - intros i' l' Hl'. apply set_pc_lookup in Hl' as (l0 & Hl0 & ->).
    change (loops (on_handle j f st)) with (loops st) in Hl0.
    destruct (decide (i = i')) as [<-|Hne].
    + assert (l0 = l) as -> by congruence. split; [by eapply registered_frame|]. simpl. split.
      * intros w Hpc. destruct (Hw w Hpc) as (? & ? & ?). split_and!; auto.
        unfold st'. simpl. by rewrite length_alter.
      * intros h' Hh' Hid. apply (on_handle_lookup j f st) in Hh' as (h & Hh & ->). auto.
    + eapply loop_ok_frame; [done| |by eapply (d_loop _ Hinv)]. simpl.
      intros Heq. apply Hne. symmetry. by eapply channel_unique.
  - unfold st'. rewrite set_pc_channels. simpl. rewrite length_alter. apply (d_channels _ Hinv).
Qed.

(** Moving a loop without changing a handle. *)
Lemma loop_goto_inv st i l p :
  disc_inv st → loops st !! i = Some l →
  (∀ k c id, holds id (mkLoop k c p) = true → live st id) →
  (∀ w, weak_of p = Some w → h_for w = host_port l ∧ h_id w < length (handles st)
     ∧ (live st (channel l) → h_id w = channel l)) →
  (∀ h, handles st !! channel l = Some h → live st (channel l) → synced p h) →
  disc_inv (set_pc i p st) ∧ evolves st (set_pc i p st).
Proof.
  intros Hinv Hl Hhold Hw Hs. rewrite <- (on_handle_id 0 st) at 1 3.
  apply (loop_move_inv st i l); try done. intros _. split; [done|].
  intros h Hh Hid. case_decide; eauto.
Qed.

Lemma live_strong st id : live st id → (strong_count st id =? 0)%nat = false.
Proof. intros Hid. apply Nat.eqb_neq. rewrite strong_count_0. auto. Qed.

Lemma dead_strong st id : (strong_count st id =? 0)%nat = true ↔ ¬ live st id.
Proof. by rewrite Nat.eqb_eq, strong_count_0. Qed.

Lemma not_dead_live st id : (strong_count st id =? 0)%nat = false → live st id.
Proof.
  rewrite Nat.eqb_neq. unfold strong_count, live.
  destruct (handles st !! id) as [h|] eqn:Hh; [|done]. intros Hc. exists h. split; [done|].
  destruct (decide (clients h = 0)); [right|left; lia].
  assert (held_by_loops id (loops st) ≠ 0) as Hn by lia. clear Hc. unfold held_by_loops in Hn.
  revert Hn. induction (loops st) as [|l ls IH]; simpl; [done|].
  destruct (holds id l) eqn:Hl; [by exists 0, l|].
  intros (i & l' & ? & ?)%IH. by exists (S i), l'.
Qed.

Lemma with_ready_keeps : keeps_clients with_ready.
Proof. done. Qed.

(** A step of a loop never panics and keeps the invariant. *)
Lemma loop_step_inv response i st :
  disc_inv st → ∃ st', loop_step response i st = Ok st' ∧ disc_inv st' ∧ evolves st st'.
Proof.
  intros Hinv. unfold loop_step. destruct (loops st !! i) as [[k c p]|] eqn:Hl; [|by exists st].
  pose proof (d_loop _ Hinv _ _ Hl) as ((Hreg & Hc & Hlive) & Hw & Hs). simpl in *.
  destruct p as [|w|w|w|w|w|]; [..|by exists st]; simpl in Hs;
    try (destruct (Hw w eq_refl) as (Hfor & Hlt & Hid)).
  - destruct Hreg as [r Hr]. rewrite Hr. simpl. eexists. split; [done|].
    destruct (d_map _ Hinv _ _ Hr) as [Hrk Hrl].
    eapply loop_goto_inv; simpl; try done. intros w [= <-]. split_and!; [done..|].
    intros Hlc. apply Hlive in Hlc. rewrite Hlc in Hr. by injection Hr as <-.
  - destruct response as [addrs|]; simpl.
    + unfold send_if_modified. destruct (handles st !! c) as [h|] eqn:Hh.
      * case_decide as Hsame; (eexists; split; [done|]).
        -- eapply loop_goto_inv; simpl; try done. simpl. by rewrite Hh.
        -- eapply loop_move_inv; simpl; try done.
      * by apply lookup_ge_None in Hh; lia.
    + destruct (strong_count st (h_id w) =? 0)%nat eqn:Hz; (eexists; split; [done|done || idtac]).
      eapply loop_goto_inv; simpl; try done. intros h Hh Hlc.
      apply dead_strong in Hz. apply Hz. by rewrite Hid.
  - unfold upgrade. destruct (strong_count st (h_id w) =? 0)%nat eqn:Hz; (eexists; split; [done|]).
    + eapply loop_goto_inv; simpl; try done. intros h Hh Hlc. exfalso.
      apply dead_strong in Hz. apply Hz. by rewrite Hid.
    + eapply loop_goto_inv; simpl; try done.
      intros k' c' id. unfold holds. simpl. rewrite bool_decide_eq_true. intros <-.
      by apply not_dead_live.
  - eexists; split; [done|].
    eapply loop_move_inv; simpl; try done.
    + intros k' c' id. unfold holds. simpl. rewrite bool_decide_eq_true. intros <-.
      apply lookup_lt_is_Some in Hlt as [h Hh]. exists h. split; [done|]. right.
      exists i. eexists. split; [done|]. unfold holds. simpl. by apply bool_decide_eq_true.
    + intros h Hne. split; [|done]. intros _. apply lb_update_backends.
    + intros _. split; [naive_solver|]. intros h Hh Hlc. rewrite Hid by done.
      rewrite decide_True by done. apply lb_update_backends.
  - eexists; split; [done|].
    eapply loop_move_inv; simpl; try done.
    + intros h Hne. split; [done|]. intros _. apply lb_update_backends.
    + intros _. split; [naive_solver|]. intros h Hh Hlc. rewrite Hid by done.
      rewrite decide_True by done. split; [exact (Hs h Hh Hlc)|apply lb_update_backends].
  - destruct (strong_count st (h_id w) =? 0)%nat eqn:Hz; (eexists; split; [done|]).
    + eapply loop_goto_inv; simpl; try done. intros h Hh Hlc.
      apply dead_strong in Hz. apply Hz. by rewrite Hid.
    + unfold send_ready. destruct (strong_count st c =? 0)%nat.
      * eapply loop_goto_inv; simpl; try done.
      * eapply loop_move_inv; simpl; try done. intros _.
        split; [naive_solver|]. intros h Hh Hlc. rewrite decide_True by done. exact (Hs h Hh Hlc).
Qed.

(** ** The other steps *)

(** Changing one handle, without reviving it and keeping its balancers in step. *)
Record handle_frame (st : Discovery) (id : nat) (f : ServiceBackendsHandle → ServiceBackendsHandle) : Prop := {
  hf_clients : ∀ h, handles st !! id = Some h → 0 < clients (f h) → 0 < clients h ∨ live st id;
  hf_ready : ∀ h, ready h = true → ready (f h) = true;
  hf_rr : ∀ h, handles st !! id = Some h → rr_synced h → rr_synced (f h);
  hf_cons : ∀ h, handles st !! id = Some h → cons_synced h → cons_synced (f h);
}.

Lemma on_handle_inv st id f :
  disc_inv st → handle_frame st id f →
  disc_inv (on_handle id f st) ∧ evolves st (on_handle id f st).
Proof.
  intros Hinv [Hf Hrd Hrr Hcs]. set (st' := on_handle _ _ _).
  assert (∀ id', live st' id' → live st id') as Hlive.
  { intros id' (h' & Hh' & Hc). apply on_handle_lookup in Hh' as (h & Hh & ->).
    destruct (decide (id = id')) as [<-|]; [|by exists h].
    destruct Hc as [Hc|Hc]; [|by exists h; auto]. apply Hf in Hc as [Hc|?]; [|done..].
    exists h. auto. }
  assert (frame st st' (λ _, True)) as Hframe.
  { split; [by unfold st'; rewrite on_handle_length|intros k Hk; exact Hk|auto|
           |intros id' k _ _ Hk; exact Hk|].
    { intros id' h Hh. eexists. split; [by apply on_handle_lookup; exists h|]. case_decide; auto. }
    intros id' h' _ Hid Hh'. apply on_handle_lookup in Hh' as (h & Hh & ->).
    exists h. split; [done|]. case_decide; subst; auto. }
  split; [|by eapply frame_evolves]. split.
  - intros k r Hr. destruct (d_map _ Hinv k r Hr). split; [done|].
    unfold st'. by rewrite on_handle_length.
  - intros id' Hid. by apply (d_live _ Hinv), Hlive.
  - intros cmd Hc. by eapply command_ok_frame; [| |apply (d_command _ Hinv)].
  - intros i l Hl. by eapply loop_ok_frame; [| |eapply (d_loop _ Hinv)].
  - unfold st'. rewrite on_handle_length. apply (d_channels _ Hinv).
Qed.

Lemma on_clients_inv st id f :
  disc_inv st → (∀ n, 0 < f n → 0 < n ∨ live st id) →
  disc_inv (on_handle id (with_clients f) st) ∧ evolves st (on_handle id (with_clients f) st).
Proof. intros Hinv Hf. apply on_handle_inv; [done|]. split; simpl; auto. Qed.

(** A selection moves a balancer only. *)
Lemma select_round_robin_inv st key max r :
  disc_inv st → disc_inv (select_round_robin key max r st).1
    ∧ evolves st (select_round_robin key max r st).1.
Proof.
  intros Hinv. unfold select_round_robin, lb_select. destruct (handles st !! h_id r) as [h|] eqn:Hh; [|done].
  pose proof (lb_select_backends key max (λ _ healthy, healthy) (load_balancer_round_robin h)) as Hb.
  destruct (lb_select_with _ _ _ _) as [l b]. simpl in *. apply on_handle_inv; [done|].
  split; simpl; auto. unfold rr_synced. simpl. intros h' ?. simplify_eq. by rewrite Hb.
Qed.

Lemma select_consistent_inv st key max accept r :
  disc_inv st → disc_inv (select_consistent key max accept r st).1
    ∧ evolves st (select_consistent key max accept r st).1.
Proof.
  intros Hinv. unfold select_consistent. destruct (handles st !! h_id r) as [h|] eqn:Hh; [|done].
  pose proof (lb_select_backends key max accept (load_balancer_consistent h)) as Hb.
  destruct (lb_select_with _ _ _ _) as [l b]. simpl in *. apply on_handle_inv; [done|].
  split; simpl; auto. unfold cons_synced. simpl. intros h' ?. simplify_eq. by rewrite Hb.
Qed.

(** The two branches of [backends_for_hostname]. *)
Lemma backends_for_cases st hostname port :
  (∃ r, service_backends st !! (hostname, port) = Some r ∧ live st (h_id r)
     ∧ backends_for st hostname port = (on_handle (h_id r) (with_clients S) st, r)) ∨
  ((∀ r, service_backends st !! (hostname, port) = Some r → ¬ live st (h_id r)) ∧
   backends_for st hostname port =
     (mkDiscovery (<[(hostname, port) := mkHandleRef (length (handles st)) (hostname, port)]>
                     (service_backends st))
        (handles st ++ [mkHandle ∅ lb_new lb_new false 1])
        (commands st ++ [StartDiscoveryLoop (hostname, port) (length (handles st))]) (loops st),
      mkHandleRef (length (handles st)) (hostname, port))).
Proof.
  unfold backends_for, upgrade.
  destruct (service_backends st !! (hostname, port)) as [r|]; simpl; [|right; naive_solver].
  destruct (strong_count st (h_id r) =? 0)%nat eqn:Hz.
  - right. apply dead_strong in Hz. naive_solver.
  - left. apply not_dead_live in Hz. eauto.
Qed.

Lemma backends_for_inv st hostname port :
  disc_inv st → disc_inv (backends_for st hostname port).1
    ∧ evolves st (backends_for st hostname port).1.
Proof.
  intros Hinv.
  destruct (backends_for_cases st hostname port) as [(r & Hr & Hlive & ->)|[Hdead ->]]; simpl.
  { apply on_clients_inv; auto. }
  set (k0 := (hostname, port)) in *. set (n := length (handles st)).
  set (st' := mkDiscovery _ _ _ _).
  assert (∀ id, id < n → live st' id → live st id) as Hlive.
  { intros id Hid (h & Hh & Hc). exists h. simpl in Hh. by rewrite lookup_app_l in Hh. }
  assert (frame st st' (λ _, True)) as Hframe.
  { split; [unfold st'; simpl; rewrite length_app; lia| |done| | |].
    - intros k Hk. unfold st'. simpl. rewrite lookup_insert. case_decide; eauto.
    - intros id h Hh. exists h. split; [|done]. unfold st'. simpl. by apply lookup_app_l_Some.
    - intros id k Hid Hl Hk. unfold st'. simpl.
      destruct (decide (k0 = k)) as [<-|]; [|by rewrite lookup_insert_ne].
      exfalso. apply (Hdead _ Hk). simpl. by apply Hlive.
    - intros id h' _ Hid Hh'. unfold st' in Hh'. simpl in Hh'. rewrite lookup_app_l in Hh' by done. eauto. }
  assert (length (handles st') = S n) as Hlen by (unfold st', n; simpl; rewrite length_app; simpl; lia).
  split; [|by eapply frame_evolves]. split.
  - intros k r. rewrite Hlen. unfold st'. simpl. rewrite lookup_insert. case_decide.
    + intros [= <-]. split; [done|]. simpl. lia.
    + intros Hr. destruct (d_map _ Hinv k r Hr). split; [done|]. unfold n. lia.
  - intros id Hid. destruct (decide (id = n)) as [->|Hne].
    + exists k0. unfold st'. simpl. by rewrite lookup_insert_eq.
    + assert (id < n) as Hlt. { destruct Hid as (h & Hh & _). apply lookup_lt_Some in Hh. lia. }
      destruct (d_live _ Hinv id) as [k Hk]; [auto|]. exists k. by apply (f_map _ _ _ Hframe).
  - intros cmd [Hc|Hc]%elem_of_app.
    { by eapply command_ok_frame; [| |apply (d_command _ Hinv)]. }
    apply list_elem_of_singleton in Hc as ->. split; [split_and!|].
    + unfold st'. simpl. rewrite lookup_insert_eq. eauto.
    + rewrite Hlen. unfold n. lia.
    + intros _. unfold st'. simpl. by rewrite lookup_insert_eq.
    + intros h Hh _. unfold st' in Hh. simpl in Hh. rewrite lookup_app_r, Nat.sub_diag in Hh by done.
      injection Hh as <-. split; apply lb_new_empty.
  - intros i l Hl. by eapply loop_ok_frame; [| |eapply (d_loop _ Hinv)].
  - rewrite Hlen, seq_S. unfold st', channels. simpl. rewrite fmap_app, (assoc_L (++)).
    simpl. apply Permutation_app_tail. apply (d_channels _ Hinv).
Qed.

Lemma receive_inv st : disc_inv st → disc_inv (receive st) ∧ evolves st (receive st).
Proof.
  intros Hinv. unfold receive. destruct (commands st) as [|[k c] cs] eqn:Hcs; [done|].
  set (st' := mkDiscovery _ _ _ _).
  assert (∀ id, live st' id → live st id) as Hlive.
  { intros id (h & Hh & [Hc|(i & l & Hl & Hhold)]); exists h; split; try done; [auto|right].
    unfold st' in Hl. simpl in Hl. apply lookup_app_Some in Hl as [?|[_ Hl]]; [eauto|].
    apply list_lookup_singleton_Some in Hl as [_ <-]. done. }
  assert (frame st st' (λ _, True)) as Hframe by (split; naive_solver).
  pose proof (d_command _ Hinv (StartDiscoveryLoop k c)) as [Hreg Hs]; [rewrite Hcs; set_solver|].
  split; [|by eapply frame_evolves]. split.
  - apply (d_map _ Hinv).
  - intros id Hid. apply (d_live _ Hinv). auto.
  - intros cmd Hc. eapply command_ok_frame; [done..|]. apply (d_command _ Hinv). rewrite Hcs. set_solver.
  - intros i l Hl. unfold st' in Hl. simpl in Hl.
    eapply loop_ok_frame; [done..|].
    apply lookup_app_Some in Hl as [Hl|[_ Hl]]; [by eapply (d_loop _ Hinv)|].
    apply list_lookup_singleton_Some in Hl as [_ <-]. split; [done|]. split; [done|]. exact Hs.
  - pose proof (d_channels _ Hinv) as Hp. unfold channels in *. rewrite Hcs in Hp. simpl in *.
    rewrite fmap_app, <- (assoc_L (++)). done.
Qed.

Lemma disc_step_inv st st' : disc_step st st' → disc_inv st → disc_inv st' ∧ evolves st st'.
Proof.
  intros Hstep Hinv.
  destruct Hstep as [st hn p|st id h Hh Hc|st r h Hh Hc|st key max r|st key max acc r|st|st i response st' Hs].
  - by apply backends_for_inv.
  - apply on_clients_inv; [done|]. lia.
  - apply on_clients_inv; [done|]. intros n _. right. exists h. auto.
  - by apply select_round_robin_inv.
  - by apply select_consistent_inv.
  - by apply receive_inv.
  - destruct (loop_step_inv response i st Hinv) as (st'' & Hs' & ?). congruence.
Qed.

Lemma disc_steps_inv st st' : rtc disc_step st st' → disc_inv st → disc_inv st' ∧ evolves st st'.
Proof.
  induction 1 as [st|st1 st2 st3 Hstep _ IH]; [done|]. intros Hinv.
  destruct (disc_step_inv _ _ Hstep Hinv) as [Hinv2 H12]. destruct (IH Hinv2) as [Hinv3 H23].
  split; [done|]. by etrans.
Qed.

Lemma disc_inv_reachable st : rtc disc_step discovery_new st → disc_inv st.
Proof. intros Hr. by apply (disc_steps_inv _ _ Hr), disc_inv_new. Qed.

(** A live handle is registered, and a command or a loop works for it. *)
Lemma live_served st id :
  disc_inv st → live st id →
  ∃ k, service_backends st !! k = Some (mkHandleRef id k) ∧
    (StartDiscoveryLoop k id ∈ commands st ∨
     ∃ i p, loops st !! i = Some (mkLoop k id p) ∧ p ≠ Stopped).
Proof.
  intros Hinv Hlive.
  assert (id ∈ channels st) as Hin.
  { rewrite (d_channels _ Hinv). apply elem_of_seq. split; [lia|].
    destruct Hlive as (h & Hh & _). by apply lookup_lt_Some in Hh. }
  apply elem_of_app in Hin as [Hin|Hin].
  - apply list_elem_of_fmap in Hin as ([k c p] & -> & Hl).
    apply list_elem_of_lookup in Hl as [i Hi].
    destruct (d_loop _ Hinv _ _ Hi) as ((_ & _ & Hreg) & _ & Hs). simpl in *.
    exists k. split; [auto|]. right. exists i, p. split; [done|]. intros ->.
    destruct Hlive as (h & Hh & ?). apply (Hs h Hh). by exists h.
  - apply list_elem_of_fmap in Hin as ([k c] & -> & Hc). simpl in *.
    destruct (d_command _ Hinv _ Hc) as ((_ & _ & Hreg) & _). eauto.
Qed.
End inv.
