(* ===== verification/DiscoveryProps.v ===== *)
(** * DiscoveryProps: what DNS discovery promises

    Handles are shared while they are alive, a live handle is always served, a round of
    its loop brings the answer of the resolver into both load balancers, a loop stops
    once its handle is dropped, and readiness is never taken back. The last section
    makes [backends_for_hostname] an instance of the interface the service store uses. *)

From stdpp Require Import gmap strings list fin_maps relations.
From Stdlib Require Import Strings.Byte.
From S2P Require Import Prelude Text Crd Discovery DiscoveryInv ServiceSpec ServiceStore.

Section props.
Context {RR Cons : Type} `{HRR : BalancerLaws RR, HCons : BalancerLaws Cons}.
Notation Discovery := (Discovery RR Cons).
Notation ServiceBackendsHandle := (ServiceBackendsHandle RR Cons).
Implicit Types (st : Discovery) (h : ServiceBackendsHandle) (l : Loop).

(** ** Serving *)

(** C26: Every handle somebody holds is the one registered for its host and port, and
    discovery works for it: its command is still queued, or one loop that has not stopped
    sends to its channel. *)
Theorem live_handle_served st id :
  rtc disc_step discovery_new st → live st id →
  ∃ k, service_backends st !! k = Some (mkHandleRef id k) ∧
    (StartDiscoveryLoop k id ∈ commands st ∨
     ∃ i p, loops st !! i = Some (mkLoop k id p) ∧ p ≠ Stopped).
Proof. intros Hinv%disc_inv_reachable. by apply live_served. Qed.

(** No discovery loop panics: in every reachable state every loop can take its next
    step, whatever the resolver answers. *)
Theorem discovery_panic_free st i response :
  rtc disc_step discovery_new st → ∃ st', loop_step response i st = Ok st'.
Proof.
  intros Hinv%disc_inv_reachable.
  destruct (loop_step_inv response i st Hinv) as (st' & ? & _). eauto.
Qed.

(** ** Sharing *)

(** A handle is shared: as long as somebody holds the handle returned for a host and
    port, whatever happens in between, asking again returns the same handle, counts one
    more reference and starts nothing. *)
Theorem handles_shared st st1 st2 hostname port r :
  rtc disc_step discovery_new st → backends_for st hostname port = (st1, r) →
  rtc disc_step st1 st2 → live st2 (h_id r) →
  backends_for st2 hostname port = (on_handle (h_id r) (with_clients S) st2, r).
Proof.
  intros Hinv%disc_inv_reachable Hb Hr Hlive.
  assert (disc_inv st1) as Hinv1.
  { pose proof (backends_for_inv st hostname port Hinv) as [H1 _]. by rewrite Hb in H1. }
  assert (service_backends st1 !! (hostname, port) = Some r ∧ h_for r = (hostname, port)) as [Hreg Hfor].
  { destruct (backends_for_cases st hostname port) as [(r' & Hr' & _ & Heq)|[_ Heq]];
      rewrite Heq in Hb; simplify_eq; simpl.
    - by destruct (d_map _ Hinv _ _ Hr').
    - by rewrite lookup_insert_eq. }
  destruct (d_map _ Hinv1 _ _ Hreg) as [_ Hlt]. destruct r as [id k]. simpl in *. subst k.
  destruct (disc_steps_inv _ _ Hr Hinv1) as [_ Hev].
  pose proof (f_map _ _ _ Hev _ _ Hlt Hlive Hreg) as Hreg2.
  destruct (backends_for_cases st2 hostname port) as [(r' & Hr' & _ & Heq)|[Hdead _]].
  - rewrite Heq. by simplify_eq.
  - by destruct (Hdead _ Hreg2).
Qed.

(** Readiness is never taken back, as the documentation of [ready] says, and a handle
    all references to which are gone is never revived. *)
Theorem ready_and_death_are_final st st' id h :
  rtc disc_step discovery_new st → rtc disc_step st st' → handles st !! id = Some h →
  (ready h = true → ∃ h', handles st' !! id = Some h' ∧ ready h' = true)
  ∧ (¬ live st id → ¬ live st' id).
Proof.
  intros Hinv%disc_inv_reachable Hr Hh. destruct (disc_steps_inv _ _ Hr Hinv) as [_ Hev]. split.
  - intros Hrd. destruct (f_ready _ _ _ Hev id h Hh) as (h' & ? & ?). eauto.
  - intros Hd Hl. apply Hd, (f_live _ _ _ Hev); [|done]. by apply lookup_lt_Some in Hh.
Qed.

(** ** Rounds of a loop *)

(** The loop [i] runs without interruption until it sleeps or stops. *)
Fixpoint run_round (fuel : nat) (response : option (list Z)) (i : nat) (st : Discovery)
    : outcome Empty_set Discovery :=
  match fuel with
  | 0 => Ok st
  | S fuel' =>
    st' ← loop_step response i st;
    match pc <$> loops st' !! i with
    | Some (AtLookup _) | Some Stopped => Ok st'
    | _ => run_round fuel' response i st'
    end
  end.

(** Somebody other than loop [i] holds the handle. *)
Definition live_without (i : nat) (st : Discovery) (id : nat) : Prop :=
  ∃ h, handles st !! id = Some h ∧
    (0 < clients h ∨ ∃ j l, j ≠ i ∧ loops st !! j = Some l ∧ holds id l = true).

Lemma live_without_live i st id : live_without i st id → live st id.
Proof. intros (h & Hh & [Hc|(j & l & _ & Hl & Hhold)]); exists h; eauto 10. Qed.

Lemma live_without_set_pc i p st id : live_without i st id → live_without i (set_pc i p st) id.
Proof.
  intros (h & Hh & [Hc|(j & l & Hne & Hl & Hhold)]); exists h; (split; [done|]); [auto|right].
  exists j, l. split_and!; [done| |done]. apply set_pc_lookup. exists l. by rewrite decide_False.
Qed.

Lemma live_without_on_handle i j f st id :
  keeps_clients f → live_without i st id → live_without i (on_handle j f st) id.
Proof.
  intros Hf (h & Hh & Hc). eexists. split; [by apply on_handle_lookup; exists h|].
  destruct Hc as [Hc|Hc]; [left|by right]. case_decide; [|done]. by rewrite (proj1 (Hf h)).
Qed.

Lemma set_pc_at i p st k c q :
  loops st !! i = Some (mkLoop k c q) → loops (set_pc i p st) !! i = Some (mkLoop k c p).
Proof. intros Hl. apply set_pc_lookup. eexists. split; [done|]. by rewrite decide_True. Qed.

Lemma loop_step_at response i st k c p :
  loops st !! i = Some (mkLoop k c p) →
  live_without i st c → (∀ w, weak_of p = Some w → h_id w = c) →
  match p with
  | AtUpgrade w => loop_step response i st = Ok (set_pc i (AtUpdateRoundRobin w) st)
  | AtUpdateRoundRobin w =>
    loop_step response i st = Ok (set_pc i (AtUpdateConsistent w) (on_handle c update_round_robin st))
  | AtUpdateConsistent w =>
    loop_step response i st = Ok (set_pc i (AtCheck w) (on_handle c update_consistent st))
  | AtCheck w => loop_step response i st = Ok (set_pc i (AtLookup w) (on_handle c with_ready st))
  | _ => True
  end.
Proof.
  intros Hl Hlive%live_without_live Hw. apply live_strong in Hlive as Hz. unfold loop_step. rewrite Hl.
  destruct p as [|w|w|w|w|w|]; try done; rewrite ?(Hw w eq_refl); try done.
  - unfold upgrade. by rewrite (Hw w eq_refl), Hz.
  - unfold send_ready. by rewrite Hz.
Qed.

(** One step of the round, when it does not end with it. *)
Lemma run_round_step fuel response i st st1 l :
  loop_step response i st = Ok st1 → loops st1 !! i = Some l →
  run_round (S fuel) response i st =
  match pc l with
  | AtLookup _ | Stopped => Ok st1
  | _ => run_round fuel response i st1
  end.
Proof. intros Hs Hl. simpl. rewrite Hs. simpl. rewrite Hl. simpl. by destruct (pc l). Qed.

Lemma update_round_robin_keeps : keeps_clients (RR:=RR) (Cons:=Cons) update_round_robin.
Proof. done. Qed.
Lemma update_consistent_keeps : keeps_clients (RR:=RR) (Cons:=Cons) update_consistent.
Proof. done. Qed.
Lemma with_backends_keeps s : keeps_clients (RR:=RR) (Cons:=Cons) (with_backends s).
Proof. done. Qed.
#[local] Hint Resolve update_round_robin_keeps update_consistent_keeps with_backends_keeps
  with_ready_keeps : grc.
#[local] Hint Resolve live_without_set_pc live_without_on_handle : grc.

(** The end of a round: the check and [ready]. *)
Lemma run_round_check fuel response i st k c w h :
  loops st !! i = Some (mkLoop k c (AtCheck w)) → live_without i st c → h_id w = c →
  handles st !! c = Some h →
  ∃ st', run_round (S fuel) response i st = Ok st'
    ∧ loops st' !! i = Some (mkLoop k c (AtLookup w)) ∧ handles st' !! c = Some (with_ready h).
Proof.
  intros Hl Hlive Hw Hh.
  pose proof (loop_step_at response i st k c (AtCheck w) Hl Hlive) as Hs. simpl in Hs.
  eexists. split_and!.
  - erewrite run_round_step; [|apply Hs; naive_solver|by eapply set_pc_at]. done.
  - by eapply set_pc_at.
  - apply (on_handle_lookup c). exists h. by rewrite decide_True.
Qed.

(** The part of a round that updates the load balancers. *)
Lemma run_round_update fuel response i st k c w h :
  loops st !! i = Some (mkLoop k c (AtUpgrade w)) → live_without i st c → h_id w = c →
  handles st !! c = Some h →
  ∃ st', run_round (4 + fuel) response i st = Ok st'
    ∧ loops st' !! i = Some (mkLoop k c (AtLookup w))
    ∧ handles st' !! c = Some (with_ready (update_consistent (update_round_robin h))).
Proof.
  intros Hl Hlive Hw Hh. simpl (4 + fuel).
  pose proof (loop_step_at response i st k c (AtUpgrade w) Hl Hlive) as Hs1. simpl in Hs1.
  erewrite run_round_step; [|apply Hs1; naive_solver|by eapply set_pc_at]. simpl pc.
  set (st1 := set_pc i _ st).
  assert (loops st1 !! i = Some (mkLoop k c (AtUpdateRoundRobin w))) as Hl1 by (by eapply set_pc_at).
  assert (live_without i st1 c) as Hlive1 by (unfold st1; auto with grc).
  pose proof (loop_step_at response i st1 k c _ Hl1 Hlive1) as Hs2. simpl in Hs2.
  erewrite run_round_step; [|apply Hs2; naive_solver|by eapply set_pc_at]. simpl pc.
  set (st2 := set_pc i _ (on_handle c update_round_robin st1)).
  assert (loops st2 !! i = Some (mkLoop k c (AtUpdateConsistent w))) as Hl2 by (by eapply set_pc_at).
  assert (live_without i st2 c) as Hlive2 by (unfold st2; auto with grc).
  pose proof (loop_step_at response i st2 k c _ Hl2 Hlive2) as Hs3. simpl in Hs3.
  erewrite run_round_step; [|apply Hs3; naive_solver|by eapply set_pc_at]. simpl pc.
  apply run_round_check; [by eapply set_pc_at|auto with grc|done|].
  apply (on_handle_lookup c update_consistent st2). eexists. rewrite decide_True by done. split; [|done].
  apply (on_handle_lookup c update_round_robin st1). exists h. by rewrite decide_True.
Qed.

(** A round with an answer of the resolver, on a live handle. *)
Lemma discovery_round_run st i k id w addrs :
  disc_inv st →
  loops st !! i = Some (mkLoop k id (AtLookup w)) → live st id →
  ∃ st' h, run_round 5 (Some addrs) i st = Ok st'
    ∧ loops st' !! i = Some (mkLoop k id (AtLookup w))
    ∧ handles st' !! id = Some h ∧ ready h = true
    ∧ backends h = backends_of addrs k.2
    ∧ lb_backends (load_balancer_round_robin h) = backends_of addrs k.2
    ∧ lb_backends (load_balancer_consistent h) = backends_of addrs k.2.
Proof.
  intros Hinv Hl Hlive.
  destruct (d_loop _ Hinv _ _ Hl) as (_ & Hw & Hs). simpl in Hw, Hs.
  destruct (Hw w eq_refl) as (_ & _ & Hid). specialize (Hid Hlive).
  destruct Hlive as (h & Hh & Hc). destruct (Hs h Hh) as [Hrr Hco]; [by exists h|].
  assert (live_without i st id) as Hlive.
  { exists h. split; [done|]. destruct Hc as [?|(j & l & Hj & Hhold)]; [auto|right].
    exists j, l. split; [|done]. intros ->. by simplify_eq. }
  assert (loop_step (Some addrs) i st =
    let '(st', b) := send_if_modified id (backends_of addrs k.2) st in
    Ok (set_pc i (if b then AtUpgrade w else AtCheck w) st')) as Hstep
    by (unfold loop_step; by rewrite Hl).
  unfold send_if_modified in Hstep. rewrite Hh in Hstep. case_decide as Hsame.
  - destruct (run_round_check 3 (Some addrs) i (set_pc i (AtCheck w) st) k id w h)
      as (st' & Hrun & Hl' & Hh'); [by eapply set_pc_at|auto with grc|done|done|].
    exists st', (with_ready h). split_and!; [|done|done|done|unfold rr_synced, cons_synced in *; simpl; congruence..].
    erewrite run_round_step; [|exact Hstep|by eapply set_pc_at].
    exact Hrun.
  - set (st1 := on_handle id (with_backends (backends_of addrs k.2)) st) in *.
    destruct (run_round_update 0 (Some addrs) i (set_pc i (AtUpgrade w) st1) k id w
                (with_backends (backends_of addrs k.2) h))
      as (st' & Hrun & Hl' & Hh');
      [by eapply set_pc_at|unfold st1; auto with grc|done| |].
    { apply (on_handle_lookup id). exists h. by rewrite decide_True. }
    eexists st', _. split_and!; [|done|done|done|done|apply lb_update_backends..].
    erewrite run_round_step; [|exact Hstep|by eapply set_pc_at].
    exact Hrun.
Qed.

(** A round of the loop that serves a live handle: with any answer of the resolver
    the loop comes back to its lookup within five steps, and the watch channel and both
    load balancers hold exactly the addresses of the answer with the port asked for,
    and the handle is ready. *)
Theorem discovery_round st i k id w addrs :
  rtc disc_step discovery_new st →
  loops st !! i = Some (mkLoop k id (AtLookup w)) → live st id →
  ∃ st' h, run_round 5 (Some addrs) i st = Ok st'
    ∧ loops st' !! i = Some (mkLoop k id (AtLookup w))
    ∧ handles st' !! id = Some h ∧ ready h = true
    ∧ backends h = backends_of addrs k.2
    ∧ lb_backends (load_balancer_round_robin h) = backends_of addrs k.2
    ∧ lb_backends (load_balancer_consistent h) = backends_of addrs k.2.
Proof. intros Hr%disc_inv_reachable. by apply discovery_round_run. Qed.

(** A loop at its check whose handle is gone stops. *)
Lemma run_round_dead fuel response i st k id w :
  ¬ live st (h_id w) → loops st !! i = Some (mkLoop k id (AtCheck w)) →
  ∃ st', run_round (S fuel) response i st = Ok st' ∧ loops st' !! i = Some (mkLoop k id Stopped).
Proof.
  intros Hd%dead_strong Hl. exists (set_pc i Stopped st).
  assert (loop_step response i st = Ok (set_pc i Stopped st)) as Hs
    by (unfold loop_step; by rewrite Hl, Hd).
  split; [|by eapply set_pc_at]. erewrite run_round_step; [|done|by eapply set_pc_at]. done.
Qed.

(** C27: A loop stops once its handle is gone: if nobody holds the handle a sleeping loop
    watches, the loop stops in its next round, whatever the resolver answers. *)
Theorem dead_handle_stops st i k id w response :
  loops st !! i = Some (mkLoop k id (AtLookup w)) → ¬ live st (h_id w) →
  ∃ st', run_round 3 response i st = Ok st' ∧ loops st' !! i = Some (mkLoop k id Stopped).
Proof.
  intros Hl Hdead. destruct response as [addrs|].
  - assert (loop_step (Some addrs) i st =
      let '(st', b) := send_if_modified id (backends_of addrs k.2) st in
      Ok (set_pc i (if b then AtUpgrade w else AtCheck w) st')) as Hstep
      by (unfold loop_step; by rewrite Hl).
    assert (∀ f p, keeps_clients f → (∀ k c, holds (h_id w) (mkLoop k c p) = false) →
              ¬ live (set_pc i p (on_handle id f st)) (h_id w)) as Hstill.
    { intros f p Hf Hp Hlv. apply Hdead, (on_handle_live id f); [done|].
      eapply set_pc_live; [|done]. intros k' c' Hh. by rewrite Hp in Hh. }
    unfold send_if_modified in Hstep.
    destruct (handles st !! id) as [h|]; [case_decide|];
      (erewrite run_round_step; [|done|by eapply set_pc_at]; simpl pc).
    + eapply run_round_dead; [|by eapply set_pc_at].
      rewrite <- (on_handle_id id st). by apply Hstill.
    + set (st1 := set_pc i (AtUpgrade w) _) in *.
      assert (loops st1 !! i = Some (mkLoop k id (AtUpgrade w))) as Hl1 by (by eapply set_pc_at).
      assert (¬ live st1 (h_id w)) as Hd1 by (by apply Hstill; auto with grc).
      assert (loop_step (Some addrs) i st1 = Ok (set_pc i (AtCheck w) st1)) as Hs1.
      { unfold loop_step. rewrite Hl1. unfold upgrade. by rewrite (proj2 (dead_strong _ _) Hd1). }
      erewrite run_round_step; [|done|by eapply set_pc_at]. simpl pc.
      eapply run_round_dead; [|by eapply set_pc_at]. intros Hlv. apply Hd1.
      by eapply set_pc_live; [|done].
    + eapply run_round_dead; [|by eapply set_pc_at].
      rewrite <- (on_handle_id id st). by apply Hstill.
  - assert (loop_step None i st = Ok (set_pc i Stopped st)) as Hs.
    { unfold loop_step. rewrite Hl. by rewrite (proj2 (dead_strong _ _) Hdead). }
    exists (set_pc i Stopped st). split; [|by eapply set_pc_at].
    erewrite run_round_step; [|done|by eapply set_pc_at]. done.
Qed.

(** ** A redundant loop *)

Definition after (r : outcome Empty_set Discovery) (st : Discovery) : Discovery :=
  match r with Ok st' => st' | _ => st end.

Lemma after_step st i response : rtc disc_step st (after (loop_step response i st) st).
Proof.
  destruct (loop_step response i st) as [st'| |] eqn:Hs; simpl; [|done..].
  apply rtc_once. by eapply disc_loop.
Qed.

(** The handle is requested, dropped and requested again before the loops start. *)
Definition quick_redo (k : bytes * Z) : Discovery :=
  let st := (backends_for discovery_new k.1 k.2).1 in
  let st := (backends_for (drop_ref 0 st) k.1 k.2).1 in
  let st := receive (receive st) in
  let st := after (loop_step None 0 st) st in
  after (loop_step None 1 st) st.

Definition redis_host : bytes * Z := (lit "redis", 6379%Z).

(** A loop that starts late takes the reference of the newer handle: if a handle is
    dropped and requested again before its loop starts, two loops for the host run as
    long as the new handle lives, the first of which sends to the channel of the old
    handle. *)
Theorem late_loop_is_redundant :
  let k := redis_host in let st := quick_redo k in
  rtc disc_step discovery_new st
  ∧ loops st = [mkLoop k 0 (AtLookup (mkHandleRef 1 k)); mkLoop k 1 (AtLookup (mkHandleRef 1 k))]
  ∧ ¬ live st 0 ∧ live st 1.
Proof.
  cbn zeta. split_and!; [|vm_refl|apply dead_strong; vm_refl|apply not_dead_live; vm_refl].
  unfold quick_redo.
  etrans; [|apply after_step]. etrans; [|apply after_step].
  eapply rtc_r; [|apply disc_receive]. eapply rtc_r; [|apply disc_receive].
  eapply rtc_r; [|apply disc_request]. eapply rtc_r; [apply rtc_once, disc_request|].
  eapply disc_drop; [by vm_compute|]. simpl. lia.
Qed.
End props.

(** ** The interface of the service store *)

Section instance.
Context {RR Cons : Type} `{HRR : BalancerLaws RR, HCons : BalancerLaws Cons}.

#[global] Instance discovery_handle : DnsHandle (Discovery RR Cons) HandleRef := backends_for.
#[global] Instance discovery_target : LbTarget HandleRef := h_for.

#[global] Instance discovery_laws : DnsHandleLaws (Discovery RR Cons) HandleRef.
Proof.
  exists disc_inv.
  - intros d h p Hinv. unfold backends_for_hostname, discovery_handle, lb_target, discovery_target.
    destruct (backends_for_cases d h p) as [(r & Hr & _ & ->)|[_ ->]]; simpl; [|done].
    by destruct (d_map _ Hinv _ _ Hr).
  - intros d h p Hinv. by apply backends_for_inv.
Defined.
End instance.

(** ** Sample runs *)

Definition SampleDiscovery : Type := Discovery (gset Backend) (gset Backend).

(** The host is requested, its loop started, the addresses looked up. *)
Definition sample_requested : SampleDiscovery := (backends_for discovery_new redis_host.1 redis_host.2).1.
Definition sample_started : SampleDiscovery :=
  after (loop_step None 0 (receive sample_requested)) discovery_new.
Definition sample_dropped : SampleDiscovery := drop_ref 0 sample_started.

Lemma sample_requested_reachable : rtc disc_step discovery_new sample_requested.
Proof. apply rtc_once, disc_request. Qed.

Lemma sample_started_reachable : rtc disc_step sample_requested sample_started.
Proof.
  eapply rtc_l; [apply disc_receive|]. apply rtc_once. eapply (disc_loop _ 0 None). vm_refl.
Qed.

Lemma sample_started_new : rtc disc_step discovery_new sample_started.
Proof. etrans; [apply sample_requested_reachable|apply sample_started_reachable]. Qed.

Lemma live_handle_served_witness :
  ∃ k, service_backends sample_started !! k = Some (mkHandleRef 0 k).
Proof.
  destruct (live_handle_served sample_started 0) as (k & Hk & _).
  - exact sample_started_new.
  - apply not_dead_live. vm_refl.
  - exists k. exact Hk.
Defined.

Lemma discovery_panic_free_witness :
  ∃ st', loop_step (Some [1%Z]) 0 sample_started = Ok st'.
Proof. apply discovery_panic_free. exact sample_started_new. Defined.

Lemma handles_shared_witness :
  backends_for sample_started redis_host.1 redis_host.2
  = (on_handle (h_id (mkHandleRef 0 redis_host)) (with_clients S) sample_started,
     mkHandleRef 0 redis_host).
Proof.
  apply (handles_shared discovery_new sample_requested sample_started redis_host.1 redis_host.2
           (mkHandleRef 0 redis_host)).
  - apply rtc_refl.
  - vm_refl.
  - exact sample_started_reachable.
  - apply not_dead_live. vm_refl.
Defined.

Lemma ready_and_death_are_final_witness :
  ¬ live (after (loop_step (Some []) 0 sample_dropped) sample_dropped) 0.
Proof.
  destruct (ready_and_death_are_final sample_dropped
              (after (loop_step (Some []) 0 sample_dropped) sample_dropped) 0
              (mkHandle ∅ ∅ ∅ false 0)) as [_ Hf].
  - eapply rtc_r; [exact sample_started_new|]. apply (disc_drop _ 0 (mkHandle ∅ ∅ ∅ false 1)); [vm_refl|].
    apply Nat.lt_0_1.
  - apply after_step.
  - vm_refl.
  - apply Hf. apply dead_strong. vm_refl.
Defined.

Lemma discovery_round_witness :
  ∃ st' h, run_round 5 (Some [1%Z; 2%Z]) 0 sample_started = Ok st'
    ∧ handles st' !! 0 = Some h ∧ backends h = backends_of [1%Z; 2%Z] 6379.
Proof.
  destruct (discovery_round sample_started 0 redis_host 0 (mkHandleRef 0 redis_host) [1%Z; 2%Z])
    as (st' & h & Hrun & _ & Hh & _ & Hb & _).
  - exact sample_started_new.
  - vm_refl.
  - apply not_dead_live. vm_refl.
  - exists st', h. split; [exact Hrun|]. split; [exact Hh|exact Hb].
Defined.

Lemma dead_handle_stops_witness :
  ∃ st', run_round 3 None 0 sample_dropped = Ok st'
    ∧ loops st' !! 0 = Some (mkLoop redis_host 0 Stopped).
Proof.
  apply (dead_handle_stops sample_dropped 0 redis_host 0 (mkHandleRef 0 redis_host) None).
  - vm_refl.
  - apply dead_strong. vm_refl.
Defined.
