(* ===== verification/DiscoveryOrigin.v ===== *)
(** * DiscoveryOrigin: where the backends of a handle come from

    Discovery with the answers of the resolver recorded: every backend in the watch
    channel of a handle and in its two load balancers is an address the resolver returned
    for the host of the handle, at its port. [heard_step] is [disc_step] with the record. *)

From stdpp Require Import gmap strings list fin_maps relations.
From Stdlib Require Import Strings.Byte.
From S2P Require Import Prelude Text Crd Discovery DiscoveryInv DiscoveryProps.

(** The answers so far: the host that was looked up and the addresses. *)
Definition Answers : Type := list (bytes * list Z).

(** The backend is an address the resolver returned for the host, at the port. *)
Definition answered (a : Answers) (k : bytes * Z) (b : Backend) : Prop :=
  ∃ ip addrs, (k.1, addrs) ∈ a ∧ ip ∈ addrs ∧ b = mkBackend (Inet ip k.2) 1.

Lemma answered_mono a a' k b : a ⊆ a' → answered a k b → answered a' k b.
Proof. intros Ha (ip & addrs & Hin & ?). exists ip, addrs. split; [by apply Ha|done]. Qed.

Section origin.
Context {RR Cons : Type} `{HRR : BalancerLaws RR, HCons : BalancerLaws Cons}.
Notation Discovery := (Discovery RR Cons).
Notation ServiceBackendsHandle := (ServiceBackendsHandle RR Cons).
Implicit Types (st : Discovery) (h : ServiceBackendsHandle) (a : Answers).

(** The host and port a handle was made for: those of the one command or loop that sends
    to its channel. *)
Definition key_of st (id : nat) (k : bytes * Z) : Prop :=
  StartDiscoveryLoop k id ∈ commands st ∨ ∃ p, mkLoop k id p ∈ loops st.

Definition handle_backends h : gset Backend :=
  backends h ∪ lb_backends (load_balancer_round_robin h) ∪ lb_backends (load_balancer_consistent h).

Definition handle_from a (k : bytes * Z) h : Prop := ∀ b, b ∈ handle_backends h → answered a k b.

Record origin a st : Prop := {
  o_map : ∀ k r, service_backends st !! k = Some r → key_of st (h_id r) k;
  o_from : ∀ id k h, key_of st id k → handles st !! id = Some h → handle_from a k h;
}.

Lemma origin_mono a a' st : a ⊆ a' → origin a st → origin a' st.
Proof.
  intros Ha [Hm Hf]. split; [done|]. intros id k h Hk Hh b Hb. eapply answered_mono; [done|].
  by eapply Hf.
Qed.

Lemma key_of_unique st id k k' : disc_inv st → key_of st id k → key_of st id k' → k = k'.
Proof.
  intros Hinv. pose proof (d_channels _ Hinv) as Hp.
  assert (NoDup (channels st)) as Hnd by (rewrite Hp; apply NoDup_seq).
  apply NoDup_app in Hnd as (_ & _ & Hnd).
  assert (∀ p, mkLoop k id p ∈ loops st → StartDiscoveryLoop k' id ∈ commands st → False) as Hx.
  { intros p [i Hi]%list_elem_of_lookup Hc. by apply (channel_not_command st i _ _ Hinv Hi Hc). }
  assert (∀ p, mkLoop k' id p ∈ loops st → StartDiscoveryLoop k id ∈ commands st → False) as Hx'.
  { intros p [i Hi]%list_elem_of_lookup Hc. by apply (channel_not_command st i _ _ Hinv Hi Hc). }
  intros [Hc|[p Hl]] [Hc'|[p' Hl']]; [|exfalso; by eauto|exfalso; by eauto|].
  - apply list_elem_of_lookup in Hc as [i Hi]. apply list_elem_of_lookup in Hc' as [j Hj].
    assert (i = j) as ->; [|by simplify_eq].
    apply (NoDup_lookup _ i j id Hnd); by rewrite list_lookup_fmap, ?Hi, ?Hj.
  - apply list_elem_of_lookup in Hl as [i Hi]. apply list_elem_of_lookup in Hl' as [j Hj].
    assert (i = j) as -> by exact (channel_unique st i j _ _ Hinv Hi Hj eq_refl). by simplify_eq.
Qed.

Lemma key_of_set_pc i p st id k : key_of (set_pc i p st) id k ↔ key_of st id k.
Proof.
  unfold key_of. simpl. apply or_iff_compat_l. split; intros [q [j Hj]%list_elem_of_lookup].
  - apply set_pc_lookup in Hj as (l0 & Hl0 & Heq). destruct l0 as [k0 c0 p0].
    apply list_elem_of_lookup_2 in Hl0. case_decide; simplify_eq/=; eauto.
  - assert (∃ p', loops (set_pc i p st) !! j = Some (mkLoop k id p')) as [p' Hp'].
    { eexists (if decide (i = j) then p else q). apply set_pc_lookup. eexists. split; [done|].
      by case_decide. }
    exists p'. by eapply list_elem_of_lookup_2.
Qed.

Lemma origin_set_pc a i p st : origin a st → origin a (set_pc i p st).
Proof.
  intros [Hm Hf]. split.
  - intros k r Hr. apply key_of_set_pc. by apply Hm.
  - intros id k h Hk%key_of_set_pc Hh. by eapply Hf.
Qed.

Lemma origin_on_handle a j f st :
  origin a st →
  (∀ k h, key_of st j k → handles st !! j = Some h → handle_from a k h → handle_from a k (f h)) →
  origin a (on_handle j f st).
Proof.
  intros [Hm Hf] Hkeep. split; [done|]. intros id k h' Hk Hh'.
  apply on_handle_lookup in Hh' as (h & Hh & ->). case_decide; subst; eauto.
Qed.

Lemma origin_new a : origin a discovery_new.
Proof.
  split; simpl.
  - intros k r. by rewrite lookup_empty.
  - intros id k h _. by rewrite lookup_nil.
Qed.

(** *** Requests, references and selections *)

Lemma handle_from_same a k h h' :
  handle_backends h' = handle_backends h → handle_from a k h → handle_from a k h'.
Proof. unfold handle_from. by intros ->. Qed.

Lemma origin_same a j f st :
  origin a st → (∀ h, handles st !! j = Some h → handle_backends (f h) = handle_backends h) →
  origin a (on_handle j f st).
Proof. intros Ho Hf. apply origin_on_handle; [done|]. intros k h _ Hh. apply handle_from_same. auto. Qed.

(** Handles keep what they were made for. *)
Definition keeps_keys st st' : Prop := ∀ id k, key_of st id k → key_of st' id k.

Lemma origin_backends_for a st hostname port :
  disc_inv st → origin a st →
  let '(st', r) := backends_for st hostname port in
  origin a st' ∧ keeps_keys st st' ∧ key_of st' (h_id r) (hostname, port) ∧ h_for r = (hostname, port).
Proof.
  intros Hinv Ho. pose proof Ho as [Hm Hf].
  destruct (backends_for_cases st hostname port) as [(r & Hr & Hlive & ->)|[Hdead ->]].
  { split_and!; [by apply origin_same|intros id k Hk; exact Hk|by apply Hm|by apply (d_map _ Hinv)]. }
  set (st' := mkDiscovery _ _ _ _).
  assert (keeps_keys st st') as Hkeep.
  { intros id k [Hc|Hl]; [left|by right]. apply elem_of_app. by left. }
  assert (key_of st' (length (handles st)) (hostname, port)) as Hnew.
  { left. apply elem_of_app. right. by apply list_elem_of_singleton. }
  split_and!; [split|done..].
  - intros k r. unfold st' at 1. simpl. rewrite lookup_insert.
    case_decide as Hk; [intros [= <-]; by rewrite <- Hk|]. intros Hr. by apply Hkeep, Hm.
  - intros id k h Hk Hh. unfold st' in Hh. simpl in Hh.
    apply lookup_app_Some in Hh as [Hh|[Hle Hh]].
    + apply (Hf id k h); [|done]. apply lookup_lt_Some in Hh as Hlt.
      destruct Hk as [Hc|Hl]; [left|by right]. apply elem_of_app in Hc as [Hc|Hc]; [done|].
      apply list_elem_of_singleton in Hc. simplify_eq. lia.
    + apply list_lookup_singleton_Some in Hh as [_ <-]. unfold handle_from, handle_backends. simpl.
      rewrite !lb_new_empty. set_solver.
Qed.

Lemma origin_clients a f id st : origin a st → origin a (on_handle id (with_clients f) st).
Proof. intros Ho. by apply origin_same. Qed.

Lemma origin_select_round_robin a key max r st :
  origin a st → origin a (select_round_robin key max r st).1.
Proof.
  intros Ho. unfold select_round_robin, lb_select. destruct (handles st !! h_id r) as [h|] eqn:Hh; [|done].
  pose proof (lb_select_backends key max (λ _ healthy, healthy) (load_balancer_round_robin h)) as Hb.
  destruct (lb_select_with _ _ _ _) as [l b]. simpl in *. apply origin_same; [done|].
  intros h' ?. simplify_eq. unfold handle_backends. simpl. by rewrite Hb.
Qed.

Lemma origin_select_consistent a key max accept r st :
  origin a st → origin a (select_consistent key max accept r st).1.
Proof.
  intros Ho. unfold select_consistent. destruct (handles st !! h_id r) as [h|] eqn:Hh; [|done].
  pose proof (lb_select_backends key max accept (load_balancer_consistent h)) as Hb.
  destruct (lb_select_with _ _ _ _) as [l b]. simpl in *. apply origin_same; [done|].
  intros h' ?. simplify_eq. unfold handle_backends. simpl. by rewrite Hb.
Qed.

Lemma key_of_receive st id k : key_of (receive st) id k ↔ key_of st id k.
Proof.
  unfold receive, key_of. destruct (commands st) as [|[k0 c0] cs] eqn:Hcs; [by rewrite Hcs|]. simpl.
  setoid_rewrite elem_of_app. setoid_rewrite list_elem_of_singleton. rewrite elem_of_cons. naive_solver.
Qed.

Lemma origin_receive a st : origin a st → origin a (receive st).
Proof.
  intros [Hm Hf]. split.
  - intros k r Hr. apply key_of_receive, Hm. unfold receive in Hr. by destruct (commands st) as [|[]].
  - intros id k h Hk Hh. apply (Hf id k h); [by apply key_of_receive|]. unfold receive in Hh.
    by destruct (commands st) as [|[]].
Qed.

(** *** Lookups *)

(** What the record gains by a step of loop [i]. *)
Definition note_answer (response : option (list Z)) (i : nat) st a : Answers :=
  match loops st !! i, response with
  | Some (mkLoop k _ (AtLookup _)), Some addrs => (k.1, addrs) :: a
  | _, _ => a
  end.

Lemma note_answer_mono response i st a : a ⊆ note_answer response i st a.
Proof. unfold note_answer. crush_match. intros x Hx. by right. Qed.

Lemma loop_step_keys response i st st' :
  loop_step response i st = Ok st' → keeps_keys st st'.
Proof.
  intros Hs id k Hk. revert Hs. unfold loop_step.
  destruct (loops st !! i) as [[k0 c p]|]; [|by intros [= <-]].
  assert (∀ (q : LoopPc) j (f : ServiceBackendsHandle → ServiceBackendsHandle),
    key_of (set_pc i q (on_handle j f st)) id k) as Hmove.
  { intros q j f. apply key_of_set_pc. exact Hk. }
  assert (∀ q : LoopPc, key_of (set_pc i q st) id k) as Hgo by (intros q; by apply key_of_set_pc).
  destruct p as [|w|w|w|w|w|].
  - by intros (? & _ & [= <-])%outcome_bind_Ok.
  - destruct response as [addrs|]; [|destruct (_ =? 0)%nat; by intros [= <-]].
    unfold send_if_modified. destruct (handles st !! c); [case_decide|]; by intros [= <-].
  - destruct (upgrade w st); by intros [= <-].
  - by intros [= <-].
  - by intros [= <-].
  - unfold send_ready. destruct (_ =? 0)%nat; [|destruct (_ =? 0)%nat]; by intros [= <-].
  - by intros [= <-].
Qed.

Lemma origin_sent a k w i id addrs st :
  disc_inv st → loops st !! i = Some (mkLoop k id (AtLookup w)) → (k.1, addrs) ∈ a → origin a st →
  origin a (on_handle id (with_backends (backends_of addrs k.2)) st).
Proof.
  intros Hinv Hl Ha Ho. apply origin_on_handle; [done|]. intros k' h Hk' Hh Hfrom b.
  assert (k' = k) as ->.
  { eapply key_of_unique; [done|exact Hk'|]. right. exists (AtLookup w). by eapply list_elem_of_lookup_2. }
  unfold handle_backends. simpl. rewrite !elem_of_union. intros [[Hb|Hb]|Hb].
  - unfold backends_of in Hb. rewrite elem_of_list_to_set in Hb.
    apply list_elem_of_fmap in Hb as (ip & -> & Hip). by exists ip, addrs.
  - apply Hfrom. unfold handle_backends. set_solver.
  - apply Hfrom. unfold handle_backends. set_solver.
Qed.

Lemma origin_loop_step a response i st st' :
  disc_inv st → loop_step response i st = Ok st' → origin a st →
  origin (note_answer response i st a) st'.
Proof.
  intros Hinv Hs Ho. pose proof (origin_mono _ _ _ (note_answer_mono response i st a) Ho) as Ho'.
  revert Hs Ho'. unfold loop_step, note_answer.
  destruct (loops st !! i) as [[k c p]|] eqn:Hl; [|by intros [= <-]].
  destruct p as [|w|w|w|w|w|]; simpl.
  - destruct (service_backends st !! k); simpl; [|done]. intros [= <-]. by apply origin_set_pc.
  - destruct response as [addrs|].
    + intros Hs Ho'. unfold send_if_modified in Hs.
      destruct (handles st !! c) as [h|]; [|injection Hs as <-; by apply origin_set_pc].
      case_decide; injection Hs as <-; apply origin_set_pc; [done|].
      eapply (origin_sent _ k w i); [done..|by left|done].
    + destruct (_ =? 0)%nat; intros [= <-]; [by apply origin_set_pc|done].
  - destruct (upgrade w st); intros [= <-]; by apply origin_set_pc.
  - intros [= <-] _. apply origin_set_pc, origin_on_handle; [done|]. intros k' h _ _ Hf b Hb. apply Hf.
    revert Hb. unfold handle_backends. simpl. rewrite lb_update_backends. unfold discover. set_solver.
  - intros [= <-] _. apply origin_set_pc, origin_on_handle; [done|]. intros k' h _ _ Hf b Hb. apply Hf.
    revert Hb. unfold handle_backends. simpl. rewrite lb_update_backends. unfold discover. set_solver.
  - unfold send_ready. destruct (_ =? 0)%nat; intros [= <-] _; [by apply origin_set_pc|].
    apply origin_set_pc. destruct (_ =? 0)%nat; [done|]. by apply origin_same.
  - by intros [= <-].
Qed.

(** ** Runs with the record *)

Inductive heard_step : Answers * Discovery → Answers * Discovery → Prop :=
| heard_loop a st i response st' :
    loop_step response i st = Ok st' → heard_step (a, st) (note_answer response i st a, st')
| heard_request a st hostname port :
    heard_step (a, st) (a, (backends_for st hostname port).1)
| heard_clone a st r h :
    handles st !! h_id r = Some h → 0 < clients h → heard_step (a, st) (a, clone_ref r st)
| heard_drop a st id h :
    handles st !! id = Some h → 0 < clients h → heard_step (a, st) (a, drop_ref id st)
| heard_select_round_robin a st key max r :
    heard_step (a, st) (a, (select_round_robin key max r st).1)
| heard_select_consistent a st key max accept r :
    heard_step (a, st) (a, (select_consistent key max accept r st).1)
| heard_receive a st :
    heard_step (a, st) (a, receive st).

Lemma heard_step_disc x y : heard_step x y → disc_step x.2 y.2.
Proof. destruct 1; simpl; by econstructor. Qed.

Lemma heard_step_origin x y : heard_step x y → disc_inv x.2 → origin x.1 x.2 → origin y.1 y.2.
Proof.
  destruct 1; simpl; intros Hinv Ho.
  - by eapply origin_loop_step.
  - pose proof (origin_backends_for a st hostname port Hinv Ho) as Hb.
    destruct (backends_for st hostname port). by destruct Hb.
  - by apply origin_clients.
  - by apply origin_clients.
  - by apply origin_select_round_robin.
  - by apply origin_select_consistent.
  - by apply origin_receive.
Qed.

Lemma origin_reachable a st :
  rtc heard_step ([], discovery_new) (a, st) → disc_inv st ∧ origin a st.
Proof.
  intros Hr. cut (∀ x y, rtc heard_step x y → disc_inv x.2 ∧ origin x.1 x.2 → disc_inv y.2 ∧ origin y.1 y.2).
  { intros Hc. apply (Hc _ _ Hr). split; [apply disc_inv_new|apply origin_new]. }
  clear Hr. induction 1 as [|x y z Hstep _ IH]; [done|]. intros [Hinv Ho]. apply IH. split.
  - by eapply disc_step_inv; [apply heard_step_disc|].
  - by eapply heard_step_origin.
Qed.

(** C6: Every backend comes from the resolver: whatever requests, lookups, selections and
    dropped references interleave, each backend in the channel of the handle made for a
    host and port, and in both its load balancers, is an address that an earlier answer
    for this host contained, at this port. *)
Theorem backends_from_resolver a st id k h b :
  rtc heard_step ([], discovery_new) (a, st) → key_of st id k → handles st !! id = Some h →
  b ∈ backends h ∨ b ∈ lb_backends (load_balancer_round_robin h)
  ∨ b ∈ lb_backends (load_balancer_consistent h) →
  ∃ ip addrs, (k.1, addrs) ∈ a ∧ ip ∈ addrs ∧ b = mkBackend (Inet ip k.2) 1.
Proof.
  intros [_ Ho]%origin_reachable Hk Hh Hb. apply (o_from _ _ Ho id k h Hk Hh).
  unfold handle_backends. set_solver.
Qed.
End origin.

(** ** A sample run *)

(** The host is requested, its loop started, and the first answer sent to the channel. *)
Definition sample_sent : SampleDiscovery := after (loop_step (Some [7%Z]) 0 sample_started) sample_started.

Lemma sample_sent_heard :
  rtc heard_step ([], discovery_new) ([(lit "redis", [7%Z])], sample_sent).
Proof.
  eapply rtc_l; [apply (heard_request [] discovery_new (lit "redis") 6379%Z)|].
  eapply rtc_l; [apply heard_receive|].
  eapply rtc_l; [eapply (heard_loop [] _ 0 None sample_started); vm_refl|].
  apply rtc_once. apply (heard_loop [] sample_started 0 (Some [7%Z]) sample_sent). vm_refl.
Qed.

Lemma backends_from_resolver_witness :
  ∃ h, handles sample_sent !! 0 = Some h ∧ mkBackend (Inet 7 6379) 1 ∈ backends h
  ∧ ∃ ip addrs, (redis_host.1, addrs) ∈ [(lit "redis", [7%Z])] ∧ ip ∈ addrs
    ∧ mkBackend (Inet 7 6379) 1 = mkBackend (Inet ip redis_host.2) 1.
Proof.
  exists (mkHandle {[mkBackend (Inet 7 6379) 1]} ∅ ∅ false 1). split; [vm_refl|].
  assert (mkBackend (Inet 7 6379) 1 ∈ ({[mkBackend (Inet 7 6379) 1]} : gset Backend)) as Hin
    by (by apply elem_of_singleton).
  split; [exact Hin|].
  apply (backends_from_resolver [(lit "redis", [7%Z])] sample_sent 0 redis_host
    (mkHandle {[mkBackend (Inet 7 6379) 1]} ∅ ∅ false 1)).
  - exact sample_sent_heard.
  - right. exists (AtUpgrade (mkHandleRef 0 redis_host)). apply (list_elem_of_lookup_2 _ 0). vm_refl.
  - vm_refl.
  - left. exact Hin.
Defined.
