(* ===== verification/Cache.v ===== *)
(** * Cache: the interface between the proxy and the cache backends

    pingora's [CacheKey] and [CacheMeta] are parameters, with what their documentation
    promises; the trait [Storage], with its hit and miss handlers, is a type class whose
    instances are the Redis backend (file Redis) and [MockStorage] of
    [test_util/mock_storage.rs]. *)

From stdpp Require Import gmap strings list.
From Stdlib Require Import Strings.Byte.
From S2P Require Import Prelude Text Headers Hash.

(** ** pingora's keys and metadata *)

Class PingoraCache (H : Type) := {
  CacheKey : Type;
  CacheMeta : Type;
  (** [CacheKey::new(namespace, primary, user_tag)]. *)
  key_new : bytes → bytes → bytes → CacheKey;
  (** [CacheKey::default(req_header)]. *)
  key_default : RequestHeader H → CacheKey;
  set_primary_bin_override : bytes → CacheKey → CacheKey;
  primary_bin : CacheKey → bytes;
  (** [CacheMeta::serialize], [CacheMeta::deserialize]. *)
  meta_serialize : CacheMeta → outcome PError (bytes * bytes);
  meta_deserialize : bytes → bytes → outcome PError CacheMeta;
}.

(** The default key has the whole URI as its primary key and nothing else, the override
    replaces the hash of the primary key, metadata survives serialisation, and damaged
    metadata is an error. *)
Class PingoraCacheLaws (H : Type) `{!PingoraCache H} : Prop := {
  key_default_uri (r : RequestHeader H) : key_default r = key_new [] (uri r) [];
  primary_bin_override h k : primary_bin (set_primary_bin_override h k) = h;
  meta_round_trip m a b : meta_serialize m = Ok (a, b) → meta_deserialize a b = Ok m;
  meta_serialize_no_panic m : meta_serialize m ≠ Panic;
  meta_deserialize_no_panic a b : meta_deserialize a b ≠ Panic;
}.

(** ** The trait [Storage] *)

Class Storage (H S : Type) `{!PingoraCache H} := {
  HitHandler : Type;
  MissHandler : Type;
  lookup_key : CacheKey → S → outcome PError (option (CacheMeta * HitHandler));
  get_miss_handler : CacheKey → CacheMeta → S → outcome PError MissHandler;
  (** [HandleHit::read_body]. *)
  read_body : HitHandler → HitHandler * option bytes;
  (** [HandleMiss::write_body] and [HandleMiss::finish]. *)
  write_body : bytes → bool → MissHandler → MissHandler;
  finish_miss : MissHandler → S → outcome PError (S * nat);
  purge : CacheKey → S → outcome PError bool;
  update_meta : CacheKey → CacheMeta → S → outcome PError bool;
}.

(** The chunks of a response body, written in order. *)
Definition write_chunks {H S} `{Storage H S} (chunks : list bytes) (m : MissHandler) : MissHandler :=
  foldl (λ m c, write_body c false m) m chunks.

(** ** [test_util/mock_storage.rs] *)

Module MockStorage.
Section mock.
Context {H : Type} `{!PingoraCache H}.

(** [MockStorage] and [MockMissHandler] have no fields. It never has a hit. *)
#[global] Instance mock_storage : Storage H unit := {
  HitHandler := Empty_set;
  MissHandler := unit;
  lookup_key _ _ := Ok None;
  get_miss_handler _ _ _ := Ok tt;
  read_body h := match h with end;
  write_body _ _ m := m;
  finish_miss _ s := Ok (s, 1000%nat);
  purge _ _ := Panic;
  update_meta _ _ _ := Panic;
}.
End mock.
End MockStorage.

(** ** Plain keys and metadata *)

(** Keys are the URI with an optional override, metadata is its first encoding. *)
Definition plain_cache (H : Type) : PingoraCache H := {|
  CacheKey := bytes * option bytes;
  CacheMeta := bytes;
  key_new ns primary tag := (ns ++ primary, None);
  key_default r := (uri r, None);
  set_primary_bin_override h k := (k.1, Some h);
  primary_bin k := default k.1 k.2;
  meta_serialize m := Ok (m, []);
  meta_deserialize a b := Ok a;
|}.

Lemma plain_cache_laws (H : Type) : @PingoraCacheLaws H (plain_cache H).
Proof. split; simpl; try done. by intros m a b [= <- _]. Qed.

(** Keys as above, and metadata with the time it is fresh until and the time of its
    creation, encoded bit by bit. *)
Fixpoint pos_bytes (p : positive) : bytes :=
  match p with
  | xH => []
  | xO p' => x00 :: pos_bytes p'
  | xI p' => x01 :: pos_bytes p'
  end.

Fixpoint bytes_pos (s : bytes) : positive :=
  match s with
  | [] => 1
  | x00 :: s' => xO (bytes_pos s')
  | _ :: s' => xI (bytes_pos s')
  end.

Lemma bytes_pos_bytes p : bytes_pos (pos_bytes p) = p.
Proof. induction p; simpl; congruence. Qed.

Definition timed_cache (H : Type) : PingoraCache H := {|
  CacheKey := bytes * option bytes;
  CacheMeta := Z * Z;
  key_new ns primary tag := (ns ++ primary, None);
  key_default r := (uri r, None);
  set_primary_bin_override h k := (k.1, Some h);
  primary_bin k := default k.1 k.2;
  meta_serialize m := Ok (pos_bytes (encode m), []);
  meta_deserialize a b :=
    match decode (bytes_pos a) with
    | Some m => Ok m
    | None => Err (mkPError ReadError (lit "metadata"))
    end;
|}.

Lemma timed_cache_laws (H : Type) : @PingoraCacheLaws H (timed_cache H).
Proof.
  split; simpl; try done.
  - intros m a b [= <- _]. by rewrite bytes_pos_bytes, decode_encode.
  - intros a b. by destruct (decode (bytes_pos a)).
Qed.
