(* ===== verification/Redis.v ===== *)
(** * Redis: [cache/redis_replicas.rs], the cache backend

    Responses are stored in one of several Redis replicas, chosen by consistent hashing
    of the key among the replicas that have a connection pool. A value is a version byte
    and the bincode encoding of [CacheData]. The background service keeps one pool for
    each backend found by discovery. bincode, the Redis client and the connection pools
    are parameters. *)

From stdpp Require Import gmap strings list fin_maps.
From Stdlib Require Import Strings.Byte.
From S2P Require Import Prelude Text Headers Hash Discovery Cache.

(** [CacheData]. *)
Record CacheData := mkCacheData { cache_meta : bytes * bytes; data : bytes }.

(** ** External code *)

(** [bincode::serialize_into] and [bincode::deserialize]. *)
Class Bincode := {
  bincode_serialize : CacheData → option bytes;
  bincode_deserialize : bytes → option CacheData;
}.

Class BincodeLaws `{!Bincode} : Prop := {
  bincode_total d : is_Some (bincode_serialize d);
  bincode_round_trip d s : bincode_serialize d = Some s → bincode_deserialize s = Some d;
}.

(** bb8 pools and Redis commands. [Servers] is the state of the servers and of the
    network; an operation that fails returns [None] or [false]. *)
Class RedisClient := {
  Pool : Type;
  Servers : Type;
  (** [Pool::builder().build(RedisConnectionManager::new("redis://ip:port"))]. *)
  pool_build : Z * Z → option Pool;
  (** [pool.get()]: whether a connection is obtained. *)
  pool_get : Pool → Servers → bool;
  (** [conn.get(key)], [conn.set(key, value)]. *)
  redis_get : Pool → bytes → Servers → option (option bytes);
  redis_set : Pool → bytes → bytes → Servers → Servers * bool;
}.

(** What a server holds: [GET] that succeeds returns it, [SET] that succeeds stores the
    value, and [SET] changes nothing but its key. *)
Class RedisLaws `{!RedisClient} := {
  redis_value : Servers → Pool → bytes → option bytes;
  redis_get_value p k w r : redis_get p k w = Some r → r = redis_value w p k;
  redis_set_value p k v w w' : redis_set p k v w = (w', true) → redis_value w' p k = Some v;
  redis_set_frame p k v w w' b p' k' :
    redis_set p k v w = (w', b) →
    redis_value w' p' k' = redis_value w p' k' ∨ (k' = k ∧ redis_value w' p' k' = Some v);
}.

Section redis.
Context {H Cons : Type} {PC : PingoraCache H} {Bal : Balancer Cons} {BC : Bincode} {RC : RedisClient}.

(** [RedisPools]: the balancer of the discovery handle and the pools; and the servers. *)
Record RedisBackend := mkRedis {
  lb_consistent : Cons;
  pools : gmap Backend Pool;
  servers : Servers;
}.

(** [RedisReplicasCacheBackend::new]: the balancer is that of the discovery handle, the
    pools are empty; the readiness task it spawns is [discovery_ready] of the file Main. *)
Definition redis_new (discovery : Cons) (w : Servers) : RedisBackend := mkRedis discovery ∅ w.

(** ** Choosing a pool *)

Definition select_backend (self : RedisBackend) (key : bytes) : option Backend :=
  (lb_select_with key 255 (λ backend healthy,
     if negb healthy then false else bool_decide (is_Some (pools self !! backend)))
     (lb_consistent self)).2.

(** [pool_for_hash]: the pools may change between the selection and the lookup. *)
Definition pool_for_hash (self : RedisBackend) (pools_then : gmap Backend Pool) (hash : bytes)
    : option Pool :=
  match select_backend self hash with
  | Some backend => pools_then !! backend
  | None => None
  end.

(** ** Hits *)

Record RedisCacheHit := mkHit { hit_data : bytes }.

Definition redis_read_body (self : RedisCacheHit) : RedisCacheHit * option bytes :=
  (self, Some (hit_data self)).

Definition redis_lookup (key : CacheKey) (self : RedisBackend)
    : outcome PError (option (CacheMeta * RedisCacheHit)) :=
  let hash := primary_bin key in
  match pool_for_hash self (pools self) hash with
  | None => Ok None
  | Some pool =>
    if negb (pool_get pool (servers self)) then Ok None
    else
      match default None (redis_get pool hash (servers self)) with
      | None => Ok None
      | Some data =>
        version ← unwrap (head data);
        if decide (version ≠ x00) then Ok None
        else
          match bincode_deserialize (tail data) with
          | Some cache_data =>
            meta ← meta_deserialize (cache_meta cache_data).1 (cache_meta cache_data).2;
            Ok (Some (meta, mkHit (Redis.data cache_data)))
          | None => Ok None
          end
      end
  end.

(** ** Misses *)

Record RedisCacheMiss := mkMiss {
  miss_meta : bytes * bytes;
  miss_hash : bytes;
  miss_value : bytes;
}.

Definition redis_get_miss_handler (key : CacheKey) (meta : CacheMeta) (self : RedisBackend)
    : outcome PError RedisCacheMiss :=
  meta ← meta_serialize meta;
  Ok (mkMiss meta (primary_bin key) []).

Definition redis_write_body (data : bytes) (eof : bool) (self : RedisCacheMiss) : RedisCacheMiss :=
  mkMiss (miss_meta self) (miss_hash self) (miss_value self ++ data).

Definition with_servers (w : Servers) (self : RedisBackend) : RedisBackend :=
  mkRedis (lb_consistent self) (pools self) w.

(** [finish]: the number of bytes written; an error of [SET] is only logged. *)
Definition redis_finish (self : RedisCacheMiss) (backend : RedisBackend)
    : outcome PError (RedisBackend * nat) :=
  match pool_for_hash backend (pools backend) (miss_hash self) with
  | None => Ok (backend, 0)
  | Some pool =>
    if negb (pool_get pool (servers backend)) then Ok (backend, 0)
    else
      encoded ← unwrap (bincode_serialize (mkCacheData (miss_meta self) (miss_value self)));
      let data := x00 :: encoded in
      let '(w, _) := redis_set pool (miss_hash self) data (servers backend) in
      Ok (with_servers w backend, length data)
  end.

#[global] Instance redis_storage : Storage H RedisBackend := {
  HitHandler := RedisCacheHit;
  MissHandler := RedisCacheMiss;
  lookup_key := redis_lookup;
  get_miss_handler := redis_get_miss_handler;
  read_body := redis_read_body;
  write_body := redis_write_body;
  finish_miss := redis_finish;
  purge _ _ := Ok false;
  update_meta _ _ _ := Ok false;
}.

(** ** The pool service *)

(** [pools.retain(|k, _| backends.contains(k))]; the log of a removal unwraps the
    address. *)
Definition retain_pools (backends : gset Backend) (m : gmap Backend Pool)
    : outcome Empty_set (gmap Backend Pool) :=
  if decide (∀ b, b ∈ dom m ∖ backends → is_Some (as_inet (addr b)))
  then Ok (filter (λ bp, bp.1 ∈ backends) m)
  else Panic.

(** The body of [for backend in backends.iter()]. *)
Definition add_pool (backend : Backend) (m : gmap Backend Pool)
    : outcome Empty_set (gmap Backend Pool) :=
  match m !! backend with
  | Some _ => Ok m
  | None =>
    inet_addr ← unwrap (as_inet (addr backend));
    pool ← unwrap (pool_build inet_addr);
    Ok (<[backend := pool]> m)
  end.

Fixpoint add_pools (l : list Backend) (m : gmap Backend Pool)
    : outcome Empty_set (gmap Backend Pool) :=
  match l with
  | [] => Ok m
  | b :: l' => m' ← add_pool b m; add_pools l' m'
  end.

(** One round of [Service::start], for a new set of backends. *)
Definition pools_round (backends : gset Backend) (self : RedisBackend)
    : outcome Empty_set RedisBackend :=
  m ← retain_pools backends (pools self);
  m ← add_pools (elements backends) m;
  Ok (mkRedis (lb_consistent self) m (servers self)).
End redis.

Arguments RedisBackend Cons {RC}.

(** Case analysis on existentials among the hypotheses. *)
Ltac destruct_ex := match goal with Hx : ∃ _, _ |- _ => destruct Hx end.

Section theorems.
Context {H Cons : Type} `{PL : PingoraCacheLaws H, BL : BalancerLaws Cons}.
Context {BC : Bincode} {BCL : BincodeLaws} {RC : RedisClient} {RL : RedisLaws}.
Notation RedisBackend := (RedisBackend Cons).
Implicit Types (self : RedisBackend) (w : Servers).

(** ** Choosing a pool *)

(** Among pools that do not change, the backend selected always has its pool. *)
Lemma pool_for_hash_selected self hash b :
  select_backend self hash = Some b →
  b ∈ lb_backends (lb_consistent self) ∧ is_Some (pool_for_hash self (pools self) hash).
Proof.
  unfold select_backend. intros Hs. pose proof Hs as [Hin Hacc]%lb_select_sound. simpl in Hacc.
  apply bool_decide_eq_true in Hacc. split; [done|].
  unfold pool_for_hash, select_backend. by rewrite Hs.
Qed.

(** ** Storing and looking up *)

(** The version byte and the encoding. *)
Definition encode (d : CacheData) : option bytes := cons x00 <$> bincode_serialize d.

Lemma redis_finish_eq (m : RedisCacheMiss) self pool :
  pool_for_hash self (pools self) (miss_hash m) = Some pool → pool_get pool (servers self) = true →
  ∃ s, encode (mkCacheData (miss_meta m) (miss_value m)) = Some s ∧
    redis_finish m self = Ok (with_servers (redis_set pool (miss_hash m) s (servers self)).1 self,
                              length s).
Proof.
  intros Hp Hg. unfold redis_finish, encode. rewrite Hp, Hg. simpl.
  destruct (bincode_total (mkCacheData (miss_meta m) (miss_value m))) as [s Hs]. rewrite Hs. simpl.
  exists (x00 :: s). split; [done|]. by destruct (redis_set _ _ _ _).
Qed.

Lemma redis_write_chunks (chunks : list bytes) (m : RedisCacheMiss) :
  write_chunks (S:=RedisBackend) chunks m = mkMiss (miss_meta m) (miss_hash m) (miss_value m ++ concat chunks).
Proof.
  unfold write_chunks. simpl. revert m. induction chunks as [|c cs IH]; intros m; simpl.
  - rewrite (right_id_L [] (++)). by destruct m.
  - rewrite IH. simpl. by rewrite (assoc_L (++)).
Qed.

Lemma redis_stored_found key meta miss chunks self pool self' n :
  get_miss_handler key meta self = Ok miss →
  pool_for_hash self (pools self) (primary_bin key) = Some pool →
  pool_get pool (servers self) = true →
  finish_miss (write_chunks chunks miss) self = Ok (self', n) →
  (∀ s, (redis_set pool (primary_bin key) s (servers self)).2 = true) →
  pool_get pool (servers self') = true →
  is_Some (redis_get pool (primary_bin key) (servers self')) →
  lookup_key key self' = Ok (Some (meta, mkHit (concat chunks))).
Proof.
  simpl. intros Hmiss Hp Hg Hfin Hset Hg' [r Hget]. unfold redis_get_miss_handler in Hmiss.
  apply outcome_bind_Ok in Hmiss as ([ma mb] & Hser & [= <-]).
  rewrite redis_write_chunks in Hfin. simpl in Hfin.
  destruct (redis_finish_eq (mkMiss (ma, mb) (primary_bin key) (concat chunks)) self pool)
    as (s & Hs & Heq); [done..|].
  simpl in Hs. change (miss_hash _) with (primary_bin key) in Heq.
  rewrite Heq in Hfin. injection Hfin as <- _. clear Heq. simpl in *.
  unfold redis_lookup. unfold pool_for_hash, select_backend in *. simpl. rewrite Hp, Hg'. simpl.
  rewrite Hget. simpl. specialize (Hset s).
  destruct (redis_set pool (primary_bin key) s (servers self)) as [w b] eqn:Hs'. simpl in *. subst b.
  apply redis_get_value in Hget. rewrite (redis_set_value _ _ _ _ _ Hs') in Hget. subst r.
  unfold encode in Hs. apply fmap_Some in Hs as (s0 & Hs0 & ->). simpl.
  rewrite (bincode_round_trip _ _ Hs0). simpl. by rewrite (meta_round_trip _ _ _ Hser).
Qed.

(** C28: What is stored is found: after the miss handler of a key has received the chunks
    of a body and finished, with a pool for the key and no failure of the network, a
    lookup of the key returns the metadata and the whole body. *)
Theorem redis_store_lookup key meta miss chunks self pool self' n :
  get_miss_handler key meta self = Ok miss →
  pool_for_hash self (pools self) (primary_bin key) = Some pool →
  pool_get pool (servers self) = true →
  finish_miss (write_chunks chunks miss) self = Ok (self', n) →
  (∀ s, (redis_set pool (primary_bin key) s (servers self)).2 = true) →
  pool_get pool (servers self') = true →
  is_Some (redis_get pool (primary_bin key) (servers self')) →
  lookup_key key self' = Ok (Some (meta, mkHit (concat chunks))).
Proof. apply redis_stored_found. Qed.

(** ** Lookups never fail hard *)

(** The decision of [redis_lookup] on the answer of the server. *)
Definition answer (key : CacheKey) self : option bytes :=
  pool ← pool_for_hash self (pools self) (primary_bin key);
  if pool_get pool (servers self) then default None (redis_get pool (primary_bin key) (servers self))
  else None.

Lemma redis_lookup_eq key self :
  redis_lookup key self =
  match answer key self with
  | None => Ok None
  | Some [] => Panic
  | Some (version :: s) =>
    if decide (version ≠ x00) then Ok None
    else match bincode_deserialize s with
         | Some d => meta ← meta_deserialize (cache_meta d).1 (cache_meta d).2;
                     Ok (Some (meta, mkHit (data d)))
         | None => Ok None
         end
  end.
Proof.
  unfold redis_lookup, answer. destruct (pool_for_hash _ _ _) as [pool|]; simpl; [|done].
  destruct (pool_get _ _); simpl; [|done].
  by destruct (default None _) as [[|v s]|]; simpl.
Qed.

(** Reading an answer means that a server holds it. *)
Lemma answer_value key self s :
  answer key self = Some s → ∃ pool, redis_value (servers self) pool (primary_bin key) = Some s.
Proof.
  unfold answer. destruct (pool_for_hash _ _ _) as [pool|]; simpl; [|done].
  destruct (pool_get _ _); simpl; [|done].
  destruct (redis_get _ _ _) as [r|] eqn:Hr; simpl; [|done]. intros ->.
  apply redis_get_value in Hr. eauto.
Qed.

(** Equivalences between a known result and facts about a known answer. *)
Ltac lookup_cases :=
  split_and!; intros; split; intros; repeat first [destruct_ex | progress (destruct_and?) | progress (destruct_or?)];
  simplify_eq; try congruence; eauto 10.

(** C29: What a lookup returns, on every branch: a hit exactly when a pool is selected and
    the server answers with a value of version 0 that decodes to the body and to valid
    metadata; an error exactly when such a value has damaged metadata, and then that
    error; a panic exactly when the value is empty; and a miss in all other cases: no
    pool, no connection, a failed [GET], no value, another version, or a value that
    bincode does not decode. *)
Theorem redis_lookup_exact key self :
  (∀ meta hit, lookup_key key self = Ok (Some (meta, hit)) ↔
     ∃ s d, answer key self = Some (x00 :: s) ∧ bincode_deserialize s = Some d
       ∧ meta_deserialize (cache_meta d).1 (cache_meta d).2 = Ok meta ∧ hit = mkHit (data d))
  ∧ (∀ e, lookup_key key self = Err e ↔
       ∃ s d, answer key self = Some (x00 :: s) ∧ bincode_deserialize s = Some d
         ∧ meta_deserialize (cache_meta d).1 (cache_meta d).2 = Err e)
  ∧ (lookup_key key self = Panic ↔ answer key self = Some [])
  ∧ (lookup_key key self = Ok None ↔
       answer key self = None
       ∨ ∃ v s, answer key self = Some (v :: s) ∧ (v ≠ x00 ∨ bincode_deserialize s = None)).
Proof.
  change (lookup_key key self) with (redis_lookup key self). rewrite redis_lookup_eq.
  destruct (answer key self) as [[|v s]|]; [by lookup_cases| |by lookup_cases].
  case_decide as Hv; [by lookup_cases|].
  assert (v = x00) as -> by (destruct (decide (v = x00)); [done|by destruct Hv]). clear Hv.
  destruct (bincode_deserialize s) as [d|] eqn:Hd; [|by lookup_cases].
  pose proof (meta_deserialize_no_panic (cache_meta d).1 (cache_meta d).2) as Hnp.
  destruct (meta_deserialize _ _) as [m|e|] eqn:Hm; simpl; [by lookup_cases|by lookup_cases|done].
Qed.

(** The steps of the backend: a miss handler finishes, the pools are updated, discovery
    updates the balancer. *)
Inductive redis_step : RedisBackend → RedisBackend → Prop :=
| redis_step_finish self (m : RedisCacheMiss) self' n :
    redis_finish m self = Ok (self', n) → redis_step self self'
| redis_step_pools self backends self' :
    pools_round backends self = Ok self' → redis_step self self'
| redis_step_balancer self lb :
    redis_step self (mkRedis lb (pools self) (servers self)).

(** Every stored value has its version byte. *)
Definition versioned_values (w : Servers) : Prop :=
  ∀ pool k v, redis_value w pool k = Some v → v ≠ [].

Lemma redis_step_versioned self self' :
  redis_step self self' → versioned_values (servers self) → versioned_values (servers self').
Proof.
  intros Hstep Hw. destruct Hstep as [self m self' n Hf|self bs self' Hr|self lb]; [| |done].
  - destruct (pool_for_hash self (pools self) (miss_hash m)) as [pool|] eqn:Hp;
      [|unfold redis_finish in Hf; rewrite Hp in Hf; by injection Hf as <- _].
    destruct (pool_get pool (servers self)) eqn:Hg;
      [|unfold redis_finish in Hf; rewrite Hp, Hg in Hf; by injection Hf as <- _].
    destruct (redis_finish_eq m self pool Hp Hg) as (s & Hs & Heq). rewrite Heq in Hf.
    injection Hf as <- _. simpl. intros p k v Hv.
    destruct (redis_set pool (miss_hash m) s (servers self)) as [w b] eqn:Hset. simpl in Hv.
    destruct (redis_set_frame _ _ _ _ _ _ p k Hset) as [Heq'|[_ Heq']]; rewrite Heq' in Hv.
    + by eapply Hw.
    + injection Hv as <-. unfold encode in Hs. apply fmap_Some in Hs as (? & _ & ->). done.
  - unfold pools_round in Hr. apply outcome_bind_Ok in Hr as (m1 & _ & Hr).
    apply outcome_bind_Ok in Hr as (m2 & _ & [= <-]). done.
Qed.

Lemma redis_lookup_no_panic self key :
  versioned_values (servers self) → redis_lookup key self ≠ Panic.
Proof.
  intros Hw. rewrite redis_lookup_eq. destruct (answer key self) as [[|v s]|] eqn:Ha; [|..|done].
  - apply answer_value in Ha as [pool Hv]. by apply Hw in Hv.
  - case_decide; [done|]. destruct (bincode_deserialize s) as [d|]; [|done].
    pose proof (meta_deserialize_no_panic (cache_meta d).1 (cache_meta d).2).
    by destruct (meta_deserialize _ _).
Qed.

(** Lookups do not panic on what the backend stored: from servers without empty
    values, whatever responses are stored and however pools and backends change, the
    indexing of the version byte never fails. *)
Theorem redis_lookup_safe self self' key :
  versioned_values (servers self) → rtc redis_step self self' →
  lookup_key key self' ≠ Panic.
Proof.
  intros Hw Hr. apply redis_lookup_no_panic. induction Hr; eauto using redis_step_versioned.
Qed.

(** ** Reading a hit *)

(** Reads until the handler says that the body has ended. *)
Fixpoint read_to_end (fuel : nat) (hit : RedisCacheHit) : option (list bytes) :=
  match fuel with
  | 0 => None
  | S fuel' => match redis_read_body hit with
               | (_, None) => Some []
               | (hit', Some chunk) => cons chunk <$> read_to_end fuel' hit'
               end
  end.

(** A hit never ends: [read_body] returns the whole body again and again, never
    [None], so a reader that reads until the end does not come to it. *)
Theorem redis_hit_never_ends hit fuel : read_to_end fuel hit = None.
Proof. revert hit. induction fuel as [|fuel IH]; intros hit; simpl; [done|]. by rewrite IH. Qed.

End theorems.

Section pool_service.
Context {Cons : Type} {RC : RedisClient}.
Implicit Types (self : RedisBackend Cons).

(** ** The pool service *)

Lemma add_pools_spec (l : list Backend) (m : gmap Backend Pool) :
  (∀ b, b ∈ l → ∃ a p, as_inet (addr b) = Some a ∧ pool_build a = Some p) →
  ∃ m', add_pools l m = Ok m' ∧ dom m' = dom m ∪ list_to_set l
    ∧ ∀ b p, m !! b = Some p → m' !! b = Some p.
Proof.
  revert m. induction l as [|b l IH]; intros m Hall; simpl; [eexists; split; [done|]; set_solver|].
  assert (∃ m1, add_pool b m = Ok m1 ∧ dom m1 = {[b]} ∪ dom m
            ∧ ∀ b p, m !! b = Some p → m1 !! b = Some p) as (m1 & -> & Hdom & Hkeep).
  { unfold add_pool. destruct (m !! b) as [p|] eqn:Hb.
    - exists m. split_and!; [done| |done]. apply elem_of_dom_2 in Hb. set_solver.
    - destruct (Hall b) as (a & p & -> & Hp); [set_solver|]. simpl. rewrite Hp. simpl.
      eexists. split_and!; [done|by rewrite dom_insert_L|]. intros b' p' Hb'.
      rewrite lookup_insert_ne; [done|]. congruence. }
  simpl. destruct (IH m1) as (m' & -> & Hdom' & Hkeep'); [set_solver|].
  exists m'. split_and!; [done| |eauto]. rewrite Hdom', Hdom. set_solver.
Qed.

Lemma pools_round_spec self (bs : gset Backend) :
  (∀ b, b ∈ bs → ∃ a p, as_inet (addr b) = Some a ∧ pool_build a = Some p) →
  (∀ b, b ∈ dom (pools self) → is_Some (as_inet (addr b))) →
  ∃ self', pools_round bs self = Ok self' ∧ dom (pools self') = bs
    ∧ (∀ b p, b ∈ bs → pools self !! b = Some p → pools self' !! b = Some p)
    ∧ servers self' = servers self.
Proof.
  intros Hbs Hold. unfold pools_round, retain_pools. rewrite decide_True by set_solver. simpl.
  set (m := filter _ (pools self)).
  destruct (add_pools_spec (elements bs) m) as (m' & -> & Hdom & Hkeep).
  { intros b Hb. apply Hbs. by apply elem_of_elements. }
  eexists. split; [done|]. simpl. split_and!; [| |done].
  - rewrite Hdom, list_to_set_elements_L. assert (dom m ⊆ bs); [|set_solver].
    intros b [p Hp]%elem_of_dom. unfold m in Hp. by apply map_lookup_filter_Some in Hp as [_ ?].
  - intros b p Hb Hp. apply Hkeep. unfold m. by apply map_lookup_filter_Some.
Qed.

(** The pools follow discovery: for backends with internet addresses, the only ones
    discovery makes, and connection managers that can be built, a round of the service
    does not panic and leaves exactly one pool for each backend, keeping the pools of
    the backends that stay. *)
Theorem pools_follow_backends self (bs : gset Backend) :
  (∀ b, b ∈ bs → ∃ a p, as_inet (addr b) = Some a ∧ pool_build a = Some p) →
  (∀ b, b ∈ dom (pools self) → is_Some (as_inet (addr b))) →
  ∃ self', pools_round bs self = Ok self' ∧ dom (pools self') = bs
    ∧ (∀ b p, b ∈ bs → pools self !! b = Some p → pools self' !! b = Some p)
    ∧ servers self' = servers self.
Proof. apply pools_round_spec. Qed.
End pool_service.

(** Discovery only makes internet addresses. *)
Lemma backends_of_inet addrs port b :
  b ∈ backends_of addrs port → is_Some (as_inet (addr b)).
Proof.
  unfold backends_of. rewrite elem_of_list_to_set. intros (ip & -> & _)%list_elem_of_fmap. simpl. eauto.
Qed.

(** ** Sample runs *)

(** An encoding of [CacheData]: escaped fields with separators. *)
Fixpoint escape (s : bytes) : bytes :=
  match s with [] => [] | b :: s' => x01 :: b :: escape s' end.

Fixpoint unescape (s : bytes) : option (bytes * bytes) :=
  match s with
  | x00 :: s' => Some ([], s')
  | x01 :: b :: s' => prod_map (cons b) id <$> unescape s'
  | _ => None
  end.

Lemma unescape_escape s r : unescape (escape s ++ x00 :: r) = Some (s, r).
Proof. induction s as [|b s IH]; simpl; [done|]. by rewrite IH. Qed.

Definition plain_bincode : Bincode := {|
  bincode_serialize d :=
    Some (escape (cache_meta d).1 ++ x00 :: escape (cache_meta d).2 ++ x00 :: escape (data d) ++ [x00]);
  bincode_deserialize s :=
    '(a, s) ← unescape s; '(b, s) ← unescape s; '(c, _) ← unescape s;
    Some (mkCacheData (a, b) c);
|}.

Lemma plain_bincode_laws : @BincodeLaws plain_bincode.
Proof.
  split; simpl; [eauto|]. intros [[a b] c] s [= <-]. simpl.
  rewrite unescape_escape. simpl. rewrite unescape_escape. simpl. by rewrite unescape_escape.
Qed.

(** Servers that never fail. *)
Definition memory_redis : RedisClient := {|
  Pool := Z * Z;
  Servers := gmap (Z * Z) (gmap bytes bytes);
  pool_build a := Some a;
  pool_get _ _ := true;
  redis_get p k w := Some (w !! p ≫= (.!! k));
  redis_set p k v w := (<[p := <[k := v]> (default ∅ (w !! p))]> w, true);
|}.

Definition memory_redis_laws : @RedisLaws memory_redis.
Proof.
  exists (λ w p k, w !! p ≫= (.!! k)); simpl.
  - by intros p k w r [= <-].
  - intros p k v w w' [= <-]. rewrite lookup_insert_eq. simpl. by rewrite lookup_insert_eq.
  - intros p k v w w' b p' k' [= <- _]. rewrite lookup_insert. case_decide as Hp; [|by left].
    subst p'. simpl. rewrite lookup_insert. case_decide as Hk; [by right|left].
    by destruct (w !! p).
Defined.

Definition replica : Backend := mkBackend (Inet 167772161 6379) 1.

#[local] Existing Instances plain_cache plain_cache_laws plain_bincode plain_bincode_laws
  memory_redis memory_redis_laws.

(** One replica with its pool. *)
Definition sample_redis : RedisBackend (gset Backend) :=
  mkRedis {[replica]} {[replica := (167772161, 6379)%Z]} (∅ : @Servers memory_redis).

Definition sample_key : @CacheKey unit (plain_cache unit) := (lit "/p.A/Get", None).

Definition sample_after : RedisBackend (gset Backend) :=
  match redis_finish (mkMiss (lit "meta", []) (lit "/p.A/Get") (lit "hello")) sample_redis with
  | Ok (r, _) => r | _ => sample_redis end.

Lemma redis_store_lookup_witness :
  lookup_key sample_key sample_after = Ok (Some (lit "meta", mkHit (lit "hello"))).
Proof.
  apply (redis_store_lookup sample_key (lit "meta") (mkMiss (lit "meta", []) (lit "/p.A/Get") [])
           [lit "he"; lit "llo"] sample_redis (167772161, 6379)%Z sample_after 22).
  - vm_refl.
  - vm_refl.
  - vm_refl.
  - vm_refl.
  - intros s. reflexivity.
  - vm_refl.
  - exists (Some (x00 :: escape (lit "meta") ++ x00 :: x00 :: escape (lit "hello") ++ [x00])). vm_refl.
Defined.

Lemma redis_lookup_exact_witness :
  lookup_key sample_key sample_after = Ok (Some (lit "meta", mkHit (lit "hello"))).
Proof.
  destruct (redis_lookup_exact sample_key sample_after) as (Hhit & _). apply Hhit.
  exists (escape (lit "meta") ++ x00 :: x00 :: escape (lit "hello") ++ [x00]),
    (mkCacheData (lit "meta", []) (lit "hello")).
  split; [vm_refl|]. split; [vm_refl|]. split; [vm_refl|reflexivity].
Defined.

Lemma redis_lookup_safe_witness : lookup_key sample_key sample_after ≠ Panic.
Proof.
  apply (redis_lookup_safe sample_redis sample_after sample_key).
  - intros p k v Hv. exfalso. revert Hv. simpl. rewrite lookup_empty. discriminate.
  - apply rtc_once.
    apply (redis_step_finish sample_redis (mkMiss (lit "meta", []) (lit "/p.A/Get") (lit "hello")) _ 22).
    vm_refl.
Defined.

Lemma pools_follow_backends_witness :
  ∃ self', pools_round ∅ sample_redis = Ok self' ∧ dom (pools self') = ∅.
Proof.
  destruct (pools_follow_backends sample_redis ∅) as (self' & Hr & Hd & _).
  - intros b Hb. by apply elem_of_empty in Hb.
  - intros b Hb. unfold sample_redis in Hb. simpl in Hb. rewrite dom_singleton_L in Hb.
    apply elem_of_singleton in Hb as ->. simpl. eauto.
  - exists self'. split; [exact Hr|exact Hd].
Defined.
