(* ===== verification/RedisDiscovery.v ===== *)
(** * RedisDiscovery: from the resolver to the connection pools

    The Redis backend shares its handle with discovery: the consistent balancer is
    updated by the discovery loop, and the pool service follows the watch channel of the
    handle. Composed, a round of both leaves a pool for every key. *)

From stdpp Require Import gmap strings list.
From Stdlib Require Import Strings.Byte.
From S2P Require Import Prelude Text Headers Hash Discovery DiscoveryInv DiscoveryProps Cache Redis.

Section pools.
Context {RR Cons : Type} `{HRR : BalancerLaws RR, HCons : BalancerLaws Cons}.
Context {RC : RedisClient}.
Notation RedisBackend := (RedisBackend Cons).

(** The backend with the balancer of the handle as discovery left it. *)
Definition with_handle (h : ServiceBackendsHandle RR Cons) (self : RedisBackend) : RedisBackend :=
  mkRedis (load_balancer_consistent h) (pools self) (servers self).

(** When the pools are those of the balancer's backends, every key has one. *)
Lemma every_key_has_pool (self : RedisBackend) key :
  dom (pools self) = lb_backends (lb_consistent self) → lb_backends (lb_consistent self) ≠ ∅ →
  ∃ b pool, b ∈ lb_backends (lb_consistent self) ∧ select_backend self key = Some b
    ∧ pools self !! b = Some pool ∧ pool_for_hash self (pools self) key = Some pool.
Proof.
  intros Hdom Hne.
  assert (is_Some (select_backend self key)) as [b Hb].
  { unfold select_backend. apply lb_select_first; [lia|done|]. intros b Hb. simpl.
    apply bool_decide_eq_true. apply elem_of_dom. by rewrite Hdom. }
  destruct (pool_for_hash_selected self key b Hb) as [Hin [pool Hp]].
  exists b, pool. split_and!; [done..| |done]. unfold pool_for_hash in Hp. by rewrite Hb in Hp.
Qed.

(** C30: From the resolver to the pools. When the discovery loop of the Redis host has
    completed a round with a non-empty answer, and the pool service the round that the
    change of the channel starts, there is a pool for exactly the resolved addresses, and
    every cache key is mapped to one of them: no lookup or store misses for want of
    a pool. The round of the pool service does not panic. *)
Theorem redis_pools_from_dns (st : Discovery RR Cons) i k id w ip addrs (self : RedisBackend) :
  rtc disc_step discovery_new st →
  loops st !! i = Some (mkLoop k id (AtLookup w)) → live st id →
  (∀ a, is_Some (pool_build a)) →
  (∀ b, b ∈ dom (pools self) → is_Some (as_inet (addr b))) →
  ∃ st' h self', run_round 5 (Some (ip :: addrs)) i st = Ok st'
    ∧ handles st' !! id = Some h
    ∧ pools_round (backends h) (with_handle h self) = Ok self'
    ∧ dom (pools self') = backends_of (ip :: addrs) k.2
    ∧ ∀ key, ∃ ip' pool, ip' ∈ ip :: addrs
        ∧ select_backend self' key = Some (mkBackend (Inet ip' k.2) 1)
        ∧ pool_for_hash self' (pools self') key = Some pool.
Proof.
  intros Hr%disc_inv_reachable Hl Hlive Hbuild Hinet.
  destruct (discovery_round_run st i k id w (ip :: addrs) Hr Hl Hlive)
    as (st' & h & Hrun & _ & Hh & _ & Hbs & _ & Hco).
  destruct (pools_round_spec (with_handle h self) (backends h)) as (self' & Hround & Hdom & _).
  { intros b Hb. rewrite Hbs in Hb. destruct (backends_of_inet _ _ _ Hb) as [a Ha].
    destruct (Hbuild a) as [p Hp]. by exists a, p. }
  { done. }
  assert (lb_consistent self' = load_balancer_consistent h) as Hlb.
  { unfold pools_round in Hround. apply outcome_bind_Ok in Hround as (m1 & _ & Hround).
    apply outcome_bind_Ok in Hround as (m2 & _ & [= <-]). done. }
  exists st', h, self'. rewrite Hbs in Hdom. split_and!; [done..|]. intros key.
  destruct (every_key_has_pool self' key) as (b & pool & Hb & Hsel & _ & Hp).
  { by rewrite Hlb, Hco. }
  { rewrite Hlb, Hco. unfold backends_of. simpl. intros Hemp.
    apply (not_elem_of_empty (C:=gset Backend) (mkBackend (Inet ip k.2) 1)). rewrite <- Hemp.
    apply elem_of_union_l. by apply elem_of_singleton. }
  rewrite Hlb, Hco in Hb. unfold backends_of in Hb. rewrite elem_of_list_to_set in Hb.
  apply list_elem_of_fmap in Hb as (ip' & -> & Hip). exists ip', pool. done.
Qed.
End pools.

(** ** A sample run *)

#[local] Existing Instances memory_redis memory_redis_laws.

Lemma redis_pools_from_dns_witness :
  ∃ st' (h : ServiceBackendsHandle (gset Backend) (gset Backend)) self',
    run_round 5 (Some [7%Z]) 0 sample_started = Ok st'
    ∧ pools_round (backends h) (with_handle h (redis_new ∅ (∅ : @Servers memory_redis))) = Ok self'
    ∧ dom (pools self') = backends_of [7%Z] 6379.
Proof.
  destruct (redis_pools_from_dns sample_started 0 redis_host 0 (mkHandleRef 0 redis_host) 7 []
    (redis_new ∅ (∅ : @Servers memory_redis))) as (st' & h & self' & Hrun & _ & Hround & Hdom & _).
  - exact sample_started_new.
  - vm_refl.
  - apply not_dead_live. vm_refl.
  - intros a. exists a. reflexivity.
  - intros b Hb. exfalso. change (b ∈ dom (∅ : gmap Backend (Z * Z))) in Hb.
    rewrite dom_empty_L in Hb. by apply elem_of_empty in Hb.
  - exists st', h, self'. split; [exact Hrun|]. split; [exact Hround|exact Hdom].
Defined.
