(* ===== verification/StorageSpec.v ===== *)
(** * StorageSpec: what a cache backend promises to the proxy

    The abstract specification of the trait [Storage]: a cache that may lose entries but
    never invents, mixes up or truncates one. A lookup returns only what the storage
    holds, every chunk a hit returns is the whole body of the entry, a miss handler
    accumulates the body in order, and finishing it adds that entry at most. The storage
    can change under the proxy ([store_env]): other processes share it. [MockStorage] and
    the Redis backend implement it. The proxy's theorems (file LifecycleProps) are proved
    against this interface. *)

From stdpp Require Import gmap strings list.
From Stdlib Require Import Strings.Byte.
From S2P Require Import Prelude Text Headers Hash Discovery Cache Redis.

Class StorageLaws (H St : Type) `{!PingoraCache H, !Storage H St} := {
  (** [holds st slot meta body]: a lookup of a key with this slot may return the entry. *)
  holds : St → bytes → CacheMeta → bytes → Prop;
  (** The slot has a value a lookup may panic on. *)
  damaged : St → bytes → Prop;
  (** [reads hit body]: the hit handler reads this body. *)
  reads : HitHandler → bytes → Prop;
  (** [pending m slot meta body]: what the miss handler has collected so far. *)
  pending : MissHandler → bytes → CacheMeta → bytes → Prop;
  (** What happens to the storage without the proxy. *)
  store_env : St → St → Prop;

  lookup_panic key st : lookup_key key st = Panic → damaged st (primary_bin key);
  lookup_holds key st meta hit :
    lookup_key key st = Ok (Some (meta, hit)) →
    ∃ body, reads hit body ∧ holds st (primary_bin key) meta body;
  read_reads hit body hit' r :
    reads hit body → read_body hit = (hit', r) → reads hit' body ∧ (r = None ∨ r = Some body);
  miss_no_panic key meta st : get_miss_handler key meta st ≠ Panic;
  miss_pending key meta st m :
    get_miss_handler key meta st = Ok m → pending m (primary_bin key) meta [];
  write_pending chunk eof m slot meta body :
    pending m slot meta body → pending (write_body chunk eof m) slot meta (body ++ chunk);
  finish_no_panic m st : finish_miss m st ≠ Panic;
  finish_holds m slot meta body st st' n :
    pending m slot meta body → finish_miss m st = Ok (st', n) →
    ∀ slot' meta' body', holds st' slot' meta' body' →
      holds st slot' meta' body' ∨ (slot' = slot ∧ meta' = meta ∧ body' = body);
}.

(** ** [MockStorage] *)

(** It holds nothing. *)
#[global] Program Instance mock_storage_laws {H} `{!PingoraCache H} :
    @StorageLaws H unit _ MockStorage.mock_storage := {|
  holds _ _ _ _ := False;
  damaged _ _ := False;
  reads _ _ := True;
  pending _ _ _ _ := True;
  store_env _ _ := False;
|}.
Next Obligation. done. Qed.
Next Obligation. done. Qed.
Next Obligation. simpl. intros H PC []. Qed.
Solve Obligations with simpl; naive_solver.

(** ** The Redis backend *)

Section redis_laws.
Context {H Cons : Type} `{PL : PingoraCacheLaws H, BL : BalancerLaws Cons}.
Context {BC : Bincode} {BCL : BincodeLaws} {RC : RedisClient} {RL : RedisLaws}.
Notation RedisBackend := (RedisBackend Cons).
Implicit Types (self : RedisBackend).

(** Some replica has an entry of version 0 that decodes to this. *)
Definition redis_holds (self : RedisBackend) (slot : bytes) (meta : CacheMeta) (body : bytes) : Prop :=
  ∃ pool s d, redis_value (servers self) pool slot = Some (x00 :: s)
    ∧ bincode_deserialize s = Some d
    ∧ meta_deserialize (cache_meta d).1 (cache_meta d).2 = Ok meta ∧ body = data d.

Definition redis_pending (m : RedisCacheMiss) (slot : bytes) (meta : CacheMeta) (body : bytes) : Prop :=
  miss_hash m = slot ∧ miss_value m = body ∧ meta_serialize meta = Ok (miss_meta m).

(** An empty value, which this backend never writes. *)
Definition redis_damaged (self : RedisBackend) (slot : bytes) : Prop :=
  ∃ pool, redis_value (servers self) pool slot = Some [].

(** The pool service, discovery, and the servers: other proxies and programs write to
    them, they evict entries and they fail. *)
Inductive redis_env : RedisBackend → RedisBackend → Prop :=
| redis_env_pools self backends self' :
    pools_round backends self = Ok self' → redis_env self self'
| redis_env_balancer self lb : redis_env self (mkRedis lb (pools self) (servers self))
| redis_env_servers self w : redis_env self (with_servers w self).

Lemma redis_lookup_holds (key : CacheKey) self meta hit :
  redis_lookup key self = Ok (Some (meta, hit)) →
  redis_holds self (primary_bin key) meta (hit_data hit).
Proof.
  rewrite redis_lookup_eq. destruct (answer key self) as [[|v s]|] eqn:Ha; [done| |done].
  case_decide as Hv; [done|]. assert (v = x00) as -> by (by destruct (decide (v = x00))).
  destruct (bincode_deserialize s) as [d|] eqn:Hd; [|done].
  intros (m & Hm & [= <- <-])%outcome_bind_Ok. apply answer_value in Ha as [pool Hp].
  exists pool, s, d. done.
Qed.

Lemma redis_finish_no_panic (m : RedisCacheMiss) self : redis_finish m self ≠ Panic.
Proof.
  destruct (pool_for_hash self (pools self) (miss_hash m)) as [pool|] eqn:Hp;
    [|unfold redis_finish; by rewrite Hp].
  destruct (pool_get pool (servers self)) eqn:Hg; [|unfold redis_finish; by rewrite Hp, Hg].
  by destruct (redis_finish_eq m self pool Hp Hg) as (s & _ & ->).
Qed.

(** Finishing leaves every value as it was, or writes the encoding of the entry. *)
Lemma redis_finish_value (m : RedisCacheMiss) self self' n pool k :
  redis_finish m self = Ok (self', n) →
  redis_value (servers self') pool k = redis_value (servers self) pool k
  ∨ (k = miss_hash m ∧ ∃ s, bincode_deserialize s = Some (mkCacheData (miss_meta m) (miss_value m))
       ∧ redis_value (servers self') pool k = Some (x00 :: s)).
Proof.
  destruct (pool_for_hash self (pools self) (miss_hash m)) as [pool'|] eqn:Hp;
    [|unfold redis_finish; rewrite Hp; intros [= <- _]; by left].
  destruct (pool_get pool' (servers self)) eqn:Hg;
    [|unfold redis_finish; rewrite Hp, Hg; intros [= <- _]; by left].
  destruct (redis_finish_eq m self pool' Hp Hg) as (s & Hs & ->). intros [= <- _]. simpl.
  destruct (redis_set pool' (miss_hash m) s (servers self)) as [w b] eqn:Hset. simpl.
  destruct (redis_set_frame _ _ _ _ _ _ pool k Hset) as [?|[-> Hv]]; [by left|right].
  split; [done|]. unfold encode in Hs. apply fmap_Some in Hs as (s0 & Hs0 & ->).
  exists s0. split; [by apply bincode_round_trip|done].
Qed.

Lemma redis_finish_holds (m : RedisCacheMiss) slot meta body self self' n slot' meta' body' :
  redis_pending m slot meta body → redis_finish m self = Ok (self', n) →
  redis_holds self' slot' meta' body' →
  redis_holds self slot' meta' body' ∨ (slot' = slot ∧ meta' = meta ∧ body' = body).
Proof.
  intros (<- & <- & Hser) Hf (pool & s & d & Hv & Hd & Hm & ->).
  destruct (redis_finish_value m self self' n pool slot' Hf) as [Heq|(-> & s' & Hs' & Heq)];
    rewrite Heq in Hv; [left; by exists pool, s, d|right].
  injection Hv as ->. rewrite Hd in Hs'. injection Hs' as ->. simpl in *.
  destruct (miss_meta m) as [ma mb] eqn:Hmm. simpl in *.
  rewrite (meta_round_trip _ _ _ Hser) in Hm. by injection Hm as ->.
Qed.

#[global] Program Instance redis_storage_laws : StorageLaws H RedisBackend := {|
  holds := redis_holds;
  damaged := redis_damaged;
  reads hit body := hit_data hit = body;
  pending := redis_pending;
  store_env := redis_env;
|}.
Next Obligation.
  simpl. intros key self. rewrite redis_lookup_eq. destruct (answer key self) as [[|v s]|] eqn:Ha; [|..|done].
  - intros _. by apply answer_value in Ha.
  - case_decide; [done|]. destruct (bincode_deserialize s) as [d|]; [|done].
    pose proof (meta_deserialize_no_panic (cache_meta d).1 (cache_meta d).2).
    by destruct (meta_deserialize _ _).
Qed.
Next Obligation.
  intros key self meta hit Hl. exists (hit_data hit). split; [done|]. by apply redis_lookup_holds.
Qed.
Next Obligation. simpl. intros [b] body hit' r <- [= <- <-]. auto. Qed.
Next Obligation.
  simpl. intros key meta self. unfold redis_get_miss_handler. intros Hp.
  apply outcome_bind_Panic in Hp as [Hp|(? & _ & ?)]; [by apply meta_serialize_no_panic in Hp|done].
Qed.
Next Obligation.
  simpl. intros key meta self m. unfold redis_get_miss_handler.
  intros (ser & Hser & [= <-])%outcome_bind_Ok. done.
Qed.
Next Obligation. simpl. intros chunk eof m slot meta body (? & <- & ?). done. Qed.
Next Obligation. intros m self. apply redis_finish_no_panic. Qed.
Next Obligation. intros m slot meta body self self' n Hp Hf slot' meta' body'. by eapply redis_finish_holds. Qed.
End redis_laws.
