(* ===== verification/Session.v ===== *)
(** * Session: the interface between pingora and the proxy

    pingora's [Session] as the handlers of the proxy use it: the request header, the
    request body read chunk by chunk with the retry buffer behind it, and the HTTP cache
    of the request. The code is pingora's, so its operations are parameters; their laws
    state what the documentation promises. [ListSession] is a concrete session. *)

From stdpp Require Import gmap strings list.
From Stdlib Require Import Strings.Byte.
From S2P Require Import Prelude Text Headers Hash.

Class Session (H S : Type) := {
  req_header : S → RequestHeader H;
  (** [req_header_mut()]. *)
  set_req_header : RequestHeader H → S → S;
  enable_retry_buffering : S → S;
  (** [read_request_body()]: the next chunk, or [None] at the end. *)
  read_request_body : S → S * outcome PError (option bytes);
  retry_buffer_truncated : S → bool;
  get_retry_buffer : S → option bytes;
  (** [session.cache.enable(..)], [session.cache.disable(reason)], and whether the response
      will be admitted to the cache. *)
  cache_enable : S → S;
  cache_disable : bytes → S → S;
  cache_enabled : S → bool;
  (** The chunks of the body that are still to come. *)
  unread : S → list bytes;
}.

(** What two sessions share when only the body has been read further. *)
Definition same_but_body {H S} `{Session H S} (s s' : S) : Prop :=
  req_header s' = req_header s ∧ cache_enabled s' = cache_enabled s.

(** What [get_retry_buffer] makes of the buffer: an empty one is none. *)
Definition buffered (b : bytes) : option bytes := match b with [] => None | _ => Some b end.

(** [received s] is what was read while retry buffering was enabled ([buffering s]),
    [retry_limit s] the size of the retry buffer (64 KiB in pingora), [failure s] the error
    reading runs into after the unread chunks. *)
Class SessionLaws (H S : Type) `{!Session H S} := {
  buffering : S → bool;
  received : S → bytes;
  retry_limit : S → nat;
  failure : S → option PError;
  header_set r s : req_header (set_req_header r s) = r;
  header_set_rest r s :
    let s' := set_req_header r s in
    cache_enabled s' = cache_enabled s ∧ get_retry_buffer s' = get_retry_buffer s
    ∧ received s' = received s;
  retry_enabled s :
    let s' := enable_retry_buffering s in
    same_but_body s s' ∧ unread s' = unread s ∧ failure s' = failure s ∧ received s' = received s
    ∧ retry_limit s' = retry_limit s ∧ buffering s' = true;
  read_chunk s c cs :
    unread s = c :: cs →
    let '(s', r) := read_request_body s in
    r = Ok (Some c) ∧ unread s' = cs
    ∧ received s' = (if buffering s then received s ++ c else received s)
    ∧ failure s' = failure s ∧ retry_limit s' = retry_limit s ∧ buffering s' = buffering s
    ∧ same_but_body s s';
  read_end s :
    unread s = [] →
    let '(s', r) := read_request_body s in
    r = match failure s with None => Ok None | Some e => Err e end
    ∧ received s' = received s ∧ retry_limit s' = retry_limit s ∧ buffering s' = buffering s
    ∧ same_but_body s s';
  (** The buffer holds what was received, up to its size. *)
  retry_truncated s :
    buffering s = true → retry_buffer_truncated s = bool_decide (retry_limit s < length (received s));
  retry_buffer s :
    get_retry_buffer s =
    if buffering s && negb (retry_buffer_truncated s) then buffered (received s) else None;
  cache_enable_on s : cache_enabled (cache_enable s) = true;
  cache_enable_rest s :
    let s' := cache_enable s in
    req_header s' = req_header s ∧ get_retry_buffer s' = get_retry_buffer s ∧ received s' = received s;
  cache_disable_off reason s : cache_enabled (cache_disable reason s) = false;
  cache_disable_header reason s : req_header (cache_disable reason s) = req_header s;
}.

(** ** Reading the whole body *)

Section drain.
Context {H S : Type} `{SL : SessionLaws H S}.

(** [while let Some(_bytes) = session.read_request_body().await? {}]. Running out of fuel
    is [None]. *)
Fixpoint drain (fuel : nat) (s : S) : option (S * outcome PError unit) :=
  match fuel with
  | 0 => None
  | Datatypes.S fuel' =>
    let '(s', r) := read_request_body s in
    match r with
    | Ok (Some _) => drain fuel' s'
    | Ok None => Some (s', Ok tt)
    | Err e => Some (s', Err e)
    | Panic => Some (s', Panic)
    end
  end.

(** The loop ends after the unread chunks. *)
Lemma drain_spec fuel s :
  length (unread s) < fuel → buffering s = true →
  ∃ s', drain fuel s = Some (s', match failure s with None => Ok tt | Some e => Err e end)
    ∧ received s' = received s ++ concat (unread s) ∧ retry_limit s' = retry_limit s
    ∧ buffering s' = true ∧ same_but_body s s'.
Proof.
  revert s. induction fuel as [|fuel IH]; intros s Hlen Hon; [lia|]. simpl.
  destruct (unread s) as [|c cs] eqn:Hu.
  - pose proof (read_end s Hu) as He. destruct (read_request_body s) as [s' r].
    destruct He as (-> & Hr & Hl & Hb & Hs). exists s'. simpl. rewrite (right_id_L [] (++)).
    rewrite Hb, Hon. by destruct (failure s).
  - pose proof (read_chunk s c cs Hu) as Hc. destruct (read_request_body s) as [s1 r].
    destruct Hc as (-> & Hu1 & Hr & Hf & Hl & Hb & Hs1). simpl in Hlen. rewrite Hon in Hr, Hb.
    destruct (IH s1) as (s' & Hd & Hr' & Hl' & Hb' & Hs'); [rewrite Hu1; lia|done|].
    exists s'. rewrite Hd, Hf, Hl', Hl. split_and!; [done| |done..|].
    + by rewrite Hr', Hr, Hu1, <- (assoc_L (++)).
    + destruct Hs1, Hs'. split; congruence.
Qed.
End drain.

(** ** A concrete session *)

(** The body as a list, a retry buffer of bounded size once it is enabled. *)
Record ListSession (H : Type) := mkSession {
  ls_header : RequestHeader H;
  ls_unread : list bytes;
  ls_failure : option PError;
  ls_buffer : option bytes;
  ls_limit : nat;
  ls_cache : bool;
}.
Arguments mkSession {H}.
Arguments ls_header {H}.
Arguments ls_unread {H}.
Arguments ls_failure {H}.
Arguments ls_buffer {H}.
Arguments ls_limit {H}.
Arguments ls_cache {H}.

Definition ls_received {H} (s : ListSession H) : bytes := default [] (ls_buffer s).

#[global] Instance list_session H : Session H (ListSession H) := {
  req_header := ls_header;
  set_req_header r s := mkSession r (ls_unread s) (ls_failure s) (ls_buffer s) (ls_limit s) (ls_cache s);
  enable_retry_buffering s :=
    mkSession (ls_header s) (ls_unread s) (ls_failure s) (Some (ls_received s)) (ls_limit s) (ls_cache s);
  read_request_body s :=
    match ls_unread s with
    | c :: cs =>
      (mkSession (ls_header s) cs (ls_failure s) ((.++ c) <$> ls_buffer s) (ls_limit s) (ls_cache s),
       Ok (Some c))
    | [] => (s, match ls_failure s with None => Ok None | Some e => Err e end)
    end;
  retry_buffer_truncated s := bool_decide (ls_limit s < length (ls_received s));
  get_retry_buffer s :=
    if bool_decide (ls_limit s < length (ls_received s)) then None else ls_buffer s ≫= buffered;
  cache_enable s := mkSession (ls_header s) (ls_unread s) (ls_failure s) (ls_buffer s) (ls_limit s) true;
  cache_disable _ s :=
    mkSession (ls_header s) (ls_unread s) (ls_failure s) (ls_buffer s) (ls_limit s) false;
  cache_enabled := ls_cache;
  unread := ls_unread;
}.

#[global] Instance list_session_laws H : SessionLaws H (ListSession H).
Proof.
  refine {| buffering s := bool_decide (is_Some (ls_buffer s)); received := ls_received;
            retry_limit := ls_limit; failure := ls_failure |}; unfold same_but_body, ls_received; simpl; try done.
  - intros [h u f [b|] l c] d ds; simpl; intros ->; done.
  - intros s ->. done.
  - intros [h u f [b|] l c]; unfold bool_decide; simpl; by repeat case_match.
Defined.
