(* ===== verification/Proxy.v ===== *)
(** * Proxy: [proxy/mod.rs], the handlers of the proxy

    pingora calls the handlers in the order its documentation gives: [request_filter] on
    the request header, [request_cache_filter] and [cache_key_callback] before the cache
    is consulted, [cache_hit_filter] on a hit, [upstream_peer] to choose the backend, the
    body and trailer filters on the response. Each handler is a definition that passes
    the session and the request context and returns a result, in the monad [handler]. *)

From stdpp Require Import gmap strings list.
From Stdlib Require Import Strings.Byte.
From S2P Require Import Prelude Text Headers Hash Status Path Crd ServiceSpec ServiceStore.
From S2P Require Import Discovery Cache Session.

(** ** The monad of handlers *)

(** A handler works on the session and the context, which keep their changes when it
    returns an error. *)
Definition handler (S C A : Type) : Type := S → C → S * C * outcome PError A.

Section monad.
Context {S C : Type}.

#[global] Instance handler_ret : MRet (handler S C) := λ A a s c, (s, c, Ok a).
#[global] Instance handler_bind : MBind (handler S C) := λ A B f m s c,
  match m s c with
  | (s', c', Ok a) => f a s' c'
  | (s', c', Err e) => (s', c', Err e)
  | (s', c', Panic) => (s', c', Panic)
  end.

Definition lift {A} (r : outcome PError A) : handler S C A := λ s c, (s, c, r).
Definition session : handler S C S := λ s c, (s, c, Ok s).
Definition context : handler S C C := λ s c, (s, c, Ok c).
Definition on_session (f : S → S) : handler S C unit := λ s c, (f s, c, Ok tt).
Definition on_context (f : C → C) : handler S C unit := λ s c, (s, f c, Ok tt).
Definition throw {A} (t : ErrorType) (msg : string) : handler S C A :=
  λ s c, (s, c, Err (mkPError t (lit msg))).
End monad.

(** ** The request context *)

Inductive AttributeValue :=
| AttrString (s : bytes)
| AttrBool (b : bool)
| AttrAddr (inet : Z * Z). (** [inet.to_string()] *)

(** What the proxy tells the tracer about a request. *)
Record Span := mkSpan {
  attributes : list (bytes * AttributeValue);
  span_error : option PError;
  span_ended : bool;
}.

Definition noop_span : Span := mkSpan [] None false.

Definition set_attribute (k : string) (v : AttributeValue) (sp : Span) : Span :=
  mkSpan (attributes sp ++ [(lit k, v)]) (span_error sp) (span_ended sp).

(** [i64] from [u64] with [as]. *)
Definition as_i64 (z : Z) : Z := if (z <? 2 ^ 63)%Z then z else (z - 2 ^ 64)%Z.

(** [RespCacheable::Cacheable(CacheMeta::new(..))]: fresh until, created, the two stale
    periods and the response header. *)
Record Cacheable (Resp : Type) := mkCacheable {
  fresh_until : Z;
  created : Z;
  stale_while_revalidate : Z;
  stale_if_error : Z;
  cached_header : Resp;
}.
Arguments mkCacheable {Resp}.
Arguments fresh_until {Resp}.
Arguments created {Resp}.

(** [HttpPeer::new(inet, false, "")] with [alpn = H2]. *)
Record HttpPeer := mkPeer { peer_addr : Z * Z; peer_tls : bool; peer_sni : bytes; peer_h2 : bool }.

Section proxy.
Context {R : Reflection} {H S D LB : Type}.
Context `{!HeaderMap H, !Session H S, !PingoraCache H, !Digest D}.

Record GrpcMeta := mkGrpcMeta {
  service_data : ServiceData LB;
  method_name : bytes;
  vary_set : gset bytes;
}.

Definition method_spec (m : GrpcMeta) : option MethodSpec :=
  service_spec (service_data m) ≫= λ s, methods s !! method_name m.

Record RequestCtx := mkCtx {
  span : Span;
  do_cache : bool;
  grpc_meta : option GrpcMeta;
}.

(** [GrpcProxy::new_ctx]. *)
Definition new_ctx : RequestCtx := mkCtx noop_span false None.

Definition on_span (f : Span → Span) (c : RequestCtx) : RequestCtx :=
  mkCtx (f (span c)) (do_cache c) (grpc_meta c).

Notation handler := (handler S RequestCtx).

(** [early_request_filter]: the span the tracer starts replaces the one of [new_ctx]. *)
Definition early_request_filter (started : Span) : handler unit :=
  on_context (λ c, mkCtx started (do_cache c) (grpc_meta c)).

(** ** [request_filter] *)

(** The cache specification of the method, if its TTL is positive. *)
Definition positive_ttl (m : GrpcMeta) : option CacheSpec :=
  method ← method_spec m;
  c ← cache_spec method;
  if (0 <? cache_ttl (cs_descriptor c))%Z then Some c else None.

Definition drain_body : handler unit := λ s c,
  match drain (Datatypes.S (length (unread s))) s with
  | Some (s', r) => (s', c, r)
  | None => (s, c, Panic)
  end.

Definition request_filter (services : gmap bytes (ServiceData LB)) : handler bool :=
  s ← session;
  '(service_name, method) ←
    lift (map_err (λ _, mkPError (HTTPStatus 400) (lit "invalid grpc http path"))
            (parse_grpc_path (raw_path (req_header s))));
  on_context (on_span (set_attribute "grpc_service" (AttrString service_name)));;
  on_context (on_span (set_attribute "grpc_method" (AttrString method)));;
  service ← lift (ok_or (mkPError (HTTPStatus 404) (lit "unknown service"))
                    (services !! service_name ≫= λ d,
                     if decide (is_Some (load_balancer d)) then Some d else None));
  vary_set ← lift (make_vary_headers_set (rh_headers (req_header s)));
  let meta := mkGrpcMeta service method vary_set in
  on_context (λ c, mkCtx (span c) (do_cache c) (Some meta));;
  match positive_ttl meta with
  | Some _ =>
    on_context (λ c, mkCtx (span c) true (grpc_meta c));;
    on_session enable_retry_buffering;;
    drain_body;;
    s ← session;
    if retry_buffer_truncated s
    then throw (HTTPStatus 413) "request body size above buffer size for cache"
    else
      on_session (set_req_header (mkRequestHeader (uri_origin (req_header s)) (raw_path (req_header s))
                    (strip_headers (rh_headers (req_header s)) vary_set ∅)))
  | None => mret tt
  end;;
  c ← context;
  on_context (on_span (set_attribute "cache_enabled" (AttrBool (do_cache c))));;
  mret false.

(** ** Caching *)

Definition request_cache_filter : handler unit :=
  c ← context;
  if do_cache c then on_session cache_enable else mret tt.

(** The digest is computed and set in a key that is dropped. *)
Definition cache_key_callback : handler CacheKey :=
  c ← context;
  meta ← lift (unwrap (grpc_meta c));
  s ← session;
  request_body ← lift (unwrap (get_retry_buffer s));
  let key_hash := key_digest D (vary_set meta) (req_header s) request_body in
  let cache_key := set_primary_bin_override key_hash (key_new [] [] []) in
  lift (Ok (key_default (req_header s))).

(** [age_sec] is [meta.age().as_secs()], a [u64]; the TTL is an [i32]. *)
Definition cache_hit_filter (age_sec : Z) : handler bool :=
  c ← context;
  meta ← lift (unwrap (grpc_meta c));
  method ← lift (unwrap (method_spec meta));
  cache_spec ← lift (unwrap (cache_spec method));
  on_context (on_span (set_attribute "cache_hit" (AttrBool true)));;
  mret (as_i64 age_sec <? cache_ttl (cs_descriptor cache_spec))%Z.

Definition upstream_response_body_filter (end_of_stream : bool) : handler unit :=
  if end_of_stream then on_session (cache_disable (lit "no trailers in request")) else mret tt.

Definition upstream_response_trailer_filter (upstream_trailers : H) : handler unit :=
  match status_parse upstream_trailers with
  | Err _ => on_session (cache_disable (lit "invalid trailers"))
  | Ok status =>
    if negb (is_ok status) then on_session (cache_disable (lit "non-cachable trailers"))
    else mret tt
  | Panic => lift Panic
  end.

(** [now] and [now'] are the two readings of the clock, in seconds; the clock is taken to
    be far from the end of its range, where [checked_add] would return [None]. *)
Definition response_cache_filter {Resp} (now now' : Z) (resp : Resp) : handler (Cacheable Resp) :=
  mret (mkCacheable (now + 60) now' 10 10 resp).

(** ** [upstream_peer] *)

(** [load_balancer_round_robin.select(b"", 256)] of the handle is [select]. *)
Definition upstream_peer (select : LB → option Backend) : handler HttpPeer :=
  c ← context;
  meta ← lift (unwrap (grpc_meta c));
  lb ← lift (unwrap (load_balancer (service_data meta)));
  match select lb with
  | Some backend =>
    inet ← lift (unwrap (as_inet (addr backend)));
    on_context (on_span (set_attribute "upstream" (AttrAddr inet)));;
    mret (mkPeer inet false [] true)
  | None => throw (HTTPStatus 502) "no upstream available"
  end.

(** [logging]. *)
Definition logging (e : option PError) : handler unit :=
  on_context (on_span (λ sp, mkSpan (attributes sp)
    (match e with Some e => Some e | None => span_error sp end) true)).
End proxy.

Arguments GrpcMeta {R} LB.
Arguments RequestCtx {R} LB.
