(* ===== verification/ProxyProps.v ===== *)
(** * ProxyProps: what the handlers of the proxy do

    The branches of [request_filter] with their HTTP codes, that the later handlers
    run into a failed [unwrap] only on an empty body, which responses are admitted to the cache, what the
    digest of a request protects, and where the handlers deviate from their intent: the
    key that ignores the digest and the bounds of the hit filter. *)

From stdpp Require Import gmap strings list.
From Stdlib Require Import Strings.Byte.
From S2P Require Import Prelude Text Headers Hash Status Path Crd ServiceSpec ServiceStore.
From S2P Require Import Discovery Cache Session Proxy.

Section props.
Context {R : Reflection} {H S D LB : Type}.
Context `{HL : HeaderMapLaws H, SL : SessionLaws H S, PL : PingoraCacheLaws H, DL : DigestLaws D}.
Notation RequestCtx := (RequestCtx LB).
Implicit Types (s : S) (c : RequestCtx) (services : gmap bytes (ServiceData LB)).

(** ** [request_filter] *)

Definition path_error : PError := mkPError (HTTPStatus 400) (lit "invalid grpc http path").
Definition unknown_service : PError := mkPError (HTTPStatus 404) (lit "unknown service").
Definition body_too_large : PError :=
  mkPError (HTTPStatus 413) (lit "request body size above buffer size for cache").

(** The service a path is routed to. *)
Definition routed_service (services : gmap bytes (ServiceData LB)) (path : bytes)
    : outcome PError (ServiceData LB * bytes) :=
  match parse_grpc_path path with
  | Ok (service, method) =>
    match services !! service with
    | Some d => if decide (is_Some (load_balancer d)) then Ok (d, method) else Err unknown_service
    | None => Err unknown_service
    end
  | _ => Err path_error
  end.

(** The body of a request: what was already read into the retry buffer and what is to come. *)
Definition request_body s : bytes := received s ++ concat (unread s).

(** What a cacheable request looks like when [request_filter] is done with it. *)
Definition prepared s s' (vs : gset bytes) : Prop :=
  req_header s' = mkRequestHeader (uri_origin (req_header s)) (raw_path (req_header s))
                    (strip_headers (rh_headers (req_header s)) vs ∅)
  ∧ received s' = request_body s ∧ get_retry_buffer s' = buffered (request_body s).

Lemma parse_grpc_path_no_panic p : parse_grpc_path p ≠ Panic.
Proof.
  rewrite parse_grpc_path_pieces. destruct (utf8_valid p); [|done].
  by destruct (split_byte slash p) as [|[|] [|? [|? [|? ?]]]].
Qed.

Lemma drain_body_spec s c :
  buffering s = true →
  ∃ s', drain_body s c = (s', c, match failure s with None => Ok tt | Some e => Err e end)
    ∧ received s' = request_body s ∧ retry_limit s' = retry_limit s ∧ buffering s' = true
    ∧ same_but_body s s'.
Proof.
  intros Hon. destruct (drain_spec (Datatypes.S (length (unread s))) s) as (s' & Hd & ?); [lia|done|].
  exists s'. unfold drain_body. by rewrite Hd.
Qed.

Lemma request_filter_cases services s c :
  let '(s', c', r) := request_filter services s c in
  match routed_service services (raw_path (req_header s)) with
  | Err e => r = Err e ∧ s' = s ∧ do_cache c' = do_cache c ∧ grpc_meta c' = grpc_meta c
  | Panic => False
  | Ok (d, method) =>
    ∃ vs, make_vary_headers_set (rh_headers (req_header s)) = Ok vs
    ∧ grpc_meta c' = Some (mkGrpcMeta d method vs) ∧ cache_enabled s' = cache_enabled s
    ∧ match positive_ttl (mkGrpcMeta d method vs) with
      | None => r = Ok false ∧ s' = s ∧ do_cache c' = do_cache c
      | Some _ => do_cache c' = true ∧
        match failure s with
        | Some e => r = Err e ∧ req_header s' = req_header s
        | None =>
          if decide (retry_limit s < length (request_body s))
          then r = Err body_too_large ∧ req_header s' = req_header s
          else r = Ok false ∧ prepared s s' vs
        end
      end
  end.
Proof.
  unfold request_filter, routed_service, mbind, handler_bind, mret, handler_ret, session, context,
    lift, on_context, on_session, throw.
  pose proof (parse_grpc_path_no_panic (raw_path (req_header s))) as Hnp.
  destruct (parse_grpc_path (raw_path (req_header s))) as [[service method]|e|]; simpl; [|done|done].
  destruct (services !! service) as [d|]; simpl; [|done].
  case_decide as Hlb; simpl; [|done].
  rewrite make_vary_headers_set_eq. simpl.
  set (vs := list_to_set _). set (meta := mkGrpcMeta d method vs).
  destruct (positive_ttl meta) as [spec|] eqn:Httl.
  2:{ exists vs. fold meta. rewrite Httl. done. }
  set (s1 := enable_retry_buffering s).
  destruct (retry_enabled s) as ([Hh1 Hc1] & Hu1 & Hf1 & Hr1 & Hl1 & Hb1).
  fold s1 in Hh1, Hc1, Hu1, Hf1, Hr1, Hl1, Hb1.
  match goal with |- context [drain_body s1 ?c1] =>
    destruct (drain_body_spec s1 c1 Hb1) as (s2 & Hd & Hr2 & Hl2 & Hb2 & [Hh2 Hc2]) end.
  assert (received s2 = request_body s) as Hbody by (rewrite Hr2; unfold request_body; congruence).
  pose proof (retry_truncated s2 Hb2) as Htr. rewrite Hbody, Hl2, Hl1 in Htr.
  rewrite Hd, Hf1. destruct (failure s) as [e|] eqn:Hfail; simpl.
  { exists vs. fold meta. rewrite Httl. split_and!; [done..|congruence|done|done|congruence]. }
  rewrite Htr. case_bool_decide as Hlim; simpl; exists vs; fold meta; rewrite Httl;
    [rewrite decide_True by done|rewrite decide_False by done].
  - split_and!; [done..|congruence|done|done|congruence].
  - match goal with |- context [set_req_header ?r s2] =>
      destruct (header_set_rest r s2) as (Hce & Hbuf & Hrec) end.
    split_and!; [done..|congruence|done|done|]. split_and!.
    + rewrite header_set. congruence.
    + congruence.
    + by rewrite Hbuf, retry_buffer, Hb2, Htr, Hbody.
Qed.


(** ** The later handlers *)

(** A request that [request_filter] let pass has a service with a load balancer. *)
Lemma routed_request services s c s' c' b :
  request_filter services s c = (s', c', Ok b) →
  b = false ∧ cache_enabled s' = cache_enabled s
  ∧ ∃ m lb, grpc_meta c' = Some m ∧ load_balancer (service_data m) = Some lb.
Proof.
  intros Hf. pose proof (request_filter_cases services s c) as Hc. rewrite Hf in Hc.
  destruct (routed_service _ _) as [[d method]|e|] eqn:Hr; [|by destruct Hc|done].
  destruct Hc as (vs & _ & Hm & Hce & Hc). split_and!; [|done|].
  - destruct (positive_ttl _); [|by destruct Hc as [[= ->] _]]. destruct Hc as [_ Hc].
    destruct (failure s); [by destruct Hc|]. case_decide; [by destruct Hc|by destruct Hc as [[= ->] _]].
  - assert (is_Some (load_balancer d)) as [lb Hlb].
    { clear Hc. unfold routed_service in Hr. destruct (parse_grpc_path _) as [[sv mt]| |]; try done.
      destruct (services !! sv) as [d'|]; [|done]. case_decide; [|done]. by simplify_eq. }
    exists (mkGrpcMeta d method vs), lb. by rewrite Hm.
Qed.

(** A request that [request_filter] let pass and marked for caching. *)
Lemma cached_request services s c s' c' :
  request_filter services s c = (s', c', Ok false) → do_cache c = false → do_cache c' = true →
  ∃ d method vs spec, grpc_meta c' = Some (mkGrpcMeta d method vs)
    ∧ make_vary_headers_set (rh_headers (req_header s)) = Ok vs
    ∧ positive_ttl (mkGrpcMeta d method vs) = Some spec ∧ prepared s s' vs.
Proof.
  intros Hf Hoff Hdo. pose proof (request_filter_cases services s c) as Hc. rewrite Hf in Hc.
  destruct (routed_service _ _) as [[d method]|e|]; [|by destruct Hc|done].
  destruct Hc as (vs & Hvs & Hm & _ & Hc).
  destruct (positive_ttl _) as [spec|] eqn:Ht; [|destruct Hc as (_ & _ & Hd); congruence].
  destruct Hc as [_ Hc]. destruct (failure s); [by destruct Hc|].
  case_decide; [by destruct Hc|]. destruct Hc as [_ Hp]. eauto 10.
Qed.

Lemma positive_ttl_Some m spec :
  positive_ttl (LB:=LB) m = Some spec ↔
  ∃ ms, method_spec m = Some ms ∧ cache_spec ms = Some spec
    ∧ (0 < cache_ttl (cs_descriptor spec))%Z.
Proof.
  unfold positive_ttl. destruct (method_spec m) as [ms|]; simpl; [|naive_solver].
  destruct (cache_spec ms) as [spec'|] eqn:Hs; simpl; [|naive_solver].
  destruct (Z.ltb_spec 0 (cache_ttl (cs_descriptor spec'))); naive_solver lia.
Qed.

(** The later handlers, one by one, on what they find. *)
Lemma upstream_peer_no_panic (select : LB → option Backend) s c m lb :
  grpc_meta c = Some m → load_balancer (service_data m) = Some lb →
  (∀ lb b, select lb = Some b → is_Some (as_inet (addr b))) →
  (upstream_peer select s c).2 ≠ Panic.
Proof.
  intros Hm Hlb Hinet. unfold upstream_peer, mbind, handler_bind, context, lift. rewrite Hm. simpl.
  rewrite Hlb. simpl. destruct (select lb) as [b|] eqn:Hs; [|done].
  by destruct (Hinet _ _ Hs) as [a ->].
Qed.

(** The key callback unwraps the retry buffer. *)
Lemma cache_key_callback_val s c m :
  grpc_meta c = Some m →
  cache_key_callback (D:=D) s c
  = (s, c, match get_retry_buffer s with Some _ => Ok (key_default (req_header s)) | None => Panic end).
Proof.
  intros Hm. unfold cache_key_callback, mbind, handler_bind, context, session, lift.
  rewrite Hm. simpl. by destruct (get_retry_buffer s).
Qed.

Lemma cache_hit_filter_Ok s c m spec age :
  grpc_meta c = Some m → positive_ttl m = Some spec →
  (cache_hit_filter age s c).2 = Ok (as_i64 age <? cache_ttl (cs_descriptor spec))%Z.
Proof.
  intros Hm (ms & Hms & Hcs & _)%positive_ttl_Some.
  unfold cache_hit_filter, mbind, handler_bind, context, on_context, lift.
  rewrite Hm. simpl. rewrite Hms. simpl. by rewrite Hcs.
Qed.

(** What the handlers that run after [request_filter] find, on every request it lets pass:
    the upstream is chosen without a panic; the cache is enabled exactly for the requests
    it marked, those for methods with a positive TTL; for these the hit filter returns a
    value, and the key callback returns the default key, except for a request with an
    empty body, on which its [unwrap] of the retry buffer panics. *)
Theorem later_handlers services s s' c' :
  request_filter services s new_ctx = (s', c', Ok false) → cache_enabled s = false →
  (∀ select, (∀ lb b, select lb = Some b → is_Some (as_inet (addr b))) →
     (upstream_peer select s' c').2 ≠ Panic)
  ∧ cache_enabled (request_cache_filter s' c').1.1 = do_cache c'
  ∧ (do_cache c' = true →
       (∃ m spec, grpc_meta c' = Some m ∧ positive_ttl m = Some spec)
       ∧ (cache_key_callback (D:=D) s' c').2
         = (if decide (request_body s = []) then Panic else Ok (key_default (req_header s')))
       ∧ ∀ age, ∃ b, (cache_hit_filter age s' c').2 = Ok b).
Proof.
  intros Hf Hoff. split_and!.
  - intros select Hinet. destruct (routed_request _ _ _ _ _ _ Hf) as (_ & _ & m & lb & Hm & Hlb).
    by eapply upstream_peer_no_panic.
  - destruct (routed_request _ _ _ _ _ _ Hf) as (_ & Hoff' & _). rewrite Hoff in Hoff'.
    unfold request_cache_filter, mbind, handler_bind, context, on_session. simpl.
    destruct (do_cache c'); simpl; [apply cache_enable_on|done].
  - intros Hdo. destruct (cached_request services s new_ctx s' c' Hf eq_refl Hdo)
      as (d & method & vs & spec & Hm & _ & Ht & _ & _ & Hbuf). split_and!; [eauto|..].
    + rewrite (cache_key_callback_val _ _ _ Hm), Hbuf. simpl. by destruct (request_body s).
    + intros age. eexists. by eapply cache_hit_filter_Ok.
Qed.

(** ** The key *)

Lemma cache_key_callback_eq s c k :
  (cache_key_callback (D:=D) s c).2 = Ok k → k = key_default (req_header s).
Proof.
  unfold cache_key_callback, mbind, handler_bind, context, session, lift.
  destruct (grpc_meta c) as [m|]; simpl; [|done].
  destruct (get_retry_buffer s); simpl; [|done]. by intros [= <-].
Qed.

(** The key ignores the digest: two requests with the same URI get the same key,
    whatever their bodies, their headers and the headers they vary on. *)
Lemma cache_key_ignores_body s1 s2 c1 c2 k1 k2 :
  uri (req_header s1) = uri (req_header s2) →
  (cache_key_callback (D:=D) s1 c1).2 = Ok k1 → (cache_key_callback (D:=D) s2 c2).2 = Ok k2 →
  k1 = k2.
Proof.
  intros Hu ->%cache_key_callback_eq ->%cache_key_callback_eq. by rewrite !key_default_uri, Hu.
Qed.

(** What the upstream is sent beside the core headers: path, body, and the values of each
    header, combined with commas as HTTP combines the values of one name. *)
Definition same_upstream s1 s2 (b1 b2 : bytes) : Prop :=
  raw_path (req_header s1) = raw_path (req_header s2) ∧ b1 = b2
  ∧ ∀ k, lower k ∉ CORE_HEADERS →
      join (lit ", ") (hm_get_all (rh_headers (req_header s1)) k)
      = join (lit ", ") (hm_get_all (rh_headers (req_header s2)) k).

(** C12: What the digest is good for: if two requests marked for caching have the same
    digest, then the requests sent upstream have the same path, the same body, and the
    same combined value for every header other than [host], [content-type], [te], [vary]
    and [user-agent]; or the byte strings hashed for these two requests are different
    and collide. Conversely, requests that vary on the same headers and are sent upstream
    alike, with the same combined value also for the headers they vary on, have the same
    digest. *)
Theorem same_digest_same_request services s1 s2 s1' s2' c1 c2 m1 m2 b1 b2 :
  request_filter services s1 new_ctx = (s1', c1, Ok false) → do_cache c1 = true →
  request_filter services s2 new_ctx = (s2', c2, Ok false) → do_cache c2 = true →
  grpc_meta c1 = Some m1 → grpc_meta c2 = Some m2 →
  get_retry_buffer s1' = Some b1 → get_retry_buffer s2' = Some b2 →
  small_path (raw_path (req_header s1)) → small_path (raw_path (req_header s2)) →
  (Z.of_nat (length b1) < 2 ^ 64)%Z → (Z.of_nat (length b2) < 2 ^ 64)%Z →
  let d1 := key_digest D (vary_set m1) (req_header s1') b1 in
  let d2 := key_digest D (vary_set m2) (req_header s2') b2 in
  let p1 := key_preimage (vary_set m1) (req_header s1') b1 in
  let p2 := key_preimage (vary_set m2) (req_header s2') b2 in
  (d1 = d2 →
     same_upstream s1' s2' b1 b2
     ∨ (p1 ≠ p2 ∧ d_finalize (d_update (d_new : D) p1) = d_finalize (d_update (d_new : D) p2)))
  ∧ (vary_set m1 = vary_set m2 → same_upstream s1' s2' b1 b2 →
     (∀ n, n ∈ vary_set m1 → join (lit ", ") (hm_get_all (rh_headers (req_header s1')) n)
                             = join (lit ", ") (hm_get_all (rh_headers (req_header s2')) n)) →
     d1 = d2).
Proof.
  intros Hf1 Hd1 Hf2 Hd2 Hm1 Hm2 Hb1 Hb2 Hp1 Hp2 Hl1 Hl2. cbn zeta.
  destruct (cached_request _ _ _ _ _ Hf1 eq_refl Hd1) as (d1 & me1 & vs1 & _ & Hg1 & Hv1 & _ & Hh1 & _).
  destruct (cached_request _ _ _ _ _ Hf2 eq_refl Hd2) as (d2 & me2 & vs2 & _ & Hg2 & Hv2 & _ & Hh2 & _).
  rewrite Hm1 in Hg1. injection Hg1 as ->. rewrite Hm2 in Hg2. injection Hg2 as ->.
  cbn [vary_set]. rewrite !key_digest_preimage. split.
  2:{ intros -> (Hpath & -> & _) Hval. do 2 f_equal. by apply key_preimage_of_same. }
  intros Heq. destruct (decide (key_preimage vs1 (req_header s1') b1 = key_preimage vs2 (req_header s2') b2))
    as [Hk|Hk]; [left|by right].
  apply key_preimage_same in Hk as (Hvs & Hpath & Hbody & Hval).
  2:{ rewrite Hh1. split_and!; [|done|done].
      intros n Hn. eapply visible_no_nul, vary_set_visible; [exact Hv1|done]. }
  2:{ rewrite Hh2. split_and!; [|done|done].
      intros n Hn. eapply visible_no_nul, vary_set_visible; [exact Hv2|done]. }
  split_and!; [done..|]. intros k Hk. subst vs2.
  destruct (decide (lower k ∈ vs1)) as [Hin|Hout].
  - specialize (Hval _ Hin). by rewrite !hm_get_all_lower in Hval.
  - rewrite Hh1, Hh2. simpl. rewrite !get_all_strip_headers.
    assert (keep_header vs1 ∅ (lower k) = false) as Hkeep.
    { apply not_true_iff_false. rewrite keep_header_true. set_solver. }
    by rewrite Hkeep.
Qed.

(** ** Hits *)

(** The hit filter answers whether the age is below the TTL, for every age that fits
    an [i64]; beyond that the cast wraps and every age counts as young. (pingora takes
    [true] as a request to expire the entry.) *)
Theorem cache_hit_filter_bounds s c m spec age :
  grpc_meta c = Some m → positive_ttl m = Some spec → (0 ≤ age < 2 ^ 64)%Z →
  ∃ b, (cache_hit_filter age s c).2 = Ok b ∧
    (b = true ↔ (age < cache_ttl (cs_descriptor spec) ∨ 2 ^ 63 ≤ age)%Z).
Proof.
  intros Hm Ht Hage. rewrite (cache_hit_filter_Ok s c m spec age Hm Ht). eexists. split; [done|].
  apply positive_ttl_Some in Ht as (ms & _ & _ & Httl). unfold as_i64. rewrite Z.ltb_lt. destruct (Z.ltb_spec age (2 ^ 63)); lia.
Qed.

(** ** Admission to the cache *)

(** What arrives from upstream after the response header. *)
Inductive UpstreamEvent :=
| UpBody (end_of_stream : bool)
| UpTrailers (trailers : H).

Definition on_upstream (e : UpstreamEvent) : handler S RequestCtx unit :=
  match e with
  | UpBody eos => upstream_response_body_filter eos
  | UpTrailers t => upstream_response_trailer_filter t
  end.

Fixpoint on_response (es : list UpstreamEvent) : handler S RequestCtx unit :=
  match es with
  | [] => mret tt
  | e :: es' => on_upstream e;; on_response es'
  end.

(** The response was not closed without trailers, and its trailers say success. *)
Definition admits (e : UpstreamEvent) : bool :=
  match e with
  | UpBody eos => negb eos
  | UpTrailers t => match status_parse t with Ok st => is_ok st | _ => false end
  end.

Lemma on_upstream_spec e s c :
  ∃ s', on_upstream e s c = (s', c, Ok tt)
    ∧ cache_enabled s' = cache_enabled s && admits e.
Proof.
  destruct e as [[]|t]; simpl.
  - eexists. split; [done|]. by rewrite cache_disable_off, andb_false_r.
  - eexists. split; [done|]. by rewrite andb_true_r.
  - unfold upstream_response_trailer_filter. pose proof (status_parse_no_panic t).
    destruct (status_parse t) as [st|e|]; [|..|done].
    + destruct (is_ok st); simpl; (eexists; split; [done|]).
      * by rewrite andb_true_r.
      * by rewrite cache_disable_off, andb_false_r.
    + eexists. split; [done|]. by rewrite cache_disable_off, andb_false_r.
Qed.

(** Only successful responses are cached: after the body and the trailers of a
    response the cache is still enabled exactly if it was before, no part of the body
    closed the stream, and the trailers, if any, have the gRPC status OK. *)
Theorem only_ok_is_cached es s c :
  ∃ s', on_response es s c = (s', c, Ok tt)
    ∧ cache_enabled s' = cache_enabled s && forallb admits es.
Proof.
  revert s. induction es as [|e es IH]; intros s; simpl.
  { eexists. split; [done|]. by rewrite andb_true_r. }
  destruct (on_upstream_spec e s c) as (s1 & He & Hc1). destruct (IH s1) as (s' & Hes & Hc').
  exists s'. unfold mbind, handler_bind. rewrite He. split; [done|].
  by rewrite Hc', Hc1, andb_assoc.
Qed.

(** ** Upstreams *)

(** The upstream peer: a backend that the balancer selects is contacted in plain text
    over HTTP/2 at its address; if there is none the request fails with 502. *)
Theorem upstream_peer_branches (select : LB → option Backend) s c m lb :
  grpc_meta c = Some m → load_balancer (service_data m) = Some lb →
  (∀ b, select lb = Some b → is_Some (as_inet (addr b))) →
  match select lb with
  | Some b => ∃ a c', as_inet (addr b) = Some a ∧ upstream_peer select s c
                      = (s, c', Ok (mkPeer a false [] true)) ∧ grpc_meta c' = grpc_meta c
  | None => upstream_peer select s c
            = (s, c, Err (mkPError (HTTPStatus 502) (lit "no upstream available")))
  end.
Proof.
  intros Hm Hlb Hinet. unfold upstream_peer, mbind, handler_bind, context, lift. rewrite Hm. simpl.
  rewrite Hlb. simpl. destruct (select lb) as [b|]; [|done].
  destruct (Hinet b eq_refl) as [a Ha]. exists a. eexists. rewrite Ha. split; [done|]. done.
Qed.
End props.

(** ** Sample runs *)

#[local] Existing Instances plain_reflection plain_cache plain_cache_laws.

(** [GetData] of the test service is cached for an hour. *)
Definition sample_services : gmap bytes (ServiceData unit) :=
  {[lit "example.TestService" := mkServiceData 1 (Some test_spec) (Some tt)]}.

Definition sample_session (chunks : list bytes) : ListSession hlist :=
  mkSession (sample_request "/example.TestService/GetData") chunks None None 64 false.

(** The session and the context after [request_filter]. *)
Definition filtered (chunks : list bytes) : ListSession hlist * RequestCtx unit :=
  (request_filter sample_services (sample_session chunks) new_ctx).1.

Definition sample_meta : GrpcMeta unit :=
  mkGrpcMeta (mkServiceData 1 (Some test_spec) (Some tt)) (lit "GetData") sample_vary.

Lemma sample_positive_ttl :
  positive_ttl sample_meta = Some (mkCacheSpec [] (mkOptions 3600)).
Proof. vm_refl. Qed.


Lemma later_handlers_witness :
  (cache_key_callback (D:=bytes) (filtered [[]]).1 (filtered [[]]).2).2 = Panic.
Proof.
  destruct (later_handlers (D:=bytes) sample_services (sample_session [[]])
              (filtered [[]]).1 (filtered [[]]).2) as (_ & _ & Hd).
  - vm_refl.
  - vm_refl.
  - destruct Hd as (_ & Hk & _); [vm_refl|]. rewrite Hk. rewrite decide_True by reflexivity. reflexivity.
Defined.

Lemma same_digest_same_request_witness :
  join (lit ", ") (hm_get_all (rh_headers (req_header (filtered [lit "a"; lit "b"]).1)) (lit "X-Tenant"))
  = join (lit ", ") (hm_get_all (rh_headers (req_header (filtered [lit "ab"]).1)) (lit "X-Tenant")).
Proof.
  assert (∃ m1, grpc_meta (filtered [lit "a"; lit "b"]).2 = Some m1) as [m1 Hm1].
  { destruct (grpc_meta (filtered [lit "a"; lit "b"]).2) as [m|] eqn:Hm; [exists m; reflexivity|].
    assert (bool_decide (is_Some (grpc_meta (filtered [lit "a"; lit "b"]).2)) = true) as Hs by vm_refl.
    rewrite Hm in Hs. discriminate. }
  assert (grpc_meta (filtered [lit "ab"]).2 = Some m1) as Hm2 by (rewrite <- Hm1; vm_refl).
  destruct (same_digest_same_request (D:=bytes) sample_services (sample_session [lit "a"; lit "b"])
    (sample_session [lit "ab"]) (filtered [lit "a"; lit "b"]).1 (filtered [lit "ab"]).1
    (filtered [lit "a"; lit "b"]).2 (filtered [lit "ab"]).2 m1 m1 (lit "ab") (lit "ab")) as [Hd _].
  - vm_refl.
  - vm_refl.
  - vm_refl.
  - vm_refl.
  - exact Hm1.
  - exact Hm2.
  - vm_refl.
  - vm_refl.
  - split; vm_compute; reflexivity.
  - split; vm_compute; reflexivity.
  - reflexivity.
  - reflexivity.
  - destruct Hd as [(_ & _ & Hk)|[Hne Heq]].
    + vm_refl.
    + apply Hk. by apply (bool_decide_unpack _); vm_compute.
    + exfalso. apply Hne. exact Heq.
Defined.

Lemma cache_hit_filter_bounds_witness :
  ∃ b, (cache_hit_filter 3599 (sample_session []) (mkCtx noop_span true (Some sample_meta))).2 = Ok b
    ∧ b = true.
Proof.
  destruct (cache_hit_filter_bounds (sample_session []) (mkCtx noop_span true (Some sample_meta))
    sample_meta (mkCacheSpec [] (mkOptions 3600)) 3599) as (b & Hb & Hiff).
  - reflexivity.
  - exact sample_positive_ttl.
  - lia.
  - exists b. split; [exact Hb|]. apply Hiff. left. simpl. lia.
Defined.

Lemma only_ok_is_cached_witness :
  ∃ s', on_response [UpBody false; UpTrailers [hdr "grpc-status" "0"]]
          (cache_enable (sample_session [])) (mkCtx noop_span true (Some sample_meta))
        = (s', mkCtx noop_span true (Some sample_meta), Ok tt) ∧ cache_enabled s' = true.
Proof.
  destruct (only_ok_is_cached [UpBody false; UpTrailers [hdr "grpc-status" "0"]]
    (cache_enable (sample_session [])) (mkCtx noop_span true (Some sample_meta))) as (s' & Hs & Hc).
  exists s'. split; [exact Hs|]. rewrite Hc. reflexivity.
Defined.

Lemma upstream_peer_branches_witness :
  upstream_peer (λ _, None) (sample_session []) (mkCtx noop_span true (Some sample_meta))
  = (sample_session [], mkCtx noop_span true (Some sample_meta),
     Err (mkPError (HTTPStatus 502) (lit "no upstream available"))).
Proof.
  apply (upstream_peer_branches (λ _, None) (sample_session [])
           (mkCtx noop_span true (Some sample_meta)) sample_meta tt).
  - reflexivity.
  - reflexivity.
  - intros b Hb. discriminate.
Defined.
