(* ===== verification/StoreTypes.v ===== *)
(** * StoreTypes: what an entry of the routing table can be

    The types of [ServiceData], [ServiceSpec] and [MethodSpec] admit values that the code
    never makes: a specification without a load balancer, a method under another name, a
    negative TTL. [entry_typed] says which values an entry can have; it holds of every
    table the store can reach, and so of every request that is routed. *)

From stdpp Require Import gmap strings list fin_maps relations.
From Stdlib Require Import Strings.Byte.
From S2P Require Import Prelude Text Headers Hash Path Crd ServiceSpec ResourceChange ServiceStore StoreInv.
From S2P Require Import Discovery Cache Session Proxy ProxyProps.

Section types.
Context {R : Reflection} {DnsSt LB : Type} `{!DnsHandle DnsSt LB}.
Implicit Types (st : ServiceConfigState DnsSt LB) (d : ServiceData LB).

(** A method is stored under its name, and it can be cached exactly if its descriptor has
    cache options with a TTL that is not negative. *)
Definition method_typed (name : bytes) (ms : MethodSpec) : Prop :=
  ms_name ms = name ∧ md_name (ms_descriptor ms) = name
  ∧ ∀ c, cache_spec ms = Some c ↔
      ∃ opt, md_grcache (ms_descriptor ms) = Some opt ∧ (0 ≤ cache_ttl opt)%Z ∧ c = mkCacheSpec [] opt.

(** A specification is for the name it is stored under, and knows no methods if it was
    made without a descriptor set. *)
Definition spec_typed (n : bytes) (sp : ServiceSpec) : Prop :=
  qualified_display (ss_name sp) = n ∧ dot ∉ qs_name (ss_name sp)
  ∧ (passthrough sp = true → methods sp = ∅)
  ∧ ∀ name ms, methods sp !! name = Some ms → method_typed name ms.

(** An entry is a deleted service, or has both a specification and a load balancer. *)
Definition entry_typed (n : bytes) d : Prop :=
  match service_spec d, load_balancer d with
  | None, None => True
  | Some sp, Some _ => spec_typed n sp
  | _, _ => False
  end.

Definition table_typed (m : gmap bytes (ServiceData LB)) : Prop :=
  ∀ n d, m !! n = Some d → entry_typed n d.

Definition store_typed st : Prop :=
  table_typed (services st)
  ∧ ∀ t, t ∈ tasks st → qualified_parse (t_service_name t) = Ok (t_service t).

(** ** Building *)

Lemma method_build_typed m : method_typed (md_name m) (method_build m).1.
Proof.
  split_and!; [apply ms_name_build|by rewrite ms_descriptor_build|].
  intros c. rewrite ms_descriptor_build. apply method_build_cache.
Qed.

Lemma collect_methods_typed ms name m :
  collect_methods ms !! name = Some m → method_typed name m.
Proof.
  induction ms as [|m' ms IH] using rev_ind; [done|].
  rewrite collect_methods_snoc, lookup_insert. case_decide; [|done].
  intros [= <-]. subst. apply method_build_typed.
Qed.

Lemma build_passthrough_typed n q : qualified_parse n = Ok q → spec_typed n (build_passthrough q).
Proof.
  intros [-> Hd]%qualified_parse_Ok. by split_and!.
Qed.

Lemma service_build_typed n q ds sp errs :
  qualified_parse n = Ok q → service_build ds q = Ok (sp, errs) → spec_typed n sp.
Proof.
  intros [-> Hd]%qualified_parse_Ok Hb. unfold service_build in Hb.
  apply outcome_bind_Ok in Hb as (dyns & _ & Hb). apply outcome_bind_Ok in Hb as (sd & _ & [= <- _]).
  split_and!; [done..|]. simpl. apply collect_methods_typed.
Qed.

(** ** Operations *)

Lemma table_typed_insert m n d : table_typed m → entry_typed n d → table_typed (<[n := d]> m).
Proof. intros Hm Hd n' d'. rewrite lookup_insert. case_decide; [intros [= <-]; by subst|apply Hm]. Qed.

Lemma update_if_newer_typed n d m m' :
  table_typed m → entry_typed n d → update_service_if_newer n d m = Ok m' → table_typed m'.
Proof.
  intros Hm Hd. unfold update_service_if_newer.
  destruct (service_spec d); simpl; destruct (m !! n) as [v|]; [destruct (_ <? _)%nat| |destruct (_ <? _)%nat|];
    intros [= <-]; auto using table_typed_insert.
Qed.

Lemma update_service_typed n st st' : store_typed st → update_service n st = Ok st' → store_typed st'.
Proof.
  intros [Hm Ht]. unfold update_service.
  destruct (ref_by_grpc_service st !! n) as [objects|]; simpl; [|done].
  case_decide; [intros [= <-]; split; [by apply table_typed_insert|done]|].
  destruct (min_by_key (elements objects)) as [r|]; simpl; [|done].
  destruct (raw_services st !! r) as [o|]; simpl; [|done].
  destruct (qualified_parse (service_name (spec o))) as [q| |] eqn:Hq; simpl; [|done..].
  destruct (match upstream (spec o) with Dns url port => _ end) as [d' lb].
  destruct (descriptor_set_source (spec o)) as [source|].
  - intros [= <-]. split; [done|]. simpl. intros t [?|Heq]%elem_of_app; [by apply Ht|].
    apply list_elem_of_singleton in Heq as ->. done.
  - intros (m' & Hup & [= <-])%outcome_bind_Ok. split; [|done]. simpl.
    eapply update_if_newer_typed; [exact Hm| |exact Hup]. by apply build_passthrough_typed.
Qed.

Lemma remove_noupdate_typed r st st' p :
  store_typed st → remove_noupdate r st = Ok (st', p) → store_typed st'.
Proof.
  intros Hst. unfold remove_noupdate. destruct (raw_services st !! r) as [o|]; [|by intros [= <- _]].
  destruct (ref_by_grpc_service st !! _); simpl; [|done]. by intros [= <- _].
Qed.

Lemma on_change_typed c st st' : store_typed st → on_change c st = Ok st' → store_typed st'.
Proof.
  intros Hst. destruct c as [|o|r|e]; simpl; [by intros [= <-]| | |by intros [= <-]].
  - unfold apply_service. intros ([st1 p] & Hrm & Hup)%outcome_bind_Ok.
    eapply update_service_typed; [|exact Hup]. by eapply remove_noupdate_typed in Hrm.
  - unfold remove_service. intros ([st1 [p|]] & Hrm & Hup)%outcome_bind_Ok;
      eapply remove_noupdate_typed in Hrm; try done; [by eapply update_service_typed|by injection Hup as <-].
Qed.

Lemma finish_task_typed {E} (loaded : outcome E (list FileDescriptorProto)) (t : Task LB) m :
  table_typed m → qualified_parse (t_service_name t) = Ok (t_service t) →
  table_typed (finish_task loaded t m).
Proof.
  intros Hm Hq. unfold finish_task. destruct (run_task loaded t m) as [m'| |] eqn:Hrun; [|done..].
  unfold run_task in Hrun. apply outcome_bind_Ok in Hrun as (ds & _ & Hrun).
  apply outcome_bind_Ok in Hrun as ([sp errs] & Hb & Hup).
  destruct (service_build ds (t_service t)) as [[sp' errs']| |] eqn:Hbuild; [|done..].
  injection Hb as -> ->. eapply update_if_newer_typed; [done| |exact Hup].
  by eapply service_build_typed.
Qed.

Lemma store_step_typed st st' : store_step st st' → store_typed st → store_typed st'.
Proof.
  intros Hstep Hst. destruct Hstep as [st c st' Hc|st st' Htk|st d]; [by eapply on_change_typed| |done].
  destruct Htk as [st l1 t l2 E loaded Hl]. destruct Hst as [Hm Ht]. split; simpl.
  - apply finish_task_typed; [done|]. apply Ht. rewrite Hl. set_solver.
  - intros t' Ht'. apply Ht. rewrite Hl. set_solver.
Qed.

Lemma store_typed_reachable dns0 st : rtc store_step (store_new dns0) st → store_typed st.
Proof.
  intros Hr. assert (store_typed (store_new (LB:=LB) dns0)) as H0.
  { split; [done|]. by intros t ?%elem_of_nil. }
  induction Hr; eauto using store_step_typed.
Qed.

(** C17: Typing of the routing table: whatever changes arrive and however the loading
    tasks interleave, every entry is either a deleted service or has both a load balancer
    and a specification for exactly the name it is stored under; a specification without
    a descriptor set has no methods, and each method is stored under its own name with
    the cache options of its descriptor and a TTL that is not negative. *)
Theorem service_table_typed dns0 st n d :
  rtc store_step (store_new dns0) st → services st !! n = Some d → entry_typed n d.
Proof. intros [Hm _]%store_typed_reachable. apply Hm. Qed.

(** ** Requests *)

Context {H S : Type} `{HL : HeaderMapLaws H, SL : SessionLaws H S}.

End types.

(** ** A sample run *)

#[local] Existing Instances plain_reflection direct_dns.

Definition test_changes : list (Change GrcacheService) :=
  [Apply (svc_inline "t" "example.TestService" "x"); Apply (svc "a" "1" "p.A")].

Definition test_task : Task (bytes * Z) :=
  mkTask (SrcInline (lit "x")) (lit "example.TestService") test_service 0 (lit "up", default_grpc_port).

(** The store after the descriptor set of the first service was loaded. *)
Definition loaded_store : ServiceConfigState unit (bytes * Z) :=
  with_tasks (finish_task (E:=unit) (Ok [test_file]) test_task (services (state_after test_changes))) []
    (state_after test_changes).

Lemma loaded_store_reachable : rtc store_step (store_new tt) loaded_store.
Proof.
  eapply rtc_r; [apply state_after_reachable; vm_refl|].
  apply store_step_task. apply (task_step_finish _ [] test_task []). vm_refl.
Qed.

Lemma service_table_typed_witness :
  ∃ d, services loaded_store !! lit "p.A" = Some d ∧ entry_typed (lit "p.A") d.
Proof.
  destruct (services loaded_store !! lit "p.A") as [d|] eqn:Hd.
  - exists d. split; [reflexivity|].
    apply (service_table_typed tt loaded_store (lit "p.A") d loaded_store_reachable Hd).
  - assert (bool_decide (is_Some (services loaded_store !! lit "p.A")) = true) as Hb by vm_refl.
    rewrite Hd in Hb. discriminate Hb.
Defined.


