(* ===== verification/Lifecycle.v ===== *)
(** * Lifecycle: a request from its arrival to the log

    The comment before [impl ProxyHttp for GrpcProxy] in [proxy/mod.rs] lists the order in
    which pingora calls the handlers. Here it is a step relation: [life_step] for the
    steps of one request that only read the storage, [finish_step] for the end of a
    response that is admitted to the cache, and [sys_step] for any number of requests
    that interleave over one storage, with the changes others make to the storage.
    A hit is read chunk by chunk until it says that the body has ended, and a handler that
    panics ends its request. pingora leaves some choices open (what arrives from upstream and when, whether a
    connection breaks, whether a stale entry is served after an error): the relation
    allows all of them. *)

From stdpp Require Import gmap strings list.
From Stdlib Require Import Strings.Byte.
From S2P Require Import Prelude Text Headers Hash Status Path Crd ServiceSpec ServiceStore.
From S2P Require Import Discovery Cache Session StorageSpec Proxy.

(** ** Metadata and the clock *)

(** [CacheMeta::new], [CacheMeta::age] and [CacheMeta::is_fresh], at a reading of the
    clock in seconds; and what two readings of the clock, one after the other, can be:
    [SystemTime] is not monotone. *)
Class MetaClock (H Resp : Type) `{!PingoraCache H} := {
  readings : Z → Z → Prop;
  meta_new : Cacheable Resp → CacheMeta;
  meta_age : CacheMeta → Z → Z;
  meta_is_fresh : CacheMeta → Z → bool;
}.

(** The age is the time since the creation; a fresh entry has not passed [fresh_until]. *)
Class MetaClockLaws (H Resp : Type) `{MetaClock H Resp} : Prop := {
  meta_age_new m now : meta_age (meta_new m) now = Z.max 0 (now - created m);
  meta_fresh_new m now :
    meta_is_fresh (meta_new m) now = true → (now ≤ fresh_until m)%Z;
}.

(** ** What arrives from upstream *)

Inductive Msg (H Resp : Type) :=
| MsgHeader (resp : Resp) (end_of_stream : bool)
| MsgBody (chunk : bytes) (end_of_stream : bool)
| MsgTrailers (trailers : H).
Arguments MsgHeader {H Resp}.
Arguments MsgBody {H Resp}.
Arguments MsgTrailers {H Resp}.

(** The body of a response. *)
Definition body_of {H Resp} (ms : list (Msg H Resp)) : bytes :=
  concat ((λ m, match m with MsgBody chunk _ => chunk | _ => [] end) <$> ms).

(** Trailers with the gRPC status OK. *)
Definition ok_trailers {H} `{!HeaderMap H} (t : H) : bool :=
  match status_parse t with Ok st => is_ok st | _ => false end.

(** The responses that may be admitted: a header and body chunks that do not close the
    stream, then trailers of status OK; or a header that closes the stream. *)
Fixpoint cachable_tail {H Resp} `{!HeaderMap H} (ms : list (Msg H Resp)) : bool :=
  match ms with
  | [MsgTrailers t] => ok_trailers t
  | MsgBody _ false :: ms' => cachable_tail ms'
  | _ => false
  end.

Definition cachable {H Resp} `{!HeaderMap H} (ms : list (Msg H Resp)) : bool :=
  match ms with
  | [MsgHeader _ true] => true
  | MsgHeader _ false :: ms' => cachable_tail ms'
  | _ => false
  end.

(** ** One request *)

Section life.
Context {R : Reflection} {H S D LB St Resp : Type}.
Context `{!HeaderMap H, !Session H S, !PingoraCache H, !Digest D, !Storage H St}.
Context `{!MetaClock H Resp}.
Notation Msg := (Msg H Resp).
Notation RequestCtx := (RequestCtx LB).

(** How a request is answered from the cache. *)
Inductive Freshness := Fresh (now : Z) | StaleIfError.

Inductive Phase :=
| Arrived
| Traced
| Accepted
| Prepared
| Keyed (key : CacheKey)
| Found (key : CacheKey) (meta : CacheMeta) (hit : HitHandler)
| Served (key : CacheKey) (meta : CacheMeta) (hit : HitHandler) (how : Freshness) (sent : list bytes)
| Upstreaming (key : option CacheKey) (stale : option (CacheMeta * HitHandler))
| Connected (key : option CacheKey) (stale : option (CacheMeta * HitHandler)) (peer : HttpPeer)
| Receiving (miss : option (CacheKey * CacheMeta * MissHandler)) (ended : bool)
| Finished (e : option PError)
| Logged.

Record Request := mkRequest {
  rq_phase : Phase;
  rq_session : S;
  rq_ctx : RequestCtx;
  rq_heard : list Msg;
}.

(** Only backends with an internet address are selected. *)
Definition inet_only (select : LB → option Backend) : Prop :=
  ∀ lb b, select lb = Some b → is_Some (as_inet (addr b)).

(** The miss handler survives as long as the cache is enabled. *)
Definition keep_miss {A} (s : S) (m : option A) : option A := if cache_enabled s then m else None.

(** The handler that runs next panics. *)
Definition panics (st : St) (r : Request) : Prop :=
  let s := rq_session r in let c := rq_ctx r in
  match rq_phase r with
  | Arrived => ∃ started, (early_request_filter started s c).2 = Panic
  | Traced => ∃ services, (request_filter services s c).2 = Panic
  | Accepted => (request_cache_filter s c).2 = Panic
  | Prepared => cache_enabled s = true ∧ (cache_key_callback (D:=D) s c).2 = Panic
  | Keyed key => lookup_key key st = Panic
  | Found key meta hit => ∃ now, (cache_hit_filter (meta_age meta now) s c).2 = Panic
  | Upstreaming _ _ => ∃ select, inet_only select ∧ (upstream_peer select s c).2 = Panic
  | Connected key _ _ => ∃ meta k, key = Some k ∧ get_miss_handler k meta st = Panic
  | Receiving miss ended =>
    (∃ eos, (upstream_response_body_filter eos s c).2 = Panic)
    ∨ (∃ t, (upstream_response_trailer_filter t s c).2 = Panic)
    ∨ (∃ k meta m, miss = Some (k, meta, m) ∧ finish_miss m st = Panic)
  | Finished e => (logging e s c).2 = Panic
  | Served _ _ _ _ _ | Logged => False
  end.

Inductive life_step (st : St) : Request → Request → Prop :=
| life_early s c started s' c' :
    early_request_filter started s c = (s', c', Ok tt) →
    life_step st (mkRequest Arrived s c []) (mkRequest Traced s' c' [])
| life_filter services s c s' c' :
    request_filter services s c = (s', c', Ok false) →
    life_step st (mkRequest Traced s c []) (mkRequest Accepted s' c' [])
| life_filter_error services s c s' c' e :
    request_filter services s c = (s', c', Err e) →
    life_step st (mkRequest Traced s c []) (mkRequest (Finished (Some e)) s' c' [])
| life_cache_filter s c s' c' :
    request_cache_filter s c = (s', c', Ok tt) →
    life_step st (mkRequest Accepted s c []) (mkRequest Prepared s' c' [])
| life_uncached s c :
    cache_enabled s = false →
    life_step st (mkRequest Prepared s c []) (mkRequest (Upstreaming None None) s c [])
| life_key s c s' c' key :
    cache_enabled s = true → cache_key_callback (D:=D) s c = (s', c', Ok key) →
    life_step st (mkRequest Prepared s c []) (mkRequest (Keyed key) s' c' [])
| life_hit s c key meta hit :
    lookup_key key st = Ok (Some (meta, hit)) →
    life_step st (mkRequest (Keyed key) s c []) (mkRequest (Found key meta hit) s c [])
| life_miss s c key :
    lookup_key key st = Ok None →
    life_step st (mkRequest (Keyed key) s c []) (mkRequest (Upstreaming (Some key) None) s c [])
| life_lookup_error s c key e :
    lookup_key key st = Err e →
    life_step st (mkRequest (Keyed key) s c [])
      (mkRequest (Upstreaming None None) (cache_disable (lit "storage error") s) c [])
| life_serve s c s' c' key meta hit now :
    (** The filter does not ask to expire the entry, and it is fresh. *)
    cache_hit_filter (meta_age meta now) s c = (s', c', Ok false) → meta_is_fresh meta now = true →
    life_step st (mkRequest (Found key meta hit) s c []) (mkRequest (Served key meta hit (Fresh now) []) s' c' [])
| life_expire s c s' c' key meta hit now b :
    cache_hit_filter (meta_age meta now) s c = (s', c', Ok b) →
    b = true ∨ meta_is_fresh meta now = false →
    life_step st (mkRequest (Found key meta hit) s c [])
      (mkRequest (Upstreaming (Some key) (Some (meta, hit))) s' c' [])
| life_peer s c s' c' key stale select peer :
    inet_only select → upstream_peer select s c = (s', c', Ok peer) →
    life_step st (mkRequest (Upstreaming key stale) s c []) (mkRequest (Connected key stale peer) s' c' [])
| life_no_peer s c s' c' key stale select e :
    inet_only select → upstream_peer select s c = (s', c', Err e) →
    life_step st (mkRequest (Upstreaming key stale) s c []) (mkRequest (Finished (Some e)) s' c' [])
| life_stale s c key meta hit peer :
    life_step st (mkRequest (Connected (Some key) (Some (meta, hit)) peer) s c [])
      (mkRequest (Served key meta hit StaleIfError []) s c [])
| life_no_response s c key stale peer e :
    life_step st (mkRequest (Connected key stale peer) s c []) (mkRequest (Finished (Some e)) s c [])
| life_header s c s' c' key stale peer now now' resp eos meta m :
    readings now now' → response_cache_filter now now' resp s c = (s', c', Ok meta) →
    cache_enabled s' = true → get_miss_handler key (meta_new meta) st = Ok m →
    life_step st (mkRequest (Connected (Some key) stale peer) s c [])
      (mkRequest (Receiving (Some (key, meta_new meta, m)) eos) s' c' [MsgHeader resp eos])
| life_header_uncached s c s' c' key stale peer resp eos :
    s' = s ∨ s' = cache_disable (lit "storage error") s → c' = c →
    life_step st (mkRequest (Connected key stale peer) s c [])
      (mkRequest (Receiving None eos) s' c' [MsgHeader resp eos])
| life_body s c s' c' miss heard chunk eos :
    upstream_response_body_filter eos s c = (s', c', Ok tt) →
    life_step st (mkRequest (Receiving miss false) s c heard)
      (mkRequest (Receiving (keep_miss s' (prod_map id (write_body chunk eos) <$> miss)) eos) s' c'
         (heard ++ [MsgBody chunk eos]))
| life_trailers s c s' c' miss heard t :
    upstream_response_trailer_filter t s c = (s', c', Ok tt) →
    life_step st (mkRequest (Receiving miss false) s c heard)
      (mkRequest (Receiving (keep_miss s' miss) true) s' c' (heard ++ [MsgTrailers t]))
| life_end s c heard ended :
    life_step st (mkRequest (Receiving None ended) s c heard) (mkRequest (Finished None) s c heard)
| life_broken s c miss ended heard e :
    life_step st (mkRequest (Receiving miss ended) s c heard) (mkRequest (Finished (Some e)) s c heard)
| life_read s c key meta hit how sent hit' chunk :
    read_body hit = (hit', Some chunk) →
    life_step st (mkRequest (Served key meta hit how sent) s c [])
      (mkRequest (Served key meta hit' how (sent ++ [chunk])) s c [])
| life_served s c key meta hit how sent hit' :
    read_body hit = (hit', None) →
    life_step st (mkRequest (Served key meta hit how sent) s c []) (mkRequest (Finished None) s c [])
| life_client_gone s c key meta hit how sent e :
    life_step st (mkRequest (Served key meta hit how sent) s c []) (mkRequest (Finished (Some e)) s c [])
| life_log s c s' c' e heard :
    logging e s c = (s', c', Ok tt) →
    life_step st (mkRequest (Finished e) s c heard) (mkRequest Logged s' c' heard)
| life_panic r :
    (** Only the task of this request unwinds, which drops its context without logging. *)
    panics st r → life_step st r (mkRequest Logged (rq_session r) (rq_ctx r) (rq_heard r)).

(** A response that was stored: for which request, under which key and metadata. *)
Record Stored := mkStored {
  sd_key : CacheKey;
  sd_meta : CacheMeta;
  sd_request : Request;
}.

(** After the end of the stream the miss handler finishes, if the cache is enabled. *)
Inductive finish_step (st : St) : Request → St → Request → Stored → Prop :=
| life_finish s c key meta m heard st' n :
    cache_enabled s = true → finish_miss m st = Ok (st', n) →
    let r := mkRequest (Receiving (Some (key, meta, m)) true) s c heard in
    finish_step st r st' (mkRequest (Finished None) s c heard) (mkStored key meta r).

(** ** All requests *)

Record Sys := mkSys {
  sys_store : St;
  sys_requests : gmap nat Request;
  sys_history : list Stored;
}.

Context `{!StorageLaws H St}.

(** The entries that others put into the storage. *)
Context (foreign : bytes → CacheMeta → bytes → Prop).

Inductive sys_step : Sys → Sys → Prop :=
| sys_arrive x i s :
    sys_requests x !! i = None → cache_enabled s = false →
    sys_step x (mkSys (sys_store x) (<[i := mkRequest Arrived s new_ctx []]> (sys_requests x)) (sys_history x))
| sys_life x i r r' :
    sys_requests x !! i = Some r → life_step (sys_store x) r r' →
    sys_step x (mkSys (sys_store x) (<[i := r']> (sys_requests x)) (sys_history x))
| sys_finish x i r st' r' e :
    sys_requests x !! i = Some r → finish_step (sys_store x) r st' r' e →
    sys_step x (mkSys st' (<[i := r']> (sys_requests x)) (e :: sys_history x))
| sys_env x st' :
    store_env (sys_store x) st' →
    (∀ slot meta body, holds st' slot meta body → holds (sys_store x) slot meta body ∨ foreign slot meta body) →
    sys_step x (mkSys st' (sys_requests x) (sys_history x)).
End life.

Arguments Phase H St {_ _}.
Arguments Request {R} H S LB St Resp {_ _}.
Arguments Stored {R} H S LB St Resp {_ _}.
Arguments Sys {R} H S LB St Resp {_ _}.
