(* ===== verification/LifecycleProps.v ===== *)
(** * LifecycleProps: what holds of every request, over every storage

    The invariant of [sys_step] and its consequences: which handlers can panic and on what,
    that an entry of the cache is the complete body of an earlier response that was
    admitted or was put there by others, and when an entry is served. Two requests with one
    URI share an entry whatever their bodies; a response that ends with its header is
    stored whatever its status. *)

From stdpp Require Import gmap strings list.
From Stdlib Require Import Strings.Byte.
From S2P Require Import Prelude Text Headers Hash Status Path Crd ServiceSpec ServiceStore.
From S2P Require Import Discovery Cache Redis Session StorageSpec Proxy ProxyProps Lifecycle.

Section props.
Context {R : Reflection} {H S D LB St Resp : Type}.
Context `{HL : HeaderMapLaws H, SL : SessionLaws H S, PL : PingoraCacheLaws H, !Digest D}.
Context `{!Storage H St, SLS : !StorageLaws H St, !MetaClock H Resp}.
Notation Msg := (Msg H Resp).
Notation RequestCtx := (RequestCtx LB).
Notation Request := (Request H S LB St Resp).
Notation Stored := (Stored H S LB St Resp).
Notation Sys := (Sys H S LB St Resp).
Notation life_step := (life_step (D:=D)).
Implicit Types (s : S) (c : RequestCtx) (r : Request) (x : Sys) (st : St).

(** What others put into the storage. *)
Context (foreign : bytes → CacheMeta → bytes → Prop).
Notation sys_step := (sys_step (D:=D) foreign).

(** ** The invariant *)

(** [request_filter] found a service with a load balancer. *)
Definition routed c : Prop :=
  ∃ m lb, grpc_meta c = Some m ∧ load_balancer (service_data m) = Some lb.

(** The method has a positive TTL. *)
Definition marked c (spec : CacheSpec) : Prop :=
  ∃ m, grpc_meta c = Some m ∧ positive_ttl m = Some spec.

(** The request is to be cached under this key. *)
Definition keyed s c (key : CacheKey) : Prop :=
  key = key_default (req_header s) ∧ ∃ spec, marked c spec.

(** The entry was stored by an earlier request. *)
Definition from_history (h : list Stored) (slot : bytes) (meta : CacheMeta) (body : bytes) : Prop :=
  ∃ e, e ∈ h ∧ primary_bin (sd_key e) = slot ∧ sd_meta e = meta
    ∧ body_of (rq_heard (sd_request e)) = body.

(** It is from an earlier request or from others. *)
Definition entry_origin (h : list Stored) (slot : bytes) (meta : CacheMeta) (body : bytes) : Prop :=
  from_history h slot meta body ∨ foreign slot meta body.

Definition hit_ok (h : list Stored) (key : CacheKey) (meta : CacheMeta) (hit : HitHandler) : Prop :=
  ∃ body, reads hit body ∧ entry_origin h (primary_bin key) meta body.

(** Every chunk that was sent is the whole body. *)
Definition sent_ok (h : list Stored) (key : CacheKey) (meta : CacheMeta) (hit : HitHandler)
    (sent : list bytes) : Prop :=
  ∃ body, reads hit body ∧ entry_origin h (primary_bin key) meta body ∧ Forall (.= body) sent.

(** The metadata is that of [response_cache_filter]. *)
Definition minute (meta : CacheMeta) : Prop :=
  ∃ now now' (resp : Resp), readings now now' ∧ meta = meta_new (mkCacheable (now + 60) now' 10 10 resp).

(** A body chunk that leaves the stream open. *)
Definition open_chunk (m : Msg) : bool := match m with MsgBody _ false => true | _ => false end.

(** What a miss handler has received. *)
Definition receiving s c (heard : list Msg) (ended : bool) (key : CacheKey) (meta : CacheMeta)
    (m : MissHandler) : Prop :=
  keyed s c key ∧ minute meta ∧ cache_enabled s = true
  ∧ pending m (primary_bin key) meta (body_of heard)
  ∧ if ended then cachable heard = true
    else ∃ resp tl, heard = MsgHeader resp false :: tl ∧ forallb open_chunk tl = true.

Definition stale_ok (h : list Stored) (key : option CacheKey) (stale : option (CacheMeta * HitHandler)) : Prop :=
  match key, stale with
  | Some k, Some (meta, hit) => hit_ok h k meta hit
  | _, _ => True
  end.

Definition request_inv (h : list Stored) r : Prop :=
  let s := rq_session r in let c := rq_ctx r in
  match rq_phase r with
  | Arrived | Traced => do_cache c = false ∧ cache_enabled s = false
  | Accepted =>
    routed c ∧ cache_enabled s = false
    ∧ (do_cache c = true → (∃ spec, marked c spec) ∧ get_retry_buffer s = buffered (received s))
  | Prepared =>
    routed c
    ∧ (cache_enabled s = true → (∃ spec, marked c spec) ∧ get_retry_buffer s = buffered (received s))
  | Keyed key => routed c ∧ keyed s c key
  | Found key meta hit => routed c ∧ keyed s c key ∧ hit_ok h key meta hit
  | Served key meta hit how sent =>
    keyed s c key ∧ sent_ok h key meta hit sent
    ∧ match how with
      | Fresh now => meta_is_fresh meta now = true
                     ∧ ∀ spec, marked c spec → (cache_ttl (cs_descriptor spec) ≤ as_i64 (meta_age meta now))%Z
      | StaleIfError => True
      end
  | Upstreaming key stale => routed c ∧ (∀ k, key = Some k → keyed s c k) ∧ stale_ok h key stale
  | Connected key stale _ => routed c ∧ (∀ k, key = Some k → keyed s c k) ∧ stale_ok h key stale
  | Receiving (Some (key, meta, m)) ended => receiving s c (rq_heard r) ended key meta m
  | Receiving None _ | Finished _ | Logged => True
  end.

(** What the history records: requests marked for caching, with the key of their URI,
    whose response was admitted. *)
Definition stored_ok (e : Stored) : Prop :=
  let r := sd_request e in
  keyed (rq_session r) (rq_ctx r) (sd_key e) ∧ minute (sd_meta e) ∧ cachable (rq_heard r) = true.

Definition sys_inv x : Prop :=
  (∀ slot meta body, holds (sys_store x) slot meta body → entry_origin (sys_history x) slot meta body)
  ∧ (∀ i r, sys_requests x !! i = Some r → request_inv (sys_history x) r)
  ∧ ∀ e, e ∈ sys_history x → stored_ok e.

(** ** Preservation *)

Lemma entry_origin_cons e (h : list Stored) slot meta body : entry_origin h slot meta body → entry_origin (e :: h) slot meta body.
Proof. intros [(e' & He & ?)|?]; [left|by right]. exists e'. split; [by right|done]. Qed.

Lemma hit_ok_cons e (h : list Stored) key meta hit : hit_ok h key meta hit → hit_ok (e :: h) key meta hit.
Proof. intros (body & ? & ?). exists body. split; [done|]. by apply entry_origin_cons. Qed.

Lemma sent_ok_cons e (h : list Stored) key meta hit sent :
  sent_ok h key meta hit sent → sent_ok (e :: h) key meta hit sent.
Proof. intros (body & ? & ? & ?). exists body. split_and!; [done| |done]. by apply entry_origin_cons. Qed.

(** Another chunk. *)
Lemma sent_ok_read (h : list Stored) key meta hit sent hit' chunk :
  sent_ok h key meta hit sent → read_body hit = (hit', Some chunk) → sent_ok h key meta hit' (sent ++ [chunk]).
Proof.
  intros (body & Hb & Ho & Hs) Hr. destruct (read_reads _ _ _ _ Hb Hr) as [Hb' [?|[= ->]]]; [done|].
  exists body. split_and!; [done..|]. apply Forall_app_2; [done|by repeat constructor].
Qed.

Lemma request_inv_cons e h r : request_inv h r → request_inv (e :: h) r.
Proof.
  destruct r as [p s c heard]. unfold request_inv, stale_ok. simpl.
  destruct p as [| | | | |k m t|k m t f sent|[k|] [[m t]|]|[k|] [[m t]|]|[[[? ?] ?]|]| |]; try done;
    intros; destruct_and?; split_and?; eauto using hit_ok_cons, sent_ok_cons.
Qed.

(** What the handlers leave alone. *)
Lemma cache_key_callback_frame s c : (cache_key_callback (D:=D) s c).1 = (s, c).
Proof.
  unfold cache_key_callback, mbind, handler_bind, context, session, lift.
  destruct (grpc_meta c); simpl; [|done]. by destruct (get_retry_buffer s).
Qed.

Lemma cache_hit_filter_frame age s c s' c' res :
  cache_hit_filter age s c = (s', c', res) → s' = s ∧ grpc_meta c' = grpc_meta c.
Proof.
  unfold cache_hit_filter, mbind, handler_bind, context, on_context, lift.
  destruct (grpc_meta c) as [m|] eqn:Hm; simpl.
  - destruct (method_spec m) as [ms|]; simpl; [destruct (cache_spec ms)|]; by intros [= <- <- _].
  - by intros [= <- <- _].
Qed.

Lemma upstream_peer_frame (select : LB → option Backend) s c s' c' res :
  upstream_peer select s c = (s', c', res) → s' = s ∧ grpc_meta c' = grpc_meta c.
Proof.
  unfold upstream_peer, mbind, handler_bind, context, on_context, lift.
  destruct (grpc_meta c) as [m|] eqn:Hm; simpl; [|by intros [= <- <- _]].
  destruct (load_balancer (service_data m)) as [lb|]; simpl; [|by intros [= <- <- _]].
  destruct (select lb) as [b|]; simpl; [destruct (as_inet (addr b))|]; by intros [= <- <- _].
Qed.

(** The body and trailer filters keep the cache enabled for what may be admitted, and
    then they change nothing. *)
Lemma body_filter_frame eos s c s' c' :
  upstream_response_body_filter eos s c = (s', c', Ok tt) → cache_enabled s' = true →
  eos = false ∧ s' = s ∧ c' = c.
Proof. destruct eos; intros [= <- <-]; [|done]. by rewrite cache_disable_off. Qed.

Lemma trailer_filter_frame t s c s' c' :
  upstream_response_trailer_filter t s c = (s', c', Ok tt) → cache_enabled s' = true →
  ok_trailers t = true ∧ s' = s ∧ c' = c.
Proof.
  unfold upstream_response_trailer_filter, ok_trailers.
  destruct (status_parse t) as [gs|e|]; [destruct (is_ok gs)|..]; intros [= <- <-]; try done;
    by rewrite cache_disable_off.
Qed.

Lemma request_filter_no_panic services s c : (request_filter services s c).2 ≠ Panic.
Proof.
  pose proof (request_filter_cases services s c) as Hc.
  destruct (request_filter services s c) as [[s' c'] res]. simpl.
  destruct (routed_service _ _) as [[d method]|e|]; [|by destruct Hc as [-> _]|done].
  destruct Hc as (vs & _ & _ & _ & Hc). destruct (positive_ttl _).
  - destruct Hc as [_ Hc]. destruct (failure s); [by destruct Hc as [-> _]|].
    case_decide; by destruct Hc as [-> _].
  - by destruct Hc as [-> _].
Qed.

Lemma marked_ctx c c' spec : grpc_meta c' = grpc_meta c → marked c spec → marked c' spec.
Proof. unfold marked. by intros ->. Qed.

Lemma routed_ctx c c' : grpc_meta c' = grpc_meta c → routed c → routed c'.
Proof. unfold routed. by intros ->. Qed.

Lemma keyed_ctx s c c' key : grpc_meta c' = grpc_meta c → keyed s c key → keyed s c' key.
Proof. intros Heq [? [spec ?]]. split; [done|]. exists spec. by eapply marked_ctx. Qed.

(** What has been heard grows by one message. *)
Lemma body_of_snoc (heard : list Msg) chunk eos :
  body_of (heard ++ [MsgBody chunk eos]) = body_of heard ++ chunk.
Proof.
  unfold body_of. rewrite fmap_app, concat_app. simpl. by rewrite (right_id_L [] (++)).
Qed.

Lemma body_of_trailers (heard : list Msg) t : body_of (heard ++ [MsgTrailers t]) = body_of heard.
Proof. unfold body_of. rewrite fmap_app, concat_app. simpl. by rewrite (right_id_L [] (++)). Qed.

Lemma cachable_tail_snoc (tl : list Msg) t :
  forallb open_chunk tl = true → cachable_tail (tl ++ [MsgTrailers t]) = ok_trailers t.
Proof.
  induction tl as [|m tl IH]; simpl; [done|]. intros [Hm Htl]%andb_true_iff.
  destruct m as [| ? [] |]; try done. by apply IH.
Qed.

(** Each phase of [life_step]. *)
Lemma filter_inv services s c s' c' :
  do_cache c = false → cache_enabled s = false →
  request_filter services s c = (s', c', Ok false) →
  routed c' ∧ cache_enabled s' = false
  ∧ (do_cache c' = true → (∃ spec, marked c' spec) ∧ get_retry_buffer s' = buffered (received s')).
Proof.
  intros Hdo Hoff Hf. destruct (routed_request _ _ _ _ _ _ Hf) as (_ & Hce & m & lb & Hm & Hlb).
  split_and!; [by exists m, lb|by rewrite Hce|]. intros Hdo'.
  destruct (cached_request _ _ _ _ _ Hf Hdo Hdo') as (d & me & vs & spec & Hg & _ & Ht & _ & Hrec & Hbuf).
  split; [|by rewrite Hrec]. exists spec, (mkGrpcMeta d me vs). done.
Qed.

Lemma cache_filter_inv s c s' c' :
  cache_enabled s = false → request_cache_filter s c = (s', c', Ok tt) →
  c' = c ∧ cache_enabled s' = do_cache c ∧ get_retry_buffer s' = get_retry_buffer s ∧ received s' = received s.
Proof.
  intros Hoff. unfold request_cache_filter, mbind, handler_bind, context, on_session. simpl.
  destruct (do_cache c) eqn:Hdo; intros [= <- <-]; [|done].
  rewrite cache_enable_on. by destruct (cache_enable_rest s) as (_ & -> & ->).
Qed.

Lemma key_inv s c s' c' key :
  cache_key_callback (D:=D) s c = (s', c', Ok key) → (∃ spec, marked c spec) →
  c' = c ∧ keyed s' c' key.
Proof.
  intros Hh Hm. pose proof (cache_key_callback_frame s c) as Hfr. rewrite Hh in Hfr.
  injection Hfr as -> ->. split; [done|]. split; [|done]. eapply cache_key_callback_eq. by rewrite Hh.
Qed.

(** An entry that the filter does not expire has reached the TTL. *)
Lemma served_old s c s' c' age spec :
  cache_hit_filter age s c = (s', c', Ok false) → marked c' spec →
  (cache_ttl (cs_descriptor spec) ≤ as_i64 age)%Z.
Proof.
  intros Hh (m & Hm & Ht). destruct (cache_hit_filter_frame _ _ _ _ _ _ Hh) as [_ Hg]. rewrite Hg in Hm.
  pose proof (cache_hit_filter_Ok s c m spec age Hm Ht) as Hv. rewrite Hh in Hv. injection Hv as Hv.
  symmetry in Hv. by apply Z.ltb_ge in Hv.
Qed.

Lemma receiving_body s c s' c' heard key meta m chunk eos :
  receiving s c heard false key meta m →
  upstream_response_body_filter eos s c = (s', c', Ok tt) → cache_enabled s' = true →
  receiving s' c' (heard ++ [MsgBody chunk eos]) eos key meta (write_body chunk eos m).
Proof.
  intros (Hk & Hmin & _ & Hp & resp & tl & -> & Htl) Hf Hon.
  destruct (body_filter_frame _ _ _ _ _ Hf Hon) as (-> & -> & ->).
  split_and!; [done..| |].
  - rewrite body_of_snoc. by apply write_pending.
  - exists resp, (tl ++ [MsgBody chunk false]). split; [done|]. by rewrite forallb_app, Htl.
Qed.

Lemma receiving_trailers s c s' c' heard key meta m t :
  receiving s c heard false key meta m →
  upstream_response_trailer_filter t s c = (s', c', Ok tt) → cache_enabled s' = true →
  receiving s' c' (heard ++ [MsgTrailers t]) true key meta m.
Proof.
  intros (Hk & Hmin & _ & Hp & resp & tl & -> & Htl) Hf Hon.
  destruct (trailer_filter_frame _ _ _ _ _ Hf Hon) as (Hok & -> & ->).
  split_and!; [done..| |].
  - by rewrite body_of_trailers.
  - simpl. by rewrite cachable_tail_snoc.
Qed.

(** A step of a request. *)
Lemma life_step_inv st h r r' :
  (∀ slot meta body, holds st slot meta body → entry_origin h slot meta body) →
  life_step st r r' → request_inv h r → request_inv h r'.
Proof.
  intros Hfrom Hstep. destruct Hstep as
    [s c started s' c' Hh|services s c s' c' Hh|services s c s' c' e Hh|s c s' c' Hh|s c Hoff
    |s c s' c' key Hon Hh|s c key meta hit Hl|s c key Hl|s c key e Hl|s c s' c' key meta hit now Hh Hfr
    |s c s' c' key meta hit now b Hh Hb|s c s' c' key stale select peer Hin Hh
    |s c s' c' key stale select e Hin Hh|s c key meta hit peer|s c key stale peer e
    |s c s' c' key stale peer now now' resp eos meta m Hnow Hh Hon Hm
    |s c s' c' key stale peer resp eos Hs Hc|s c s' c' miss heard chunk eos Hh|s c s' c' miss heard t Hh
    |s c heard ended|s c miss ended heard e|s c key meta hit how sent hit' chunk Hrd
    |s c key meta hit how sent hit' Hrd|s c key meta hit how sent e|s c s' c' e heard Hh
    |r Hpan];
    unfold request_inv; simpl; try done.
  - by injection Hh as <- <-.
  - intros [Hdo Hoff]. by eapply filter_inv.
  - intros (Hr & Hoff & Hd). destruct (cache_filter_inv _ _ _ _ Hoff Hh) as (-> & -> & -> & ->). done.
  - intros [Hr _]. done.
  - intros [Hr Hd]. destruct (Hd Hon) as [Hm _]. by destruct (key_inv _ _ _ _ _ Hh Hm) as [-> ?].
  - intros [Hr Hk]. split_and!; [done..|]. destruct (lookup_holds _ _ _ _ Hl) as (body & Hb & Hh).
    exists body. eauto.
  - intros [Hr Hk]. split_and!; [done| |done]. by intros ? [= <-].
  - intros [Hr Hk]. done.
  - intros (Hr & Hk & Hhit). destruct (cache_hit_filter_frame _ _ _ _ _ _ Hh) as [-> Hg].
    split_and!; [by eapply keyed_ctx| |done|].
    + destruct Hhit as (body & ? & ?). by exists body.
    + intros spec. by eapply served_old.
  - intros (Hr & Hk & Hhit). destruct (cache_hit_filter_frame _ _ _ _ _ _ Hh) as [-> Hg].
    split_and!; [by eapply routed_ctx| |done]. intros k [= <-]. by eapply keyed_ctx.
  - intros (Hr & Hk & Hst). destruct (upstream_peer_frame _ _ _ _ _ _ Hh) as [-> Hg].
    split_and!; [by eapply routed_ctx| |done]. intros k Hk'. eapply keyed_ctx; eauto.
  - intros (Hr & Hk & body & ? & ?). split_and!; [by apply Hk| |done]. by exists body.
  - intros (Hr & Hk & Hst). injection Hh as <- <- <-. split_and!; [by apply Hk|by exists now, now', resp|done|..].
    + by eapply miss_pending.
    + destruct eos; [done|]. by exists resp, [].
  - unfold keep_miss. destruct (cache_enabled s') eqn:Hon; [|done].
    destruct miss as [[[key meta] m]|]; [|done]. intros Hrec. by eapply receiving_body.
  - unfold keep_miss. destruct (cache_enabled s') eqn:Hon; [|done].
    destruct miss as [[[key meta] m]|]; [|done]. intros Hrec. by eapply receiving_trailers.
  - intros (Hk & Hs & Hhow). split_and!; [done| |done]. by eapply sent_ok_read.
Qed.

Lemma sys_step_inv x x' : sys_step x x' → sys_inv x → sys_inv x'.
Proof.
  intros Hstep (Hfrom & Hreq & Hst).
  destruct Hstep as [x i s Hi Hoff|x i r r' Hi Hlife|x i r st' r' e Hi Hfin|x st' _ Henv].
  - split_and!; simpl; [done| |done]. intros j r. rewrite lookup_insert.
    case_decide; [by intros [= <-]|apply Hreq].
  - split_and!; simpl; [done| |done]. intros j r1. rewrite lookup_insert.
    case_decide; [|apply Hreq]. intros [= <-]. eapply life_step_inv; eauto.
  - destruct Hfin as [s c key meta m heard st' n Hon Hf r]. pose proof (Hreq _ _ Hi) as Hinv.
    destruct Hinv as (Hk & Hmin & _ & Hp & Hc).
    pose proof (finish_holds _ _ _ _ _ _ _ Hp Hf) as Hh. split_and!; simpl.
    + intros slot meta' body [Hold|(-> & -> & ->)]%Hh; [by apply entry_origin_cons, Hfrom|].
      left. eexists. split; [by left|]. done.
    + intros j r1. rewrite lookup_insert. case_decide; [by intros [= <-]|].
      intros Hj. by apply request_inv_cons, Hreq with j.
    + intros e [->|He]%elem_of_cons; [|by apply Hst]. done.
  - split_and!; simpl; [|done..]. intros slot meta body [?|?]%Henv; [by apply Hfrom|by right].
Qed.

(** No request is running, and what the storage holds was put there by others. *)
Definition sys_start (x : Sys) : Prop :=
  (∀ slot meta body, holds (sys_store x) slot meta body → foreign slot meta body)
  ∧ sys_requests x = ∅ ∧ sys_history x = [].

Lemma sys_reachable_inv x x' : sys_start x → rtc sys_step x x' → sys_inv x'.
Proof.
  intros (Hf & Hreq & Hh) Hr. assert (sys_inv x) as Hx.
  { split_and!.
    - intros ??? ?%Hf. by right.
    - intros i r. by rewrite Hreq, lookup_empty.
    - intros e. rewrite Hh. by intros ?%elem_of_nil. }
  clear Hf Hreq Hh. induction Hr; eauto using sys_step_inv.
Qed.

(** The handlers before the lookup, on a request with a body that is marked for caching. *)
Lemma keyed_handlers services s s' c' :
  cache_enabled s = false → request_filter services s new_ctx = (s', c', Ok false) → do_cache c' = true →
  request_body s ≠ [] →
  request_cache_filter s' c' = (cache_enable s', c', Ok tt)
  ∧ cache_key_callback (D:=D) (cache_enable s') c' = (cache_enable s', c', Ok (key_default (req_header s'))).
Proof.
  intros Hoff Hf Hdo Hbody.
  destruct (cached_request _ _ _ _ _ Hf eq_refl Hdo) as (d & me & vs & spec & Hg & _ & _ & _ & _ & Hbuf).
  destruct (cache_enable_rest s') as (Hh & Hr & _). split.
  { unfold request_cache_filter, mbind, handler_bind, context, on_session. simpl. by rewrite Hdo. }
  rewrite (cache_key_callback_val _ _ _ Hg), Hr, Hh, Hbuf. by destruct (request_body s).
Qed.

(** Such a request comes to the lookup of its key. *)
Lemma keyed_run st services s s' c' :
  cache_enabled s = false → request_filter services s new_ctx = (s', c', Ok false) → do_cache c' = true →
  request_body s ≠ [] →
  rtc (life_step st) (mkRequest Arrived s new_ctx [])
    (mkRequest (Keyed (key_default (req_header s'))) (cache_enable s') c' []).
Proof.
  intros Hoff Hf Hdo Hbody. destruct (keyed_handlers services s s' c' Hoff Hf Hdo Hbody) as [Hc Hk].
  eapply rtc_l; [by eapply (life_early st s new_ctx noop_span s new_ctx)|].
  eapply rtc_l; [by eapply life_filter|].
  eapply rtc_l; [by eapply life_cache_filter|].
  apply rtc_once. eapply life_key; [apply cache_enable_on|done].
Qed.

Lemma sys_life_run x i r r' :
  sys_requests x !! i = Some r → rtc (life_step (sys_store x)) r r' →
  rtc sys_step x (mkSys (sys_store x) (<[i := r']> (sys_requests x)) (sys_history x)).
Proof.
  destruct x as [st m h]. simpl. intros Hi Hr. revert m Hi.
  induction Hr as [r|r r1 r' Hstep Hr IH]; intros m Hi; [by rewrite insert_id|].
  eapply rtc_l; [by eapply (sys_life foreign (mkSys st m h) i)|]. simpl.
  rewrite <- (insert_insert_eq m i r' r1). apply IH. apply lookup_insert_eq.
Qed.

(** ** Panics *)

(** The request is marked for caching and has no body. *)
Definition empty_body r : Prop :=
  rq_phase r = Prepared ∧ cache_enabled (rq_session r) = true ∧ received (rq_session r) = [].

(** Its slot has a value the storage panics on. *)
Definition bad_entry st r : Prop :=
  ∃ key, rq_phase r = Keyed key ∧ lookup_key key st = Panic.

(** In a state that satisfies the invariant the next handler panics only on these. *)
Lemma sys_inv_panics x i r :
  sys_inv x → sys_requests x !! i = Some r →
  panics (D:=D) (sys_store x) r ↔ empty_body r ∨ bad_entry (sys_store x) r.
Proof.
  intros (_ & Hreq & _) Hi. specialize (Hreq _ _ Hi).
  destruct r as [p s c heard]. unfold panics, request_inv, empty_body, bad_entry in *. simpl in *.
  destruct p as [| | | |key|key meta hit| |key stale|key stale peer|miss ended| |];
    try (split; [by intros []|by intros [(? & _)|(? & ? & _)]]).
  - split; [|by intros [(? & _)|(? & ? & _)]].
    intros [services Hp]. by apply request_filter_no_panic in Hp.
  - split; [|by intros [(? & _)|(? & ? & _)]].
    unfold request_cache_filter, mbind, handler_bind, context, on_session. simpl. by destruct (do_cache c).
  - destruct Hreq as [_ Hm]. split.
    + intros [Hon Hp]. left. destruct (Hm Hon) as [(spec & m & Hg & _) Hb].
      rewrite (cache_key_callback_val _ _ _ Hg), Hb in Hp. by destruct (received s).
    + intros [(_ & Hon & Hr)|(? & ? & _)]; [|done]. split; [done|].
      destruct (Hm Hon) as [(spec & m & Hg & _) Hb]. by rewrite (cache_key_callback_val _ _ _ Hg), Hb, Hr.
  - split; [intros Hl; right; eauto|]. by intros [(? & _)|(? & [= <-] & ?)].
  - split; [|by intros [(? & _)|(? & ? & _)]].
    intros [now Hp]. destruct Hreq as (_ & (_ & spec & m & Hg & Ht) & _).
    rewrite (cache_hit_filter_Ok s c m spec _ Hg Ht) in Hp. done.
  - split; [|by intros [(? & _)|(? & ? & _)]].
    intros (select & Hin & Hp). destruct Hreq as ((m & lb & Hm & Hlb) & _).
    by apply (upstream_peer_no_panic select s c m lb) in Hp.
  - split; [|by intros [(? & _)|(? & ? & _)]]. intros (meta & k & _ & Hp). by apply miss_no_panic in Hp.
  - split; [|by intros [(? & _)|(? & ? & _)]].
    intros [[eos Hp]|[[t Hp]|(k & meta & m & _ & Hp)]].
    + by destruct eos.
    + unfold upstream_response_trailer_filter in Hp. pose proof (status_parse_no_panic t).
      destruct (status_parse t) as [gs| |]; [destruct (is_ok gs)|..]; done.
    + by apply finish_no_panic in Hp.
  - split; [done|]. by intros [(? & _)|(? & ? & _)].
Qed.

(** ** Where entries come from *)

(** C8: The provenance of cached responses, over every interleaving of requests and with
    others reading and writing the same storage. For a request that is answered from the
    cache there is one body such that every chunk sent to the client, and the next chunk
    read, is this whole body (a hit never sends a part of a body, but it may send the body
    several times), and an entry with this body and the metadata of the hit was stored in
    the slot of the request's key by an earlier request or put there by others. The
    same holds of everything the storage holds. Each response this process stored answered
    a request to a method with a positive TTL, is stored under the key of that request's
    URI, and either ended with trailers of status OK after an unbroken body, or consisted
    of its header alone. *)
Theorem cache_provenance x x' :
  sys_start x → rtc sys_step x x' →
  (∀ i r key meta hit how sent,
     sys_requests x' !! i = Some r → rq_phase r = Served key meta hit how sent →
     ∃ body, (∀ chunk, chunk ∈ sent ∨ (read_body hit).2 = Some chunk → chunk = body)
       ∧ ((∃ e, e ∈ sys_history x' ∧ body = body_of (rq_heard (sd_request e))
             ∧ meta = sd_meta e ∧ primary_bin key = primary_bin (sd_key e))
          ∨ foreign (primary_bin key) meta body))
  ∧ (∀ slot meta body, holds (sys_store x') slot meta body →
     (∃ e, e ∈ sys_history x' ∧ slot = primary_bin (sd_key e) ∧ meta = sd_meta e
        ∧ body = body_of (rq_heard (sd_request e)))
     ∨ foreign slot meta body)
  ∧ (∀ e, e ∈ sys_history x' →
     cachable (rq_heard (sd_request e)) = true
     ∧ sd_key e = key_default (req_header (rq_session (sd_request e)))
     ∧ ∃ m spec, grpc_meta (rq_ctx (sd_request e)) = Some m ∧ positive_ttl m = Some spec).
Proof.
  intros Hx Hr. destruct (sys_reachable_inv _ _ Hx Hr) as (Hfrom & Hreq & Hst). split_and!.
  - intros i [p s c heard] key meta hit how sent Hi Hp. specialize (Hreq _ _ Hi). simpl in Hp. subst p.
    destruct Hreq as (_ & (body & Hb & Ho & Hsent) & _). exists body. split.
    + intros chunk [Hc|Hc]; [by eapply Forall_forall in Hsent|].
      destruct (read_body hit) as [hit' res] eqn:Hrd. simpl in Hc. subst res.
      by destruct (read_reads _ _ _ _ Hb Hrd) as [_ [?|[= ->]]].
    + destruct Ho as [(e & He & Hslot & Hmeta & Hbody)|Ho]; [left|by right]. exists e. split_and!; done.
  - intros slot meta body [(e & He & ? & ? & ?)|?]%Hfrom; [left|by right]. exists e. split_and!; done.
  - intros e He. destruct (Hst e He) as ((Hk & spec & m & Hm & Ht) & _ & Hc). eauto 10.
Qed.

(** ** When entries are served *)

(** C11: When a fresh entry is served: its age is at least the TTL of the method and at
    most 60 seconds (more only by as much as the clock is set back between the two
    readings of [response_cache_filter], here or in the processes that share the storage).
    So the cache never answers within the TTL of a method, and never at all (short of a
    stale answer after an error) for a TTL above a minute. *)
Theorem served_age_bounds `{CL : !MetaClockLaws H Resp} skew x x' i r key meta hit now sent m spec :
  (∀ now now', readings now now' → (now ≤ now' + skew)%Z) → (0 ≤ skew)%Z →
  (∀ slot meta body, foreign slot meta body → minute meta) →
  sys_start x → rtc sys_step x x' → sys_requests x' !! i = Some r →
  rq_phase r = Served key meta hit (Fresh now) sent →
  grpc_meta (rq_ctx r) = Some m → positive_ttl m = Some spec →
  (0 < cache_ttl (cs_descriptor spec) ≤ meta_age meta now)%Z ∧ (meta_age meta now ≤ 60 + skew)%Z.
Proof.
  intros Hclock Hskew Hforeign Hx Hr Hi Hp Hm Ht.
  destruct (sys_reachable_inv _ _ Hx Hr) as (_ & Hreq & Hst).
  specialize (Hreq _ _ Hi). unfold request_inv in Hreq. rewrite Hp in Hreq.
  destruct Hreq as (_ & (body & _ & Ho & _) & Hfr & Hage).
  assert (minute meta) as (n & n' & resp & Hn%Hclock & Hmeta).
  { destruct Ho as [(e & He & _ & <- & _)|Ho]; [by apply (Hst e He)|by eapply Hforeign]. }
  rewrite Hmeta in *. apply meta_fresh_new in Hfr. specialize (Hage spec ltac:(by exists m)).
  rewrite meta_age_new in *. simpl in *. unfold as_i64 in Hage.
  apply positive_ttl_Some in Ht as (ms & _ & _ & Hpos). revert Hage.
  destruct (Z.ltb_spec (Z.max 0 (now - n')) (2 ^ 63)); lia.
Qed.
End props.

(** ** Which responses are stored *)

Section admission.
Context {R : Reflection} {H S LB St Resp : Type}.
Context `{HL : HeaderMapLaws H, SL : SessionLaws H S, PL : PingoraCacheLaws H}.
Context `{!Storage H St, !MetaClock H Resp}.
Notation Msg := (Msg H Resp).
Notation RequestCtx := (RequestCtx LB).
Implicit Types (s : S) (c : RequestCtx) (ms : list Msg) (st : St) (m : MissHandler).

(** The messages after the header: the filters run, and the chunks go to the miss handler
    as long as the cache is enabled. *)
Fixpoint receive_rest ms s c m : S * RequestCtx * MissHandler :=
  match ms with
  | [] => (s, c, m)
  | MsgBody chunk eos :: ms' =>
    let '(s, c, _) := upstream_response_body_filter eos s c in
    receive_rest ms' s c (if cache_enabled s then write_body chunk eos m else m)
  | MsgTrailers t :: ms' =>
    let '(s, c, _) := upstream_response_trailer_filter t s c in receive_rest ms' s c m
  | MsgHeader _ _ :: ms' => receive_rest ms' s c m
  end.

(** A whole response to a request whose cache is enabled: the storage after it. *)
Definition store_response (key : CacheKey) (now now' : Z) ms s c st : outcome PError St :=
  match ms with
  | MsgHeader resp _ :: ms' =>
    let '(s, c, meta) := response_cache_filter now now' resp s c in
    meta ← meta;
    m ← get_miss_handler key (meta_new meta) st;
    let '(s, c, m) := receive_rest ms' s c m in
    if cache_enabled s then '(st', _) ← finish_miss m st; Ok st' else Ok st
  | _ => Ok st
  end.

(** The stream is closed once, at its end. *)
Fixpoint closed_tail ms : bool :=
  match ms with
  | [MsgBody _ true] | [MsgTrailers _] => true
  | MsgBody _ false :: ms' => closed_tail ms'
  | _ => false
  end.

Definition closed ms : bool :=
  match ms with
  | [MsgHeader _ true] => true
  | MsgHeader _ false :: ms' => closed_tail ms'
  | _ => false
  end.

(** The chunks of the body. *)
Definition chunks_of ms : list bytes := omap (λ msg, match msg with MsgBody chunk _ => Some chunk | _ => None end) ms.

Lemma concat_chunks_of ms : concat (chunks_of ms) = body_of ms.
Proof.
  induction ms as [|[resp eos|chunk eos|t] ms IH]; [done|exact IH| |exact IH].
  change (chunk ++ concat (chunks_of ms) = chunk ++ body_of ms). by rewrite IH.
Qed.

Lemma receive_rest_closed ms s c m :
  closed_tail ms = true → cache_enabled s = true →
  let '(s', c', m') := receive_rest ms s c m in
  cache_enabled s' = cachable_tail ms ∧ (cachable_tail ms = true → m' = write_chunks (chunks_of ms) m).
Proof.
  intros Hc Hon. revert m Hc. induction ms as [|msg ms IH]; intros m; [done|].
  destruct msg as [|chunk [] |t]; cbn [closed_tail]; [done|..].
  - destruct ms; [|done]. intros _. simpl. by rewrite cache_disable_off.
  - intros Hc. cbn [receive_rest]. unfold upstream_response_body_filter. simpl. rewrite Hon.
    specialize (IH (write_body chunk false m) Hc). by destruct (receive_rest _ _ _ _) as [[s' c'] m'].
  - destruct ms; [|done]. intros _. cbn [receive_rest cachable_tail]. unfold upstream_response_trailer_filter, ok_trailers.
    pose proof (status_parse_no_panic t). destruct (status_parse t) as [gs|e|]; [|..|done].
    + destruct (is_ok gs); simpl; [done|by rewrite cache_disable_off].
    + simpl. by rewrite cache_disable_off.
Qed.
End admission.

Section redis.
Context {R : Reflection} {H S D LB Cons Resp : Type}.
Context `{HL : HeaderMapLaws H, SL : SessionLaws H S, PL : PingoraCacheLaws H, !Digest D, BL : BalancerLaws Cons}.
Context {BC : Bincode} {BCL : BincodeLaws} {RC : RedisClient} {RL : RedisLaws} `{!MetaClock H Resp}.
Notation RedisBackend := (RedisBackend Cons).

(** The pool of a key, and a server behind it that answers and takes values. *)
Definition reachable (self self' : RedisBackend) (slot : bytes) : Prop :=
  ∃ pool, pool_for_hash self (pools self) slot = Some pool
    ∧ pool_get pool (servers self) = true ∧ (∀ v, (redis_set pool slot v (servers self)).2 = true)
    ∧ pool_get pool (servers self') = true ∧ is_Some (redis_get pool slot (servers self')).

(** C32: Which responses are stored, and as what: when the messages of a complete response to
    a request whose cache is enabled have gone through the handlers and Redis can be
    reached, the storage is unchanged unless the response is a header that closes the
    stream, or a header, chunks that leave the stream open and trailers of status OK. Such
    a response is then found under the key, with its body and the metadata of
    [response_cache_filter]. The header is not looked at: an error that a server answers in
    a header block that closes the stream is stored and found whatever its status. *)
Theorem response_stored_iff (s : S) (c : RequestCtx LB) (ms : list (Msg H Resp)) key now now'
    (self self' : RedisBackend) :
  cache_enabled s = true → closed ms = true →
  store_response key now now' ms s c self = Ok self' →
  if cachable ms then
    ∃ resp eos tl, ms = MsgHeader resp eos :: tl
    ∧ (reachable self self' (primary_bin key) →
       lookup_key key self'
       = Ok (Some (meta_new (mkCacheable (now + 60) now' 10 10 resp), mkHit (body_of ms))))
  else self' = self.
Proof.
  intros Hon Hc. destruct ms as [|[resp eos| |] tl]; [done| |done..].
  remember (cachable (MsgHeader resp eos :: tl)) as admitted eqn:Hcach.
  set (meta := meta_new (mkCacheable (now + 60) now' 10 10 resp)).
  unfold store_response. simpl. fold meta.
  destruct (redis_get_miss_handler key meta self) as [m|e|] eqn:Hm; simpl; [|done..].
  assert (let '(s', _, m') := receive_rest (St:=RedisBackend) tl s c m in
    cache_enabled s' = admitted ∧ (admitted = true → m' = write_chunks (S:=RedisBackend) (chunks_of tl) m)) as Hrest.
  { subst admitted. destruct eos; [by destruct tl|]. by apply receive_rest_closed. }
  destruct (receive_rest (Storage0:=redis_storage) tl s c m) as [[s' c'] m']. destruct Hrest as [-> Hm'].
  destruct admitted; [|by intros [= <-]].
  rewrite Hm' by done. intros Hfin. exists resp, eos, tl. split; [done|].
  intros (pool & Hp & Hg & Hset & Hg' & Hget).
  apply outcome_bind_Ok in Hfin as ([st' n] & Hfin & [= ->]).
  change (body_of (MsgHeader resp eos :: tl)) with (body_of tl). rewrite <- concat_chunks_of.
  by eapply (redis_stored_found key meta m (chunks_of tl) self pool self' n).
Qed.

(** ** Confusion of entries *)

(** C31: Requests with one URI share an entry: a response stored in Redis for one request is
    found by every other request with the same URI, whatever their bodies and headers,
    although the digest that was computed tells them apart. *)
Theorem same_uri_same_entry (s1 s2 : S) (c1 c2 : RequestCtx LB) k1 k2 meta miss chunks
    (self self' : RedisBackend) n :
  uri (req_header s1) = uri (req_header s2) →
  (cache_key_callback (D:=D) s1 c1).2 = Ok k1 → (cache_key_callback (D:=D) s2 c2).2 = Ok k2 →
  get_miss_handler k1 meta self = Ok miss →
  finish_miss (write_chunks chunks miss) self = Ok (self', n) →
  reachable self self' (primary_bin k1) →
  lookup_key k2 self' = Ok (Some (meta, mkHit (concat chunks))).
Proof.
  intros Hu Hk1 Hk2 Hm Hf (pool & Hp & Hg & Hset & Hg' & Hget).
  rewrite <- (cache_key_ignores_body s1 s2 c1 c2 k1 k2 Hu Hk1 Hk2). by eapply redis_stored_found.
Qed.
End redis.

(** ** Sample runs *)

#[local] Existing Instances plain_reflection timed_cache timed_cache_laws plain_bincode
  plain_bincode_laws memory_redis memory_redis_laws.

#[local] Instance timed_clock : MetaClock hlist hlist := {|
  readings now now' := (now ≤ now')%Z;
  meta_new m := (fresh_until m, created m);
  meta_age m now := Z.max 0 (now - m.2);
  meta_is_fresh m now := (now <=? m.1)%Z;
|}.

#[local] Instance timed_clock_laws : MetaClockLaws hlist hlist.
Proof. split; simpl; [done|]. intros m now. by rewrite Z.leb_le. Qed.

(** A service whose method [GetData] may be cached for half a minute. *)
Definition short_spec : ServiceSpec (R:=plain_reflection) :=
  mkServiceSpec (R:=plain_reflection) test_service false
    (collect_methods (R:=plain_reflection) [mkPlainMethod (lit "GetData") (Some 30%Z)]).

Definition short_services : gmap bytes (ServiceData unit) :=
  {[lit "example.TestService" := mkServiceData 1 (Some short_spec) (Some tt)]}.

Notation Redis := (RedisBackend (gset Backend)).
Notation request := (mkRequest (H:=hlist) (St:=Redis) (Resp:=hlist)).
Notation run_step := (life_step (D:=bytes) (Resp:=hlist)).

(** A request with this body, after [request_filter]. *)
Definition passed (body : bytes) : ListSession hlist * RequestCtx unit :=
  (request_filter short_services (sample_session [body]) new_ctx).1.

Definition peer_select (lb : unit) : option Backend := Some (mkBackend (Inet 167772162 80) 1).

Definition peer_ctx (c : RequestCtx unit) : RequestCtx unit :=
  (upstream_peer peer_select (sample_session []) c).1.2.

Definition arrived (body : bytes) : Request hlist (ListSession hlist) unit Redis hlist :=
  request Arrived (sample_session [body]) new_ctx [].

Definition path_key : @CacheKey hlist (timed_cache hlist) :=
  (lit "http://localhost/example.TestService/GetData", None).

Definition response : list (Msg hlist hlist) :=
  [MsgHeader [] false; MsgBody (lit "he") false; MsgBody (lit "llo") false;
   MsgTrailers [hdr "grpc-status" "0"]].

(** The first request just before and after its response is stored, at time 100. *)
Definition miss_of (data : bytes) : RedisCacheMiss :=
  mkMiss (pos_bytes (countable.encode (160, 100)%Z), []) (lit "http://localhost/example.TestService/GetData") data.

Definition passed_a : ListSession hlist := cache_enable (passed (lit "a")).1.

Definition receiving_request (data : bytes) (ended : bool) (heard : list (Msg hlist hlist))
    : Request hlist (ListSession hlist) unit Redis hlist :=
  request (Receiving (H:=hlist) (St:=Redis) (Some (path_key, (160, 100)%Z, miss_of data)) ended)
    passed_a (peer_ctx (passed (lit "a")).2) heard.

Definition received_request := receiving_request (lit "hello") true response.

Definition finished_request : Request hlist (ListSession hlist) unit Redis hlist :=
  request (Finished None)
    passed_a (peer_ctx (passed (lit "a")).2) response.

Definition stored_redis : Redis :=
  match redis_finish (miss_of (lit "hello")) sample_redis with Ok (r, _) => r | _ => sample_redis end.

(** The second request, answered from the cache at time 135. *)
Definition hit_ctx (c : RequestCtx unit) : RequestCtx unit :=
  (cache_hit_filter 35 (sample_session []) c).1.2.

Definition served_request : Request hlist (ListSession hlist) unit Redis hlist :=
  request (Served (H:=hlist) (St:=Redis) path_key (160, 100)%Z (mkHit (lit "hello")) (Fresh 135) [])
    (cache_enable (passed (lit "b")).1) (hit_ctx (passed (lit "b")).2) [].

Definition sample_sys0 : Sys hlist (ListSession hlist) unit Redis hlist := mkSys sample_redis ∅ [].

Definition sample_entry := mkStored (H:=hlist) (St:=Redis) path_key (160, 100)%Z received_request.

Definition sample_sys : Sys hlist (ListSession hlist) unit Redis hlist :=
  mkSys stored_redis (<[1 := served_request]> (<[0 := finished_request]> ∅)) [sample_entry].

Lemma arrived_keyed (st : Redis) body :
  (request_filter short_services (sample_session [body]) new_ctx).2 = Ok false →
  do_cache (passed body).2 = true →
  uri (req_header (passed body).1) = lit "http://localhost/example.TestService/GetData" → body ≠ [] →
  rtc (run_step st) (arrived body)
    (request (Keyed (H:=hlist) (St:=Redis) path_key) (cache_enable (passed body).1) (passed body).2 []).
Proof.
  intros Hok Hdo Hpath Hbody.
  assert (path_key = key_default (req_header (passed body).1)) as ->
    by (cbn [key_default timed_cache]; by rewrite Hpath).
  eapply keyed_run; [done| |done|].
  2:{ unfold request_body. simpl. by rewrite (right_id_L [] (++)). }
  unfold passed. rewrite <- Hok. by rewrite <- !surjective_pairing.
Qed.

Lemma receiving_chunk (st : Redis) data chunk heard :
  run_step st (receiving_request data false heard)
    (receiving_request (data ++ chunk) false (heard ++ [MsgBody chunk false])).
Proof.
  exact (life_body (D:=bytes) (Storage0:=redis_storage) st passed_a (peer_ctx (passed (lit "a")).2) passed_a
           (peer_ctx (passed (lit "a")).2) (Some (path_key, (160, 100)%Z, miss_of data)) heard chunk false eq_refl).
Qed.

Lemma receiving_end (st : Redis) data t heard :
  ok_trailers t = true →
  run_step st (receiving_request data false heard)
    (receiving_request data true (heard ++ [MsgTrailers t])).
Proof.
  intros Hok. refine (life_trailers (D:=bytes) (Storage0:=redis_storage) st passed_a (peer_ctx (passed (lit "a")).2)
    passed_a (peer_ctx (passed (lit "a")).2) (Some (path_key, (160, 100)%Z, miss_of data)) heard t _).
  revert Hok. unfold upstream_response_trailer_filter, ok_trailers.
  destruct (status_parse t) as [gs| |]; [|done..]. by destruct (is_ok gs).
Qed.

Lemma arrived_received : rtc (run_step sample_redis) (arrived (lit "a")) received_request.
Proof.
  etrans; [apply arrived_keyed; [vm_refl..|done]|].
  eapply rtc_l; [apply (life_miss (H:=hlist) (St:=Redis)); vm_refl|].
  eapply rtc_l.
  { eapply (life_peer (H:=hlist) (St:=Redis) _ _ _ passed_a (peer_ctx (passed (lit "a")).2) _ _ peer_select (mkPeer (167772162, 80)%Z false [] true));
      [|vm_refl]. intros lb b [= <-]. simpl. eauto. }
  eapply (rtc_l _ _ (receiving_request [] false [MsgHeader [] false])).
  { eapply (life_header (Storage0:=redis_storage) (MetaClock0:=timed_clock) _ _ _ _ _ _ _ _ 100 100 [] false
              (mkCacheable 160 100 10 10 [])); [done|vm_refl|vm_refl|vm_refl]. }
  eapply rtc_l; [apply (receiving_chunk _ _ (lit "he"))|].
  eapply rtc_l; [apply (receiving_chunk _ _ (lit "llo"))|].
  apply rtc_once. apply (receiving_end _ _ [hdr "grpc-status" "0"]). vm_refl.
Qed.

Lemma arrived_served : rtc (run_step stored_redis) (arrived (lit "b")) served_request.
Proof.
  etrans; [apply arrived_keyed; [vm_refl..|done]|].
  eapply rtc_l; [apply (life_hit (Storage0:=redis_storage) stored_redis _ _ path_key (160, 100)%Z (mkHit (lit "hello"))); vm_refl|].
  apply rtc_once. eapply (life_serve (Storage0:=redis_storage)); vm_refl.
Qed.

(** Nobody else writes to this storage. *)
Definition nobody (slot : bytes) (meta : @CacheMeta hlist (timed_cache hlist)) (body : bytes) : Prop := False.

Lemma sample_sys0_start : sys_start nobody sample_sys0.
Proof.
  split_and!; [|done|done]. intros slot meta body (pool & s & d & Hv & _). simpl in Hv. by rewrite lookup_empty in Hv.
Qed.

Lemma sample_finish :
  finish_step sample_redis received_request stored_redis finished_request sample_entry.
Proof.
  refine (life_finish (Storage0:=redis_storage) sample_redis passed_a (peer_ctx (passed (lit "a")).2) path_key
    (160, 100)%Z (miss_of (lit "hello")) response stored_redis
    match redis_finish (miss_of (lit "hello")) sample_redis with Ok (_, n) => n | _ => 0 end _ _); vm_refl.
Qed.

Lemma sample_sys_reachable : rtc (sys_step (D:=bytes) nobody) sample_sys0 sample_sys.
Proof.
  eapply rtc_l; [by apply (sys_arrive nobody sample_sys0 0 (sample_session [lit "a"]))|].
  etrans; [eapply (sys_life_run nobody _ 0); [apply lookup_insert_eq|apply arrived_received]|].
  simpl. rewrite insert_insert_eq.
  eapply rtc_l.
  { eapply (sys_finish nobody _ 0); [apply lookup_insert_eq|].
    exact sample_finish. }
  simpl. rewrite insert_insert_eq.
  eapply rtc_l; [by apply (sys_arrive nobody _ 1 (sample_session [lit "b"]))|]. simpl.
  etrans; [eapply (sys_life_run nobody _ 1); [apply lookup_insert_eq|apply arrived_served]|].
  simpl. by rewrite insert_insert_eq.
Qed.

(** The second request is answered with what the first one got. *)
Lemma cache_provenance_witness :
  ∃ e, e ∈ sys_history sample_sys ∧ lit "hello" = body_of (rq_heard (sd_request e)).
Proof.
  destruct (cache_provenance (D:=bytes) nobody sample_sys0 sample_sys sample_sys0_start sample_sys_reachable)
    as (Hserved & _ & _).
  destruct (Hserved 1 served_request path_key (160, 100)%Z (mkHit (lit "hello")) (Fresh 135) [])
    as (body & Hc & [(e & He & Hbody & _)|Hno]).
  - apply lookup_insert_eq.
  - reflexivity.
  - exists e. split; [exact He|]. rewrite (Hc (lit "hello")); [exact Hbody|]. right. reflexivity.
  - destruct Hno.
Defined.

Lemma served_age_bounds_witness : (0 < 30 ≤ 35)%Z ∧ (35 ≤ 60 + 0)%Z.
Proof.
  refine (served_age_bounds (D:=bytes) (Resp:=hlist) nobody 0 sample_sys0 sample_sys 1 served_request path_key
           (160, 100)%Z (mkHit (lit "hello")) 135 []
           (mkGrpcMeta (mkServiceData 1 (Some short_spec) (Some tt)) (lit "GetData") sample_vary)
           (mkCacheSpec [] (mkOptions 30)) _ _ _ _ _ _ _ _ _).
  - simpl. lia.
  - lia.
  - intros slot meta body Hno. destruct Hno.
  - exact sample_sys0_start.
  - exact sample_sys_reachable.
  - apply lookup_insert_eq.
  - reflexivity.
  - vm_refl.
  - vm_refl.
Defined.

(** An error in the header block. *)
Definition header_only : list (Msg hlist hlist) := [MsgHeader [hdr "grpc-status" "14"] true].

Definition header_only_redis : Redis :=
  match redis_finish (miss_of []) sample_redis with Ok (r, _) => r | _ => sample_redis end.

Lemma sample_reachable (self : Redis) :
  pools self = pools sample_redis → reachable sample_redis self (lit "http://localhost/example.TestService/GetData").
Proof.
  intros _. exists (167772161, 6379)%Z. split_and!; [vm_refl|vm_refl|reflexivity|reflexivity|].
  eexists. reflexivity.
Qed.

Lemma response_stored_iff_witness :
  lookup_key (H:=hlist) path_key header_only_redis = Ok (Some ((160, 100)%Z, mkHit [])).
Proof.
  destruct (response_stored_iff (MetaClock0:=timed_clock) passed_a (passed (lit "a")).2 header_only
    path_key 100 100 sample_redis header_only_redis) as (resp & eos & tl & Heq & Hl).
  - reflexivity.
  - reflexivity.
  - vm_refl.
  - injection Heq as <- <- <-. apply Hl. apply sample_reachable. vm_refl.
Defined.

Lemma same_uri_same_entry_witness :
  lookup_key (H:=hlist) path_key stored_redis = Ok (Some ((160, 100)%Z, mkHit (lit "hello"))).
Proof.
  apply (same_uri_same_entry (D:=bytes) (passed (lit "a")).1 (passed (lit "b")).1 (passed (lit "a")).2
           (passed (lit "b")).2 path_key path_key (160, 100)%Z (miss_of []) [lit "he"; lit "llo"]
           sample_redis stored_redis
           match redis_finish (miss_of (lit "hello")) sample_redis with Ok (_, n) => n | _ => 0 end).
  - vm_refl.
  - vm_refl.
  - vm_refl.
  - vm_refl.
  - vm_refl.
  - apply sample_reachable. vm_refl.
Defined.
