(* ===== verification/LifecycleEnd.v ===== *)
(** * LifecycleEnd: requests that do not end

    pingora reads a hit until it returns [None]. [HandleHit::read_body] of the Redis backend
    returns the whole body at every call and never [None], so a request that is answered
    from Redis ends only when its client goes away. *)

From stdpp Require Import gmap strings list relations.
From Stdlib Require Import Strings.Byte.
From S2P Require Import Prelude Text Headers Hash Status Path Crd ServiceSpec ServiceStore.
From S2P Require Import Discovery Cache Redis Session StorageSpec Proxy ProxyProps Lifecycle LifecycleProps.

Section ends.
Context {R : Reflection} {H S D LB Cons Resp : Type}.
Context `{!HeaderMap H, !Session H S, !PingoraCache H, !Digest D, BL : BalancerLaws Cons}.
Context {BC : Bincode} {RC : RedisClient} `{!MetaClock H Resp}.
Notation RedisBackend := (RedisBackend Cons).
Notation Request := (Request H S LB RedisBackend Resp).
Notation serving key meta hit how sent s c :=
  (mkRequest (St:=RedisBackend) (Resp:=Resp) (Served (H:=H) (St:=RedisBackend) key meta hit how sent) s c []).
Implicit Types (s : S) (c : RequestCtx LB) (r : Request) (hit : RedisCacheHit).

(** A step of the request, over whatever Redis is at the time. *)
Definition own_step r r' : Prop := ∃ st, life_step (D:=D) st r r'.

(** The client went away. *)
Definition gone r : Prop :=
  ∃ e, rq_phase r = Finished (Some e) ∨ (rq_phase r = Logged ∧ span_error (span (rq_ctx r)) = Some e).

Lemma gone_step r r' : own_step r r' → gone r → gone r'.
Proof.
  intros [st Hs] (e & He). destruct Hs as [| | | | | | | | | | | | | | | | | | | | | | | | |r Hpan];
    simpl in He; destruct He as [He|[He _]]; try done.
  - injection He as ->. exists e. right. unfold logging, on_context in *. by simplify_eq/=.
  - unfold panics in Hpan. by rewrite He in Hpan.
  - unfold panics in Hpan. by rewrite He in Hpan.
Qed.

Lemma served_step key meta hit how sent s c r' :
  own_step (serving key meta hit how sent s c) r' →
  r' = serving key meta hit how (sent ++ [hit_data hit]) s c ∨ gone r'.
Proof.
  intros [st Hs]. inversion Hs; simplify_eq/=.
  - match goal with Hr : redis_read_body hit = _ |- _ => injection Hr as <- <- end. by left.
  - right. unfold gone. simpl. eauto.
  - by match goal with Hpan : panics _ _ |- _ => destruct Hpan end.
Qed.

Lemma served_steps n key meta hit how sent s c r' :
  nsteps own_step n (serving key meta hit how sent s c) r' →
  r' = serving key meta hit how (sent ++ replicate n (hit_data hit)) s c ∨ gone r'.
Proof.
  assert (∀ m r r', nsteps own_step m r r' → gone r → gone r') as Hgone
    by (induction 1; eauto using gone_step).
  revert sent. induction n as [|n IH]; intros sent Hn; inversion Hn as [|? ? r1 ? Hs Hn']; simplify_eq.
  { left. simpl. by rewrite (right_id_L [] (++)). }
  apply served_step in Hs as [->|Hg]; [|eauto]. apply IH in Hn' as [->|?]; [left|by right].
  by rewrite <- (assoc_L (++)).
Qed.

Lemma served_again (st : RedisBackend) n key meta hit how sent s c :
  nsteps (life_step (D:=D) st) n (serving key meta hit how sent s c)
    (serving key meta hit how (sent ++ replicate n (hit_data hit)) s c).
Proof.
  revert sent. induction n as [|n IH]; intros sent; simpl; [rewrite (right_id_L [] (++)); constructor|].
  econstructor; [by apply (life_read (Storage0:=redis_storage) st s c key meta hit how sent hit (hit_data hit))|].
  specialize (IH (sent ++ [hit_data hit])). by rewrite <- (assoc_L (++)) in IH.
Qed.

(** C10: A hit in Redis does not end: however many steps a request that is answered from Redis
    makes, it is still being answered, with the whole body sent once more for every step,
    or its client has gone away, which is logged as an error; it never comes to a regular
    end. And there is always one more step: the body can be sent any number of times. *)
Theorem redis_hit_endless key meta hit how s c n :
  (∀ r', nsteps own_step n (serving key meta hit how [] s c) r' →
     r' = serving key meta hit how (replicate n (hit_data hit)) s c ∨ gone r')
  ∧ ∀ st : RedisBackend, nsteps (life_step (D:=D) st) n (serving key meta hit how [] s c)
            (serving key meta hit how (replicate n (hit_data hit)) s c).
Proof. split; [intros r'; apply served_steps|intros st; apply served_again]. Qed.
End ends.
