(* ===== verification/EndToEnd.v ===== *)
(** * EndToEnd: from the cluster to the proxy

    Compositions of the components: the events of the watcher pass through
    [resource_changes] into the service store, whose routing table then follows the
    cluster; and the answer of the resolver reaches the peer that [upstream_peer]
    chooses. *)

From stdpp Require Import gmap strings list fin_maps relations.
From Stdlib Require Import Strings.Byte.
From S2P Require Import Prelude Text Headers Hash Crd DescriptorSet ServiceSpec ResourceChange.
From S2P Require Import ServiceStore StoreInv StoreRace StoreRouting Discovery DiscoveryInv DiscoveryProps.
From S2P Require Import Cache Session Proxy.

(** ** From the cluster to the routing table *)

Section cluster.
Context {R : Reflection} {DnsSt LB : Type} `{DnsHandleLaws DnsSt LB}.
Context {E : Type} (load : DescriptorSetSource → outcome E (list FileDescriptorProto)) `{!HashOrder}.
Implicit Types (st : ServiceConfigState DnsSt LB).

(** The resources of the cluster: versions identify their states, service names are
    qualified, and a resource keeps its service name. *)
Definition cluster_ok (P : GrcacheService → Prop) : Prop :=
  versioned P ∧ (∀ o, P o → dot ∈ service_name (spec o))
  ∧ ∀ o o', P o → P o' → from_obj o = from_obj o' → service_name (spec o) = service_name (spec o').

Context (P : GrcacheService → Prop) (HP : cluster_ok P).

(** Only resources of the events are passed on. *)
Lemma on_event_applies n ev (s : ChangeState) s' out r :
  event_ok P ev → on_event n ev s = Ok (s', out) → Apply r ∈ out → P r.
Proof.
  intros Hok He Hr.
  assert (∀ k ver r0 objs objs' out', entry_apply k ver r0 objs = (objs', out') →
            Apply r ∈ out' → r = r0) as Hentry.
  { intros k ver r0 objs objs' out'. unfold entry_apply. intros Heq Hin.
    destruct (objs !! k); [case_decide|]; simplify_eq; set_solver. }
  destruct ev as [|r0| |r0|r0|e]; simpl in He.
  - injection He as <- <-. by apply elem_of_nil in Hr.
  - destruct (resource_version r0); [|done]. simpl in He.
    destruct (entry_apply _ _ _ _) as [objs out'] eqn:Hen. injection He as <- <-.
    rewrite (Hentry _ _ _ _ _ _ Hen Hr). by apply Hok.
  - injection He as <- <-. apply elem_of_app in Hr as [(k & ? & _)%list_elem_of_fmap|Hr]; [done|].
    by apply list_elem_of_singleton in Hr.
  - destruct (resource_version r0); [|done]. simpl in He.
    destruct (entry_apply _ _ _ _) as [objs out'] eqn:Hen. injection He as <- <-.
    rewrite (Hentry _ _ _ _ _ _ Hen Hr). by apply Hok.
  - injection He as <- <-. by apply list_elem_of_singleton in Hr.
  - injection He as <- <-. by apply list_elem_of_singleton in Hr.
Qed.

Lemma resource_changes_applies n evs (s : ChangeState) s' out r :
  Forall (event_ok P) evs → resource_changes n evs s = Ok (s', out) → Apply r ∈ out → P r.
Proof.
  revert n s out. induction evs as [|ev evs IH]; intros n s out Hok Hrun Hr; simpl in Hrun.
  { injection Hrun as <- <-. by apply elem_of_nil in Hr. }
  apply list.Forall_cons in Hok as [Hev Hok].
  apply outcome_bind_Ok in Hrun as ([s1 out1] & H1 & Hrun).
  apply outcome_bind_Ok in Hrun as ([s2 out2] & H2 & [= <- <-]).
  apply elem_of_app in Hr as [Hr|Hr]; [by eapply on_event_applies|by eapply IH].
Qed.

(** A task of the store finishes successfully. *)
Inductive task_done : ServiceConfigState DnsSt LB → ServiceConfigState DnsSt LB → Prop :=
| task_done_run st l1 t l2 m :
    tasks st = l1 ++ t :: l2 → run_task (load (t_source t)) t (services st) = Ok m →
    task_done st (with_tasks m (l1 ++ l2) st).

(** The loop of the store takes the changes in order; meanwhile tasks finish and discovery
    runs. *)
Inductive store_run : list (Change GrcacheService) →
    ServiceConfigState DnsSt LB → ServiceConfigState DnsSt LB → Prop :=
| store_run_end st : store_run [] st st
| store_run_change c cs st st1 st' :
    on_change c st = Ok st1 → store_run cs st1 st' → store_run (c :: cs) st st'
| store_run_task cs st st1 st' :
    task_done st st1 → store_run cs st1 st' → store_run cs st st'
| store_run_dns cs st d st' :
    dns_ok d → store_run cs (with_dns d st) st' → store_run cs st st'.

(** The resources of the store are those of the cluster. *)
Definition cluster_state st : Prop := store_inv st ∧ ∀ k o, raw_services st !! k = Some o → P o.

(** A change of such a resource succeeds. *)
Lemma on_change_cluster c st :
  cluster_state st → (∀ r, c = Apply r → P r) →
  ∃ st1, on_change c st = Ok st1 ∧ raw_services st1 = apply_change (raw_services st) c
    ∧ (∀ o, c = Apply o → keeps_name o st) ∧ cluster_state st1.
Proof.
  intros [Hinv Hraw] Hc.
  assert (∃ st1, on_change c st = Ok st1 ∧ raw_services st1 = apply_change (raw_services st) c
            ∧ (∀ o, c = Apply o → keeps_name o st)) as (st1 & Hon & Hr1 & Hk).
  { destruct c as [|o|r|e]; simpl; [by eexists| | |by eexists].
    - assert (P o) as Ho by (by apply Hc). destruct HP as (_ & Hdot & Hname).
      destruct (apply_service_inv st o Hinv (Hdot _ Ho)) as (st1 & ? & _ & ?).
      exists st1. split_and!; [done..|]. intros o' [= <-] p Hp. apply Hname; [eauto|done|].
      by destruct (inv_raw _ Hinv _ _ Hp).
    - destruct (remove_service_inv st r Hinv) as (st1 & ? & _ & ?). by exists st1. }
  exists st1. split_and!; [done..|]. split; [by eapply on_change_inv|].
  intros k o. rewrite Hr1. destruct c as [|r|k'|e]; simpl; [apply Hraw| |..|apply Hraw].
  - rewrite lookup_insert. case_decide; [|apply Hraw]. intros [= <-]. by apply Hc.
  - rewrite lookup_delete. case_decide; [done|apply Hraw].
Qed.

(** The store follows the changes, in a quiet run. *)
Lemma store_run_quiet cs st st' :
  store_run cs st st' → cluster_state st → (∀ r, Apply r ∈ cs → P r) →
  rtc (quiet_step load) st st' ∧ raw_services st' = apply_changes (raw_services st) cs ∧ cluster_state st'.
Proof.
  induction 1 as [st|c cs st st1 st' Hc _ IH|cs st st1 st' Ht _ IH|cs st d st' Hd _ IH]; intros Hcl Hcs.
  - done.
  - destruct (on_change_cluster c st Hcl) as (st2 & Hc2 & Hraw & Hk & Hcl2); [intros r ->; set_solver|].
    assert (st2 = st1) as -> by congruence. destruct (IH Hcl2) as (Hq & Hr & ?); [set_solver|].
    split_and!; [eapply rtc_l; [by eapply (quiet_change load)|done]| |done]. by rewrite Hr, Hraw.
  - destruct Ht as [st l1 t l2 m Hl Hrun]. destruct Hcl as [Hinv Hraw].
    destruct IH as (Hq & Hr & ?); [|done|].
    { split; [|done]. pose proof (quiet_task load st l1 t l2 m Hl Hrun) as Hq.
      apply finish_task_run in Hrun as [-> _]. eapply task_step_inv; [done|]. by constructor. }
    split_and!; [|done..]. eapply rtc_l; [by eapply quiet_task|done].
  - destruct Hcl as [Hinv Hraw]. destruct IH as (Hq & Hr & ?); [split; [by destruct Hinv|done]|done|].
    split_and!; [|done..]. eapply rtc_l; [by apply quiet_dns|done].
Qed.

(** What the routing table is to be, for the resources in the cluster. *)
Definition follows (view : gmap ObjectRef GrcacheService) st : Prop :=
  ∀ n,
    (∀ o, view !! from_obj o = Some o → service_name (spec o) = n →
       (∀ r p, view !! r = Some p → service_name (spec p) = n → ref_le (from_obj o) r) →
       ∃ e, services st !! n = Some e ∧ routed load o e)
    ∧ ((∀ r p, view !! r = Some p → service_name (spec p) ≠ n) →
       ∀ e, services st !! n = Some e → tombstone e).

Lemma settled_follows st : store_inv st → settled load st → tasks st = [] → follows (raw_services st) st.
Proof.
  intros Hinv Hset Hnil n. specialize (Hset n). rewrite Hnil in Hset. split.
  - intros o Ho Hn Hle.
    assert (selected st n = Some o) as Hsel.
    { unfold selected. apply bind_Some. exists (from_obj o). split; [|done].
      apply min_by_key_spec. split; [apply elem_of_elements, (inv_refs _ Hinv); eauto|].
      intros r Hr%elem_of_elements%(inv_refs _ Hinv). destruct Hr as (p & ? & ?). eauto. }
    rewrite Hsel in Hset. destruct Hset as [(e & ? & ? & _)|(t & Ht & _)]; [eauto|].
    by apply elem_of_nil in Ht.
  - intros Hnone e He.
    assert (selected st n = None) as Hsel.
    { apply (selected_None _ _ Hinv). apply set_eq. intros r. split; [|set_solver].
      intros (p & Hp & Hn)%(inv_refs _ Hinv). by destruct (Hnone _ _ Hp). }
    rewrite Hsel in Hset. simpl in Hset. rewrite He in Hset. by destruct Hset.
Qed.

(** C1: From the cluster to the routing table, for a cluster whose resources have qualified
    service names that they keep. Whatever events the watcher sends, in any sequence that
    conforms to its protocol, with reconnects and relists, the change stream does not
    panic, and the store does not panic on any of its changes, however loading tasks and
    discovery run in between. If these tasks succeed, then when all changes are taken and
    no task is left, each service name is routed to the upstream and the specification of
    the least resource the cluster holds for it, and a name no resource of the cluster has
    is not routed. *)
Theorem cluster_routing k evs v d :
  dns_ok d → view_events evs view_init = Some v → Forall (event_ok P) evs → listing v = None →
  ∃ s out, resource_changes k evs change_init = Ok (s, out)
    ∧ (∀ cs1 c cs2 st, out = cs1 ++ c :: cs2 → store_run cs1 (store_new d) st →
         ∃ st1, on_change c st = Ok st1)
    ∧ (∀ st, store_run out (store_new d) st →
         raw_services st = view v ∧ (tasks st = [] → follows (view v) st)).
Proof.
  intros Hd Hview Hok Hlist. destruct HP as (Hver & _ & _).
  destruct (resource_changes_sim P Hver k _ _ _ _ _ (sim_init P) Hview Hok)
    as (s & out & Hrun & _ & Hm). rewrite Hlist in Hm.
  assert (cluster_state (store_new d)) as Hstart.
  { split; [apply store_inv_new|]. intros r o. simpl. by rewrite lookup_empty. }
  assert (∀ r, Apply r ∈ out → P r) as Happ by (intros r; by eapply resource_changes_applies).
  exists s, out. split_and!; [done|..].
  - intros cs1 c cs2 st -> Hst. destruct (store_run_quiet _ _ _ Hst Hstart) as (_ & _ & Hcl); [set_solver|].
    destruct (on_change_cluster c st Hcl) as (st1 & ? & _); [intros r ->; set_solver|]. eauto.
  - intros st Hst. destruct (store_run_quiet _ _ _ Hst Hstart Happ) as (Hq & Hraw & _).
    assert (raw_services st = view v) as <- by (rewrite Hraw; exact Hm). split; [done|].
    destruct (quiet_settled load d st Hd Hq). by apply settled_follows.
Qed.
End cluster.

(** ** Services with bucket sources *)

Section buckets.
Context {R : Reflection} {DnsSt LB : Type} `{!DnsHandle DnsSt LB}.
Context {AnyError : Type} {env : SourceEnv (list FileDescriptorProto) AnyError}.
Implicit Types (st : ServiceConfigState DnsSt LB).

(** [descriptor_set::from_source(&DummyPanicContext, &source)] of the spawned task. *)
Definition store_load (source : DescriptorSetSource) : outcome (DescriptorSetError env)
    (list FileDescriptorProto) :=
  from_source mkDummyPanicContext source.

Context (P : GrcacheService → Prop).

(** Runs of the store on resources that satisfy [P], with the loads the code makes. *)
Inductive run_step : ServiceConfigState DnsSt LB → ServiceConfigState DnsSt LB → Prop :=
| run_change st c st' :
    (∀ o, c = Apply o → P o) → on_change c st = Ok st' → run_step st st'
| run_finish st l1 t l2 :
    tasks st = l1 ++ t :: l2 →
    run_step st (with_tasks (finish_task (store_load (t_source t)) t (services st)) (l1 ++ l2) st)
| run_dns st d :
    run_step st (with_dns d st).

Definition bucket_source (source : DescriptorSetSource) : Prop :=
  ∃ bucket hash, source = SrcBucket bucket hash.

Context (n : bytes).
Context (Hn : ∀ o, P o → service_name (spec o) = n →
  ∃ source, descriptor_set_source (spec o) = Some source ∧ bucket_source source).

Record unloadable (st : ServiceConfigState DnsSt LB) : Prop := {
  u_inv : store_inv st;
  u_raw : ∀ r o, raw_services st !! r = Some o → P o;
  u_tasks : ∀ t, t ∈ tasks st → t_service_name t = n → bucket_source (t_source t);
  u_entry : ∀ e, services st !! n = Some e → load_balancer e = None;
}.

Lemma update_service_unloadable st st' n' :
  unloadable st → is_Some (ref_by_grpc_service st !! n') → update_service n' st = Ok st' →
  unloadable st'.
Proof.
  intros [Hinv Hraw Htk He] Hsome Hup. pose proof (update_service_inv st n' Hinv Hsome) as Hup'.
  destruct Hup' as (st'' & Heq' & Hinv' & Hraw' & _). assert (st'' = st') as -> by congruence.
  pose proof (update_service_eq st n' Hinv Hsome) as Heq.
  split; [done|by rewrite Hraw'|..]; destruct (selected st n') as [o|] eqn:Hsel.
  - destruct (selected_Some _ _ _ Hinv Hsel) as (Ho & Hname & _).
    destruct Heq as (q & _ & Heq). rewrite Heq in Hup. injection Hup as <-.
    destruct (descriptor_set_source (spec o)) as [src|] eqn:Hsrc; [|done].
    intros t [Ht|Ht]%elem_of_app Hnm; [auto|]. apply list_elem_of_singleton in Ht as ->.
    simpl in *. subst n'. destruct (Hn o (Hraw _ _ Ho) Hnm) as (s & Hs & ?). by simplify_eq.
  - rewrite Heq in Hup. by injection Hup as <-.
  - destruct (selected_Some _ _ _ Hinv Hsel) as (Ho & Hname & _).
    destruct Heq as (q & _ & Heq). rewrite Heq in Hup. injection Hup as <-.
    destruct (descriptor_set_source (spec o)) as [src|] eqn:Hsrc; [done|]. simpl.
    intros e. rewrite lookup_insert. case_decide as Hc; [|apply He]. subst n'.
    destruct (Hn o (Hraw _ _ Ho) Hc) as (s & Hs & _). congruence.
  - rewrite Heq in Hup. injection Hup as <-. simpl. intros e. rewrite lookup_insert.
    case_decide; [by intros [= <-]|apply He].
Qed.

Lemma on_change_unloadable c st st' :
  unloadable st → (∀ o, c = Apply o → P o) → on_change c st = Ok st' → unloadable st'.
Proof.
  intros Hu HP. pose proof Hu as [Hinv Hraw Htk He].
  destruct c as [|o|r|e]; simpl.
  - intros [= <-]. split; [by destruct Hinv|done..].
  - destruct (decide (dot ∈ service_name (spec o))) as [Hd|Hd]; [|by rewrite apply_service_panics].
    destruct (apply_service_eq st o Hinv)
      as (st1 & _ & Hinv1 & Hnone & -> & Hraw' & Hsome & Hsv & Htk' & _).
    apply update_service_unloadable; [|done]. split.
    + by apply insert_service_inv.
    + intros r o'. rewrite Hraw', lookup_insert. case_decide; [|apply Hraw].
      intros [= <-]. by apply HP.
    + simpl. by rewrite Htk'.
    + simpl. by rewrite Hsv.
  - destruct (remove_noupdate_inv st r Hinv)
      as (st1 & Hrm & Hinv1 & Hraw' & _ & _ & Hsome & Hsv & Htk' & _).
    unfold remove_service. rewrite Hrm. simpl.
    assert (unloadable st1) as Hu1.
    { split; [done| |by rewrite Htk'|by rewrite Hsv]. intros r' o'. rewrite Hraw', lookup_delete.
      case_decide; [done|apply Hraw]. }
    destruct (raw_services st !! r) as [p|]; [|by intros [= <-]].
    apply update_service_unloadable; [done|]. by apply Hsome.
  - by intros [= <-].
Qed.

Lemma bucket_task_dies (t : Task LB) (m : gmap bytes (ServiceData LB)) :
  bucket_source (t_source t) → finish_task (store_load (t_source t)) t m = m.
Proof. by intros (b & h & ->). Qed.

Lemma run_step_unloadable st st' : run_step st st' → unloadable st → unloadable st'.
Proof.
  intros Hstep Hu. pose proof Hu as [Hinv Hraw Htk He].
  destruct Hstep as [st c st' HP Hc|st l1 t l2 Hl|st d].
  - by eapply on_change_unloadable.
  - split; [eapply task_step_inv; [done|]; by constructor|done|..].
    + simpl. intros t' Ht'. apply Htk. rewrite Hl. set_solver.
    + simpl. rewrite finish_task_lookup. case_decide as Hnm; [|done].
      destruct (Htk t) as (b & h & Hs); [rewrite Hl; set_solver|done|]. rewrite Hs. done.
  - split; [by destruct Hinv|done..].
Qed.

(** C36: Services with bucket sources are never routed: the task that loads a descriptor
    set passes [DummyPanicContext], whose bucket loader panics, so a service name all
    resources of which have a bucket source never gets a load balancer, and requests for
    it are answered as for an unknown service. *)
Theorem bucket_service_unroutable d st :
  rtc run_step (store_new d) st →
  ∀ e, services st !! n = Some e → load_balancer e = None.
Proof.
  intros Hr.
  assert (unloadable (store_new d)) as Hu.
  { split; [apply store_inv_new|..]; simpl.
    - intros r o. by rewrite lookup_empty.
    - intros t Ht. by apply elem_of_nil in Ht.
    - intros e. by rewrite lookup_empty. }
  apply u_entry. induction Hr; eauto using run_step_unloadable.
Qed.
End buckets.

(** ** From the resolver to the peer *)

Section peer.
Context {R : Reflection} {RR Cons : Type} `{HRR : BalancerLaws RR, HCons : BalancerLaws Cons}.
Context {H S : Type} `{!Session H S}.

(** [load_balancer_round_robin.select(b"", 256)] of a handle. *)
Definition select_upstream (st : Discovery RR Cons) (r : HandleRef) : option Backend :=
  (select_round_robin [] 256 r st).2.

(** What is selected from a handle that holds the answer of the resolver. *)
Lemma select_upstream_cases (st : Discovery RR Cons) r h addrs port :
  handles st !! h_id r = Some h →
  lb_backends (load_balancer_round_robin h) = backends_of addrs port →
  match select_upstream st r with
  | Some b => ∃ ip, ip ∈ addrs ∧ b = mkBackend (Inet ip port) 1
  | None => addrs = []
  end.
Proof.
  intros Hh Hrr. unfold select_upstream, select_round_robin. rewrite Hh.
  pose proof (lb_select_cases [] 256 (load_balancer_round_robin h) ltac:(lia)) as Hs. revert Hs.
  destruct (lb_select [] 256 (load_balancer_round_robin h)) as [l [b|]]; simpl; rewrite Hrr; intros Hs.
  - unfold backends_of in Hs. rewrite elem_of_list_to_set in Hs.
    apply list_elem_of_fmap in Hs as (ip & -> & Hip). eauto.
  - destruct addrs as [|ip addrs]; [done|]. exfalso.
    assert (mkBackend (Inet ip port) 1 ∈ backends_of (ip :: addrs) port) as Hin
      by (unfold backends_of; simpl; apply elem_of_union_l; by apply elem_of_singleton).
    rewrite Hs in Hin. by apply elem_of_empty in Hin.
Qed.

(** C7: From the resolver to the peer. When the discovery loop of a service's handle has
    completed a round with an answer of the resolver, a request for this service is sent
    to one of the addresses of the answer, at the port of the upstream; if the answer is
    empty, the request fails with 502. *)
Theorem peer_from_dns (st : Discovery RR Cons) i k id w addrs (s : S)
    (c : RequestCtx HandleRef) m :
  rtc disc_step discovery_new st →
  loops st !! i = Some (mkLoop k id (AtLookup w)) → live st id →
  grpc_meta c = Some m → load_balancer (service_data m) = Some (mkHandleRef id k) →
  ∃ st', run_round 5 (Some addrs) i st = Ok st' ∧
    match addrs with
    | [] => (upstream_peer (select_upstream st') s c).2
            = Err (mkPError (HTTPStatus 502) (lit "no upstream available"))
    | _ => ∃ ip, ip ∈ addrs ∧
           (upstream_peer (select_upstream st') s c).2 = Ok (mkPeer (ip, k.2) false [] true)
    end.
Proof.
  intros Hr%disc_inv_reachable Hl Hlive Hm Hlb.
  destruct (discovery_round_run st i k id w addrs Hr Hl Hlive)
    as (st' & h & Hrun & _ & Hh & _ & _ & Hrr & _).
  exists st'. split; [done|].
  unfold upstream_peer, mbind, handler_bind, context, lift. rewrite Hm. simpl. rewrite Hlb. simpl.
  pose proof (select_upstream_cases st' (mkHandleRef id k) h addrs k.2 Hh Hrr) as Hs.
  destruct (select_upstream st' (mkHandleRef id k)) as [b|]; [|by subst addrs].
  destruct Hs as (ip & Hip & ->). simpl. destruct addrs; [by apply elem_of_nil in Hip|]. eauto.
Qed.
End peer.

(** ** Sample runs *)

#[local] Existing Instances plain_reflection direct_dns direct_target direct_laws.

Lemma sample_cluster_ok : cluster_ok (.∈ [svc "a" "1" "p.A"; svc "b" "2" "p.B"; svc "a" "3" "p.A"]).
Proof.
  assert (∀ r, r ∈ [svc "a" "1" "p.A"; svc "b" "2" "p.B"; svc "a" "3" "p.A"] →
            r = svc "a" "1" "p.A" ∨ r = svc "b" "2" "p.B" ∨ r = svc "a" "3" "p.A") as Hcases
    by set_solver.
  split_and!; [split|..].
  - intros r [->|[->| ->]]%Hcases; simpl; eauto.
  - intros r1 r2 [->|[->| ->]]%Hcases [->|[->| ->]]%Hcases; done.
  - intros r [->|[->| ->]]%Hcases; by apply (bool_decide_unpack _); vm_compute.
  - intros r1 r2 [->|[->| ->]]%Hcases [->|[->| ->]]%Hcases; done.
Qed.

(** Two services are listed, one is updated, the watch restarts and the other is gone. *)
Definition cluster_events : list (Event GrcacheService) :=
  [Init; InitApply (svc "a" "1" "p.A"); InitApply (svc "b" "2" "p.B"); InitDone;
   EvApply (svc "a" "3" "p.A"); Init; InitApply (svc "a" "3" "p.A"); InitDone].

#[local] Instance list_order : HashOrder := {| visit _ l := l; visit_perm _ _ := reflexivity _ |}.

Lemma cluster_routing_witness :
  ∃ s out, resource_changes 0 cluster_events change_init = Ok (s, out)
    ∧ ∀ st, store_run test_source out (store_new tt) st →
        (raw_services st : gmap ObjectRef GrcacheService)
        = {[from_obj (svc "a" "3" "p.A") := svc "a" "3" "p.A"]}.
Proof.
  destruct (cluster_routing test_source _ sample_cluster_ok 0 cluster_events
    (mkView {[from_obj (svc "a" "3" "p.A") := svc "a" "3" "p.A"]} None) tt)
    as (s & out & Hrun & _ & Hst).
  - exact I.
  - reflexivity.
  - unfold cluster_events. rewrite !list.Forall_cons. split_and!; [..|by constructor];
      intros r Hr; simpl in Hr; simplify_eq; apply list_elem_of_In; simpl; auto.
  - reflexivity.
  - exists s, out. split; [exact Hrun|]. intros st Hr. apply (Hst st Hr).
Defined.

Definition peer_ctx : RequestCtx HandleRef :=
  mkCtx noop_span false
    (Some (mkGrpcMeta (mkServiceData 1 None (Some (mkHandleRef 0 redis_host))) (lit "GetData") ∅)).

Lemma peer_from_dns_witness :
  ∃ st', run_round 5 (Some [7%Z]) 0 sample_started = Ok st' ∧
    ∃ ip, ip ∈ [7%Z] ∧
      (upstream_peer (select_upstream st')
         (mkSession (sample_request "/p.A/Get") [] None None 64 false) peer_ctx).2
      = Ok (mkPeer (ip, 6379%Z) false [] true).
Proof.
  destruct (peer_from_dns sample_started 0 redis_host 0 (mkHandleRef 0 redis_host) [7%Z]
    (mkSession (sample_request "/p.A/Get") [] None None 64 false) peer_ctx
    (mkGrpcMeta (mkServiceData 1 None (Some (mkHandleRef 0 redis_host))) (lit "GetData") ∅))
    as (st' & Hrun & Hp).
  - exact sample_started_new.
  - vm_refl.
  - apply not_dead_live. vm_refl.
  - reflexivity.
  - reflexivity.
  - exists st'. split; [exact Hrun|exact Hp].
Defined.

(** A service with a bucket source, applied and deleted again. *)
Definition bucket_svc : GrcacheService :=
  mkService (Some (lit "default")) (lit "a") (Some (lit "1"))
    (mkSpec default_string None (Dns (lit "up") default_grpc_port) (lit "p.A")
       (Some (SrcBucket (lit "bucket") (lit "00")))).

#[local] Instance test_env : SourceEnv (list (@FileDescriptorProto plain_reflection)) unit := {|
  IoError := unit; DecodeError := unit; PbError := unit;
  read_file _ := Err tt;
  sha256 s := s;
  base64_decode _ := Err tt;
  parse_from_bytes _ := Ok [test_file];
|}.

Lemma bucket_service_unroutable_witness :
  services (state_after [Apply bucket_svc; Delete (from_obj bucket_svc)]) !! lit "p.A"
    = Some (mkServiceData 1 None None)
  ∧ load_balancer (mkServiceData (R:=plain_reflection) (LB:=bytes * Z) 1 None None) = None.
Proof.
  split; [vm_refl|].
  apply (bucket_service_unroutable (env:=test_env) (.= bucket_svc) (lit "p.A")) with (d := tt)
    (st := state_after [Apply bucket_svc; Delete (from_obj bucket_svc)]).
  - intros o Ho Hname. exists (SrcBucket (lit "bucket") (lit "00")). rewrite Ho.
    split; [reflexivity|]. exists (lit "bucket"), (lit "00"). reflexivity.
  - eapply rtc_l; [|apply rtc_once].
    + apply (run_change _ _ (Apply bucket_svc)); [intros o Heq; congruence|].
      apply (state_after_snoc []). vm_refl.
    + apply (run_change _ _ (Delete (from_obj bucket_svc))); [intros o Heq; congruence|].
      apply (state_after_snoc [Apply bucket_svc]). vm_refl.
  - vm_refl.
Defined.
