(* ===== verification/Main.v ===== *)
(** * Main: [main.rs], the system put together

    [startup] is what [main] does before [server.run_forever()]: it checks the
    configuration ([config/mod.rs]), creates the health tracker with its root endpoint,
    discovery, the service store with the second endpoint and the Redis backend with the
    third. [system_step] interleaves the services from then on: the loop of the store and
    its tasks, discovery, and the three tasks that report readiness. A panic of the store's
    loop ends its service, which drops its health endpoint. *)

From stdpp Require Import gmap strings list fin_maps relations.
From Stdlib Require Import Strings.Byte.
From S2P Require Import Prelude Text Health Crd ServiceSpec ResourceChange ServiceStore StoreInv.
From S2P Require Import Discovery DiscoveryInv DiscoveryProps.

(** ** [config/mod.rs] *)

Definition default_redis_port : Z := 6379.

Inductive TracingExporterConfig := Otlp.

Record TracingConfig := mkTracing {
  datadog_propagator : bool;
  opentelemetry_propagator : bool;
  exporter : TracingExporterConfig;
}.

Record ProxyConfig := mkProxyConfig { propagation_headers : gset bytes }.

Inductive CacheBackend :=
| RedisReplicas (hostname : bytes) (port : Z).

Record KubernetesConfig := mkKubernetes { enable : bool }.

Record ConfigFile := mkConfig {
  kubernetes : KubernetesConfig;
  cache_backend : CacheBackend;
  proxy_config : ProxyConfig;
  tracing : option TracingConfig;
}.

(** Types that no code uses yet. *)
Inductive BucketConfig :=
| BucketEnv (prefix : bytes).

Inductive ProtobufDescriptorSetConfig :=
| ConfigFilePath (path : bytes)
| ConfigBucket (name : bytes) (hash : bytes).

Inductive EvictionEventConfig := .

Section main.
Context {R : Reflection} {RR Cons : Type} `{HRR : BalancerLaws RR, HCons : BalancerLaws Cons}.
Notation Discovery := (Discovery RR Cons).
Notation Store := (ServiceConfigState Discovery HandleRef).

(** The health tracker, the store with discovery, the handle the Redis backend keeps for
    the life of the process, and whether the loop of the store has not panicked. *)
Record System := mkSystem {
  health : Health.Health;
  store : Store;
  redis_backends : HandleRef;
  k8s_running : bool;
}.

(** The endpoints, in the order they are created. *)
Definition root_endpoint : nat := 0.
Definition k8s_endpoint : nat := 1.
Definition redis_endpoint : nat := 2.

(** [tokio::spawn] panics when it is called outside of a Tokio runtime. *)
Definition tokio_spawn (runtime : bool) : outcome Empty_set unit := if runtime then Ok tt else Panic.

(** [main] from the health tracker up to [health_root.ready()]; [runtime] says whether it runs
    inside of a Tokio runtime, which [RedisReplicasCacheBackend::new] needs to spawn its
    readiness task. *)
Definition startup (runtime : bool) (config : ConfigFile) : outcome Empty_set System :=
  let health := Health.health_new in
  let dns_discovery : Discovery := discovery_new in
  if negb (enable (kubernetes config)) then Panic else
  let health := Health.health_add k8s_endpoint true health in
  match cache_backend config with
  | RedisReplicas hostname port =>
    let '(dns_discovery, redis_discovery) := backends_for dns_discovery hostname port in
    let health := Health.health_add redis_endpoint true health in
    tokio_spawn runtime;;
    Ok (mkSystem health (store_new dns_discovery) redis_discovery true)
  end.

Definition with_health (h : Health.Health) (s : System) : System :=
  mkSystem h (store s) (redis_backends s) (k8s_running s).
Definition with_store (st : Store) (s : System) : System :=
  mkSystem (health s) st (redis_backends s) (k8s_running s).

(** The swap that begins [ready()] on an endpoint. *)
Definition begin_ready (e : nat) (h : Health.Health) : Health.Health :=
  let '(can, h') := Health.ready_swap e h in
  if can then Health.with_inflight (Health.NeedSub :: Health.inflight h') h' else h'.

(** A panic in the loop of [K8SConfigService::start] drops the service and with it the
    health endpoint, whose [Drop] calls [ready()]. *)
Definition k8s_panic (s : System) : System :=
  mkSystem (begin_ready k8s_endpoint (health s)) (store s) (redis_backends s) false.

(** The readiness task of [RedisReplicasCacheBackend::new] waits for this. *)
Definition discovery_ready (s : System) : Prop :=
  ∃ h, handles (dns (store s)) !! h_id (redis_backends s) = Some h ∧ ready h = true.

Inductive system_step : System → System → Prop :=
| sys_change s c st :
    k8s_running s = true → on_change c (store s) = Ok st → system_step s (with_store st s)
| sys_change_panic s c :
    k8s_running s = true → on_change c (store s) = Panic → system_step s (k8s_panic s)
| sys_task s st :
    task_step (store s) st → system_step s (with_store st s)
| sys_discovery s d :
    disc_step (dns (store s)) d → system_step s (with_store (with_dns d (store s)) s)
| sys_root_ready s :
    system_step s (with_health (begin_ready root_endpoint (health s)) s)
| sys_k8s_ready s :
    (** [ResourceChange::Ready] was received *)
    k8s_running s = true → store_ready (store s) = true →
    system_step s (with_health (begin_ready k8s_endpoint (health s)) s)
| sys_redis_ready s :
    discovery_ready s →
    system_step s (with_health (begin_ready redis_endpoint (health s)) s)
| sys_health_sub s l1 l2 h before :
    Health.inflight (health s) = l1 ++ Health.NeedSub :: l2 →
    Health.ready_fetch_sub (health s) = (before, h) →
    system_step s (with_health (Health.with_inflight
      (l1 ++ (if (before =? 1)%Z then [Health.NeedSend] else []) ++ l2) h) s)
| sys_health_send s l1 l2 :
    Health.inflight (health s) = l1 ++ Health.NeedSend :: l2 →
    system_step s (with_health (Health.with_inflight (l1 ++ l2) (Health.ready_send (health s))) s).

(** ** The health tracker without new endpoints *)

Record tracker_inv (h : Health.Health) : Prop := {
  t_health : Health.health_inv h;
  t_few : Health.pending_blocks h ≤ 3;
  t_signal : Health.ready h = true ∨ Health.NeedSend ∈ Health.inflight h →
    Health.pending_blocks h = 0;
}.

Lemma begin_ready_swap e h :
  is_Some (Health.endpoints h !! e) → tracker_inv h →
  tracker_inv (begin_ready e h)
  ∧ Health.endpoints (begin_ready e h) = <[e := false]> (Health.endpoints h).
Proof.
  intros [b Hb] [Hh Hf Hs]. unfold begin_ready.
  assert (alter (λ _, false) e (Health.endpoints h) = <[e := false]> (Health.endpoints h)) as Halter.
  { apply map_eq. intros i. rewrite lookup_alter, lookup_insert.
    case_decide; subst; [by rewrite Hb|done]. }
  destruct (Health.ready_swap e h) as [can h'] eqn:Hsw.
  assert (Health.endpoints h' = <[e := false]> (Health.endpoints h)) as He.
  { unfold Health.ready_swap in Hsw. injection Hsw as _ <-. done. }
  destruct can.
  - split; [|done]. pose proof (Health.pending_swap_true _ _ _ Hsw) as [Hsz Hin].
    assert (Health.pending_blocks (Health.with_inflight (Health.NeedSub :: Health.inflight h') h')
            = Health.pending_blocks h) as Hp.
    { unfold Health.pending_blocks. change (Health.blocking (Health.with_inflight _ h'))
        with (Health.blocking h'). simpl. rewrite Hin. unfold Health.count_pc. simpl. lia. }
    split; [by eapply Health.health_inv_swap|by rewrite Hp|]. rewrite Hp. simpl. intros Hsig.
    apply Hs. unfold Health.ready_swap in Hsw. injection Hsw as _ <-. simpl in *.
    destruct Hsig as [?|Hsig]; [auto|right; set_solver].
  - apply Health.pending_swap_false in Hsw as ->; [|by exists b]. split; [done|].
    rewrite <- Halter. by rewrite Halter, <- He.
Qed.

Lemma sub_tracker h l1 l2 :
  tracker_inv h → Health.inflight h = l1 ++ Health.NeedSub :: l2 →
  tracker_inv (Health.with_inflight
    (l1 ++ (if (Health.ready_blocks h =? 1)%Z then [Health.NeedSend] else []) ++ l2)
    (Health.ready_fetch_sub h).2).
Proof.
  intros [Hh Hf Hs] Hl. destruct (Health.health_inv_sub h l1 l2 Hh Hl) as [Hh' Hp].
  split; [done|lia|]. intros Hsig. simpl in Hsig.
  destruct (Z.eqb_spec (Health.ready_blocks h) 1) as [H1|H1].
  - destruct Hh as [Hc _ _]. unfold Health.u64 in Hc. rewrite Z.mod_small in Hc by lia. lia.
  - assert (Health.pending_blocks h = 0) as H0; [|lia]. apply Hs.
    destruct Hsig as [?|Hsig]; [auto|right]. rewrite Hl. set_solver.
Qed.

Lemma send_tracker h l1 l2 :
  tracker_inv h → Health.inflight h = l1 ++ Health.NeedSend :: l2 →
  tracker_inv (Health.with_inflight (l1 ++ l2) (Health.ready_send h)).
Proof.
  intros [Hh Hf Hs] Hl.
  assert (Health.pending_blocks (Health.with_inflight (l1 ++ l2) (Health.ready_send h))
          = Health.pending_blocks h) as Hp.
  { unfold Health.pending_blocks, Health.blocking. simpl. by rewrite Hl, !Health.count_pc_app. }
  split; [|by rewrite Hp|].
  - apply (Health.health_inv_step h); [|done]. by apply (Health.step_send h l1 l2).
  - intros _. rewrite Hp. apply Hs. right. rewrite Hl. set_solver.
Qed.

(** Calls of [ready] that have begun go on to their end. *)
Inductive drain_step (h : Health.Health) : Health.Health → Prop :=
| drain_sub l1 l2 :
    Health.inflight h = l1 ++ Health.NeedSub :: l2 →
    drain_step h (Health.with_inflight
      (l1 ++ (if (Health.ready_blocks h =? 1)%Z then [Health.NeedSend] else []) ++ l2) (Health.ready_fetch_sub h).2)
| drain_send l1 l2 :
    Health.inflight h = l1 ++ Health.NeedSend :: l2 →
    drain_step h (Health.with_inflight (l1 ++ l2) (Health.ready_send h)).

Lemma drain_step_system h h' s : drain_step h h' → system_step (with_health h s) (with_health h' s).
Proof.
  intros [l1 l2 Hl|l1 l2 Hl].
  - by apply (sys_health_sub (with_health h s) l1 l2 _ (Health.ready_blocks h)).
  - by apply (sys_health_send (with_health h s) l1 l2).
Qed.

(** The atomic operations that are left. *)
Definition steps_left (l : list Health.pc) : nat :=
  sum_list ((λ p, match p with Health.NeedSub => 2 | Health.NeedSend => 1 end) <$> l).

Lemma tracker_drains h :
  tracker_inv h → ∃ h', rtc drain_step h h' ∧ tracker_inv h' ∧ Health.inflight h' = []
    ∧ Health.endpoints h' = Health.endpoints h.
Proof.
  remember (steps_left (Health.inflight h)) as n eqn:Hn. revert h Hn.
  induction (lt_wf n) as [n _ IH]; intros h -> Ht.
  destruct (Health.inflight h) as [|p l] eqn:Hl; [by exists h|].
  assert (∃ h1, drain_step h h1 ∧ tracker_inv h1 ∧ Health.endpoints h1 = Health.endpoints h
    ∧ steps_left (Health.inflight h1) < steps_left (p :: l)) as (h1 & Hs & Ht1 & He1 & Hlt).
  { destruct p.
    - eexists. split_and!; [by apply (drain_sub h [] l)|by apply (sub_tracker h [] l)|done|].
      simpl. destruct (Health.ready_blocks h =? 1)%Z; unfold steps_left; csimpl; lia.
    - eexists. split_and!; [by apply (drain_send h [] l)|by apply (send_tracker h [] l)|done|].
      unfold steps_left. csimpl. lia. }
  destruct (IH _ Hlt h1 eq_refl Ht1) as (h' & ? & ? & ? & He). exists h'.
  split_and!; [by eapply rtc_l|done|done|by rewrite He].
Qed.

(** Then the watch is [true], if every endpoint has reported. *)
Lemma drained_ready h :
  tracker_inv h → Health.inflight h = [] → (∀ e b, Health.endpoints h !! e = Some b → b = false) →
  Health.ready h = true.
Proof.
  intros [[_ Hsig _] _ _] Hl Hall. destruct Hsig as [?|Hin]; [|done|rewrite Hl in Hin; by apply elem_of_nil in Hin].
  apply Health.all_reported_pending. split; [|by rewrite Hl].
  apply map_empty. intros e. destruct (Health.blocking h !! e) as [b|] eqn:Hb; [|done].
  apply map_lookup_filter_Some in Hb as [Hb Ht]. simpl in Ht. by rewrite (Hall e b Hb) in Ht.
Qed.

(** ** The store and discovery *)

(** A change of the store takes at most a request to discovery. *)
Lemma on_change_steps c (st st' : Store) :
  store_inv st → on_change c st = Ok st' →
  rtc disc_step (dns st) (dns st') ∧ (store_ready st = true → store_ready st' = true).
Proof.
  intros Hinv Hc. destruct (on_change_effect c st st' Hinv Hc) as (He & Hrd & _). split; [|done].
  destruct He as [_ _ ->|n g _ _ ->|o url port g sp _ _ _ _ ->|o url port g src q _ _ _ _ ->]; [done..| |];
    apply rtc_once, disc_request.
Qed.

(** ** The invariant of the system *)

Record system_inv (s : System) : Prop := {
  s_store : store_inv (store s);
  s_disc : disc_inv (dns (store s));
  s_tracker : tracker_inv (health s);
  s_only : ∀ e b, Health.endpoints (health s) !! e = Some b →
    e = root_endpoint ∨ e = k8s_endpoint ∨ e = redis_endpoint;
  s_root : is_Some (Health.endpoints (health s) !! root_endpoint);
  s_k8s : ∃ b, Health.endpoints (health s) !! k8s_endpoint = Some b
    ∧ (b = false → store_ready (store s) = true ∨ k8s_running s = false);
  s_redis : ∃ b, Health.endpoints (health s) !! redis_endpoint = Some b
    ∧ (b = false → discovery_ready s);
}.

Lemma three_endpoints e b :
  Health.endpoints (Health.health_add redis_endpoint true (Health.health_add k8s_endpoint true Health.health_new))
    !! e = Some b → e = root_endpoint ∨ e = k8s_endpoint ∨ e = redis_endpoint.
Proof.
  simpl. rewrite !lookup_insert, lookup_singleton. repeat case_decide; subst; by auto.
Qed.

Lemma startup_inv runtime config s : startup runtime config = Ok s → system_inv s.
Proof.
  unfold startup. destruct (enable (kubernetes config)); simpl; [|done].
  destruct (cache_backend config) as [hostname port].
  destruct (backends_for (RR:=RR) (Cons:=Cons) discovery_new hostname port) as [d r] eqn:Hd.
  destruct runtime; [|done]. intros [= <-].
  pose proof (backends_for_inv (RR:=RR) (Cons:=Cons) discovery_new hostname port disc_inv_new) as [Hinv _]. rewrite Hd in Hinv.
  split; simpl; [apply store_inv_new|done| |by apply three_endpoints|by eexists|by exists true|by exists true].
  set (h1 := Health.health_add k8s_endpoint true Health.health_new).
  assert (Health.health_inv h1) as H1.
  { apply (Health.health_inv_step Health.health_new); [|apply Health.health_inv_new]. by constructor. }
  assert (Health.pending_blocks h1 = 2) as P1 by (unfold h1; by rewrite Health.pending_add).
  split.
  - apply (Health.health_inv_step h1); [by constructor|done].
  - rewrite Health.pending_add by done. lia.
  - simpl. intros [?|?%elem_of_nil]; done.
Qed.

(** Steps that keep the tracker and do not take readiness back. *)
Lemma system_inv_store s st :
  system_inv s → store_inv st → rtc disc_step (dns (store s)) (dns st) →
  (store_ready (store s) = true → store_ready st = true) → system_inv (with_store st s).
Proof.
  intros [Hst Hd Ht Honly Hroot (b1 & Hb1 & Hk) (b2 & Hb2 & Hr)] Hst' Hsteps Hrd.
  destruct (disc_steps_inv _ _ Hsteps Hd) as [Hd' Hev].
  split; try done; [exists b1; naive_solver|]. exists b2. split; [done|]. intros Hf.
  destruct (Hr Hf) as (h & Hh & Hrdy). destruct (f_ready _ _ _ Hev _ _ Hh) as (h' & ? & ?).
  exists h'. auto.
Qed.

Lemma system_inv_tracker s h e :
  system_inv s → tracker_inv h → Health.endpoints h = <[e := false]> (Health.endpoints (health s)) →
  e = root_endpoint ∨ e = k8s_endpoint ∨ e = redis_endpoint →
  (e = k8s_endpoint → store_ready (store s) = true ∨ k8s_running s = false) →
  (e = redis_endpoint → discovery_ready s) → system_inv (with_health h s).
Proof.
  intros [Hst Hd Ht Honly Hroot (b1 & Hb1 & Hk) (b2 & Hb2 & Hr)] Hh He Hkind H1 H2.
  split; try done; simpl; rewrite He.
  { intros e' b. rewrite lookup_insert. case_decide as Hc; [by subst e'|apply Honly]. }
  all: rewrite lookup_insert; case_decide as Hc; eauto.
Qed.

Lemma system_step_inv s s' : system_step s s' → system_inv s → system_inv s'.
Proof.
  intros Hstep Hinv. pose proof Hinv as [Hst Hd Ht Honly Hroot (b1 & Hb1 & Hk) (b2 & Hb2 & Hr)].
  destruct Hstep as [s c st Hrun Hc|s c Hrun Hc|s st Htk|s d Hds|s|s Hrun Hrd|s Hrd|s l1 l2 h before Hl Hsub|s l1 l2 Hl].
  - destruct (on_change_steps c _ _ Hst Hc). apply system_inv_store; eauto using on_change_inv.
  - destruct (begin_ready_swap k8s_endpoint (health s)) as [? ?]; [by eexists|done|].
    set (s1 := mkSystem (health s) (store s) (redis_backends s) false).
    assert (system_inv s1) as Hinv1 by (split; try done; [exists b1; auto|by exists b2]).
    change (k8s_panic s) with (with_health (begin_ready k8s_endpoint (health s)) s1).
    eapply (system_inv_tracker _ _ k8s_endpoint); [done..|by auto|by right|done].
  - apply system_inv_store; [done|by eapply task_step_inv|by destruct Htk|by destruct Htk].
  - apply system_inv_store; [done|by destruct Hst|by apply rtc_once|done].
  - destruct (begin_ready_swap root_endpoint (health s) Hroot Ht) as [? ?].
    eapply (system_inv_tracker _ _ root_endpoint); [done..|by auto|done|done].
  - destruct (begin_ready_swap k8s_endpoint (health s)) as [? ?]; [by eexists|done|].
    eapply (system_inv_tracker _ _ k8s_endpoint); [done..|by auto|by left|done].
  - destruct (begin_ready_swap redis_endpoint (health s)) as [? ?]; [by eexists|done|].
    eapply (system_inv_tracker _ _ redis_endpoint); [done..|by auto|done|done].
  - unfold Health.ready_fetch_sub in Hsub. injection Hsub as <- <-.
    pose proof (sub_tracker _ _ _ Ht Hl). split; try done; [by exists b1|by exists b2].
  - pose proof (send_tracker _ _ _ Ht Hl). split; try done; [by exists b1|by exists b2].
Qed.

(** C20: The system reports readiness only when it is ready: under every interleaving of
    the services after startup, when the health watch is [true], the discovery of the
    Redis replicas has succeeded and the watch of the cluster has caught up, unless the
    loop of the store panicked. *)
Theorem system_ready_safe runtime config s0 s :
  startup runtime config = Ok s0 → rtc system_step s0 s → Health.ready (health s) = true →
  (store_ready (store s) = true ∨ k8s_running s = false) ∧ discovery_ready s.
Proof.
  intros Hs0%startup_inv Hr Hready.
  assert (system_inv s) as Hinv by (induction Hr; eauto using system_step_inv). clear Hr Hs0.
  destruct Hinv as [_ _ [_ _ Hsig] _ _ (b1 & Hb1 & Hk) (b2 & Hb2 & Hrd)].
  specialize (Hsig (or_introl Hready)). apply Health.all_reported_pending in Hsig as [Hnone _].
  assert (∀ e b, Health.endpoints (health s) !! e = Some b → b = false) as Hall.
  { intros e [] He; [|done]. apply Health.blocking_lookup in He. by rewrite Hnone, lookup_empty in He. }
  split; [apply Hk; by eapply Hall|apply Hrd; by eapply Hall].
Qed.
End main.

(** ** A sample run *)

#[local] Existing Instance plain_reflection.

Definition sample_config : ConfigFile :=
  mkConfig (mkKubernetes true) (RedisReplicas redis_host.1 redis_host.2) (mkProxyConfig ∅) None.

Notation SampleSystem := (System (RR:=gset Backend) (Cons:=gset Backend)).

(** Steps of the system that can be evaluated, on the first loop and the first call in
    progress. *)
Inductive action := ActChange | ActReceive | ActLoop (response : option (list Z))
                  | ActRoot | ActK8s | ActRedis | ActSub | ActSend.

Definition act (a : action) (s : SampleSystem) : option SampleSystem :=
  match a with
  | ActChange => if k8s_running s then (λ st, with_store st s) <$> ok (on_change Ready (store s)) else None
  | ActReceive => Some (with_store (with_dns (receive (dns (store s))) (store s)) s)
  | ActLoop r => (λ d, with_store (with_dns d (store s)) s) <$> ok (loop_step r 0 (dns (store s)))
  | ActRoot => Some (with_health (begin_ready root_endpoint (health s)) s)
  | ActK8s => if k8s_running s && store_ready (store s) then Some (with_health (begin_ready k8s_endpoint (health s)) s)
              else None
  | ActRedis =>
    h ← handles (dns (store s)) !! h_id (redis_backends s);
    if ready h then Some (with_health (begin_ready redis_endpoint (health s)) s) else None
  | ActSub =>
    match Health.inflight (health s) with
    | Health.NeedSub :: l2 =>
      Some (with_health (Health.with_inflight
        ([] ++ (if (Health.ready_blocks (health s) =? 1)%Z then [Health.NeedSend] else []) ++ l2)
        (Health.ready_fetch_sub (health s)).2) s)
    | _ => None
    end
  | ActSend =>
    match Health.inflight (health s) with
    | Health.NeedSend :: l2 =>
      Some (with_health (Health.with_inflight ([] ++ l2) (Health.ready_send (health s))) s)
    | _ => None
    end
  end.

Lemma act_sound a s s' : act a s = Some s' → system_step s s'.
Proof.
  destruct a as [| |r| | | | |]; cbn [act].
  - destruct (k8s_running s) eqn:Hrun; [|done]. intros [= <-]. by apply (sys_change s Ready).
  - intros [= <-]. apply sys_discovery, disc_receive.
  - destruct (loop_step r 0 _) as [d| |] eqn:Hs; simpl; [|done..]. intros [= <-].
    by eapply sys_discovery, disc_loop.
  - intros [= <-]. apply sys_root_ready.
  - destruct (k8s_running s) eqn:Hrun; [|done]. destruct (store_ready (store s)) eqn:Hr; [|done].
    intros [= <-]. by apply sys_k8s_ready.
  - destruct (handles _ !! _) as [h|] eqn:Hh; simpl; [|done].
    destruct (ready h) eqn:Hr; [|done]. intros [= <-]. apply sys_redis_ready. by exists h.
  - destruct (Health.inflight (health s)) as [|[] l2] eqn:Hl; try done. intros [= <-].
    eapply (sys_health_sub s [] l2 _ (Health.ready_blocks (health s))); [exact Hl|reflexivity].
  - destruct (Health.inflight (health s)) as [|[] l2] eqn:Hl; try done. intros [= <-].
    apply (sys_health_send s [] l2). exact Hl.
Qed.

Fixpoint acts (l : list action) (s : SampleSystem) : option SampleSystem :=
  match l with
  | [] => Some s
  | a :: l' => s' ← act a s; acts l' s'
  end.

Lemma acts_sound l s s' : acts l s = Some s' → rtc system_step s s'.
Proof.
  revert s. induction l as [|a l IH]; intros s; simpl; [by intros [= <-]|].
  intros (s1 & ?%act_sound & ?)%bind_Some. eapply rtc_l; eauto.
Qed.

(** The cluster is listed, the replicas are found, and the three endpoints report. *)
Definition sample_actions : list action :=
  [ActChange; ActReceive; ActLoop None; ActLoop (Some [1%Z]); ActLoop None; ActLoop None;
   ActLoop None; ActLoop None; ActRoot; ActSub; ActK8s; ActRedis; ActSub; ActSub; ActSend].

Definition sample_end : option SampleSystem :=
  s ← ok (startup true sample_config); acts sample_actions s.

Lemma system_ready_safe_witness :
  ∃ s : SampleSystem, Health.ready (health s) = true
    ∧ (store_ready (store s) = true ∨ k8s_running s = false) ∧ discovery_ready s.
Proof.
  destruct (startup true sample_config) as [s0| |] eqn:Hs0;
    [|assert (bool_decide (is_Some (ok (startup (RR:=gset Backend) (Cons:=gset Backend) true sample_config)))
              = true) as Hb by vm_refl; rewrite Hs0 in Hb; discriminate Hb..].
  assert ((Health.ready ∘ health <$> sample_end) = Some true) as Hend by vm_refl.
  unfold sample_end in Hend. rewrite Hs0 in Hend. cbn [ok mbind option_bind] in Hend.
  destruct (acts sample_actions s0) as [s|] eqn:Ha; [|cbn in Hend; discriminate Hend].
  injection Hend as Hend. exists s. split; [exact Hend|].
  apply (system_ready_safe true sample_config s0 s).
  - exact Hs0.
  - exact (acts_sound _ _ _ Ha).
  - exact Hend.
Defined.
