(* ===== verification/World.v ===== *)
(** * World: the running process

    All parts of [main.rs] at once: the services of [Main] (the loop of the service store
    and its tasks, discovery, the tasks that report readiness) and the requests of
    [Lifecycle] over one storage. Here the handlers use what the other parts really have:
    [request_filter] reads the routing table the store maintains, and [upstream_peer]
    selects from the balancer that discovery updates. A request clones the reference to
    the handle of its service and drops it at its end, so that reference counts are exact:
    a reference is dropped only by who no longer holds it ([world_drop]). Others may
    change the storage at any time and in any way it allows ([world_storage]).

    The world records the resources that were applied and the answers of the resolver. *)

From stdpp Require Import gmap strings list fin_maps relations.
From Stdlib Require Import Strings.Byte.
From S2P Require Import Prelude Text Headers Hash Status Path Health Crd ServiceSpec ResourceChange.
From S2P Require Import ServiceStore StoreInv Discovery DiscoveryInv DiscoveryProps DiscoveryOrigin.
From S2P Require Import Cache Session StorageSpec Proxy ProxyProps Lifecycle LifecycleProps EndToEnd Main.

Section world.
Context {R : Reflection} {RR Cons : Type} `{HRR : BalancerLaws RR, HCons : BalancerLaws Cons}.
Context {H S D St Resp : Type}.
Context `{HL : HeaderMapLaws H, SL : SessionLaws H S, PL : PingoraCacheLaws H, !Digest D}.
Context `{!Storage H St, SLS : !StorageLaws H St, !MetaClock H Resp}.
Notation Discovery := (Discovery RR Cons).
Notation System := (System (RR:=RR) (Cons:=Cons)).
Notation Request := (Request H S HandleRef St Resp).
Notation RequestCtx := (RequestCtx HandleRef).
Notation Sys := (Sys H S HandleRef St Resp).
Notation Phase := (Phase H St).

(** ** State *)

Record World := mkWorld {
  w_main : System;
  w_proxy : Sys;
  w_applied : list GrcacheService;
  w_answers : Answers;
}.

Definition w_store (w : World) : ServiceConfigState Discovery HandleRef := store (w_main w).
Definition w_dns (w : World) : Discovery := dns (w_store w).
Definition w_requests (w : World) : gmap nat Request := sys_requests (w_proxy w).

Definition with_main (s : System) (w : World) : World :=
  mkWorld s (w_proxy w) (w_applied w) (w_answers w).
Definition on_dns (d : Discovery) (w : World) : World :=
  with_main (with_store (with_dns d (w_store w)) (w_main w)) w.
Definition with_proxy (x : Sys) (w : World) : World :=
  mkWorld (w_main w) x (w_applied w) (w_answers w).
Definition set_request (i : nat) (r : Request) (w : World) : World :=
  let x := w_proxy w in
  with_proxy (mkSys (sys_store x) (<[i := r]> (sys_requests x)) (sys_history x)) w.

(** ** References to handles *)

(** The handle of the service a request was routed to. *)
Definition ctx_handle (c : RequestCtx) : option HandleRef :=
  m ← grpc_meta c; load_balancer (service_data m).

(** The context lives until the request is logged. *)
Definition rq_handle (r : Request) : option HandleRef :=
  match rq_phase r with Logged => None | _ => ctx_handle (rq_ctx r) end.

Definition refers (id : nat) (r : option HandleRef) : Prop := h_id <$> r = Some id.

#[global] Instance refers_dec id r : Decision (refers id r).
Proof. unfold refers. apply _. Defined.

(** The references to a handle: in the routing table, in the tasks that load descriptor
    sets, in the requests, and the one of the Redis backend. *)
Definition entry_refs (id : nat) (m : gmap bytes (ServiceData HandleRef)) : nat :=
  size (filter (λ p, refers id (load_balancer p.2)) m).
Definition task_refs (id : nat) (l : list (Task HandleRef)) : nat :=
  length (filter (λ t, refers id (Some (t_load_balancer t))) l).
Definition request_refs (id : nat) (m : gmap nat Request) : nat :=
  size (filter (λ p, refers id (rq_handle p.2)) m).
Definition one_ref (id : nat) (r : option HandleRef) : nat := if decide (refers id r) then 1 else 0.

Definition refs (id : nat) (w : World) : nat :=
  entry_refs id (services (w_store w)) + task_refs id (tasks (w_store w))
  + request_refs id (w_requests w) + one_ref id (Some (redis_backends (w_main w))).

(** The [clone] of a routed service. *)
Definition clone_opt (r : option HandleRef) (d : Discovery) : Discovery :=
  match r with Some r => clone_ref r d | None => d end.

(** The selection of [upstream_peer] moves the round robin. *)
Definition select_opt (r : option HandleRef) (d : Discovery) : Discovery :=
  match r with Some r => (select_round_robin [] 256 r d).1 | None => d end.

(** ** Steps *)

(** How a request continues after [request_filter] and after [upstream_peer]. *)
Definition filter_phase (res : outcome PError bool) : option Phase :=
  match res with
  | Ok false => Some Accepted
  | Err e => Some (Finished (Some e))
  | _ => None
  end.

Definition peer_phase (key : option CacheKey) (stale : option (CacheMeta * HitHandler))
    (res : outcome PError HttpPeer) : option Phase :=
  match res with
  | Ok peer => Some (Connected key stale peer)
  | Err e => Some (Finished (Some e))
  | Panic => None
  end.

(** The phases whose handler looks only at the request and the storage. *)
Definition private_phase (p : Phase) : bool :=
  match p with Traced | Upstreaming _ _ => false | _ => true end.

Definition note_applied (c : Change GrcacheService) (l : list GrcacheService) : list GrcacheService :=
  match c with Apply o => o :: l | _ => l end.

Inductive world_step : World → World → Prop :=
| world_change w c st :
    k8s_running (w_main w) = true → on_change c (w_store w) = Ok st →
    world_step w (mkWorld (with_store st (w_main w)) (w_proxy w) (note_applied c (w_applied w)) (w_answers w))
| world_change_panic w c :
    k8s_running (w_main w) = true → on_change c (w_store w) = Panic →
    world_step w (with_main (k8s_panic (w_main w)) w)
| world_task w st :
    task_step (w_store w) st → world_step w (with_main (with_store st (w_main w)) w)
| world_receive w :
    world_step w (on_dns (receive (w_dns w)) w)
| world_loop w i response d :
    loop_step response i (w_dns w) = Ok d →
    let w' := on_dns d w in
    world_step w (mkWorld (w_main w') (w_proxy w') (w_applied w')
                    (note_answer response i (w_dns w) (w_answers w)))
| world_drop w id h :
    handles (w_dns w) !! id = Some h → refs id w < clients h →
    world_step w (on_dns (drop_ref id (w_dns w)) w)
| world_redis_select w key max accept :
    (** A lookup or a miss handler of the Redis backend. *)
    world_step w (on_dns (select_consistent key max accept (redis_backends (w_main w)) (w_dns w)).1 w)
| world_health w h :
    system_step (w_main w) (with_health h (w_main w)) →
    world_step w (with_main (with_health h (w_main w)) w)
| world_arrive w i s :
    w_requests w !! i = None → cache_enabled s = false →
    world_step w (set_request i (mkRequest Arrived s new_ctx []) w)
| world_filter w i s c s' c' res p :
    w_requests w !! i = Some (mkRequest Traced s c []) →
    request_filter (services (w_store w)) s c = (s', c', res) → filter_phase res = Some p →
    world_step w (set_request i (mkRequest p s' c' []) (on_dns (clone_opt (ctx_handle c') (w_dns w)) w))
| world_peer w i key stale s c s' c' res p :
    w_requests w !! i = Some (mkRequest (Upstreaming key stale) s c []) →
    upstream_peer (select_upstream (w_dns w)) s c = (s', c', res) → peer_phase key stale res = Some p →
    world_step w (set_request i (mkRequest p s' c' []) (on_dns (select_opt (ctx_handle c) (w_dns w)) w))
| world_life w i r r' :
    w_requests w !! i = Some r → private_phase (rq_phase r) = true →
    life_step (D:=D) (sys_store (w_proxy w)) r r' →
    world_step w (set_request i r' w)
| world_finish w i r st' r' e :
    w_requests w !! i = Some r → finish_step (sys_store (w_proxy w)) r st' r' e →
    world_step w (with_proxy (mkSys st' (<[i := r']> (w_requests w)) (e :: sys_history (w_proxy w))) w)
| world_storage w st' :
    store_env (sys_store (w_proxy w)) st' →
    world_step w (with_proxy (mkSys st' (w_requests w) (sys_history (w_proxy w))) w).

(** After [main] has set everything up, in a Tokio runtime. The storage may hold anything. *)
Definition world_start (config : ConfigFile) (w : World) : Prop :=
  startup true config = Ok (w_main w)
  ∧ (sys_requests (w_proxy w) = ∅ ∧ sys_history (w_proxy w) = [])
  ∧ w_applied w = [] ∧ w_answers w = [].
End world.

Arguments World {R} RR Cons H S St Resp {_ _}.
