(* ===== verification/WorldInv.v ===== *)
(** * WorldInv: the invariant of the running process

    What connects the parts: every reference to a handle that the routing table, a
    loading task or a request holds is counted by discovery ([held]), and every handle is
    for the upstream of an applied resource with the right service name ([vouched]). *)

From stdpp Require Import gmap strings list fin_maps relations.
From Stdlib Require Import Strings.Byte.
From S2P Require Import Prelude Text Headers Hash Status Path Health Crd ServiceSpec ResourceChange.
From S2P Require Import ServiceStore StoreInv Discovery DiscoveryInv DiscoveryProps DiscoveryOrigin.
From S2P Require Import Cache Session StorageSpec Proxy ProxyProps Lifecycle LifecycleProps EndToEnd Main World.

(** ** Counting in maps *)

Section counting.
Context {K A : Type} `{Countable K} (P : K * A → Prop) `{∀ x, Decision (P x)}.
Implicit Types (m : gmap K A).

Lemma size_filter_insert m k v :
  size (filter P (<[k := v]> m)) ≤ size (filter P m) + (if decide (P (k, v)) then 1 else 0).
Proof.
  rewrite map_filter_insert. case_decide.
  - destruct (filter P m !! k) eqn:Hk.
    + rewrite map_size_insert_Some by eauto. lia.
    + rewrite map_size_insert_None by done. lia.
  - assert (size (filter P (delete k m)) ≤ size (filter P m)); [|lia].
    apply map_subseteq_size, map_filter_strong_subseteq_ext.
    intros i x. rewrite lookup_delete_Some. naive_solver.
Qed.

Lemma size_filter_replace m k v v' :
  m !! k = Some v → (P (k, v') → P (k, v)) → size (filter P (<[k := v']> m)) ≤ size (filter P m).
Proof.
  intros Hk HP. rewrite map_filter_insert. case_decide as Hv.
  - rewrite map_size_insert_Some; [done|]. exists v. apply map_lookup_filter_Some. auto.
  - apply map_subseteq_size, map_filter_strong_subseteq_ext.
    intros i x. rewrite lookup_delete_Some. naive_solver.
Qed.

Lemma size_filter_pos m k v : m !! k = Some v → P (k, v) → 0 < size (filter P m).
Proof.
  intros Hk HP. apply Nat.neq_0_lt_0. rewrite map_size_ne_0_lookup. exists k, v.
  by apply map_lookup_filter_Some.
Qed.
End counting.

(** ** What the operations of discovery do to reference counts *)

Section clients.
Context {RR Cons : Type} `{HRR : BalancerLaws RR, HCons : BalancerLaws Cons}.
Notation Discovery := (Discovery RR Cons).
Notation ServiceBackendsHandle := (ServiceBackendsHandle RR Cons).
Implicit Types (d : Discovery).

Definition client_count (id : nat) d : nat :=
  match handles d !! id with Some h => clients h | None => 0 end.

Lemma client_count_live id d : 0 < client_count id d → live d id.
Proof.
  unfold client_count. destruct (handles d !! id) as [h|] eqn:Hh; [|lia]. intros. exists h. auto.
Qed.

Lemma client_count_on_handle id j f d :
  client_count id (on_handle j f d) =
  match handles d !! id with
  | Some h => if decide (j = id) then clients (f h) else clients h
  | None => 0
  end.
Proof.
  unfold client_count. destruct (handles d !! id) as [h|] eqn:Hh.
  - assert (handles (on_handle j f d) !! id = Some (if decide (j = id) then f h else h)) as ->
      by (apply on_handle_lookup; eauto). by case_decide.
  - destruct (handles (on_handle j f d) !! id) as [h'|] eqn:Hh'; [|done].
    apply on_handle_lookup in Hh' as (h & ? & _). congruence.
Qed.

Lemma client_count_keep id j (f : ServiceBackendsHandle → ServiceBackendsHandle) d :
  (∀ h, clients (f h) = clients h) → client_count id (on_handle j f d) = client_count id d.
Proof.
  intros Hf. rewrite client_count_on_handle. unfold client_count.
  destruct (handles d !! id); [|done]. by case_decide.
Qed.

Lemma client_count_clone id r d :
  0 < client_count (h_id r) d →
  client_count id (clone_ref r d) = client_count id d + (if decide (h_id r = id) then 1 else 0).
Proof.
  intros Hpos. unfold clone_ref. rewrite client_count_on_handle. unfold client_count in *.
  destruct (decide (h_id r = id)) as [Heq|Hne].
  - rewrite Heq in Hpos. destruct (handles d !! id); [|lia]. simpl. lia.
  - destruct (handles d !! id); lia.
Qed.

Lemma client_count_backends_for id hostname port d :
  let '(d', r) := backends_for d hostname port in
  client_count id d' = client_count id d + (if decide (h_id r = id) then 1 else 0).
Proof.
  destruct (backends_for_cases d hostname port) as [(r & Hr & Hlive & ->)|[_ ->]].
  - rewrite client_count_on_handle. unfold client_count. destruct Hlive as (h & Hh & _).
    destruct (decide (h_id r = id)) as [<-|Hne]; [rewrite Hh; simpl; lia|].
    destruct (handles d !! id); lia.
  - unfold client_count. simpl. case_decide as Heq.
    + subst id. rewrite lookup_app_r by done. rewrite Nat.sub_diag. by rewrite (lookup_ge_None_2 (handles d)).
    + destruct (handles d !! id) as [h|] eqn:Hh.
      * rewrite lookup_app_l by (by eapply lookup_lt_Some). rewrite Hh. lia.
      * rewrite lookup_ge_None_2; [done|]. apply lookup_ge_None in Hh. rewrite length_app. simpl. lia.
Qed.

Lemma client_count_receive id d : client_count id (receive d) = client_count id d.
Proof. unfold receive. by destruct (commands d) as [|[]]. Qed.

Lemma client_count_select id key max r d :
  client_count id (select_round_robin key max r d).1 = client_count id d.
Proof.
  unfold select_round_robin. destruct (handles d !! h_id r); [|done].
  destruct (lb_select _ _ _). by apply client_count_keep.
Qed.

Lemma client_count_select_consistent id key max accept r d :
  client_count id (select_consistent key max accept r d).1 = client_count id d.
Proof.
  unfold select_consistent. destruct (handles d !! h_id r); [|done].
  destruct (lb_select_with _ _ _ _). by apply client_count_keep.
Qed.

Lemma client_count_loop id response i d d' :
  loop_step response i d = Ok d' → client_count id d' = client_count id d.
Proof.
  unfold loop_step. destruct (loops d !! i) as [[k c p]|]; [|by intros [= <-]].
  assert (∀ (q : LoopPc) (d0 : Discovery), client_count id (set_pc i q d0) = client_count id d0) as Hpc by done.
  destruct p as [|w|w|w|w|w|].
  - intros (? & _ & [= <-])%outcome_bind_Ok. done.
  - destruct response as [addrs|]; [|destruct (_ =? 0)%nat; by intros [= <-]].
    unfold send_if_modified. destruct (handles d !! c); [case_decide|]; intros [= <-]; [done| |done].
    rewrite Hpc. by apply client_count_keep.
  - destruct (upgrade w d); by intros [= <-].
  - intros [= <-]. rewrite Hpc. by apply client_count_keep.
  - intros [= <-]. rewrite Hpc. by apply client_count_keep.
  - unfold send_ready. destruct (_ =? 0)%nat; [by intros [= <-]|].
    destruct (_ =? 0)%nat; intros [= <-]; [done|]. rewrite Hpc. by apply client_count_keep.
  - by intros [= <-].
Qed.
End clients.

(** ** The invariant *)

Section inv.
Context {R : Reflection} {RR Cons : Type} `{HRR : BalancerLaws RR, HCons : BalancerLaws Cons}.
Context {H S D St Resp : Type}.
Context `{HL : HeaderMapLaws H, SL : SessionLaws H S, PL : PingoraCacheLaws H, !Digest D}.
Context `{!Storage H St, SLS : !StorageLaws H St, !MetaClock H Resp}.
Notation Discovery := (Discovery RR Cons).
Notation Request := (Request H S HandleRef St Resp).
Notation World := (World RR Cons H S St Resp).
Notation world_step := (world_step (D:=D)).
Implicit Types (w : World) (d : Discovery) (r : Request) (a : Answers) (l : list GrcacheService).
Implicit Types (id i : nat) (n : bytes) (e : ServiceData HandleRef) (h : HandleRef) (t : Task HandleRef).

(** The handle is for the upstream of an applied resource with this service name. *)
Definition vouched l d n h : Prop :=
  key_of d (h_id h) (h_for h)
  ∧ ∃ o, o ∈ l ∧ service_name (spec o) = n ∧ upstream (spec o) = Dns (h_for h).1 (h_for h).2.

Lemma vouched_mono l l' d d' n h : l ⊆ l' → keeps_keys d d' → vouched l d n h → vouched l' d' n h.
Proof. intros Hl Hd (Hk & o & Ho & ?). split; [auto|]. exists o. auto. Qed.

(** A connected request goes to an address of an answer for the host of its handle. *)
Definition peer_ok a (h : HandleRef) (peer : HttpPeer) : Prop :=
  ∃ ip addrs, ((h_for h).1, addrs) ∈ a ∧ ip ∈ addrs ∧ peer = mkPeer (ip, (h_for h).2) false [] true.

Record request_ok l a d r : Prop := {
  ro_new : rq_phase r = Arrived ∨ rq_phase r = Traced → grpc_meta (rq_ctx r) = None;
  ro_handle : ∀ h, ctx_handle (rq_ctx r) = Some h →
    ∃ n m, parse_grpc_path (raw_path (req_header (rq_session r))) = Ok (n, m) ∧ vouched l d n h;
  ro_peer : ∀ key stale peer, rq_phase r = Connected key stale peer →
    ∃ h, ctx_handle (rq_ctx r) = Some h ∧ peer_ok a h peer;
}.

Lemma request_ok_mono l l' a a' d d' r :
  l ⊆ l' → a ⊆ a' → keeps_keys d d' → request_ok l a d r → request_ok l' a' d' r.
Proof.
  intros Hl Ha Hd [Hn Hh Hp]. split; [done|..].
  - intros h (n & m & ? & ?)%Hh. exists n, m. split; [done|]. by eapply vouched_mono.
  - intros key stale peer (h & ? & ip & addrs & ? & ?)%Hp. exists h. split; [done|]. exists ip, addrs. auto.
Qed.

Record world_inv w : Prop := {
  wi_store : store_inv (w_store w);
  wi_disc : disc_inv (w_dns w);
  wi_origin : origin (w_answers w) (w_dns w);
  wi_held : ∀ id, refs id w ≤ client_count id (w_dns w);
  wi_raw : ∀ k o, raw_services (w_store w) !! k = Some o → o ∈ w_applied w;
  wi_entry : ∀ n e h, services (w_store w) !! n = Some e → load_balancer e = Some h →
    vouched (w_applied w) (w_dns w) n h;
  wi_task : ∀ t, t ∈ tasks (w_store w) →
    vouched (w_applied w) (w_dns w) (t_service_name t) (t_load_balancer t);
  wi_request : ∀ i r, w_requests w !! i = Some r → request_ok (w_applied w) (w_answers w) (w_dns w) r;
}.

(** *** References *)

Lemma one_ref_Some id h : one_ref id (Some h) = if decide (h_id h = id) then 1 else 0.
Proof. unfold one_ref, refers. simpl. repeat case_decide; naive_solver. Qed.

Lemma one_ref_self h : one_ref (h_id h) (Some h) = 1.
Proof. rewrite one_ref_Some. by rewrite decide_True. Qed.

Lemma entry_refs_insert id n e (m : gmap bytes (ServiceData HandleRef)) :
  entry_refs id (<[n := e]> m) ≤ entry_refs id m + one_ref id (load_balancer e).
Proof. apply size_filter_insert. Qed.

Lemma entry_refs_pos n e h (m : gmap bytes (ServiceData HandleRef)) :
  m !! n = Some e → load_balancer e = Some h → 0 < entry_refs (h_id h) m.
Proof.
  intros He Hh. eapply size_filter_pos; [exact He|]. simpl. unfold refers. by rewrite Hh.
Qed.

Lemma task_refs_app id (l1 l2 : list (Task HandleRef)) :
  task_refs id (l1 ++ l2) = task_refs id l1 + task_refs id l2.
Proof. unfold task_refs. by rewrite filter_app, length_app. Qed.

Lemma task_refs_cons id t (l : list (Task HandleRef)) :
  task_refs id (t :: l) = one_ref id (Some (t_load_balancer t)) + task_refs id l.
Proof. unfold task_refs, one_ref. rewrite filter_cons. by case_decide. Qed.

Lemma task_refs_pos t (l : list (Task HandleRef)) : t ∈ l → 0 < task_refs (h_id (t_load_balancer t)) l.
Proof.
  intros (l1 & l2 & ->)%list_elem_of_split. rewrite task_refs_app, task_refs_cons, one_ref_self. lia.
Qed.

Lemma request_refs_insert id i r (m : gmap nat Request) :
  request_refs id (<[i := r]> m) ≤ request_refs id m + one_ref id (rq_handle r).
Proof. apply size_filter_insert. Qed.

Lemma request_refs_replace id i r r' (m : gmap nat Request) :
  m !! i = Some r → rq_handle r' = rq_handle r ∨ rq_handle r' = None →
  request_refs id (<[i := r']> m) ≤ request_refs id m.
Proof.
  intros Hi Hh. eapply size_filter_replace; [exact Hi|]. simpl. unfold refers.
  by destruct Hh as [->| ->].
Qed.

Lemma request_refs_pos i r h (m : gmap nat Request) :
  m !! i = Some r → rq_handle r = Some h → 0 < request_refs (h_id h) m.
Proof.
  intros Hi Hh. eapply size_filter_pos; [exact Hi|]. simpl. unfold refers. by rewrite Hh.
Qed.

Lemma entry_count w n e h :
  world_inv w → services (w_store w) !! n = Some e → load_balancer e = Some h →
  0 < client_count (h_id h) (w_dns w).
Proof.
  intros Hinv He Hh. pose proof (entry_refs_pos n e h _ He Hh).
  pose proof (wi_held _ Hinv (h_id h)) as Hc. unfold refs in Hc. lia.
Qed.

(** *** Steps of discovery alone *)

Lemma world_inv_dns w d a :
  world_inv w → disc_inv d → origin a d → w_answers w ⊆ a → keeps_keys (w_dns w) d →
  (∀ id, refs id w ≤ client_count id d) →
  world_inv (mkWorld (with_store (with_dns d (w_store w)) (w_main w)) (w_proxy w) (w_applied w) a).
Proof.
  intros [Hst Hd Ho Hheld Hraw He Ht Hr] Hd' Ho' Ha Hk Hc. split; try done.
  - by destruct Hst.
  - intros n e h Hn Hh. eapply vouched_mono; [done|exact Hk|]. eauto.
  - intros t Hin. eapply vouched_mono; [done|exact Hk|]. auto.
  - intros i r Hi. eapply request_ok_mono; [done|exact Ha|exact Hk|]. eauto.
Qed.

Lemma keeps_keys_clients id f d : keeps_keys d (on_handle id (with_clients f) d).
Proof. intros id' k Hk. exact Hk. Qed.

Lemma keeps_keys_select key max h d : keeps_keys d (select_round_robin key max h d).1.
Proof.
  intros id' k Hk. unfold select_round_robin. destruct (handles d !! h_id h); [|done].
  by destruct (lb_select _ _ _).
Qed.

Lemma keeps_keys_consistent key max accept h d : keeps_keys d (select_consistent key max accept h d).1.
Proof.
  intros id' k Hk. unfold select_consistent. destruct (handles d !! h_id h); [|done].
  by destruct (lb_select_with _ _ _ _).
Qed.

(** *** Requests *)

Lemma w_requests_set w i r : w_requests (set_request i r w) = <[i := r]> (w_requests w).
Proof. done. Qed.

Lemma world_inv_request w i r :
  world_inv w → (∀ id, refs id (set_request i r w) ≤ client_count id (w_dns w)) →
  request_ok (w_applied w) (w_answers w) (w_dns w) r → world_inv (set_request i r w).
Proof.
  intros [Hst Hd Ho Hheld Hraw He Ht Hr] Hc Hok. split; try done. intros j r'.
  rewrite w_requests_set, lookup_insert. case_decide; [by intros [= <-]|apply Hr].
Qed.

(** Replacing a request by one that holds no other handle. *)
Lemma refs_set_request w i r r' id :
  w_requests w !! i = Some r → rq_handle r' = rq_handle r ∨ rq_handle r' = None →
  refs id (set_request i r' w) ≤ refs id w.
Proof.
  intros Hi Hh. pose proof (request_refs_replace id i r r' _ Hi Hh). unfold refs.
  rewrite w_requests_set. change (w_store (set_request i r' w)) with (w_store w).
  change (w_main (set_request i r' w)) with (w_main w). lia.
Qed.

Lemma refs_add_request w i r id :
  refs id (set_request i r w) ≤ refs id w + one_ref id (rq_handle r).
Proof.
  pose proof (request_refs_insert id i r (w_requests w)). unfold refs.
  rewrite w_requests_set. change (w_store (set_request i r w)) with (w_store w).
  change (w_main (set_request i r w)) with (w_main w). lia.
Qed.

(** What a step that concerns only the request keeps. *)
Lemma life_frame st r r' :
  private_phase (rq_phase r) = true → life_step (D:=D) st r r' →
  (grpc_meta (rq_ctx r') = grpc_meta (rq_ctx r) ∧ req_header (rq_session r') = req_header (rq_session r))
  ∧ (rq_phase r' = Arrived ∨ rq_phase r' = Traced → rq_phase r = Arrived)
  ∧ ∀ key stale peer, rq_phase r' ≠ Connected key stale peer.
Proof.
  intros Hp Hstep. destruct Hstep as
    [s c started s' c' Hh|services s c s' c' Hh|services s c s' c' e Hh|s c s' c' Hh|s c Hoff
    |s c s' c' key Hon Hh|s c key meta hit Hl|s c key Hl|s c key e Hl|s c s' c' key meta hit now Hh Hfr
    |s c s' c' key meta hit now b Hh Hb|s c s' c' key stale select peer Hin Hh
    |s c s' c' key stale select e Hin Hh|s c key meta hit peer|s c key stale peer e
    |s c s' c' key stale peer now now' resp eos meta m Hnow Hh Hon Hm
    |s c s' c' key stale peer resp eos Hs Hc|s c s' c' miss heard chunk eos Hh|s c s' c' miss heard t Hh
    |s c heard ended|s c miss ended heard e|s c key meta hit how sent hit' chunk Hrd
    |s c key meta hit how sent hit' Hrd|s c key meta hit how sent e|s c s' c' e heard Hh
    |r Hpan];
    try done; simpl; (split; [|split; [intros [?|?]; congruence|intros; congruence]]); try done.
  - by injection Hh as <- <-.
  - unfold request_cache_filter, mbind, handler_bind, context, on_session in Hh.
    destruct (do_cache c); injection Hh as <- <-; [|done]. by destruct (cache_enable_rest s) as [-> _].
  - pose proof (cache_key_callback_frame (D:=D) s c) as Hfr. rewrite Hh in Hfr. by injection Hfr as -> ->.
  - by rewrite cache_disable_header.
  - by destruct (cache_hit_filter_frame _ _ _ _ _ _ Hh) as [-> ->].
  - by destruct (cache_hit_filter_frame _ _ _ _ _ _ Hh) as [-> ->].
  - by injection Hh as <- <- <-.
  - subst c'. destruct Hs as [->| ->]; [done|]. by rewrite cache_disable_header.
  - destruct eos; injection Hh as <- <-; [|done]. by rewrite cache_disable_header.
  - unfold upstream_response_trailer_filter in Hh.
    destruct (status_parse t) as [gs| |]; [destruct (is_ok gs)|..]; injection Hh as <- <-;
      by rewrite ?cache_disable_header.
  - by injection Hh as <- <-.
Qed.

(** *** Steps of the store *)

Lemma world_inv_store w st l :
  world_inv w → store_inv st → disc_inv (dns st) → origin (w_answers w) (dns st) →
  w_applied w ⊆ l → keeps_keys (w_dns w) (dns st) →
  (∀ id, entry_refs id (services st) + task_refs id (tasks st) + client_count id (w_dns w)
         ≤ entry_refs id (services (w_store w)) + task_refs id (tasks (w_store w))
           + client_count id (dns st)) →
  (∀ k o, raw_services st !! k = Some o → o ∈ l) →
  (∀ n e h, services st !! n = Some e → load_balancer e = Some h → vouched l (dns st) n h) →
  (∀ t, t ∈ tasks st → vouched l (dns st) (t_service_name t) (t_load_balancer t)) →
  world_inv (mkWorld (with_store st (w_main w)) (w_proxy w) l (w_answers w)).
Proof.
  intros [Hst Hd Ho Hheld Hraw He Ht Hr] Hst' Hd' Ho' Hl Hk Hc Hraw' He' Ht'. split; try done.
  - intros id. specialize (Hheld id). specialize (Hc id). unfold refs in *.
    unfold w_dns, w_store, w_requests in *. simpl in *. lia.
  - intros i r Hi. eapply request_ok_mono; [exact Hl|done|exact Hk|]. eauto.
Qed.

(** A handle requested for the upstream of a resource. *)
Lemma new_handle w l o url port :
  world_inv w → o ∈ l → upstream (spec o) = Dns url port →
  let '(d, h) := backends_for (w_dns w) url port in
  disc_inv d ∧ origin (w_answers w) d ∧ keeps_keys (w_dns w) d ∧ vouched l d (service_name (spec o)) h
  ∧ ∀ id, client_count id d = client_count id (w_dns w) + one_ref id (Some h).
Proof.
  intros Hw Ho Hu. pose proof (origin_backends_for _ _ url port (wi_disc _ Hw) (wi_origin _ Hw)) as Hor.
  destruct (backends_for_inv (w_dns w) url port (wi_disc _ Hw)) as [Hd _].
  pose proof (λ id, client_count_backends_for id url port (w_dns w)) as Hc.
  destruct (backends_for (w_dns w) url port) as [d h]. destruct Hor as (Hor & Hk & Hkey & Hfor).
  split_and!; [done..| |].
  - split; [by rewrite Hfor|]. exists o. by rewrite Hfor.
  - intros id. rewrite one_ref_Some. apply Hc.
Qed.

Lemma world_inv_change w c st :
  world_inv w → on_change c (w_store w) = Ok st →
  world_inv (mkWorld (with_store st (w_main w)) (w_proxy w) (note_applied c (w_applied w)) (w_answers w)).
Proof.
  intros Hw Hc. pose proof Hw as [Hst Hd Ho Hheld Hraw He Ht Hr].
  destruct (on_change_effect c _ _ Hst Hc) as (Heff & _ & Hraw').
  pose proof (on_change_inv c _ _ Hst Hc) as Hst'. set (l := note_applied c (w_applied w)).
  assert (w_applied w ⊆ l) as Hl by (unfold l; destruct c; simpl; set_solver).
  assert (∀ k o, raw_services st !! k = Some o → o ∈ l) as Hin.
  { intros k o [Hk| ->]%Hraw'; [by eapply Hl, Hraw|by left]. }
  assert (∀ d n e h, keeps_keys (w_dns w) d → services (w_store w) !! n = Some e → load_balancer e = Some h →
            vouched l d n h) as Hold.
  { intros d n e h Hk Hn Hh. eapply vouched_mono; [exact Hl|exact Hk|]. by eapply He. }
  assert (∀ d t, keeps_keys (w_dns w) d → t ∈ tasks (w_store w) →
            vouched l d (t_service_name t) (t_load_balancer t)) as Holdt.
  { intros d t Hk Hn. eapply vouched_mono; [exact Hl|exact Hk|]. by apply Ht. }
  assert (keeps_keys (w_dns w) (w_dns w)) as Hrefl by (intros id k Hk; exact Hk).
  destruct Heff as [Hs Htk Hdn|n g Hs Htk Hdn|o url port g sp Hsel Hu Hs Htk Hdn
                   |o url port g src q Hsel Hu Hs Htk Hdn]; change (dns (w_store w)) with (w_dns w) in *.
  - apply world_inv_store; rewrite ?Hdn, ?Hs, ?Htk; try done; eauto.
  - apply world_inv_store; rewrite ?Hdn, ?Hs, ?Htk; try done; eauto.
    + intros id. pose proof (entry_refs_insert id n (mkServiceData g None None) (services (w_store w))) as Hi.
      unfold one_ref in Hi. simpl in Hi. lia.
    + intros n' e h. rewrite lookup_insert. case_decide; [by intros [= <-]|]. by apply Hold.
  - pose proof (new_handle w l o url port Hw (Hin _ _ Hsel) Hu) as Hnew.
    change (backends_for_hostname (w_dns w) url port) with (backends_for (w_dns w) url port) in *.
    destruct (backends_for (w_dns w) url port) as [d h]. destruct Hnew as (Hd' & Ho' & Hk & Hv & Hcc).
    apply world_inv_store; rewrite ?Hdn, ?Hs, ?Htk; try done; eauto.
    + intros id. pose proof (entry_refs_insert id (service_name (spec o))
        (mkServiceData g (Some sp) (Some h)) (services (w_store w))) as Hi.
      rewrite Hcc. simpl in Hi. simpl. lia.
    + intros n' e h'. rewrite lookup_insert. case_decide; [|by apply Hold].
      intros [= <-] [= <-]. by subst n'.
  - pose proof (new_handle w l o url port Hw (Hin _ _ Hsel) Hu) as Hnew.
    change (backends_for_hostname (w_dns w) url port) with (backends_for (w_dns w) url port) in *.
    destruct (backends_for (w_dns w) url port) as [d h]. destruct Hnew as (Hd' & Ho' & Hk & Hv & Hcc).
    apply world_inv_store; rewrite ?Hdn, ?Hs, ?Htk; try done; eauto.
    + intros id. rewrite task_refs_app, task_refs_cons, Hcc. change (task_refs id []) with 0. simpl. lia.
    + intros t [Hin'| ->%list_elem_of_singleton]%elem_of_app; [by apply Holdt|done].
Qed.

Lemma world_inv_task w st :
  world_inv w → task_step (w_store w) st → world_inv (with_main (with_store st (w_main w)) w).
Proof.
  intros Hw Hstep. pose proof Hw as [Hst Hd Ho Hheld Hraw He Ht Hr].
  pose proof (task_step_inv _ _ Hst Hstep) as Hst'.
  assert (w_store w = store (w_main w)) as Hws by done. inversion Hstep as [? l1 t l2 E loaded Hl Heq]. subst st.
  assert (∀ t', t' ∈ l1 ++ l2 → t' ∈ tasks (w_store w)) as Hsub by (rewrite Hl; set_solver).
  assert (t ∈ tasks (w_store w)) as Hin by (rewrite Hl; set_solver).
  apply world_inv_store; try done; cbn [with_tasks services tasks dns]; change (dns (w_store w)) with (w_dns w).
  - intros id k Hk. exact Hk.
  - intros id. rewrite Hl, !task_refs_app, task_refs_cons.
    destruct (finish_task_cases loaded t (services (w_store w))) as [->|(sp & -> & _)]; [lia|].
    pose proof (entry_refs_insert id (t_service_name t)
      (mkServiceData (t_generation t) (Some sp) (Some (t_load_balancer t))) (services (w_store w))) as Hi.
    simpl in Hi. lia.
  - intros n e h. destruct (finish_task_cases loaded t (services (w_store w))) as [->|(sp & -> & _)]; [apply He|].
    rewrite lookup_insert. case_decide as Hn; [|apply He]. intros [= <-] [= <-]. subst n. by apply Ht.
  - intros t' Ht'. by apply Ht, Hsub.
Qed.

(** *** The two handlers that use the other parts *)

(** What [request_filter] leaves in the context: nothing, or the service of the path. *)
Lemma filter_handle services (s s' : S) (c c' : RequestCtx HandleRef) res :
  request_filter services s c = (s', c', res) → grpc_meta c = None →
  raw_path (req_header s') = raw_path (req_header s)
  ∧ ∀ h, ctx_handle c' = Some h → ∃ n m e,
      parse_grpc_path (raw_path (req_header s)) = Ok (n, m) ∧ services !! n = Some e ∧ load_balancer e = Some h.
Proof.
  intros Hf Hnone. pose proof (request_filter_cases services s c) as Hc. rewrite Hf in Hc.
  unfold routed_service in Hc. unfold ctx_handle.
  assert (grpc_meta c' = grpc_meta c → ∀ h, (grpc_meta c' ≫= λ m, load_balancer (service_data m)) ≠ Some h)
    as Hno by (intros ->; rewrite Hnone; done).
  destruct (parse_grpc_path (raw_path (req_header s))) as [[n m]| |];
    [|destruct Hc as (_ & -> & _ & Hg); split; [done|]; intros h Hh; by destruct (Hno Hg h)..].
  destruct (services !! n) as [e|] eqn:Hn; [case_decide|];
    [|destruct Hc as (_ & -> & _ & Hg); split; [done|]; intros h Hh; by destruct (Hno Hg h)..].
  destruct Hc as (vs & _ & -> & _ & Hc). split; [|intros h Hh; by exists n, m, e].
  destruct (positive_ttl _); [|by destruct Hc as (_ & -> & _)].
  destruct Hc as [_ Hc]. destruct (failure s); [by destruct Hc as [_ ->]|].
  case_decide; [by destruct Hc as [_ ->]|by destruct Hc as [_ [-> _]]].
Qed.

Lemma filter_phase_new res p : filter_phase (H:=H) (St:=St) res = Some p → p ≠ Arrived ∧ p ≠ Traced
  ∧ (∀ key stale peer, p ≠ Connected key stale peer) ∧ p ≠ Logged.
Proof. destruct res as [[]|e|]; simpl; intros [= <-]; done. Qed.

Lemma world_inv_filter w i (s s' : S) (c c' : RequestCtx HandleRef) res p :
  world_inv w → w_requests w !! i = Some (mkRequest Traced s c []) →
  request_filter (services (w_store w)) s c = (s', c', res) → filter_phase res = Some p →
  world_inv (set_request i (mkRequest p s' c' []) (on_dns (clone_opt (ctx_handle c') (w_dns w)) w)).
Proof.
  intros Hw Hi Hf Hp. destruct (filter_phase_new res p Hp) as (Hp1 & Hp2 & Hp3 & Hp4).
  pose proof (ro_new _ _ _ _ (wi_request _ Hw _ _ Hi) (or_intror eq_refl)) as Hnone. simpl in Hnone.
  destruct (filter_handle _ _ _ _ _ _ Hf Hnone) as [Hpath Hh].
  assert (rq_handle (mkRequest (Resp:=Resp) p s' c' []) = ctx_handle c') as Hrq by (by destruct p).
  set (d := clone_opt (ctx_handle c') (w_dns w)).
  assert (∀ id, client_count id d = client_count id (w_dns w) + one_ref id (ctx_handle c')) as Hcc.
  { intros id. unfold d. destruct (ctx_handle c') as [h|] eqn:Hch; [|unfold one_ref; simpl; lia].
    destruct (Hh h eq_refl) as (n & m & e & _ & Hn & Hlb). simpl. rewrite one_ref_Some.
    apply client_count_clone. by eapply entry_count. }
  assert (keeps_keys (w_dns w) d) as Hk by (intros id k Hk; unfold d; by destruct (ctx_handle c')).
  assert (world_inv (on_dns d w)) as Hw'.
  { apply world_inv_dns; try done.
    - unfold d. destruct (ctx_handle c') as [h|] eqn:Hch; [|apply (wi_disc _ Hw)].
      destruct (Hh h eq_refl) as (n & m & e & _ & Hn & Hlb).
      apply on_clients_inv; [apply (wi_disc _ Hw)|]. intros k _. right. apply client_count_live.
      by eapply entry_count.
    - unfold d. destruct (ctx_handle c'); [|apply (wi_origin _ Hw)]. apply origin_clients, (wi_origin _ Hw).
    - intros id. rewrite Hcc. pose proof (wi_held _ Hw id). lia. }
  apply world_inv_request; [done|..].
  - intros id. pose proof (refs_add_request (on_dns d w) i (mkRequest p s' c' []) id) as Hadd.
    rewrite Hrq in Hadd. change (w_dns (on_dns d w)) with d. rewrite Hcc.
    pose proof (wi_held _ Hw id). change (refs id (on_dns d w)) with (refs id w) in Hadd. lia.
  - split; simpl.
    + by intros [?|?].
    + intros h Hch. destruct (Hh h Hch) as (n & m & e & Hpp & Hn & Hlb). exists n, m. rewrite Hpath.
      split; [done|]. eapply vouched_mono; [done|exact Hk|]. by eapply (wi_entry _ Hw).
    + intros key stale peer Heq. by destruct (Hp3 key stale peer).
Qed.

(** The backend that is selected comes from the resolver. *)
Lemma select_upstream_answered w h b :
  world_inv w → key_of (w_dns w) (h_id h) (h_for h) → select_upstream (w_dns w) h = Some b →
  answered (w_answers w) (h_for h) b.
Proof.
  intros Hw Hk. unfold select_upstream, select_round_robin.
  destruct (handles (w_dns w) !! h_id h) as [hd|] eqn:Hh; [|done].
  pose proof (lb_select_cases [] 256 (load_balancer_round_robin hd) ltac:(lia)) as Hs.
  destruct (lb_select [] 256 (load_balancer_round_robin hd)) as [lb' [b'|]]; simpl in *; [|done].
  intros [= <-]. apply (o_from _ _ (wi_origin _ Hw) _ _ _ Hk Hh). unfold handle_backends. set_solver.
Qed.

Lemma peer_answered w (s s' : S) (c c' : RequestCtx HandleRef) res peer :
  world_inv w → (∀ h, ctx_handle c = Some h → key_of (w_dns w) (h_id h) (h_for h)) →
  upstream_peer (select_upstream (w_dns w)) s c = (s', c', res) → res = Ok peer →
  ∃ h, ctx_handle c = Some h ∧ peer_ok (w_answers w) h peer.
Proof.
  intros Hw Hv. unfold upstream_peer, ctx_handle, mbind, handler_bind, context, on_context, lift in *.
  destruct (grpc_meta c) as [m|]; simpl in *; [|by intros [= _ _ <-]].
  destruct (load_balancer (service_data m)) as [h|]; simpl in *; [|by intros [= _ _ <-]].
  destruct (select_upstream (w_dns w) h) as [b|] eqn:Hs; [|by intros [= _ _ <-]].
  destruct (select_upstream_answered w h b Hw (Hv h eq_refl) Hs) as (ip & addrs & Ha & Hip & ->).
  simpl. intros [= <- <- <-] [= <-]. exists h. split; [done|]. by exists ip, addrs.
Qed.

Lemma world_inv_peer w i key stale (s s' : S) (c c' : RequestCtx HandleRef) res p :
  world_inv w → w_requests w !! i = Some (mkRequest (Upstreaming key stale) s c []) →
  upstream_peer (select_upstream (w_dns w)) s c = (s', c', res) → peer_phase key stale res = Some p →
  world_inv (set_request i (mkRequest p s' c' []) (on_dns (select_opt (ctx_handle c) (w_dns w)) w)).
Proof.
  intros Hw Hi Hu Hp. pose proof (wi_request _ Hw _ _ Hi) as [_ Hro _]. simpl in Hro.
  destruct (upstream_peer_frame _ _ _ _ _ _ Hu) as [-> Hg].
  assert (ctx_handle c' = ctx_handle c) as Hch by (unfold ctx_handle; by rewrite Hg).
  set (d := select_opt (ctx_handle c) (w_dns w)).
  assert (keeps_keys (w_dns w) d) as Hk.
  { unfold d. destruct (ctx_handle c); [apply keeps_keys_select|intros ? ? Hk; exact Hk]. }
  assert (world_inv (on_dns d w)) as Hw'.
  { apply world_inv_dns; try done; unfold d; destruct (ctx_handle c) as [h|]; simpl.
    - apply select_round_robin_inv, (wi_disc _ Hw).
    - apply (wi_disc _ Hw).
    - apply origin_select_round_robin, (wi_origin _ Hw).
    - apply (wi_origin _ Hw).
    - intros id. rewrite client_count_select. apply (wi_held _ Hw).
    - apply (wi_held _ Hw). }
  apply world_inv_request; [done|..].
  - intros id. etrans; [|apply (wi_held _ Hw')]. eapply refs_set_request; [exact Hi|].
    unfold rq_handle. simpl. left. rewrite Hch. by destruct res; simplify_eq/=.
  - split; simpl.
    + destruct res; simplify_eq/=; by intros [?|?].
    + intros h. rewrite Hch. intros (n & m & ? & ?)%Hro. exists n, m. split; [done|].
      eapply vouched_mono; [done|exact Hk|done].
    + intros key' stale' peer ->. rewrite Hch.
      destruct res as [peer'| |]; simplify_eq/=. eapply peer_answered; [done| |exact Hu|done].
      intros h (n & m & _ & [? _])%Hro. done.
Qed.

(** *** All steps *)

Lemma world_inv_life w i r r' :
  world_inv w → w_requests w !! i = Some r → private_phase (rq_phase r) = true →
  life_step (D:=D) (sys_store (w_proxy w)) r r' → world_inv (set_request i r' w).
Proof.
  intros Hw Hi Hp Hstep. destruct (life_frame _ _ _ Hp Hstep) as ([Hg Hh] & Hnew & Hcon).
  pose proof (wi_request _ Hw _ _ Hi) as [Hro1 Hro2 _].
  assert (ctx_handle (rq_ctx r') = ctx_handle (rq_ctx r)) as Hch by (unfold ctx_handle; by rewrite Hg).
  assert (rq_phase r ≠ Logged) as Hlog by (intros Hl; destruct Hstep; unfold panics in *; by simplify_eq/=; case_match).
  apply world_inv_request; [done|..].
  - intros id. etrans; [|apply (wi_held _ Hw)]. eapply refs_set_request; [exact Hi|]. unfold rq_handle.
    rewrite Hch. destruct (rq_phase r'); auto; left; by destruct (rq_phase r).
  - split.
    + intros Hph. rewrite Hg. auto.
    + intros h. rewrite Hch, Hh. apply Hro2.
    + intros key stale peer Heq. by destruct (Hcon key stale peer).
Qed.

Lemma world_inv_finish w i r st' r' x :
  world_inv w → w_requests w !! i = Some r → finish_step (sys_store (w_proxy w)) r st' r' x →
  world_inv (with_proxy (mkSys st' (<[i := r']> (w_requests w)) (x :: sys_history (w_proxy w))) w).
Proof.
  intros Hw Hi Hfin. assert (world_inv (set_request i r' w)) as [Hst Hd Ho Hheld Hraw He Ht Hr].
  { destruct Hfin as [s c key meta m heard st' n Hon Hf r0].
    pose proof (wi_request _ Hw _ _ Hi) as [_ Hro _]. apply world_inv_request; [done|..].
    - intros id. etrans; [|apply (wi_held _ Hw)]. eapply refs_set_request; [exact Hi|]. by left.
    - split; [by intros [?|?]|exact Hro|done]. }
  by split.
Qed.

Lemma world_inv_main w m :
  world_inv w → store m = store (w_main w) → redis_backends m = redis_backends (w_main w) →
  world_inv (with_main m w).
Proof.
  destruct w as [m0 x l a], m as [hl st rb kr], m0 as [hl0 st0 rb0 kr0]. simpl. intros Hw -> ->.
  destruct Hw as [Hst Hd Ho Hheld Hraw He Ht Hr]. by split.
Qed.

Lemma world_step_inv w w' : world_step w w' → world_inv w → world_inv w'.
Proof.
  intros Hstep Hw. pose proof Hw as [Hst Hd Ho Hheld Hraw He Ht Hr].
  destruct Hstep as [w c st Hrun Hc|w c Hrun Hc|w st Htk|w|w i response d Hs|w id h Hh Hlt|w key max accept
    |w h Hsys|w i s Hi Hoff|w i s c s' c' res p Hi Hf Hp|w i key stale s c s' c' res p Hi Hu Hp|w i r r' Hi Hp Hl
    |w i r st' r' e Hi Hfin|w st' Henv].
  - by apply world_inv_change.
  - by apply world_inv_main.
  - by apply world_inv_task.
  - apply world_inv_dns; try done.
    + by apply receive_inv.
    + by apply origin_receive.
    + intros id k Hk. by apply key_of_receive.
    + intros id. by rewrite client_count_receive.
  - apply (world_inv_dns w d (note_answer response i (w_dns w) (w_answers w))); try done.
    + destruct (loop_step_inv response i (w_dns w) Hd) as (d' & Hd' & ? & _). congruence.
    + by eapply origin_loop_step.
    + apply note_answer_mono.
    + by eapply loop_step_keys.
    + intros id. by rewrite (client_count_loop id _ _ _ _ Hs).
  - apply world_inv_dns; try done.
    + apply on_clients_inv; [done|]. lia.
    + by apply origin_clients.
    + apply keeps_keys_clients.
    + intros id'. unfold drop_ref. rewrite client_count_on_handle. specialize (Hheld id').
      unfold client_count in Hheld. destruct (handles (w_dns w) !! id') as [h'|] eqn:Hh'; [|done].
      case_decide; [|done]. subst id'. simplify_eq. simpl. lia.
  - apply world_inv_dns; try done.
    + by apply select_consistent_inv.
    + by apply origin_select_consistent.
    + apply keeps_keys_consistent.
    + intros id. by rewrite client_count_select_consistent.
  - by apply world_inv_main.
  - apply world_inv_request; [done|..].
    + intros id. pose proof (refs_add_request w i (mkRequest Arrived s new_ctx []) id) as Hadd.
      specialize (Hheld id). unfold one_ref in Hadd. simpl in Hadd. lia.
    + split; done.
  - by eapply world_inv_filter.
  - by eapply world_inv_peer.
  - by eapply world_inv_life.
  - by eapply world_inv_finish.
  - by split.
Qed.

Lemma world_start_inv config w : world_start config w → world_inv w.
Proof.
  intros (Hst & (Hreq & _) & Hl & Ha). unfold startup in Hst.
  destruct (enable (kubernetes config)); simpl in Hst; [|done].
  destruct (cache_backend config) as [hostname port].
  pose proof (origin_backends_for [] (RR:=RR) (Cons:=Cons) discovery_new hostname port disc_inv_new (origin_new _)) as Hor.
  pose proof (backends_for_inv (RR:=RR) (Cons:=Cons) discovery_new hostname port disc_inv_new) as [Hd _].
  pose proof (λ id, client_count_backends_for (RR:=RR) (Cons:=Cons) id hostname port discovery_new) as Hc.
  destruct (backends_for discovery_new hostname port) as [d h]. destruct Hor as [Hor _].
  destruct w as [m x l a]. simpl in *. injection Hst as <-. subst l a.
  split; unfold w_dns, w_store, w_requests; simpl; try done.
  - apply store_inv_new.
  - intros id. unfold refs, w_store, w_requests. simpl. rewrite Hreq, Hc, one_ref_Some.
    unfold entry_refs, task_refs, request_refs. rewrite !map_filter_empty, !map_size_empty. simpl. lia.
  - intros t Hin. by apply elem_of_nil in Hin.
  - intros i r. by rewrite Hreq, lookup_empty.
Qed.

Lemma world_reachable_inv config w0 w :
  world_start config w0 → rtc world_step w0 w → world_inv w.
Proof. intros Hs%world_start_inv Hr. induction Hr; eauto using world_step_inv. Qed.
End inv.
