(* ===== verification/WorldProps.v ===== *)
(** * WorldProps: what holds of the running process

    Every step of the process is a step of its parts ([world_steps_parts]), so that what
    was proved of the parts holds of the whole; the request handlers, the discovery loops
    and the loop of the store panic on exactly three things, an unqualified service name, a
    request to be cached that has no body, and a value in the storage that the lookup
    panics on ([process_panics_iff]); the handles that are in
    use are alive and served by discovery ([used_handles_served]); and a request is sent
    only to an address that the resolver returned for the upstream of a resource with its
    service name ([request_peer_origin]). *)

From stdpp Require Import gmap strings list fin_maps relations.
From Stdlib Require Import Strings.Byte.
From S2P Require Import Prelude Text Headers Hash Status Path Health Crd ServiceSpec ResourceChange.
From S2P Require Import ServiceStore StoreInv Discovery DiscoveryInv DiscoveryProps DiscoveryOrigin.
From S2P Require Import Cache Session StorageSpec Proxy ProxyProps Lifecycle LifecycleProps EndToEnd Main.
From S2P Require Import World WorldInv.

Section props.
Context {R : Reflection} {RR Cons : Type} `{HRR : BalancerLaws RR, HCons : BalancerLaws Cons}.
Context {H S D St Resp : Type}.
Context `{HL : HeaderMapLaws H, SL : SessionLaws H S, PL : PingoraCacheLaws H, !Digest D}.
Context `{!Storage H St, SLS : !StorageLaws H St, !MetaClock H Resp}.
Notation Discovery := (Discovery RR Cons).
Notation Request := (Request H S HandleRef St Resp).
Notation World := (World RR Cons H S St Resp).
Notation world_step := (world_step (D:=D)).
Notation sys_step := (sys_step (D:=D) (λ _ _ _, True)).
Implicit Types (w : World) (d : Discovery) (r : Request) (id i : nat) (n : bytes) (h : HandleRef).

(** ** The parts *)

Lemma on_dns_same w : on_dns (w_dns w) w = w.
Proof. by destruct w as [[hl [] rb kr] x l a]. Qed.

Lemma clone_steps w h :
  0 < client_count (h_id h) (w_dns w) → rtc system_step (w_main w) (w_main (on_dns (clone_ref h (w_dns w)) w)).
Proof.
  unfold client_count. destruct (handles (w_dns w) !! h_id h) as [hd|] eqn:Hh; [|lia]. intros Hc.
  apply rtc_once, sys_discovery. by eapply disc_clone.
Qed.

Lemma world_step_main w w' :
  world_step w w' → world_inv w → rtc system_step (w_main w) (w_main w').
Proof.
  intros Hstep Hw.
  destruct Hstep as [w c st Hrun Hc|w c Hrun Hc|w st Htk|w|w i response d Hs|w id h Hh Hlt|w key max accept
    |w h Hsys|w i s Hi Hoff|w i s c s' c' res p Hi Hf Hp|w i key stale s c s' c' res p Hi Hu Hp|w i r r' Hi Hp Hl
    |w i r st' r' e Hi Hfin|w st' Henv]; try done.
  - by eapply rtc_once, sys_change.
  - by eapply rtc_once, sys_change_panic.
  - by eapply rtc_once, sys_task.
  - apply rtc_once, sys_discovery, disc_receive.
  - by eapply rtc_once, sys_discovery, disc_loop.
  - eapply rtc_once, sys_discovery, disc_drop; [exact Hh|lia].
  - apply rtc_once, sys_discovery, disc_select_consistent.
  - by apply rtc_once.
  - pose proof (ro_new _ _ _ _ (wi_request _ Hw _ _ Hi) (or_intror eq_refl)) as Hnone.
    destruct (filter_handle _ _ _ _ _ _ Hf Hnone) as [_ Hh].
    change (rtc system_step (w_main w) (w_main (on_dns (clone_opt (ctx_handle c') (w_dns w)) w))).
    destruct (ctx_handle c') as [h|]; [|cbn [clone_opt]; by rewrite on_dns_same].
    destruct (Hh h eq_refl) as (n & m & e & _ & Hn & Hlb). apply clone_steps. by eapply entry_count.
  - change (rtc system_step (w_main w) (w_main (on_dns (select_opt (ctx_handle c) (w_dns w)) w))).
    destruct (ctx_handle c) as [h|]; [|cbn [select_opt]; by rewrite on_dns_same].
    apply rtc_once, sys_discovery, disc_select_round_robin.
Qed.

(** The balancers hold internet addresses. *)
Lemma select_upstream_inet w : world_inv w → inet_only (select_upstream (w_dns w)).
Proof.
  intros Hw h b Hs. destruct (handles (w_dns w) !! h_id h) as [hd|] eqn:Hh;
    [|unfold select_upstream, select_round_robin in Hs; by rewrite Hh in Hs].
  assert (∃ k, key_of (w_dns w) (h_id h) k) as [k Hk].
  { assert (h_id h ∈ channels (w_dns w)) as Hin.
    { rewrite (d_channels _ (wi_disc _ Hw)). apply elem_of_seq. split; [lia|]. by apply lookup_lt_Some in Hh. }
    apply elem_of_app in Hin as [([k c p] & -> & Hl)%list_elem_of_fmap|([k c] & -> & Hl)%list_elem_of_fmap].
    - exists k. right. by exists p.
    - exists k. by left. }
  destruct (select_upstream_answered w (mkHandleRef (h_id h) k) b Hw Hk Hs) as (ip & addrs & _ & _ & ->).
  by eexists.
Qed.

Lemma world_step_proxy w w' :
  world_step w w' → world_inv w → rtc sys_step (w_proxy w) (w_proxy w').
Proof.
  intros Hstep Hw.
  destruct Hstep as [w c st Hrun Hc|w c Hrun Hc|w st Htk|w|w i response d Hs|w id h Hh Hlt|w key max accept
    |w h Hsys|w i s Hi Hoff|w i s c s' c' res p Hi Hf Hp|w i key stale s c s' c' res p Hi Hu Hp|w i r r' Hi Hp Hl
    |w i r st' r' e Hi Hfin|w st' Henv]; try done; apply rtc_once.
  - by apply sys_arrive.
  - eapply sys_life; [exact Hi|]. destruct res as [[]|e|]; simplify_eq/=; [by eapply life_filter|].
    by eapply life_filter_error.
  - pose proof (select_upstream_inet w Hw). eapply sys_life; [exact Hi|].
    destruct res as [peer|e|]; simplify_eq/=; [by eapply life_peer|by eapply life_no_peer].
  - by eapply sys_life.
  - by eapply sys_finish.
  - apply sys_env; [done|]. by right.
Qed.

Lemma world_steps_parts w w' :
  rtc world_step w w' → world_inv w →
  rtc system_step (w_main w) (w_main w') ∧ rtc sys_step (w_proxy w) (w_proxy w').
Proof.
  induction 1 as [w|w1 w2 w3 Hstep _ IH]; intros Hw; [done|].
  destruct (IH (world_step_inv _ _ Hstep Hw)) as [IH1 IH2].
  split; [etrans; [by eapply world_step_main|done]|etrans; [by eapply world_step_proxy|done]].
Qed.

(** A run of the process is a run of its requests over a storage that others may write. *)
Lemma world_proxy_inv config w0 w :
  world_start config w0 → rtc world_step w0 w → sys_inv (λ _ _ _, True) (w_proxy w).
Proof.
  intros Hs Hr. destruct (world_steps_parts w0 w Hr (world_start_inv _ _ Hs)) as [_ Hp].
  destruct Hs as (_ & [Hreq Hh] & _). eapply sys_reachable_inv; [|exact Hp]. by split_and!.
Qed.

Lemma world_system_inv config w0 w :
  world_start config w0 → rtc world_step w0 w → system_inv (w_main w).
Proof.
  intros Hs Hr. destruct (world_steps_parts w0 w Hr (world_start_inv _ _ Hs)) as [Hm _].
  destruct Hs as [Hst _]. apply startup_inv in Hst. clear Hr. induction Hm; eauto using system_step_inv.
Qed.

(** ** Panics *)

(** C5: What makes the handlers, the discovery loops and the loop of the store panic. In every
    reachable state of the process, whatever others have put into the storage: the next
    handler of a request panics if and only if the request is to be cached and its body is
    empty (the unwrap of the buffered body in [cache_key_callback]), or the lookup of its key
    panics, which it does only on a damaged slot. No other handler panics, in particular not
    [upstream_peer] on what discovery found; every discovery loop can take its next step;
    and the loop of the store panics on a change if and only if the change applies a
    resource with an unqualified service name. *)
Theorem process_panics_iff config w0 w :
  world_start config w0 → rtc world_step w0 w →
  (∀ i r, w_requests w !! i = Some r →
     panics (D:=D) (sys_store (w_proxy w)) r ↔ empty_body r ∨ bad_entry (sys_store (w_proxy w)) r)
  ∧ (∀ key, lookup_key key (sys_store (w_proxy w)) = Panic → damaged (sys_store (w_proxy w)) (primary_bin key))
  ∧ inet_only (select_upstream (w_dns w))
  ∧ (∀ i response, ∃ d, loop_step response i (w_dns w) = Ok d)
  ∧ (∀ c, on_change c (w_store w) = Panic ↔ ∃ o, c = Apply o ∧ dot ∉ service_name (spec o)).
Proof.
  intros Hs Hr. pose proof (world_reachable_inv _ _ _ Hs Hr) as Hw. split_and!.
  - intros i r. eapply sys_inv_panics. by eapply world_proxy_inv.
  - intros key. apply lookup_panic.
  - by apply select_upstream_inet.
  - intros i response. destruct (loop_step_inv response i _ (wi_disc _ Hw)) as (d & ? & _). eauto.
  - intros c. split; [|intros (o & -> & Ho); by apply apply_service_panics; [apply (wi_store _ Hw)|]].
    destruct c as [|o|k|e]; simpl; [done| |..|done].
    + intros Hp. exists o. split; [done|]. intros Hdot.
      destruct (apply_service_inv _ o (wi_store _ Hw) Hdot) as (? & ? & _). congruence.
    + destruct (remove_service_inv _ k (wi_store _ Hw)) as (? & -> & _). done.
Qed.

(** ** Handles in use *)

(** Somebody uses the handle: a routed service, a task that will route one, or a request
    that is not yet logged. *)
Definition used w h : Prop :=
  (∃ n e, services (w_store w) !! n = Some e ∧ load_balancer e = Some h)
  ∨ (∃ t, t ∈ tasks (w_store w) ∧ t_load_balancer t = h)
  ∨ ∃ i r, w_requests w !! i = Some r ∧ rq_handle r = Some h.

Lemma used_count w h :
  world_inv w → used w h → 0 < client_count (h_id h) (w_dns w) ∧ key_of (w_dns w) (h_id h) (h_for h).
Proof.
  intros Hw Hu. pose proof (wi_held _ Hw (h_id h)) as Hc. unfold refs in Hc.
  destruct Hu as [(n & e & He & Hh)|[(t & Ht & <-)|(i & r & Hi & Hh)]].
  - pose proof (entry_refs_pos n e h _ He Hh). split; [lia|]. by destruct (wi_entry _ Hw n e h He Hh).
  - pose proof (task_refs_pos t _ Ht). split; [lia|]. by destruct (wi_task _ Hw t Ht).
  - pose proof (request_refs_pos i r h _ Hi Hh). split; [lia|].
    assert (ctx_handle (rq_ctx r) = Some h) as Hch by (unfold rq_handle in Hh; by destruct (rq_phase r)).
    destruct (ro_handle _ _ _ _ (wi_request _ Hw i r Hi) h Hch) as (? & ? & _ & ? & _). done.
Qed.

Lemma used_served w h :
  world_inv w → used w h →
  service_backends (w_dns w) !! h_for h = Some h
  ∧ (StartDiscoveryLoop (h_for h) (h_id h) ∈ commands (w_dns w)
     ∨ ∃ i p, loops (w_dns w) !! i = Some (mkLoop (h_for h) (h_id h) p) ∧ p ≠ Stopped).
Proof.
  intros Hw Hu.
  destruct (used_count w h Hw Hu) as [Hc Hk]. pose proof (wi_disc _ Hw) as Hd.
  destruct (live_served _ _ Hd (client_count_live _ _ Hc)) as (k & Hreg & Hserved).
  assert (k = h_for h) as ->.
  { apply (key_of_unique (w_dns w) (h_id h) k (h_for h) Hd); [|exact Hk].
    destruct Hserved as [Hcmd|(i & p & Hl & _)]; [by left|]. right. exists p. by eapply list_elem_of_lookup_2. }
  destruct h as [id k]. simpl in *. done.
Qed.

(** C4: Handles in use are served: in every reachable state of the process, a handle that the
    routing table, a loading task or an unfinished request holds is the one registered
    for its host and port, and discovery works for it: its command is queued, or a loop
    that has not stopped looks up its host. No route is left without discovery. *)
Theorem used_handles_served config w0 w h :
  world_start config w0 → rtc world_step w0 w → used w h →
  service_backends (w_dns w) !! h_for h = Some h
  ∧ (StartDiscoveryLoop (h_for h) (h_id h) ∈ commands (w_dns w)
     ∨ ∃ i p, loops (w_dns w) !! i = Some (mkLoop (h_for h) (h_id h) p) ∧ p ≠ Stopped).
Proof. intros Hs Hr. apply used_served. by eapply world_reachable_inv. Qed.

(** ** Where requests go *)

(** C2: Where a request is sent: when a request is connected to a peer, its path names a
    service for which a resource was applied, and the peer is an address that the
    resolver returned for the host of this resource's upstream, at its port. *)
Theorem request_peer_origin config w0 w i r key stale peer :
  world_start config w0 → rtc world_step w0 w →
  w_requests w !! i = Some r → rq_phase r = Connected key stale peer →
  ∃ n m o url port ip addrs,
    parse_grpc_path (raw_path (req_header (rq_session r))) = Ok (n, m)
    ∧ o ∈ w_applied w ∧ service_name (spec o) = n ∧ upstream (spec o) = Dns url port
    ∧ (url, addrs) ∈ w_answers w ∧ ip ∈ addrs ∧ peer = mkPeer (ip, port) false [] true.
Proof.
  intros Hs Hr Hi Hp. pose proof (world_reachable_inv _ _ _ Hs Hr) as Hw.
  destruct (wi_request _ Hw i r Hi) as [_ Hro Hpeer].
  destruct (Hpeer key stale peer Hp) as (h & Hh & ip & addrs & Ha & Hip & ->).
  destruct (Hro h Hh) as (n & m & Hpath & _ & o & Ho & Hn & Hu). by exists n, m, o, (h_for h).1, (h_for h).2, ip, addrs.
Qed.
End props.
