(* ===== verification/WorldRun.v ===== *)
(** * WorldRun: requests get through

    From every reachable state of the process, a request for a routed service can be
    brought to a peer of the resolver's next answer ([routed_request_connects]): the
    command of the handle is received, its loop comes back to its lookup, a round
    brings the answer into the balancer, and the handlers pass the request on. After a
    panic of the store's loop the process can still come to report readiness
    ([panic_reports_ready]). The end of the file runs the process from [main] to a connected
    request. *)

From stdpp Require Import gmap strings list fin_maps relations.
From Stdlib Require Import Strings.Byte.
From S2P Require Import Prelude Text Headers Hash Status Path Health Crd ServiceSpec ResourceChange.
From S2P Require Import ServiceStore StoreInv Discovery DiscoveryInv DiscoveryProps DiscoveryOrigin.
From S2P Require Import Cache Session StorageSpec Proxy ProxyProps Lifecycle LifecycleProps EndToEnd Main.
From S2P Require Import World WorldInv WorldProps.

(** ** Discovery gets to the answer *)

Section looking.
Context {RR Cons : Type} `{HRR : BalancerLaws RR, HCons : BalancerLaws Cons}.
Notation Discovery := (Discovery RR Cons).
Implicit Types (d : Discovery) (a : Answers).

(** Steps of discovery on its own: the service receives, a loop goes on. *)
Inductive look_step : Answers * Discovery → Answers * Discovery → Prop :=
| look_receive a d : look_step (a, d) (a, receive d)
| look_loop a d i response d' :
    loop_step response i d = Ok d' → look_step (a, d) (note_answer response i d a, d').

Lemma look_steps_keep x y :
  rtc look_step x y → disc_inv x.2 →
  disc_inv y.2 ∧ (∀ id, client_count id y.2 = client_count id x.2) ∧ keeps_keys x.2 y.2.
Proof.
  induction 1 as [x|x y z Hstep _ IH]; intros Hinv; [split_and!; [done..|intros id k Hk; exact Hk]|].
  assert (disc_inv y.2 ∧ (∀ id, client_count id y.2 = client_count id x.2) ∧ keeps_keys x.2 y.2)
    as (Hinv' & Hc & Hk).
  { destruct Hstep as [a d|a d i response d' Hs]; simpl in *.
    - split_and!; [by apply receive_inv|intros; apply client_count_receive|].
      intros id k Hk. by apply key_of_receive.
    - split_and!; [|intros; by eapply client_count_loop|by eapply loop_step_keys].
      destruct (loop_step_inv response i d Hinv) as (? & ? & ? & _). congruence. }
  destruct (IH Hinv') as (? & Hc' & Hk'). split_and!; [done|intros; by rewrite Hc', Hc|].
  intros id k ?. by apply Hk', Hk.
Qed.

(** Commands are received in order. *)
Lemma look_received a d k id :
  StartDiscoveryLoop k id ∈ commands d →
  ∃ d' i, rtc look_step (a, d) (a, d') ∧ loops d' !! i = Some (mkLoop k id AtStart).
Proof.
  remember (commands d) as cs eqn:Hcs. revert d Hcs. induction cs as [|[k0 id0] cs IH]; intros d Hcs Hin.
  { by apply elem_of_nil in Hin. }
  assert (receive d = mkDiscovery (service_backends d) (handles d) cs (loops d ++ [mkLoop k0 id0 AtStart]))
    as Hrec by (unfold receive; by rewrite <- Hcs).
  apply elem_of_cons in Hin as [Heq|Hin].
  - simplify_eq. exists (receive d), (length (loops d)). split; [apply rtc_once, look_receive|].
    rewrite Hrec. simpl. by rewrite lookup_app_r, Nat.sub_diag by done.
  - destruct (IH (receive d)) as (d' & i & Hr & Hl); [by rewrite Hrec|done|].
    exists d', i. split; [|done]. eapply rtc_l; [apply look_receive|done].
Qed.

(** How many steps a loop is from its lookup. *)
Definition to_lookup (p : LoopPc) : nat :=
  match p with
  | AtLookup _ | Stopped => 0
  | AtStart | AtCheck _ => 1
  | AtUpdateConsistent _ => 2
  | AtUpdateRoundRobin _ => 3
  | AtUpgrade _ => 4
  end.

(** The loop of a handle with clients goes on to its lookup. *)
Lemma loop_advances d i k id p :
  disc_inv d → 0 < client_count id d → loops d !! i = Some (mkLoop k id p) → 0 < to_lookup p →
  ∃ d' p', loop_step None i d = Ok d' ∧ loops d' !! i = Some (mkLoop k id p') ∧ p' ≠ Stopped
    ∧ to_lookup p' < to_lookup p.
Proof.
  intros Hinv Hc Hl Hp. pose proof (client_count_live _ _ Hc) as Hlive.
  destruct (d_loop _ Hinv _ _ Hl) as ((Hreg & _ & _) & Hw & _). simpl in Hreg, Hw.
  assert (live_without i d id) as Hwo.
  { unfold client_count in Hc. destruct (handles d !! id) as [h|] eqn:Hh; [|lia]. exists h. auto. }
  assert (∀ w, weak_of p = Some w → h_id w = id) as Hid by (intros w Hweak; by apply (Hw w Hweak)).
  pose proof (loop_step_at None i d k id p Hl Hwo Hid) as Hs.
  destruct p as [|w|w|w|w|w|]; simpl in Hp; try lia.
  - destruct Hreg as [r Hr]. exists (set_pc i (AtLookup r) d), (AtLookup r).
    split_and!; [unfold loop_step; by rewrite Hl, Hr|by eapply set_pc_at|done|simpl; lia].
  - eexists _, (AtUpdateRoundRobin w). split_and!; [exact Hs|by eapply set_pc_at|done|simpl; lia].
  - eexists _, (AtUpdateConsistent w). split_and!; [exact Hs|by eapply set_pc_at|done|simpl; lia].
  - eexists _, (AtCheck w). split_and!; [exact Hs|by eapply set_pc_at|done|simpl; lia].
  - eexists _, (AtLookup w). split_and!; [exact Hs|by eapply set_pc_at|done|simpl; lia].
Qed.

Lemma look_at_lookup a d i k id p :
  disc_inv d → 0 < client_count id d → loops d !! i = Some (mkLoop k id p) → p ≠ Stopped →
  ∃ d' w, rtc look_step (a, d) (a, d') ∧ loops d' !! i = Some (mkLoop k id (AtLookup w)).
Proof.
  remember (to_lookup p) as m eqn:Hm. revert d p Hm.
  induction m as [m IH] using lt_wf_ind; intros d p -> Hinv Hc Hl Hp.
  destruct (decide (to_lookup p = 0)) as [H0|H0].
  { destruct p as [|w| | | | |]; try done. by exists d, w. }
  destruct (loop_advances d i k id p Hinv Hc Hl ltac:(lia)) as (d1 & p1 & Hs & Hl1 & Hp1 & Hlt).
  assert (look_step (a, d) (a, d1)) as Hstep.
  { assert (note_answer None i d a = a) as Hn by (unfold note_answer; rewrite Hl; by destruct p).
    pose proof (look_loop a d i None d1 Hs) as Hstep. by rewrite Hn in Hstep. }
  destruct (look_steps_keep _ _ (rtc_once _ _ Hstep) Hinv) as (Hinv1 & Hc1 & _). simpl in *.
  destruct (IH (to_lookup p1) Hlt d1 p1 eq_refl Hinv1) as (d2 & w & Hr & Hl2); [by rewrite Hc1|done..|].
  exists d2, w. split; [by eapply rtc_l|done].
Qed.

Lemma run_round_looks fuel response i a d d' :
  run_round fuel response i d = Ok d' → ∃ a', rtc look_step (a, d) (a', d').
Proof.
  revert a d. induction fuel as [|fuel IH]; intros a d; simpl; [intros [= <-]; by exists a|].
  intros (d1 & Hs & Hr)%outcome_bind_Ok. pose proof (look_loop a d i response d1 Hs) as Hstep.
  assert (run_round fuel response i d1 = Ok d' ∨ d1 = d') as [Hr'| ->]
    by (destruct (loops d1 !! i) as [[k c []]|]; simpl in Hr; naive_solver).
  - destruct (IH (note_answer response i d a) d1 Hr') as [a' Ha]. exists a'. by eapply rtc_l.
  - exists (note_answer response i d a). by apply rtc_once.
Qed.

(** A served handle gets the next answer. *)
Lemma look_answered a d k id addrs :
  disc_inv d → 0 < client_count id d → service_backends d !! k = Some (mkHandleRef id k) →
  (StartDiscoveryLoop k id ∈ commands d ∨ ∃ i p, loops d !! i = Some (mkLoop k id p) ∧ p ≠ Stopped) →
  ∃ a' d' h, rtc look_step (a, d) (a', d') ∧ handles d' !! id = Some h ∧ ready h = true
    ∧ lb_backends (load_balancer_round_robin h) = backends_of addrs k.2.
Proof.
  intros Hinv Hc Hreg Hserved.
  assert (∃ d1 i p, rtc look_step (a, d) (a, d1) ∧ loops d1 !! i = Some (mkLoop k id p) ∧ p ≠ Stopped)
    as (d1 & i & p & Hr1 & Hl1 & Hp1).
  { destruct Hserved as [Hcmd|(i & p & Hl & Hp)]; [|by exists d, i, p].
    destruct (look_received a d k id Hcmd) as (d1 & i & ? & ?). by exists d1, i, AtStart. }
  destruct (look_steps_keep _ _ Hr1 Hinv) as (Hinv1 & Hc1 & _). simpl in *.
  destruct (look_at_lookup a d1 i k id p) as (d2 & w & Hr2 & Hl2); [done|by rewrite Hc1|done..|].
  destruct (look_steps_keep _ _ Hr2 Hinv1) as (Hinv2 & Hc2 & _). simpl in *.
  destruct (discovery_round_run d2 i k id w addrs Hinv2 Hl2) as (d3 & h & Hrun & _ & Hh & Hrd & _ & Hrr & _).
  { apply client_count_live. by rewrite Hc2, Hc1. }
  destruct (run_round_looks 5 (Some addrs) i a d2 d3 Hrun) as [a' Hr3].
  exists a', d3, h. split_and!; [|done..]. by rewrite Hr1, Hr2.
Qed.
End looking.

(** ** A request on its way *)

Section run.
Context {R : Reflection} {RR Cons : Type} `{HRR : BalancerLaws RR, HCons : BalancerLaws Cons}.
Context {H S D St Resp : Type}.
Context `{HL : HeaderMapLaws H, SL : SessionLaws H S, PL : PingoraCacheLaws H, !Digest D}.
Context `{!Storage H St, SLS : !StorageLaws H St, !MetaClock H Resp}.
Notation Discovery := (Discovery RR Cons).
Notation Request := (Request H S HandleRef St Resp).
Notation World := (World RR Cons H S St Resp).
Notation world_step := (world_step (D:=D)).
Implicit Types (w : World) (d : Discovery) (r : Request) (id i : nat) (n : bytes) (h : HandleRef).

Definition set_disc (x : Answers * Discovery) w : World :=
  mkWorld (with_store (with_dns x.2 (w_store w)) (w_main w)) (w_proxy w) (w_applied w) x.1.

Lemma set_disc_self w : set_disc (w_answers w, w_dns w) w = w.
Proof. by destruct w as [[hl [] rb kr] x l a]. Qed.

Lemma look_world w x y : rtc look_step x y → rtc world_step (set_disc x w) (set_disc y w).
Proof.
  induction 1 as [x|x y z Hstep _ IH]; [done|]. eapply rtc_l; [|exact IH].
  destruct Hstep as [a d|a d i response d' Hs].
  - exact (world_receive (set_disc (a, d) w)).
  - exact (world_loop (set_disc (a, d) w) i response d' Hs).
Qed.

(** A step of request [i] on its own. *)
Lemma world_life_set w i r r' :
  private_phase (rq_phase r) = true → life_step (D:=D) (sys_store (w_proxy w)) r r' →
  world_step (set_request i r w) (set_request i r' w).
Proof.
  intros Hp Hl. pose proof (world_life (D:=D) (set_request i r w) i r r') as Hstep.
  assert (set_request i r' (set_request i r w) = set_request i r' w) as Heq.
  { unfold set_request, with_proxy. simpl. f_equal. f_equal. apply insert_insert_eq. }
  rewrite Heq in Hstep. apply Hstep; [apply lookup_insert_eq|done..].
Qed.

(** The cache has nothing for a request that is to be cached: it has a body to compute the
    key from, and the lookup of its key is a miss. *)
Definition cache_misses w (s s' : S) (c' : RequestCtx HandleRef) : Prop :=
  do_cache c' = true →
  request_body s ≠ [] ∧ lookup_key (key_default (req_header s')) (sys_store (w_proxy w)) = Ok None.

(** From the filter to the choice of a peer, if the cache has no entry. *)
Lemma accepted_run w i services (s s' : S) c' :
  cache_enabled s = false → request_filter services s new_ctx = (s', c', Ok false) →
  cache_misses w s s' c' →
  ∃ key s2, rtc world_step (set_request i (mkRequest Accepted s' c' []) w)
    (set_request i (mkRequest (Upstreaming key None) s2 c' []) w).
Proof.
  intros Hoff Hf Hmiss. destruct (filter_inv services s new_ctx s' c' eq_refl Hoff Hf) as (_ & Hoff' & _).
  destruct (do_cache c') eqn:Hdo.
  - destruct (Hmiss Hdo) as [Hbody Hl].
    destruct (keyed_handlers (D:=D) services s s' c' Hoff Hf Hdo Hbody) as [Hc Hk].
    exists (Some (key_default (req_header s'))), (cache_enable s').
    eapply rtc_l; [eapply world_life_set; [done|by eapply life_cache_filter]|].
    eapply rtc_l; [eapply world_life_set; [done|eapply life_key; [apply cache_enable_on|exact Hk]]|].
    apply rtc_once, world_life_set; [done|]. by apply life_miss.
  - exists None, s'. assert (request_cache_filter s' c' = (s', c', Ok tt)) as Hc.
    { unfold request_cache_filter, mbind, handler_bind, context. simpl. by rewrite Hdo. }
    eapply rtc_l; [eapply world_life_set; [done|by eapply life_cache_filter]|].
    apply rtc_once, world_life_set; [done|]. by apply life_uncached.
Qed.

Lemma set_request_dns w i r r' d :
  set_request i r' (on_dns d (set_request i r w)) = set_request i r' (on_dns d w).
Proof. unfold set_request, with_proxy. simpl. f_equal. f_equal. apply insert_insert_eq. Qed.

(** The filter leaves the handle of the routed service in the context. *)
Lemma filter_ctx_handle services (s s' : S) c' n m e h :
  request_filter services s new_ctx = (s', c', Ok false) →
  parse_grpc_path (raw_path (req_header s)) = Ok (n, m) → services !! n = Some e → load_balancer e = Some h →
  ctx_handle c' = Some h.
Proof.
  intros Hf Hpath Hn Hlb. pose proof (request_filter_cases services s new_ctx) as Hc. rewrite Hf in Hc.
  unfold routed_service in Hc. rewrite Hpath, Hn, decide_True in Hc by (rewrite Hlb; eauto).
  destruct Hc as (vs & _ & Hm & _). unfold ctx_handle. by rewrite Hm.
Qed.

(** An arriving request is accepted, and clones the handle. *)
Lemma arrive_run w i (s s' : S) c' :
  w_requests w !! i = None → cache_enabled s = false →
  request_filter (services (w_store w)) s new_ctx = (s', c', Ok false) →
  rtc world_step w (set_request i (mkRequest Accepted s' c' [])
    (on_dns (clone_opt (ctx_handle c') (w_dns w)) w)).
Proof.
  intros Hi Hoff Hf. eapply rtc_l; [by apply (world_arrive w i s)|].
  eapply rtc_l; [apply world_life_set; [done|]; by apply (life_early _ s new_ctx noop_span)|].
  apply rtc_once. rewrite <- (set_request_dns w i (mkRequest Traced s new_ctx [])).
  by apply (world_filter (D:=D) (set_request i (mkRequest Traced s new_ctx []) w) i s new_ctx s' c' (Ok false));
    [apply lookup_insert_eq|..].
Qed.

(** A request that is to be sent upstream gets a peer from the answer in the balancer. *)
Lemma peer_run w i key (s : S) c h hd addrs port :
  ctx_handle c = Some h → handles (w_dns w) !! h_id h = Some hd →
  lb_backends (load_balancer_round_robin hd) = backends_of addrs port → addrs ≠ [] →
  ∃ w' r ip, world_step (set_request i (mkRequest (Upstreaming key None) s c []) w) w'
    ∧ w_requests w' !! i = Some r ∧ ip ∈ addrs
    ∧ rq_phase r = Connected key None (mkPeer (ip, port) false [] true).
Proof.
  intros Hch Hh Hrr Hne. pose proof (select_upstream_cases (w_dns w) h hd addrs port Hh Hrr) as Hs.
  destruct (select_upstream (w_dns w) h) as [b|] eqn:Hsel; [|done]. destruct Hs as (ip & Hip & ->).
  assert (∃ c2, upstream_peer (select_upstream (w_dns w)) s c = (s, c2, Ok (mkPeer (ip, port) false [] true)))
    as [c2 Hu].
  { unfold ctx_handle in Hch. unfold upstream_peer, mbind, handler_bind, context, on_context, lift.
    destruct (grpc_meta c) as [m|]; simpl in *; [|done]. rewrite Hch. simpl. rewrite Hsel. simpl. eauto. }
  eexists _, _, ip. split.
  - eapply (world_peer (D:=D) (set_request i (mkRequest (Upstreaming key None) s c []) w) i key None s c);
      [apply lookup_insert_eq|exact Hu|reflexivity].
  - split; [apply lookup_insert_eq|done].
Qed.

Lemma routed_connects w i n m e h (s s' : S) c' ip addrs :
  world_inv w →
  services (w_store w) !! n = Some e → load_balancer e = Some h →
  w_requests w !! i = None → cache_enabled s = false →
  parse_grpc_path (raw_path (req_header s)) = Ok (n, m) →
  request_filter (services (w_store w)) s new_ctx = (s', c', Ok false) →
  cache_misses w s s' c' →
  ∃ w' r key ip', rtc world_step w w' ∧ w_requests w' !! i = Some r ∧ ip' ∈ ip :: addrs
    ∧ rq_phase r = Connected key None (mkPeer (ip', (h_for h).2) false [] true).
Proof.
  intros Hw Hn Hlb Hi Hoff Hpath Hf Hmiss.
  assert (used w h) as Hu by (left; eauto).
  destruct (used_count w h Hw Hu) as [Hc _]. destruct (used_served w h Hw Hu) as [Hreg Hserved].
  destruct h as [id k]. simpl in *.
  destruct (look_answered (w_answers w) (w_dns w) k id (ip :: addrs) (wi_disc _ Hw) Hc Hreg Hserved)
    as (a & d & hd & Hlook & Hh & _ & Hrr).
  apply (look_world w) in Hlook. rewrite set_disc_self in Hlook. set (w1 := set_disc (a, d) w) in *.
  pose proof (filter_ctx_handle _ _ _ _ _ _ _ _ Hf Hpath Hn Hlb) as Hch.
  pose proof (arrive_run w1 i s s' c' Hi Hoff Hf) as Harr. rewrite Hch in Harr. cbn [clone_opt] in Harr.
  set (w3 := on_dns (clone_ref (mkHandleRef id k) (w_dns w1)) w1) in *.
  destruct (accepted_run w3 i _ s s' c' Hoff Hf Hmiss) as (key & s2 & Hacc).
  destruct (peer_run w3 i key s2 c' (mkHandleRef id k) (with_clients Datatypes.S hd) (ip :: addrs) k.2)
    as (w' & r & ip' & Hpeer & Hi' & Hip & Hp); [done| |done|done|].
  { apply (on_handle_lookup id (with_clients Datatypes.S) d). exists hd. by rewrite decide_True. }
  exists w', r, key, ip'. split_and!; [|done..].
  rewrite Hlook, Harr, Hacc. by apply rtc_once.
Qed.

(** C3: Requests get through: in every reachable state of the process, for every service in
    the routing table and every answer of the resolver that is not empty, the process can
    go on so that a new request for this service is connected to an address of this answer
    at the port of the service's upstream. The request is one that the filter accepts; if it
    is to be cached, its body is not empty (else the handler of the key panics) and the
    lookup of its key finds no entry. *)
Theorem routed_request_connects config w0 w i n m e h (s s' : S) c' ip addrs :
  world_start config w0 → rtc world_step w0 w →
  services (w_store w) !! n = Some e → load_balancer e = Some h →
  w_requests w !! i = None → cache_enabled s = false →
  parse_grpc_path (raw_path (req_header s)) = Ok (n, m) →
  request_filter (services (w_store w)) s new_ctx = (s', c', Ok false) →
  cache_misses w s s' c' →
  ∃ w' r key ip', rtc world_step w w' ∧ w_requests w' !! i = Some r ∧ ip' ∈ ip :: addrs
    ∧ rq_phase r = Connected key None (mkPeer (ip', (h_for h).2) false [] true).
Proof. intros Hs Hr. apply routed_connects. by eapply world_reachable_inv. Qed.

(** ** After a panic of the store's loop *)

Lemma drain_world w (h h' : Health.Health) :
  rtc drain_step h h' →
  rtc world_step (with_main (with_health h (w_main w)) w) (with_main (with_health h' (w_main w)) w).
Proof.
  induction 1 as [h|h h1 h' Hstep _ IH]; [done|]. eapply rtc_l; [|exact IH].
  apply (world_health (D:=D) (with_main (with_health h (w_main w)) w) h1). exact (drain_step_system h h1 (w_main w) Hstep).
Qed.

(** The Redis backend keeps its handle, so that discovery can serve it. *)
Lemma redis_found w :
  world_inv w → ∃ x hd, rtc world_step w (set_disc x w)
    ∧ handles x.2 !! h_id (redis_backends (w_main w)) = Some hd ∧ ready hd = true.
Proof.
  intros Hw. set (id := h_id (redis_backends (w_main w))).
  assert (0 < client_count id (w_dns w)) as Hc.
  { pose proof (wi_held _ Hw id) as Hc. unfold refs, id in *. rewrite one_ref_self in Hc. lia. }
  destruct (live_served _ _ (wi_disc _ Hw) (client_count_live _ _ Hc)) as (k & Hreg & Hserved).
  destruct (look_answered (w_answers w) (w_dns w) k id [] (wi_disc _ Hw) Hc Hreg Hserved)
    as (a & d & hd & Hlook & Hh & Hrd & _).
  apply (look_world w) in Hlook. rewrite set_disc_self in Hlook. by exists (a, d), hd.
Qed.

(** The other two endpoints report, and the calls come to their end. *)
Lemma endpoints_report w :
  system_inv (w_main w) → discovery_ready (w_main w) →
  Health.endpoints (health (w_main w)) !! k8s_endpoint = Some false →
  ∃ h : Health.Health, rtc world_step w (with_main (with_health h (w_main w)) w) ∧ Health.ready h = true.
Proof.
  intros Hs Hrd Hk8s. pose proof Hs as [_ _ Ht Honly Hroot _ (b & Hb & _)].
  set (h0 := health (w_main w)) in *. set (h1 := begin_ready root_endpoint h0).
  set (h2 := begin_ready redis_endpoint h1).
  destruct (begin_ready_swap root_endpoint h0 Hroot Ht) as [Ht1 He1].
  destruct (begin_ready_swap redis_endpoint h1) as [Ht2 He2];
    [unfold h1; rewrite He1, lookup_insert_ne by done; by eexists|done|].
  destruct (tracker_drains h2 Ht2) as (h3 & Hd & Ht3 & Hl3 & He3). exists h3. split.
  - eapply rtc_l; [apply (world_health w h1), sys_root_ready|].
    eapply rtc_l; [|by apply drain_world].
    apply (world_health (with_main (with_health h1 (w_main w)) w) h2).
    by apply (sys_redis_ready (with_health h1 (w_main w))).
  - apply drained_ready; [done..|]. intros e b'. rewrite He3. unfold h2. rewrite He2. unfold h1. rewrite He1.
    rewrite !lookup_insert. case_decide; [by intros [= <-]|]. case_decide; [by intros [= <-]|].
    intros He. destruct (Honly _ _ He) as [->|[->| ->]]; [done| |done]. fold h0 in He. congruence.
Qed.

(** C22: A panic makes the process report readiness: in every reachable state in which the
    loop of the store runs, listed or not, a resource with an unqualified service name makes
    it panic, its health endpoint reports ready when it is dropped, and the process can go
    on, without any further change of the routing table and without the watch of the
    cluster having caught up, to a state in which the health watch is [true] although
    the loop of the store is gone. *)
Theorem panic_reports_ready config w0 w o :
  world_start config w0 → rtc world_step w0 w →
  k8s_running (w_main w) = true → dot ∉ service_name (spec o) →
  on_change (Apply o) (w_store w) = Panic
  ∧ ∃ w', rtc world_step w w' ∧ Health.ready (health (w_main w')) = true ∧ k8s_running (w_main w') = false
    ∧ services (w_store w') = services (w_store w) ∧ store_ready (w_store w') = store_ready (w_store w).
Proof.
  intros Hs Hr Hrun Hdot. pose proof (world_reachable_inv _ _ _ Hs Hr) as Hw.
  pose proof (apply_service_panics _ o (wi_store _ Hw) Hdot) as Hp. split; [exact Hp|].
  pose proof (world_change_panic (D:=D) w (Apply o) Hrun Hp) as Hstep. set (w1 := with_main _ _) in Hstep.
  destruct (redis_found w1 (world_step_inv _ _ Hstep Hw)) as (x & hd & Hfound & Hh & Hrd).
  set (w2 := set_disc x w1) in *.
  assert (rtc world_step w w2) as Hw2 by (by eapply rtc_l).
  assert (system_inv (w_main w2)) as Hsys by (eapply world_system_inv; [exact Hs|by etrans]).
  destruct (endpoints_report w2 Hsys) as (h & Hend & Hready).
  - by exists hd.
  - destruct (world_system_inv _ _ _ Hs Hr) as [_ _ Ht _ _ (b & Hb & _) _].
    destruct (begin_ready_swap k8s_endpoint (health (w_main w))) as [_ He]; [by eexists|done|].
    simpl. rewrite He. apply lookup_insert_eq.
  - eexists. split; [by etrans|]. by split_and!.
Qed.
End run.

(** ** A run from [main] to a connected request *)

#[local] Existing Instances plain_reflection timed_cache timed_cache_laws.

#[local] Instance plain_clock : MetaClock hlist hlist := {|
  readings now now' := (now ≤ now')%Z;
  meta_new m := (fresh_until m, created m);
  meta_age m now := Z.max 0 (now - m.2);
  meta_is_fresh m now := (now <=? m.1)%Z;
|}.

Notation SampleWorld := (World (gset Backend) (gset Backend) hlist (ListSession hlist) unit hlist).
Notation sample_step := (world_step (D:=bytes) (RR:=gset Backend) (Cons:=gset Backend) (H:=hlist)
  (S:=ListSession hlist) (St:=unit) (Resp:=hlist)).

(** The process after [main], and after the first resource was applied. *)
Definition sample_main : System (RR:=gset Backend) (Cons:=gset Backend) :=
  let '(d, r) := backends_for discovery_new redis_host.1 redis_host.2 in
  mkSystem (Health.health_add redis_endpoint true (Health.health_add k8s_endpoint true Health.health_new))
    (store_new d) r true.

Definition sample_start : SampleWorld := mkWorld sample_main (mkSys tt ∅ []) [] [].

Definition sample_svc : GrcacheService := svc "a" "1" "p.A".

Definition sample_routed : SampleWorld :=
  mkWorld (with_store (match on_change (Apply sample_svc) (w_store sample_start) with
                       | Ok st => st | _ => w_store sample_start end) (w_main sample_start))
    (w_proxy sample_start) [sample_svc] [].

Lemma sample_start_ok : world_start sample_config sample_start.
Proof.
  split; [vm_refl|]. by split_and!.
Qed.

Lemma sample_routed_reachable : rtc sample_step sample_start sample_routed.
Proof.
  apply rtc_once. apply (world_change (D:=bytes) sample_start (Apply sample_svc)); [reflexivity|].
  vm_refl.
Qed.

Definition sample_handle : HandleRef := mkHandleRef 1 (lit "up", default_grpc_port).

Definition sample_entry : ServiceData HandleRef :=
  mkServiceData 0 (Some (build_passthrough (mkQualified (lit "p") (lit "A")))) (Some sample_handle).

Lemma sample_routed_entry : services (w_store sample_routed) !! lit "p.A" = Some sample_entry.
Proof. vm_refl. Qed.

(** A request for the routed service, and what the filter makes of it. *)
Definition sample_get : ListSession hlist :=
  mkSession (sample_request "/p.A/Get") [] None None 64 false.

Definition sample_filtered : ListSession hlist * RequestCtx HandleRef :=
  (request_filter (services (w_store sample_routed)) sample_get new_ctx).1.

Lemma sample_accepted :
  request_filter (services (w_store sample_routed)) sample_get new_ctx
  = (sample_filtered.1, sample_filtered.2, Ok false).
Proof. vm_refl. Qed.

(** A run to a connected request. *)
Lemma sample_connected :
  ∃ (w : SampleWorld) r key ip, rtc sample_step sample_start w ∧ w_requests w !! 0 = Some r
    ∧ rq_phase r = Connected key None (mkPeer (ip, default_grpc_port) false [] true).
Proof.
  destruct (routed_connects (D:=bytes) sample_routed 0 (lit "p.A") (lit "Get") sample_entry sample_handle sample_get
    sample_filtered.1 sample_filtered.2 7 []) as (w & r & key & ip & Hr & Hi & _ & Hp);
    [|exact sample_routed_entry|reflexivity..|vm_refl|exact sample_accepted|intros Hdo; by vm_compute in Hdo|].
  - eapply world_reachable_inv; [exact sample_start_ok|exact sample_routed_reachable].
  - exists w, r, key, ip. split_and!; [|done..]. by rewrite sample_routed_reachable.
Qed.

Lemma routed_request_connects_witness :
  ∃ (w : SampleWorld) r key ip, rtc sample_step sample_routed w ∧ w_requests w !! 0 = Some r ∧ ip ∈ [7%Z]
    ∧ rq_phase r = Connected key None (mkPeer (ip, default_grpc_port) false [] true).
Proof.
  destruct (routed_request_connects (D:=bytes) sample_config sample_start sample_routed 0 (lit "p.A") (lit "Get")
    sample_entry sample_handle sample_get sample_filtered.1 sample_filtered.2 7 [])
    as (w & r & key & ip & Hr & Hi & Hip & Hp).
  - exact sample_start_ok.
  - exact sample_routed_reachable.
  - exact sample_routed_entry.
  - reflexivity.
  - reflexivity.
  - reflexivity.
  - vm_refl.
  - exact sample_accepted.
  - intros Hdo. vm_compute in Hdo. discriminate Hdo.
  - exists w, r, key, ip. split; [exact Hr|]. split; [exact Hi|]. split; [exact Hip|exact Hp].
Defined.

Lemma request_peer_origin_witness :
  ∃ (w : SampleWorld) o url ip addrs, rtc sample_step sample_start w ∧ o ∈ w_applied w
    ∧ upstream (spec o) = Dns url default_grpc_port ∧ (url, addrs) ∈ w_answers w ∧ ip ∈ addrs.
Proof.
  destruct sample_connected as (w & r & key & ip & Hr & Hi & Hp).
  destruct (request_peer_origin (D:=bytes) sample_config sample_start w 0 r key None
    (mkPeer (ip, default_grpc_port) false [] true)) 
    as (n & m & o & url & port & ip' & addrs & _ & Ho & _ & Hu & Ha & Hip & Heq).
  - exact sample_start_ok.
  - exact Hr.
  - exact Hi.
  - exact Hp.
  - injection Heq as -> Hport. rewrite <- Hport in Hu. exists w, o, url, ip', addrs.
    split; [exact Hr|]. split; [exact Ho|]. split; [exact Hu|]. split; [exact Ha|exact Hip].
Defined.

Lemma used_handles_served_witness :
  service_backends (w_dns sample_routed) !! (lit "up", default_grpc_port) = Some sample_handle.
Proof.
  apply (used_handles_served (D:=bytes) sample_config sample_start sample_routed sample_handle).
  - exact sample_start_ok.
  - exact sample_routed_reachable.
  - left. exists (lit "p.A"), sample_entry. split; [exact sample_routed_entry|reflexivity].
Defined.

(** The next resource has an unqualified name. *)
Lemma process_panics_iff_witness :
  on_change (Apply (svc "b" "2" "nodot")) (w_store sample_routed) = Panic
  ∧ ∃ d, loop_step None 0 (w_dns sample_routed) = Ok d.
Proof.
  destruct (process_panics_iff (D:=bytes) sample_config sample_start sample_routed) as (_ & _ & _ & Hl & Hc).
  - exact sample_start_ok.
  - exact sample_routed_reachable.
  - split; [|exact (Hl 0 None)]. apply Hc. exists (svc "b" "2" "nodot"). split; [reflexivity|].
    refine (bool_decide_unpack (dot ∉ service_name (spec (svc "b" "2" "nodot"))) _). by vm_compute.
Defined.

(** It also ends the loop of the store, and the process can report readiness. *)
Lemma panic_reports_ready_witness :
  ∃ w : SampleWorld, rtc sample_step sample_routed w ∧ Health.ready (health (w_main w)) = true
    ∧ k8s_running (w_main w) = false ∧ store_ready (w_store w) = false.
Proof.
  destruct (panic_reports_ready (D:=bytes) sample_config sample_start sample_routed (svc "b" "2" "nodot"))
    as [_ (w & Hr & Hready & Hk & _ & Hst)].
  - exact sample_start_ok.
  - exact sample_routed_reachable.
  - reflexivity.
  - refine (bool_decide_unpack (dot ∉ service_name (spec (svc "b" "2" "nodot"))) _). by vm_compute.
  - exists w. split; [exact Hr|]. split; [exact Hready|]. split; [exact Hk|]. rewrite Hst. vm_compute. reflexivity.
Defined.
