(* ===== verification/Tracing.v ===== *)
(** * Tracing: [tracing.rs], trace contexts of requests

    [Tracing::init] installs the propagators the configuration asks for and a provider of
    tracers as globals of the process; [extract_context_from_headers] is what
    [early_request_filter] calls on every request. OpenTelemetry's propagators, exporters
    and providers are the interface [Telemetry]; the globals and the [OnceLock] of
    [get_resource] are the record [Globals], passed explicitly. *)

From stdpp Require Import gmap strings list.
From Stdlib Require Import Strings.Byte.
From S2P Require Import Prelude Text Headers Hash Crd ServiceSpec ServiceStore Session Proxy Main.

(** [TraceContextPropagator] and [DatadogPropagator]. *)
Inductive Propagator := TraceContextPropagator | DatadogPropagator.

Class Telemetry (H : Type) := {
  TraceContext : Type;
  Resource : Type;
  SpanExporter : Type;
  SdkTracerProvider : Type;
  (** [Context::current()] outside of any span. *)
  context_none : TraceContext;
  (** [extract_with_context(cx, HeaderExtractor(headers))]. *)
  extract_with : Propagator → TraceContext → H → TraceContext;
  (** [Resource::builder().with_service_name(name).build()]. *)
  resource_build : bytes → Resource;
  (** [SpanExporter::builder().with_http().build()]. *)
  exporter_build : option SpanExporter;
  provider_build : Resource → SpanExporter → SdkTracerProvider;
  (** [shutdown()]: whether it succeeds. *)
  provider_shutdown : SdkTracerProvider → bool;
}.

Section tracing.
Context {H : Type} `{!Telemetry H}.

(** What is global: the text map propagator, the tracer provider, and [RESOURCE]. *)
Record Globals := mkGlobals {
  text_map_propagator : list Propagator;
  tracer_provider : option SdkTracerProvider;
  RESOURCE : option Resource;
}.

(** A process starts with a propagator that extracts nothing and no provider. *)
Definition globals_new : Globals := mkGlobals [] None None.

Definition get_resource (g : Globals) : Globals * Resource :=
  match RESOURCE g with
  | Some r => (g, r)
  | None =>
    let r := resource_build (lit "grcache-proxy") in
    (mkGlobals (text_map_propagator g) (tracer_provider g) (Some r), r)
  end.

(** The vector [init] builds. *)
Definition propagators (config : TracingConfig) : list Propagator :=
  (if opentelemetry_propagator config then [TraceContextPropagator] else [])
  ++ (if datadog_propagator config then [DatadogPropagator] else []).

Record Tracing := mkTracer { t_provider : SdkTracerProvider }.

(** The globals change before the exporter is built, which panics when it fails. *)
Definition init (config : TracingConfig) (g : Globals) : Globals * outcome Empty_set Tracing :=
  let g := mkGlobals (propagators config) (tracer_provider g) (RESOURCE g) in
  match exporter_build with
  | None => (g, Panic)
  | Some exporter =>
    let '(g, resource) := get_resource g in
    let provider := provider_build resource exporter in
    (mkGlobals (text_map_propagator g) (Some provider) (RESOURCE g), Ok (mkTracer provider))
  end.

Definition tracing_shutdown (self : Tracing) : outcome Empty_set unit :=
  if provider_shutdown (t_provider self) then Ok tt else Panic.

(** A composite propagator runs its propagators in order, each on the context of the one
    before. *)
Definition extract_context_from_headers (g : Globals) (headers : H) : TraceContext :=
  foldl (λ cx p, extract_with p cx headers) context_none (text_map_propagator g).

(** [GrpcProxy]: the routing table it shares with the store, its cache, and the provider
    its tracer belongs to. [GrpcProxy::new] takes the tracer from the provider that is
    installed at that moment; without one it is a tracer that does nothing. *)
Record GrpcProxy (Services Cache : Type) := mkProxy {
  service_config : Services;
  cache : Cache;
  tracer : option SdkTracerProvider;
}.
Arguments mkProxy {Services Cache}.
Arguments tracer {Services Cache}.

Definition proxy_new {Services Cache : Type} (services : Services) (storage : Cache) (g : Globals)
    : GrpcProxy Services Cache :=
  mkProxy services storage (tracer_provider g).

(** The whole of [early_request_filter]: the context of the request's headers, and the span
    [self.tracer.span_builder("request")..start_with_context(..)] for it. *)
Definition traced_request_filter {R : Reflection} {S LB Services Cache : Type} `{!Session H S}
    (start_with_context : option SdkTracerProvider → TraceContext → Span)
    (self : GrpcProxy Services Cache) (g : Globals) : handler S (RequestCtx LB) unit :=
  s ← session;
  let trace_ctx := extract_context_from_headers g (rh_headers (req_header s)) in
  early_request_filter (start_with_context (tracer self) trace_ctx).

(** ** Properties *)

Lemma get_resource_eq g :
  (get_resource g).2 = default (resource_build (lit "grcache-proxy")) (RESOURCE g)
  ∧ RESOURCE (get_resource g).1 = Some (get_resource g).2
  ∧ text_map_propagator (get_resource g).1 = text_map_propagator g
  ∧ tracer_provider (get_resource g).1 = tracer_provider g.
Proof. unfold get_resource. destruct (RESOURCE g) eqn:Hr; simpl; by rewrite ?Hr. Qed.

(** The resource was built by [get_resource], if it was built. *)
Definition resource_ok (g : Globals) : Prop :=
  ∀ r, RESOURCE g = Some r → r = resource_build (lit "grcache-proxy").

Lemma get_resource_ok g :
  resource_ok g →
  (get_resource g).2 = resource_build (lit "grcache-proxy") ∧ resource_ok (get_resource g).1.
Proof.
  intros Hok. unfold get_resource. destruct (RESOURCE g) as [r|] eqn:Hr; simpl.
  - split; [by apply Hok|done].
  - split; [done|]. by intros r [= <-].
Qed.

(** Calls of [init] and of [get_resource], in any order. *)
Inductive tracing_step : Globals → Globals → Prop :=
| tracing_init config g : tracing_step g (init config g).1
| tracing_resource g : tracing_step g (get_resource g).1.

Lemma tracing_resource_ok g : rtc tracing_step globals_new g → resource_ok g.
Proof.
  assert (resource_ok globals_new) as H0 by done. generalize H0. generalize globals_new. clear H0.
  intros g0 Hok Hr. induction Hr as [g0|g0 g1 g Hs _ IH]; [done|]. apply IH.
  destruct Hs as [config g0|g0]; [|by apply get_resource_ok].
  unfold init. destruct exporter_build as [ex|]; [|done].
  set (g1 := mkGlobals _ _ _). assert (resource_ok g1) as Hok1 by done.
  pose proof (get_resource_ok g1 Hok1) as [_ Hok2]. by destruct (get_resource g1).
Qed.

Lemma extract_propagators config g headers :
  text_map_propagator g = propagators config →
  extract_context_from_headers g headers =
  match opentelemetry_propagator config, datadog_propagator config with
  | true, true => extract_with DatadogPropagator
                    (extract_with TraceContextPropagator context_none headers) headers
  | true, false => extract_with TraceContextPropagator context_none headers
  | false, true => extract_with DatadogPropagator context_none headers
  | false, false => context_none
  end.
Proof.
  unfold extract_context_from_headers. intros ->. unfold propagators.
  by destruct (opentelemetry_propagator config), (datadog_propagator config).
Qed.

(** C38: What tracing does with a request. Whatever was called before, [init] makes the
    span of every later request start in the trace context that its configured
    propagators extract: with both, the Datadog headers are read after the OpenTelemetry
    ones; with none, the headers are ignored. The span belongs to the provider that
    [init] installed, for the resource of the one service name, if the proxy is created
    after it; a proxy that was created before keeps the provider it had. [init] panics
    exactly if the exporter cannot be built, and then the propagators are installed
    nonetheless. *)
Theorem tracing_init_effect {R : Reflection} {S LB Services Cache : Type} `{!Session H S}
    (start : option SdkTracerProvider → TraceContext → Span) config g (early : GrpcProxy Services Cache)
    services storage (s : S) (c : RequestCtx LB) :
  rtc tracing_step globals_new g →
  let '(g', r) := init config g in
  let late : GrpcProxy Services Cache := proxy_new services storage g' in
  let headers := rh_headers (req_header s) in
  let parent :=
    match opentelemetry_propagator config, datadog_propagator config with
    | true, true => extract_with DatadogPropagator
                      (extract_with TraceContextPropagator context_none headers) headers
    | true, false => extract_with TraceContextPropagator context_none headers
    | false, true => extract_with DatadogPropagator context_none headers
    | false, false => context_none
    end in
  span (traced_request_filter start early g' s c).1.2 = start (tracer early) parent
  ∧ match exporter_build with
    | None => r = Panic
        ∧ span (traced_request_filter start late g' s c).1.2 = start (tracer_provider g) parent
    | Some ex => ∃ t, r = Ok t
        ∧ t_provider t = provider_build (resource_build (lit "grcache-proxy")) ex
        ∧ span (traced_request_filter start late g' s c).1.2 = start (Some (t_provider t)) parent
    end.
Proof.
  intros Hr%tracing_resource_ok. unfold init.
  set (g1 := mkGlobals _ _ _). assert (resource_ok g1) as Hok1 by done.
  destruct exporter_build as [ex|]; simpl.
  2:{ by rewrite (extract_propagators config). }
  destruct (get_resource_eq g1) as (_ & _ & Hp & _). destruct (get_resource_ok g1 Hok1) as [Hres _].
  destruct (get_resource g1) as [g2 res]. simpl in *. rewrite (extract_propagators config) by done.
  split; [done|]. eexists. split; [done|]. simpl. by rewrite Hres.
Qed.
End tracing.

Arguments service_config {H _ Services Cache}.
Arguments cache {H _ Services Cache}.

(** ** A sample *)

(** A context records what was extracted from which header. *)
Definition plain_telemetry : Telemetry hlist := {|
  TraceContext := list (Propagator * list bytes);
  Resource := bytes;
  SpanExporter := unit;
  SdkTracerProvider := bytes * unit;
  context_none := [];
  extract_with p cx headers :=
    cx ++ [(p, hm_get_all headers (lit match p with
                                       | TraceContextPropagator => "traceparent"
                                       | DatadogPropagator => "x-datadog-trace-id"
                                       end))];
  resource_build n := n;
  exporter_build := Some tt;
  provider_build r e := (r, e);
  provider_shutdown _ := true;
|}.

#[local] Existing Instances plain_reflection plain_telemetry.

(** The span has the extracted values as attributes, unless it is one that does nothing. *)
Definition start_span (provider : option SdkTracerProvider) (cx : TraceContext) : Span :=
  match provider with
  | None => noop_span
  | Some _ => mkSpan ((λ pv, (lit "parent", AttrString (concat pv.2))) <$> cx) None false
  end.

Definition traced_session : ListSession hlist :=
  mkSession (mkRequestHeader (lit "http://localhost") (lit "/p.A/Get") [hdr "traceparent" "00-1"; hdr "x-datadog-trace-id" "7"])
    [] None None 64 false.

Lemma tracing_init_effect_witness :
  span (traced_request_filter (LB:=unit) start_span
          (proxy_new tt tt (init (Main.mkTracing true true Otlp) globals_new).1)
          (init (Main.mkTracing true true Otlp) globals_new).1 traced_session new_ctx).1.2
  = mkSpan [(lit "parent", AttrString (lit "00-1")); (lit "parent", AttrString (lit "7"))] None false.
Proof.
  pose proof (tracing_init_effect (LB:=unit) start_span (Main.mkTracing true true Otlp) globals_new
    (proxy_new tt tt globals_new) tt tt traced_session new_ctx (rtc_refl _ _)) as Ht.
  destruct (init (Main.mkTracing true true Otlp) globals_new) as [g' r] eqn:Hi.
  destruct Ht as (_ & t & _ & _ & Hspan). cbn [fst]. rewrite Hspan. reflexivity.
Defined.
