(* ===== verification/Server.v ===== *)
(** * Server: [main.rs] from its arguments to the running server

    [main] reads the configuration file, creates pingora's server, sets up the parts
    ([startup] of the file Main), registers the background services and the HTTP service
    of the proxy, reports the root of the health tracker ready and runs. Every failure on
    the way is a panic. Files, TOML, pingora's server and the system's resolver
    configuration are the interface [MainEnv]. [proxy_service] is the part of the setup
    that the test proxy shares. *)

From stdpp Require Import gmap strings list fin_maps relations.
From Stdlib Require Import Strings.Byte.
From S2P Require Import Prelude Text Health Crd ServiceSpec ServiceStore Discovery DiscoveryInv DiscoveryProps.
From S2P Require Import Session Proxy Main Tracing.

(** ** Sockets *)

(** Sockets, and how pingora's [start_service(fds, shutdown)] comes to the socket for a TCP
    address: it takes the descriptor that [fds] has for it, and binds it otherwise. *)
Class Net := {
  (** [TcpListener::bind] with [as_raw_fd], and [local_addr]. *)
  tcp_bind : bytes → option Z;
  local_addr : Z → option (Z * Z);
  listen_on : gmap bytes Z → bytes → option Z;
}.

Class NetLaws `{!Net} : Prop :=
  listen_on_fds (fds : gmap bytes Z) addr fd : fds !! addr = Some fd → listen_on fds addr = Some fd.

(** ** pingora's HTTP service *)

Record HttpServerOptions := mkOptions { h2c : bool }.

(** [HttpServerOptions::default()]. *)
Definition options_default : HttpServerOptions := mkOptions false.

(** A service with its application, which it has until it is started, the options of the
    application and the TCP addresses to listen on. *)
Record HttpService (P : Type) := mkHttp {
  app_logic : option (P * option HttpServerOptions);
  tcp_addrs : list bytes;
}.
Arguments mkHttp {P}.
Arguments app_logic {P}.
Arguments tcp_addrs {P}.

Section http.
Context {P : Type}.
Implicit Types (svc : HttpService P).

Definition http_proxy_service (proxy : P) : HttpService P := mkHttp (Some (proxy, None)) [].

(** [app_logic_mut().unwrap().server_options = Some(options)]. *)
Definition set_server_options (options : HttpServerOptions) svc : outcome Empty_set (HttpService P) :=
  '(proxy, _) ← unwrap (app_logic svc);
  Ok (mkHttp (Some (proxy, Some options)) (tcp_addrs svc)).

Definition add_tcp (addr : bytes) svc : HttpService P := mkHttp (app_logic svc) (tcp_addrs svc ++ [addr]).

(** HTTP/2 without TLS, on one address. *)
Definition proxy_service (proxy : P) (addr : bytes) : outcome Empty_set (HttpService P) :=
  let http_proxy := http_proxy_service proxy in
  let http_server_options := options_default in
  let http_server_options := mkOptions true in
  http_proxy ← set_server_options http_server_options http_proxy;
  Ok (add_tcp addr http_proxy).

Lemma proxy_service_eq (proxy : P) addr :
  proxy_service proxy addr = Ok (mkHttp (Some (proxy, Some (mkOptions true))) [addr]).
Proof. done. Qed.
End http.

(** ** [main] *)

Inductive Commands := CommandProxy.

Record Args := mkArgs { arg_config : bytes; arg_command : Commands }.

Record Opt := mkOpt { daemon : bool }.

Class MainEnv := {
  File : Type;
  (** [File::open] and [read_to_end]. *)
  file_open : bytes → option File;
  read_to_end : File → option bytes;
  (** [toml::from_str]. *)
  toml_from_str : bytes → option ConfigFile;
  (** [Opt::default()]. *)
  opt_default : Opt;
  (** [Server::new(Some(opt))]: whether it succeeds. *)
  server_new : Opt → bool;
  (** [TokioAsyncResolver::tokio_from_system_conf()]: whether it succeeds. *)
  tokio_from_system_conf : bool;
}.

Section main.
Context {R : Reflection} {RR Cons : Type} `{HRR : BalancerLaws RR, HCons : BalancerLaws Cons}.
Context {H : Type} `{!Telemetry H} {env : MainEnv}.
Notation System := (System (RR:=RR) (Cons:=Cons)).

(** The proxy is given the routing table and the Redis backend, here named by its handle. *)
Notation ProxyApp := (GrpcProxy (gmap bytes (ServiceData HandleRef)) HandleRef).

(** The server when it runs: its background services in the order they were added, the
    HTTP service, and the state of the parts. *)
Record Process := mkProcess {
  background : list bytes;
  http : HttpService ProxyApp;
  process_system : System;
}.

Definition read_config (path : bytes) : outcome Empty_set ConfigFile :=
  config_file ← unwrap (file_open path);
  config_buf ← unwrap (read_to_end config_file);
  config_str ← (if utf8_valid config_buf then Ok config_buf else Panic);
  unwrap (toml_from_str config_str).

(** [runtime] is whether [main] is called inside of a Tokio runtime; [g] are the globals of
    OpenTelemetry. *)
Definition main (runtime : bool) (args : Args) (g : Globals) : outcome Empty_set Process :=
  config ← read_config (arg_config args);
  let opt := opt_default in
  if daemon opt then Panic else
  if negb (server_new opt) then Panic else
  if negb tokio_from_system_conf then Panic else
  system ← startup runtime config;
  let proxy := proxy_new (services (store system)) (redis_backends system) g in
  proxy ← proxy_service proxy (lit "0.0.0.0:50052");
  Ok (mkProcess
    [lit "DNS Discovery Service"; lit "Kubernetes Config Service"; lit "Redis Connection Pool Service"]
    proxy (with_health (begin_ready root_endpoint (health system)) system)).

(** The file is there, readable, UTF-8 and a configuration. *)
Definition config_readable (path : bytes) (config : ConfigFile) : Prop :=
  ∃ f buf, file_open path = Some f ∧ read_to_end f = Some buf ∧ utf8_valid buf = true
    ∧ toml_from_str buf = Some config.

Lemma read_config_Ok path config : read_config path = Ok config ↔ config_readable path config.
Proof.
  unfold read_config. split.
  - intros (f & Hf & (buf & Hb & (str & Hs & Ht)%outcome_bind_Ok)%outcome_bind_Ok)%outcome_bind_Ok.
    destruct (utf8_valid buf) eqn:Hu; simplify_eq.
    exists f, str. destruct (file_open path), (read_to_end f), (toml_from_str str); by simplify_eq/=.
  - intros (f & buf & -> & Hb & Hu & Ht). simpl. rewrite Hb. simpl. rewrite Hu. simpl. by rewrite Ht.
Qed.

(** What [startup] needs. *)
Lemma startup_Ok runtime config :
  is_Some (ok (startup (RR:=RR) (Cons:=Cons) runtime config))
  ↔ enable (kubernetes config) = true ∧ runtime = true.
Proof.
  unfold startup. destruct (enable (kubernetes config)); simpl; [|by split; [intros []|intros []]].
  destruct (cache_backend config) as [hostname port]. destruct (backends_for discovery_new hostname port).
  destruct runtime; simpl; split; [done|eauto|by intros []|by intros []].
Qed.

Lemma main_eq runtime args g p :
  main runtime args g = Ok p ↔
  ∃ config system, config_readable (arg_config args) config ∧ daemon opt_default = false
    ∧ server_new opt_default = true ∧ tokio_from_system_conf = true
    ∧ startup runtime config = Ok system
    ∧ p = mkProcess [lit "DNS Discovery Service"; lit "Kubernetes Config Service"; lit "Redis Connection Pool Service"]
        (mkHttp (Some (proxy_new (services (store system)) (redis_backends system) g, Some (mkOptions true)))
           [lit "0.0.0.0:50052"])
        (with_health (begin_ready root_endpoint (health system)) system).
Proof.
  unfold main. rewrite outcome_bind_Ok. setoid_rewrite read_config_Ok.
  destruct (daemon opt_default); [naive_solver|]. destruct (server_new opt_default); [|naive_solver].
  destruct tokio_from_system_conf; [|naive_solver]. simpl. setoid_rewrite outcome_bind_Ok. simpl.
  naive_solver.
Qed.

(** C21: When the process starts: [main] comes to run the server exactly if its configuration
    file can be opened, read, decoded and parsed, Kubernetes is enabled in it, pingora's
    options do not ask for a daemon, the server and the resolver can be created, and a
    Tokio runtime was entered before; in all other cases it panics. Then the three
    background services are registered, the proxy serves HTTP/2 without TLS on port 50052
    of all interfaces with an empty routing table, and the system is the one [startup]
    made, with the report of the health root begun. *)
Theorem main_starts_iff runtime args g :
  (is_Some (ok (main runtime args g)) ↔
     runtime = true ∧ daemon opt_default = false ∧ server_new opt_default = true
     ∧ tokio_from_system_conf = true
     ∧ ∃ config, config_readable (arg_config args) config ∧ enable (kubernetes config) = true)
  ∧ (ok (main runtime args g) = None → main runtime args g = Panic)
  ∧ ∀ p, main runtime args g = Ok p →
    background p = [lit "DNS Discovery Service"; lit "Kubernetes Config Service"; lit "Redis Connection Pool Service"]
    ∧ tcp_addrs (http p) = [lit "0.0.0.0:50052"]
    ∧ (∃ proxy, app_logic (http p) = Some (proxy, Some (mkOptions true)) ∧ service_config proxy = ∅)
    ∧ ∃ config s0, config_readable (arg_config args) config ∧ startup runtime config = Ok s0
      ∧ system_step s0 (process_system p).
Proof.
  assert (∀ config (s : System), startup runtime config = Ok s → services (store s) = ∅) as Hempty.
  { intros config s. unfold startup. destruct (enable (kubernetes config)); simpl; [|done].
    destruct (cache_backend config) as [hostname port]. destruct (backends_for discovery_new hostname port).
    destruct runtime; simpl; [|done]. by intros [= <-]. }
  split_and!.
  - split.
    + intros [p Hp]. destruct (main runtime args g) as [p'| |] eqn:Hm; [|done..].
      apply main_eq in Hm as (config & s & Hc & ? & ? & ? & Hs & _).
      assert (is_Some (ok (startup (RR:=RR) (Cons:=Cons) runtime config))) as Hok by (rewrite Hs; eauto).
      apply startup_Ok in Hok as [? ?]. eauto 10.
    + intros (Hrt & ? & ? & ? & config & Hc & He).
      destruct (startup_Ok runtime config) as [_ [s Hs]]; [done|].
      destruct (startup runtime config) as [s'| |] eqn:Hst; [|done..].
      assert (∃ p, main runtime args g = Ok p) as [p ->]; [|eauto].
      eexists. apply main_eq. exists config, s'. split_and!; done.
  - destruct (main runtime args g) as [p|[]|]; done.
  - intros p (config & s & Hc & _ & _ & _ & Hs & ->)%main_eq. simpl. split_and!; [done..| |].
    + eexists. split; [done|]. by eapply Hempty.
    + exists config, s. split_and!; [done..|]. apply sys_root_ready.
Qed.

(** [main.rs] declares [fn main()] without a runtime, so it always panics. *)
Theorem main_without_runtime args g : main false args g = Panic.
Proof.
  destruct (main false args g) as [p|[]|] eqn:Hm; [|done].
  apply main_eq in Hm as (config & s & _ & _ & _ & _ & Hs & _).
  assert (is_Some (ok (startup (RR:=RR) (Cons:=Cons) false config))) as Hok by (rewrite Hs; eauto).
  by apply startup_Ok in Hok as [_ ?].
Qed.
End main.

(** ** A sample start *)

#[local] Existing Instance plain_reflection.

#[local] Instance sample_env : MainEnv := {|
  File := unit;
  file_open _ := Some tt;
  read_to_end _ := Some [];
  toml_from_str _ := Some sample_config;
  opt_default := mkOpt false;
  server_new _ := true;
  tokio_from_system_conf := true;
|}.

(** With a runtime the sample configuration starts; without one nothing does. *)
Example main_sample `{!Telemetry hlist} g :
  is_Some (ok (main (RR:=gset Backend) (Cons:=gset Backend) true (mkArgs (lit "config.toml") CommandProxy) g)).
Proof.
  eexists. reflexivity.
Qed.
