(* ===== verification/TestUtil.v ===== *)
(** * TestUtil: [test_util/mod.rs] and [test_util/proxy.rs]

    The proxy as the integration tests drive it: a routing table that tests fill by hand
    with [add_service_passthrough] and [add_service], and handles whose backends they set.
    A handle is shared between the table and the [BackendsTest] that is returned to the
    test, so handles live in a list and are referred to by number. [answer_to] is what
    the handlers of the proxy, with [MockStorage] as the cache, make of a request. The
    reference definition keeps only which handle and which descriptor set a service has and
    which backends were set last. *)

From stdpp Require Import gmap strings list.
From Stdlib Require Import Strings.Byte.
From S2P Require Import Prelude Text Headers Hash Path Crd DescriptorSet ServiceSpec ServiceStore.
From S2P Require Import Discovery Cache Session Proxy ProxyProps Main Tracing Server.

(** [format!("{}", addr)] of a socket address, and [Backend::new], which parses it. *)
Class AddrText := {
  addr_display : Z * Z → bytes;
  backend_new : bytes → option Backend;
}.

Class AddrTextLaws `{!AddrText} : Prop :=
  backend_new_display a : backend_new (addr_display a) = Some (mkBackend (Inet a.1 a.2) 1).

(** The [Arc] of the routing table that the proxy and the test share. *)
Inductive SharedTable := TheTable.

Section test_util.
Context {HT : Type} `{!Telemetry HT} `{NL : NetLaws} (g : Globals).
Context {R : Reflection} {RR Cons : Type} `{HRR : BalancerLaws RR, HCons : BalancerLaws Cons}.
Context {AnyError : Type} `{env : !SourceEnv (list FileDescriptorProto) AnyError} `{AT : AddrTextLaws}.
Notation Handle := (ServiceBackendsHandle RR Cons).

(** [ServiceBackendsHandle::new_test]: like the handle of discovery, but ready. *)
Definition new_test : Handle := mkHandle ∅ lb_new lb_new true 1.

(** [ProxyServerTestContext]: the readiness of the configuration, whether the server was
    told to shut down and runs, its routing table and its address; and the handles. *)
Record ProxyTest := mkProxyTest {
  pt_ready : bool;
  pt_shutdown : bool;
  pt_running : bool;
  pt_services : gmap bytes (ServiceData nat);
  listener_addr : Z * Z;
  pt_handles : list Handle;
  (** What the spawned task runs: the HTTP service and the sockets it was given. *)
  pt_http : HttpService (GrpcProxy SharedTable unit);
  pt_fds : gmap bytes Z;
}.

(** [proxy_server] and [ProxyTest::new]: the service is given an address it is never bound
    to, and the socket of a listener on a port the system chose. The listener is
    forgotten, so that the socket stays open. *)
Definition proxy_server : outcome Empty_set ProxyTest :=
  let proxy := proxy_new TheTable tt g in
  http_proxy ← proxy_service proxy (lit "127.0.0.1:12345");
  listener ← unwrap (tcp_bind (lit "127.0.0.1:0"));
  listener_addr ← unwrap (local_addr listener);
  let fds := {[lit "127.0.0.1:12345" := listener]} in
  Ok (mkProxyTest true false true ∅ listener_addr [] http_proxy fds).

(** The addresses the running service accepts connections at. *)
Definition accepts_at (self : ProxyTest) : list (option (Z * Z)) :=
  if pt_running self then (λ addr, listen_on (pt_fds self) addr ≫= local_addr) <$> tcp_addrs (pt_http self) else [].

Definition proxy_addr (self : ProxyTest) : Z * Z := listener_addr self.

Definition with_services (m : gmap bytes (ServiceData nat)) (hs : list Handle) (self : ProxyTest) : ProxyTest :=
  mkProxyTest (pt_ready self) (pt_shutdown self) (pt_running self) m (listener_addr self) hs
    (pt_http self) (pt_fds self).

(** [Sender::send] fails without a receiver; every handle holds one. *)
Definition send_to {E} (h : Handle) (f : Handle → Handle) : outcome E Handle :=
  if (clients h =? 0)%nat then Panic else Ok (f h).

(** The end of both functions: the handle is put into the table and returned. *)
Definition insert_test (service_name : bytes) (service_spec : ServiceSpec) (h : Handle)
    (self : ProxyTest) : ProxyTest * nat :=
  let id := length (pt_handles self) in
  (with_services (<[service_name := mkServiceData 10 (Some service_spec) (Some id)]> (pt_services self))
     (pt_handles self ++ [with_clients S h]) self, id).

Definition add_service_passthrough (service_name : bytes) (self : ProxyTest)
    : outcome Empty_set (ProxyTest * nat) :=
  h ← send_to new_test with_ready;
  q ← unwrap_res (qualified_parse service_name);
  Ok (insert_test service_name (build_passthrough q) h self).

Definition add_service (service_name descriptor_set_path : bytes) (self : ProxyTest)
    : outcome Empty_set (ProxyTest * nat) :=
  descriptor_set ← unwrap_res (from_source mkDummyPanicContext (SrcFile descriptor_set_path));
  q ← unwrap_res (qualified_parse service_name);
  '(service_spec, _) ← unwrap_res (service_build descriptor_set q);
  h ← send_to new_test with_ready;
  Ok (insert_test service_name service_spec h self).

(** [BackendsTest] is the number of its handle. *)
Definition set_backends (bs : gset Backend) (id : nat) (self : ProxyTest) : outcome Empty_set ProxyTest :=
  h ← unwrap (pt_handles self !! id);
  h ← send_to h (with_backends bs);
  let h := update_round_robin (update_consistent h) in
  Ok (with_services (pt_services self) (<[id := h]> (pt_handles self)) self).

Definition set_single_backend_addr (a : Z * Z) (id : nat) (self : ProxyTest) : outcome Empty_set ProxyTest :=
  b ← unwrap (backend_new (addr_display a));
  set_backends {[b]} id self.

(** [shutdown] sends to the server and waits for it. *)
Definition shutdown (self : ProxyTest) : outcome Empty_set ProxyTest :=
  if pt_running self then
    Ok (mkProxyTest (pt_ready self) true false (pt_services self) (listener_addr self) (pt_handles self)
          (pt_http self) (pt_fds self))
  else Panic.

(** ** Tests as sequences of operations *)

Inductive test_op :=
| AddPassthrough (service_name : bytes)
| AddService (service_name descriptor_set_path : bytes)
| SetBackends (id : nat) (bs : gset Backend)
| SetSingle (id : nat) (a : Z * Z).

Definition run_op (o : test_op) (self : ProxyTest) : outcome Empty_set ProxyTest :=
  match o with
  | AddPassthrough n => fst <$> add_service_passthrough n self
  | AddService n p => fst <$> add_service n p self
  | SetBackends id bs => set_backends bs id self
  | SetSingle id a => set_single_backend_addr a id self
  end.

Fixpoint run_ops (os : list test_op) (self : ProxyTest) : outcome Empty_set ProxyTest :=
  match os with
  | [] => Ok self
  | o :: os' => self ← run_op o self; run_ops os' self
  end.

(** The reference: the handle each service got last, with the path of its descriptor set if
    it has one, and what was set for each handle. *)
Record TestSpec := mkTestSpec {
  ts_routes : gmap bytes (nat * option bytes);
  ts_sets : list (gset Backend);
}.

Definition spec_op (o : test_op) (t : TestSpec) : TestSpec :=
  match o with
  | AddPassthrough n => mkTestSpec (<[n := (length (ts_sets t), None)]> (ts_routes t)) (ts_sets t ++ [∅])
  | AddService n p => mkTestSpec (<[n := (length (ts_sets t), Some p)]> (ts_routes t)) (ts_sets t ++ [∅])
  | SetBackends id bs => mkTestSpec (ts_routes t) (<[id := bs]> (ts_sets t))
  | SetSingle id a => mkTestSpec (ts_routes t) (<[id := {[mkBackend (Inet a.1 a.2) 1]}]> (ts_sets t))
  end.

Definition spec_ops (os : list test_op) : TestSpec := foldl (flip spec_op) (mkTestSpec ∅ []) os.

(** The specification of a service: its methods as the descriptor set declares them, none
    for a service that is passed through. *)
Definition spec_of (n : bytes) (path : option bytes) : option ServiceSpec :=
  match path, qualified_parse n with
  | None, Ok q => Some (build_passthrough q)
  | Some p, Ok q =>
    match from_source mkDummyPanicContext (SrcFile p) with
    | Ok ds => match service_build ds q with Ok (sp, _) => Some sp | _ => None end
    | _ => None
    end
  | _, _ => None
  end.

Definition route_of (n : bytes) (r : nat * option bytes) : ServiceData nat :=
  mkServiceData 10 (spec_of n r.2) (Some r.1).

(** The implementation holds what the reference says. *)
Record test_refines (self : ProxyTest) (t : TestSpec) : Prop := {
  tr_routes n : pt_services self !! n = route_of n <$> ts_routes t !! n;
  tr_sets : (λ h, lb_backends (load_balancer_round_robin h)) <$> pt_handles self = ts_sets t;
  tr_sets_consistent : (λ h, lb_backends (load_balancer_consistent h)) <$> pt_handles self = ts_sets t;
  tr_handles h : h ∈ pt_handles self → ready h = true ∧ 0 < clients h;
  tr_known n r : ts_routes t !! n = Some r → r.1 < length (ts_sets t);
}.

Lemma proxy_server_refines self :
  proxy_server = Ok self → test_refines self (mkTestSpec ∅ []) ∧ accepts_at self = [Some (proxy_addr self)].
Proof.
  unfold proxy_server. rewrite proxy_service_eq. simpl.
  destruct (tcp_bind _) as [fd|]; simpl; [|done]. destruct (local_addr fd) as [a|] eqn:Ha; simpl; [|done].
  intros [= <-]. split.
  - split; simpl; try done. by intros h ?%elem_of_nil.
  - unfold accepts_at. simpl.
    rewrite (listen_on_fds _ _ fd) by apply lookup_singleton_eq. simpl. by rewrite Ha.
Qed.

(** The operations leave the server alone. *)
Definition same_server (self self' : ProxyTest) : Prop :=
  accepts_at self' = accepts_at self ∧ proxy_addr self' = proxy_addr self.

Lemma run_op_server o self self' : run_op o self = Ok self' → same_server self self'.
Proof.
  assert (∀ id bs, set_backends bs id self = Ok self' → same_server self self') as Hset.
  { intros id bs. unfold set_backends. intros (h & _ & (h' & _ & [= <-])%outcome_bind_Ok)%outcome_bind_Ok. done. }
  destruct o as [n|n p|id bs|id a]; simpl; [| |by apply Hset|].
  - unfold add_service_passthrough. simpl. destruct (unwrap_res (qualified_parse n)); simpl; [|done..].
    by intros [= <-].
  - unfold add_service. destruct (unwrap_res (from_source _ _)) as [ds| |]; simpl; [|done..].
    destruct (unwrap_res (qualified_parse n)) as [q| |]; simpl; [|done..].
    destruct (unwrap_res (service_build ds q)) as [[sp errs]| |]; simpl; [|done..]. by intros [= <-].
  - unfold set_single_backend_addr. intros (b & _ & Hb)%outcome_bind_Ok. by eapply Hset.
Qed.

Lemma run_ops_server os self self' : run_ops os self = Ok self' → same_server self self'.
Proof.
  revert self. induction os as [|o os IH]; intros self; simpl; [by intros [= <-]|].
  intros (self1 & [H1 H2]%run_op_server & [H3 H4]%IH)%outcome_bind_Ok. split; congruence.
Qed.

Lemma insert_test_refines n sp path self t :
  test_refines self t → spec_of n path = Some sp →
  test_refines (insert_test n sp (with_ready new_test) self).1
    (mkTestSpec (<[n := (length (ts_sets t), path)]> (ts_routes t)) (ts_sets t ++ [∅])).
Proof.
  intros [Hr Hs Hc Hh Hk] Hsp. split; simpl.
  - intros n'. rewrite <- Hs, length_fmap, !lookup_insert. case_decide; [|apply Hr].
    subst n'. unfold route_of. simpl. by rewrite Hsp.
  - rewrite fmap_app, Hs. simpl. by rewrite lb_new_empty.
  - rewrite fmap_app, Hc. simpl. by rewrite lb_new_empty.
  - intros h [?|Heq]%elem_of_app; [by apply Hh|]. apply list_elem_of_singleton in Heq as ->.
    simpl. split; [done|lia].
  - intros n' r. rewrite length_app, lookup_insert. simpl.
    case_decide; [intros [= <-]; simpl; lia|]. intros ?%Hk. lia.
Qed.

Lemma set_backends_refines id bs self self' t :
  test_refines self t → set_backends bs id self = Ok self' →
  test_refines self' (mkTestSpec (ts_routes t) (<[id := bs]> (ts_sets t))).
Proof.
  intros [Hr Hs Hc Hh Hk] Hset. unfold set_backends in Hset.
  apply outcome_bind_Ok in Hset as (h & Hid & Hset). apply outcome_bind_Ok in Hset as (h' & Hsend & Hset).
  injection Hset as <-. destruct (pt_handles self !! id) as [h0|] eqn:Hl; [|done]. injection Hid as ->.
  unfold send_to in Hsend. destruct (clients h =? 0)%nat eqn:Hcl; [done|]. injection Hsend as <-.
  split; simpl; [done| | | |].
  - rewrite list_fmap_insert, Hs. simpl. by rewrite lb_update_backends.
  - rewrite list_fmap_insert, Hc. simpl. by rewrite lb_update_backends.
  - intros h' [j Hj]%list_elem_of_lookup. apply list_lookup_insert_Some in Hj as [(<- & <- & _)|(_ & Hj)].
    + simpl. apply Hh. by eapply list_elem_of_lookup_2.
    + apply Hh. by eapply list_elem_of_lookup_2.
  - intros n id'. rewrite length_insert. apply Hk.
Qed.

Lemma run_op_refines o self self' t :
  test_refines self t → run_op o self = Ok self' → test_refines self' (spec_op o t).
Proof.
  intros Href. destruct o as [n|n p|id bs|id a]; simpl.
  - unfold add_service_passthrough. simpl.
    destruct (qualified_parse n) as [q| |] eqn:Hq; simpl; [|done..].
    intros [= <-]. apply insert_test_refines; [done|]. unfold spec_of. by rewrite Hq.
  - unfold add_service. destruct (from_source _ _) as [ds| |] eqn:Hds; simpl; [|done..].
    destruct (qualified_parse n) as [q| |] eqn:Hq; simpl; [|done..].
    destruct (service_build ds q) as [[sp errs]| |] eqn:Hb; simpl; [|done..].
    intros [= <-]. apply insert_test_refines; [done|]. unfold spec_of. by rewrite Hq, Hds, Hb.
  - by apply set_backends_refines.
  - unfold set_single_backend_addr. rewrite backend_new_display. by apply set_backends_refines.
Qed.

(** When an operation does not panic: qualified names, descriptor sets that load, handles
    that exist. *)
Definition op_ok (o : test_op) (t : TestSpec) : Prop :=
  match o with
  | AddPassthrough n => dot ∈ n
  | AddService n p => ∃ ds q r, from_source mkDummyPanicContext (SrcFile p) = Ok ds
      ∧ qualified_parse n = Ok q ∧ service_build ds q = Ok r
  | SetBackends id _ | SetSingle id _ => id < length (ts_sets t)
  end.

Fixpoint ops_ok (os : list test_op) (t : TestSpec) : Prop :=
  match os with
  | [] => True
  | o :: os' => op_ok o t ∧ ops_ok os' (spec_op o t)
  end.

Lemma set_backends_total id bs self t :
  test_refines self t → id < length (ts_sets t) → ∃ self', set_backends bs id self = Ok self'.
Proof.
  intros Href Hid. rewrite <- (tr_sets _ _ Href), length_fmap in Hid.
  apply lookup_lt_is_Some_2 in Hid as [h Hh]. unfold set_backends. rewrite Hh. simpl.
  assert (0 < clients h) as Hcl by (eapply (tr_handles _ _ Href), list_elem_of_lookup_2; done).
  unfold send_to. destruct (Nat.eqb_spec (clients h) 0); [lia|]. simpl. eauto.
Qed.

Lemma run_op_total o self t :
  test_refines self t → op_ok o t → ∃ self', run_op o self = Ok self' ∧ test_refines self' (spec_op o t).
Proof.
  intros Href Hok. assert (∃ self', run_op o self = Ok self') as [self' Hself'];
    [|exists self'; eauto using run_op_refines].
  destruct o as [n|n p|id bs|id a]; simpl in *.
  - unfold add_service_passthrough. simpl.
    destruct (qualified_parse n) as [q|e|] eqn:Hq; simpl; [eauto| |].
    + exfalso. by apply (qualified_parse_dot n e Hq).
    + by apply qualified_parse_no_panic in Hq.
  - destruct Hok as (ds & q & [sp errs] & Hds & Hq & Hb). unfold add_service.
    rewrite Hds. simpl. rewrite Hq. simpl. rewrite Hb. simpl. eauto.
  - by eapply set_backends_total.
  - unfold set_single_backend_addr. rewrite backend_new_display. by eapply set_backends_total.
Qed.

Lemma run_ops_total os self t :
  test_refines self t → ops_ok os t →
  ∃ self', run_ops os self = Ok self' ∧ test_refines self' (foldl (flip spec_op) t os).
Proof.
  revert self t. induction os as [|o os IH]; intros self t Href; simpl; [eauto|].
  intros [Ho Hos]. destruct (run_op_total o self t Href Ho) as (self1 & -> & Href1).
  by apply IH.
Qed.


(** ** What a client gets *)

Section answers.
Context {HM Ses D : Type} `{HL : HeaderMapLaws HM, SL : SessionLaws HM Ses, !PingoraCache HM, !Digest D}.

(** [load_balancer_round_robin.select(b"", 256)] of a handle of the test. *)
Definition select_test (self : ProxyTest) (id : nat) : option Backend :=
  h ← pt_handles self !! id; (lb_select [] 256 (load_balancer_round_robin h)).2.

(** The lookup of pingora in the cache of the proxy: if the cache is enabled, the key is
    computed and looked up. [MockStorage] never has a hit. *)
Definition consult_mock : handler Ses (RequestCtx nat) unit :=
  s ← session;
  if cache_enabled s then
    key ← cache_key_callback (D:=D);
    lift (lookup_key (Storage:=MockStorage.mock_storage) key tt);; mret tt
  else mret tt.

(** The peer a request is sent to, or its error. *)
Definition answer_to (self : ProxyTest) (s : Ses) : outcome PError HttpPeer :=
  let handlers : handler Ses (RequestCtx nat) HttpPeer :=
    request_filter (pt_services self);;
    request_cache_filter;;
    consult_mock;;
    upstream_peer (select_test self) in
  (handlers s new_ctx).2.

Definition no_upstream : PError := mkPError (HTTPStatus 502) (lit "no upstream available").

Lemma select_test_spec self t id set :
  test_refines self t → ts_sets t !! id = Some set →
  match select_test self id with Some b => b ∈ set | None => set = ∅ end.
Proof.
  intros Href Hset. unfold select_test. rewrite <- (tr_sets _ _ Href) in Hset.
  apply list_lookup_fmap_Some in Hset as (h & -> & Hh). rewrite Hh. simpl.
  apply (lb_select_cases [] 256 (load_balancer_round_robin h)). lia.
Qed.

(** The peer of a selected backend. *)
Definition peer_of (b : option Backend) : outcome PError HttpPeer :=
  match b with
  | None => Err no_upstream
  | Some b => match as_inet (addr b) with Some a => Ok (mkPeer a false [] true) | None => Panic end
  end.

Lemma upstream_peer_of (select : nat → option Backend) (s : Ses) c m id :
  grpc_meta c = Some m → load_balancer (service_data m) = Some id →
  (upstream_peer select s c).2 = peer_of (select id).
Proof.
  intros Hm Hlb. unfold upstream_peer, mbind, handler_bind, context, lift. rewrite Hm. simpl.
  rewrite Hlb. simpl. destruct (select id) as [b|]; [|done]. simpl. by destruct (as_inet (addr b)).
Qed.

(** The descriptor set gives the method a positive TTL. *)
Definition caches (d : ServiceData nat) (method : bytes) : bool :=
  bool_decide (is_Some (positive_ttl (mkGrpcMeta d method ∅))).

Lemma caches_vary d method vs :
  caches d method = match positive_ttl (mkGrpcMeta d method vs) with Some _ => true | None => false end.
Proof.
  unfold caches. change (positive_ttl (mkGrpcMeta d method ∅)) with (positive_ttl (mkGrpcMeta d method vs)).
  by destruct (positive_ttl _); case_bool_decide as Hs; [|destruct Hs| destruct Hs|].
Qed.

(** From the cache to the peer, for a request that [request_filter] let pass. *)
Lemma after_filter self (s s' : Ses) c' m id :
  cache_enabled s' = false → grpc_meta c' = Some m → load_balancer (service_data m) = Some id →
  get_retry_buffer s' = buffered (request_body s) ∨ do_cache c' = false →
  ((request_cache_filter;; consult_mock;; upstream_peer (select_test self)) s' c').2
  = if do_cache c' && bool_decide (request_body s = []) then Panic else peer_of (select_test self id).
Proof.
  intros Hoff Hm Hlb Hbuf. unfold consult_mock, request_cache_filter. rewrite <- (upstream_peer_of _ s' c' m id Hm Hlb).
  unfold mbind, handler_bind, context, session, on_session, lift, mret, handler_ret.
  destruct (do_cache c') eqn:Hdo; simpl; [|by rewrite Hoff].
  destruct Hbuf as [Hbuf|?]; [|done]. rewrite cache_enable_on.
  destruct (cache_enable_rest s') as (_ & Hr & _).
  rewrite (cache_key_callback_val _ _ m Hm), Hr, Hbuf.
  destruct (request_body s); simpl; [done|]. by rewrite !(upstream_peer_of _ _ c' m id Hm Hlb).
Qed.

(** The answer for a service of the table. *)
Lemma answer_routed self (s : Ses) service method d id :
  cache_enabled s = false → parse_grpc_path (raw_path (req_header s)) = Ok (service, method) →
  pt_services self !! service = Some d → load_balancer d = Some id →
  answer_to self s
  = if caches d method then
      match failure s with
      | Some e => Err e
      | None =>
        if decide (retry_limit s < length (request_body s)) then Err body_too_large
        else if decide (request_body s = []) then Panic else peer_of (select_test self id)
      end
    else peer_of (select_test self id).
Proof.
  intros Hoff Hpath Hd Hlb. pose proof (request_filter_cases (pt_services self) s new_ctx) as Hc.
  unfold answer_to. cbn zeta. unfold mbind at 1, handler_bind at 1.
  destruct (request_filter (pt_services self) s new_ctx) as [[s' c'] r].
  unfold routed_service in Hc. rewrite Hpath, Hd, decide_True in Hc by (rewrite Hlb; eauto).
  destruct Hc as (vs & _ & Hm & Hce & Hc). rewrite (caches_vary d method vs). rewrite Hoff in Hce.
  destruct (positive_ttl _) as [spec|].
  - destruct Hc as [Hdo Hc]. destruct (failure s); [by destruct Hc as [-> _]|].
    case_decide; [by destruct Hc as [-> _]|]. destruct Hc as (-> & _ & _ & Hbuf).
    rewrite (after_filter self s s' c' _ id Hce Hm Hlb) by auto. rewrite Hdo. simpl.
    by case_bool_decide; case_decide.
  - destruct Hc as (-> & _ & Hdo). rewrite (after_filter self s s' c' _ id Hce Hm Hlb) by auto. by rewrite Hdo.
Qed.

Lemma answer_unrouted self (s : Ses) service method :
  parse_grpc_path (raw_path (req_header s)) = Ok (service, method) →
  pt_services self !! service = None → answer_to self s = Err unknown_service.
Proof.
  intros Hpath Hnone. pose proof (request_filter_cases (pt_services self) s new_ctx) as Hc.
  unfold answer_to. cbn zeta. unfold mbind at 1, handler_bind at 1.
  destruct (request_filter (pt_services self) s new_ctx) as [[s' c'] r].
  unfold routed_service in Hc. rewrite Hpath, Hnone in Hc. by destruct Hc as [-> _].
Qed.

(** The request is sent to a backend of the set, or refused with 502 if there is none. *)
Definition sent_to (set : gset Backend) (answer : outcome PError HttpPeer) : Prop :=
  (set = ∅ ∧ answer = Err no_upstream) ∨ ∃ b, b ∈ set ∧ answer = peer_of (Some b).

(** C37: The test proxy does what the tests were told: if every service name is qualified,
    every descriptor set loads and has its service, and backends are set only for handles
    that exist, then a sequence of [add_service_passthrough], [add_service], [set_backends]
    and [set_single_backend_addr] runs without a panic and leaves the proxy serving at the
    address of the test context. After it a request for a service that was not added gets
    404. For a service that was, it is sent to one of the backends set last for the handle
    the service got last, with the error 502 if that set is empty; but if the descriptor
    set added last gives its method a positive TTL, a failure to read the body is passed
    on, a body larger than the retry buffer is refused with 413, and a request without a
    body panics. *)
Theorem test_proxy_answers os self0 (s : Ses) service method :
  proxy_server = Ok self0 → ops_ok os (mkTestSpec ∅ []) →
  cache_enabled s = false → parse_grpc_path (raw_path (req_header s)) = Ok (service, method) →
  ∃ self, run_ops os self0 = Ok self ∧ accepts_at self = [Some (proxy_addr self)] ∧
  match ts_routes (spec_ops os) !! service with
  | None => answer_to self s = Err unknown_service
  | Some r => ∃ set, ts_sets (spec_ops os) !! r.1 = Some set ∧
    if caches (route_of service r) method then
      match failure s with
      | Some e => answer_to self s = Err e
      | None =>
        if decide (retry_limit s < length (request_body s)) then answer_to self s = Err body_too_large
        else if decide (request_body s = []) then answer_to self s = Panic
        else sent_to set (answer_to self s)
      end
    else sent_to set (answer_to self s)
  end.
Proof.
  intros [Href0 Hacc]%proxy_server_refines Hos Hoff Hpath.
  destruct (run_ops_total os _ _ Href0 Hos) as (self & Hrun & Href).
  exists self. split; [done|]. destruct (run_ops_server _ _ _ Hrun) as [Ha Hb].
  split; [by rewrite Ha, Hb|]. fold (spec_ops os) in Href. pose proof (tr_routes _ _ Href service) as Hroute.
  destruct (ts_routes (spec_ops os) !! service) as [r|] eqn:Hr; simpl in Hroute; [|by eapply answer_unrouted].
  destruct (lookup_lt_is_Some_2 _ _ (tr_known _ _ Href _ _ Hr)) as [set Hset].
  exists set. split; [done|]. pose proof (select_test_spec self _ r.1 set Href Hset) as Hsel.
  assert (sent_to set (peer_of (select_test self r.1))) as Hsent.
  { destruct (select_test self r.1) as [b|]; [right; eauto|left; done]. }
  rewrite (answer_routed self s service method _ r.1 Hoff Hpath Hroute eq_refl).
  destruct (caches _ _); [|done]. destruct (failure s); [done|]. by repeat case_decide.
Qed.
End answers.
End test_util.

(** ** The integration tests *)

#[local] Existing Instances plain_reflection timed_cache.

#[local] Instance plain_addr : AddrText := {|
  addr_display a := pos_bytes (encode a);
  backend_new s := (λ a, mkBackend (Inet a.1 a.2) 1) <$> decode (bytes_pos s);
|}.

#[local] Instance plain_addr_laws : AddrTextLaws.
Proof. intros a. simpl. by rewrite bytes_pos_bytes, decode_encode. Qed.

(** The descriptor set of the tests. *)
#[local] Instance test_files : SourceEnv (list (@FileDescriptorProto plain_reflection)) unit := {|
  IoError := unit; DecodeError := unit; PbError := unit;
  read_file _ := Ok [];
  sha256 s := s;
  base64_decode _ := Err tt;
  parse_from_bytes _ := Ok [test_file];
|}.

#[local] Instance plain_net : Net := {|
  tcp_bind _ := Some 3%Z;
  local_addr _ := Some (2130706433, 45678)%Z;
  listen_on fds addr := fds !! addr;
|}.

#[local] Instance plain_net_laws : NetLaws.
Proof. intros fds addr fd Hl. exact Hl. Qed.

#[local] Existing Instance plain_telemetry.

Notation test_start := (proxy_server (RR:=gset Backend) (Cons:=gset Backend) globals_new).

Definition service_op : test_op := AddPassthrough (lit "package.Service").

(** [grpc_request(addr, "package.Service", "Method", b"")]: the body is the frame of an empty
    message. *)
Definition empty_frame : bytes := [x00; x00; x00; x00; x00].

Definition method_session (path : string) : ListSession hlist :=
  mkSession (sample_request path) [empty_frame] None None 64 false.

Notation test_answer := (answer_to (RR:=gset Backend) (Cons:=gset Backend) (HM:=hlist) (D:=bytes)).

Notation run_test := (run_ops (RR:=gset Backend) (Cons:=gset Backend) (AnyError:=unit)).

(** The test context before the tests add services. *)
Definition sample_test : ProxyTest (RR:=gset Backend) (Cons:=gset Backend) :=
  mkProxyTest true false true ∅ (2130706433, 45678)%Z []
    (mkHttp (Some (proxy_new TheTable tt globals_new, Some (mkOptions true))) [lit "127.0.0.1:12345"])
    {[lit "127.0.0.1:12345" := 3%Z]}.

(** [request_with_passthrough_backend]. *)
Lemma test_proxy_answers_witness :
  ∃ self, (test_start ≫= run_test [service_op; SetSingle 0 (2130706433, 40000)%Z]) = Ok self
    ∧ test_answer self (method_session "/package.Service/Method")
      = Ok (mkPeer (2130706433, 40000)%Z false [] true).
Proof.
  destruct (test_proxy_answers (RR:=gset Backend) (Cons:=gset Backend) (AnyError:=unit) (D:=bytes)
    globals_new [service_op; SetSingle 0 (2130706433, 40000)%Z] sample_test
    (method_session "/package.Service/Method") (lit "package.Service") (lit "Method")) as (self & Hrun & _ & Ha).
  - vm_refl.
  - split; [change (dot ∈ lit "package.Service"); by apply (bool_decide_unpack _); vm_compute|].
    split; [simpl; lia|exact I].
  - reflexivity.
  - vm_refl.
  - exists self. split; [exact Hrun|].
    assert (ts_routes (spec_ops [service_op; SetSingle 0 (2130706433, 40000)%Z]) !! lit "package.Service"
            = Some (0, None)) as Hr by vm_refl.
    rewrite Hr in Ha. destruct Ha as (set & Hset & Ha). injection Hset as <-.
    assert (caches (route_of (AnyError:=unit) (lit "package.Service") (0, None)) (lit "Method") = false) as Hc by vm_refl.
    rewrite Hc in Ha. destruct Ha as [[Hset _]|(b & Hb & ->)].
    + assert (bool_decide ({[mkBackend (Inet 2130706433 40000) 1]} = (∅ : gset Backend)) = false) as Hno by vm_refl.
      apply bool_decide_eq_false in Hno. destruct (Hno Hset).
    + apply elem_of_singleton in Hb as ->. reflexivity.
Defined.

(** [request_without_service_match]. *)
Example request_without_service_match :
  test_answer sample_test (method_session "/package.Service/Method") = Err unknown_service.
Proof. vm_refl. Qed.

(** [request_with_no_backends]. *)
Example request_with_no_backends :
  ok (run_test [service_op] sample_test)
    ≫= (λ self, Some (test_answer self (method_session "/package.Service/Method")))
  = Some (Err no_upstream).
Proof. vm_refl. Qed.

(** [request_with_service_full_backend]. *)
Example request_with_service_full_backend :
  ok (run_test [AddService (lit "example.TestService") (lit "tests/data/proto_descriptors.binpb");
                SetSingle 0 (2130706433, 40000)%Z] sample_test)
    ≫= (λ self, Some (test_answer self (method_session "/example.TestService/GetData")))
  = Some (Ok (mkPeer (2130706433, 40000)%Z false [] true)).
Proof. vm_refl. Qed.

(** The same request without any body. *)
Example request_without_body_panics :
  ok (run_test [AddService (lit "example.TestService") (lit "tests/data/proto_descriptors.binpb");
                SetSingle 0 (2130706433, 40000)%Z] sample_test)
    ≫= (λ self, Some (test_answer self
         (mkSession (sample_request "/example.TestService/GetData") [] None None 64 false)))
  = Some Panic.
Proof. vm_refl. Qed.
