(* ===== verification/TestServers.v ===== *)
(** * TestServers: [grcache-shared/src/test], the client and the server of the tests

    [grpc_client.rs] frames a message and posts it to [/service/method]; [grpc_server.rs] is
    a server that is told which requests to expect and how to answer them. Its state is
    behind a mutex that a panic poisons; the tasks that handle its requests run in any
    order. Both ends of the HTTP/2 library are interfaces, [H2Client] and [H2]. *)

From stdpp Require Import gmap strings list.
From Stdlib Require Import Strings.Byte.
From S2P Require Import Prelude Text Headers Path Discovery Main Server.

(** ** Framing *)

(** [put_u32]: four bytes, most significant first. *)
Definition put_u32 (z : Z) : bytes :=
  [byte_of_Z (z / 2 ^ 24); byte_of_Z (z / 2 ^ 16); byte_of_Z (z / 2 ^ 8); byte_of_Z z].

(** [put_u8(0)], [put_u32(message.len() as u32)], [put_slice(message)]. *)
Definition grpc_frame (message : bytes) : bytes :=
  x00 :: put_u32 (Z.of_nat (length message) mod 2 ^ 32) ++ message.

(** How a frame is read: the compression flag, the length, the message, and the rest. *)
Definition grpc_unframe (s : bytes) : option (byte * bytes * bytes) :=
  match s with
  | flag :: b3 :: b2 :: b1 :: b0 :: s' =>
    let len := N.to_nat (((bn b3 * 256 + bn b2) * 256 + bn b1) * 256 + bn b0) in
    if (length s' <? len)%nat then None else Some (flag, take len s', drop len s')
  | _ => None
  end.

Lemma put_u32_value z :
  (0 ≤ z < 2 ^ 32)%Z →
  (((bn (byte_of_Z (z / 2 ^ 24)) * 256 + bn (byte_of_Z (z / 2 ^ 16))) * 256
    + bn (byte_of_Z (z / 2 ^ 8))) * 256 + bn (byte_of_Z z))%N = Z.to_N z.
Proof.
  intros Hz. rewrite !bn_byte_of_Z.
  assert (z / 2 ^ 16 = z / 256 / 256)%Z as -> by (rewrite Z.div_div by lia; f_equal; lia).
  assert (z / 2 ^ 24 = z / 256 / 256 / 256)%Z as -> by (rewrite !Z.div_div by lia; f_equal; lia).
  change (2 ^ 8)%Z with 256%Z.
  pose proof (Z.div_mod z 256 ltac:(lia)) as Ha. pose proof (Z.mod_pos_bound z 256 ltac:(lia)) as Ha'.
  set (a := (z / 256)%Z) in *.
  pose proof (Z.div_mod a 256 ltac:(lia)) as Hb. pose proof (Z.mod_pos_bound a 256 ltac:(lia)) as Hb'.
  set (b := (a / 256)%Z) in *.
  pose proof (Z.div_mod b 256 ltac:(lia)) as Hc. pose proof (Z.mod_pos_bound b 256 ltac:(lia)) as Hc'.
  set (c := (b / 256)%Z) in *. assert (0 ≤ c < 256)%Z by lia. rewrite (Z.mod_small c) by lia.
  lia.
Qed.

(** Reading a frame that is followed by anything. *)
Lemma grpc_frame_read message rest :
  grpc_unframe (grpc_frame message ++ rest) =
  (let len := Z.to_nat (Z.of_nat (length message) mod 2 ^ 32) in
   Some (x00, take len message, drop len message ++ rest))
  ∧ ((Z.of_nat (length message) < 2 ^ 32)%Z →
     grpc_unframe (grpc_frame message ++ rest) = Some (x00, message, rest)).
Proof.
  pose proof (Z.mod_pos_bound (Z.of_nat (length message)) (2 ^ 32) ltac:(lia)) as Hb.
  assert (Z.to_nat (Z.of_nat (length message) mod 2 ^ 32) ≤ length message) as Hle.
  { pose proof (Z.mod_le (Z.of_nat (length message)) (2 ^ 32) ltac:(lia) ltac:(lia)). lia. }
  assert (grpc_unframe (grpc_frame message ++ rest) =
    let len := Z.to_nat (Z.of_nat (length message) mod 2 ^ 32) in
    Some (x00, take len message, drop len message ++ rest)) as Heq.
  { unfold grpc_frame. cbn [app put_u32 grpc_unframe].
    rewrite put_u32_value by done. rewrite Z_N_nat.
    destruct (Nat.ltb_spec (length (message ++ rest)) (Z.to_nat (Z.of_nat (length message) mod 2 ^ 32))) as [Hlt|_].
    { rewrite length_app in Hlt. lia. }
    simpl. by rewrite take_app_le, drop_app_le. }
  split; [done|]. intros Hlt. rewrite Heq. cbn zeta. rewrite Z.mod_small by lia.
  by rewrite Nat2Z.id, take_ge, drop_ge.
Qed.

(** Round trip of gRPC frames: a framed message followed by anything is read back as
    an uncompressed message and the rest, if it is shorter than 4 GiB; a longer message
    gets its length modulo 2^32 and is read back cut off. *)
Theorem grpc_frame_round_trip message rest :
  grpc_unframe (grpc_frame message ++ rest) =
  (let len := Z.to_nat (Z.of_nat (length message) mod 2 ^ 32) in
   Some (x00, take len message, drop len message ++ rest))
  ∧ ((Z.of_nat (length message) < 2 ^ 32)%Z →
     grpc_unframe (grpc_frame message ++ rest) = Some (x00, message, rest)).
Proof. apply grpc_frame_read. Qed.

(** ** The client *)

(** A request with its header and its data, which ends the stream. *)
Record H2Request := mkH2Request {
  h2_method : bytes;
  h2_uri : bytes;
  h2_headers : list (bytes * bytes);
  h2_data : bytes;
}.

(** [TcpStream::connect], [client::handshake], [h2.ready()], what the request builder takes as
    a URI, [send_request], [send_data], and the response, which comes or not. *)
Class H2Client := {
  Connection : Type;
  Response : Type;
  tcp_connect : Z * Z → option Connection;
  client_handshake : Connection → bool;
  client_ready : Connection → bool;
  valid_uri : bytes → bool;
  send_request : Connection → H2Request → bool;
  send_request_data : Connection → H2Request → bool;
  await_response : Connection → H2Request → option Response;
}.

Section client.
Context `{!H2Client}.

Definition grpc_head (service method : bytes) (data : bytes) : H2Request :=
  mkH2Request (lit "POST") (format_grpc_path service method)
    [(lit "content-type", lit "application/grpc"); (lit "host", lit "localhost")] data.

Definition check {E} (b : bool) : outcome E unit := if b then Ok tt else Panic.

Definition grpc_request (addr : Z * Z) (service method message : bytes) : outcome Empty_set Response :=
  tcp ← unwrap (tcp_connect addr);
  check (client_handshake tcp);;
  check (client_ready tcp);;
  let request := grpc_head service method in
  check (valid_uri (h2_uri (request [])));;
  check (send_request tcp (request []));;
  let data := grpc_frame message in
  check (send_request_data tcp (request data));;
  unwrap (await_response tcp (request data)).

(** What the client sends: if a response is returned, it answers exactly one request, a
    POST to the path of the service and method whose data is the frame of the message; a
    server that reads the frame gets the message, if it is shorter than 4 GiB. *)
Lemma grpc_request_sends addr service method message r :
  grpc_request addr service method message = Ok r →
  ∃ tcp req, tcp_connect addr = Some tcp ∧ await_response tcp req = Some r
    ∧ h2_method req = lit "POST" ∧ h2_uri req = format_grpc_path service method
    ∧ ((Z.of_nat (length message) < 2 ^ 32)%Z → grpc_unframe (h2_data req) = Some (x00, message, [])).
Proof.
  unfold grpc_request, check. intros Hr.
  destruct (tcp_connect addr) as [tcp|]; simpl in Hr; [|done].
  destruct (client_handshake tcp), (client_ready tcp), (valid_uri _), (send_request tcp _),
    (send_request_data tcp _); simpl in Hr; try done.
  destruct (await_response tcp _) as [r'|] eqn:Ha; simplify_eq/=. eexists _, _.
  split_and!; [done|exact Ha|done..|]. intros Hlen. simpl.
  destruct (grpc_frame_read message []) as [_ Hf]. specialize (Hf Hlen).
  by rewrite (right_id_L [] (++)) in Hf.
Qed.
End client.

(** ** The server *)

(** What a server has sent on a stream. *)
Inductive Sent (H : Type) :=
| SentReset
| SentResponse
| SentData (data : bytes)
| SentTrailers (trailers : H).
Arguments SentReset {H}.
Arguments SentResponse {H}.
Arguments SentData {H}.
Arguments SentTrailers {H}.

(** [SendResponse::send_response] and [SendStream::send_data], [send_trailers] of the h2
    library, on the frames sent so far; [None] is an error. *)
Class H2 (H : Type) := {
  send_response : list (Sent H) → option (list (Sent H));
  send_data : bytes → list (Sent H) → option (list (Sent H));
  send_trailers : H → list (Sent H) → option (list (Sent H));
}.

(** A stream takes one response; what is sent in order is sent. *)
Class H2Laws (H : Type) `{!H2 H} : Prop := {
  send_response_first : send_response [] = Some [SentResponse];
  send_response_again f fs : send_response (f :: fs) = None;
  send_data_open b : send_data b [SentResponse] = Some [SentResponse; SentData b];
  send_trailers_open b t :
    send_trailers t [SentResponse; SentData b] = Some [SentResponse; SentData b; SentTrailers t];
}.

Section server.
Context {H : Type} `{HL : H2Laws H} (no_trailers : H).

(** A handler takes the path and the body; a failed assertion in it is a panic. *)
Definition HandleFn : Type := bytes → bytes → outcome Empty_set (bytes * H).

(** [State] behind its mutex. *)
Record MockServer := mkMock {
  poisoned : bool;
  got_extra_requests : bool;
  expects : list (bytes * bytes * HandleFn);
}.

(** [MockServer::new]. *)
Definition mock_new : MockServer := mkMock false false [].

(** [lock().unwrap()]. *)
Definition lock (self : MockServer) : outcome Empty_set unit := if poisoned self then Panic else Ok tt.

Definition expect (service method : bytes) (handle : HandleFn) (self : MockServer)
    : outcome Empty_set MockServer :=
  lock self;;
  Ok (mkMock (poisoned self) (got_extra_requests self) (expects self ++ [(service, method, handle)])).

Definition finish (self : MockServer) : outcome Empty_set unit :=
  lock self;;
  if got_extra_requests self then Panic else Ok tt.

(** [send_response], [send_data] and [send_trailers], each with its [unwrap]. *)
Definition respond (body : bytes) (trailers : H) (sent : list (Sent H)) : outcome Empty_set (list (Sent H)) :=
  sent ← unwrap (send_response sent);
  sent ← unwrap (send_data body sent);
  unwrap (send_trailers trailers sent).

(** A request: its path and what [body.data()] returns, piece by piece; [None] is an error. *)
Definition MockRequest : Type := bytes * list (option bytes).

(** The pieces are put together; [unwrap] fails on an error. *)
Fixpoint read_body (full_body : bytes) (data : list (option bytes)) : outcome Empty_set bytes :=
  match data with
  | [] => Ok full_body
  | d :: data' => d ← unwrap d; read_body (full_body ++ d) data'
  end.

(** [dummy_handle_request]: the state, what was sent, and how the task ends. A panic
    while the guard is held poisons the mutex; the frames before it were sent. *)
Definition dummy_handle_request (request : MockRequest) (self : MockServer)
    : MockServer * list (Sent H) * outcome Empty_set unit :=
  let path := request.1 in
  match read_body [] request.2 with Err e => (self, [], Err e) | Panic => (self, [], Panic) | Ok full_body =>
  if poisoned self then (self, [], Panic) else
  let after_lock (self : MockServer) (sent : list (Sent H)) :=
    match respond [x00; x00; x00; x00; x00] no_trailers sent with
    | Ok sent' => (self, sent', Ok tt)
    | _ => (self, sent, Panic)
    end in
  match expects self with
  | [] => after_lock (mkMock false true []) [SentReset]
  | (service, method, handler) :: rest =>
    let self1 := mkMock false (got_extra_requests self) rest in
    let poison := mkMock true (got_extra_requests self) rest in
    if decide (path = format_grpc_path service method) then
      match handler path full_body with
      | Ok (resp_body, resp_parts) =>
        match respond resp_body resp_parts [] with
        | Ok sent => after_lock self1 sent
        | _ => (poison, [], Panic)
        end
      | _ => (poison, [], Panic)
      end
    else (poison, [], Panic)
  end
  end.

(** [MockServer::new]: the address of a listener on a port the system chose, and the state. *)
Definition mock_server_new `{!Net} : outcome Empty_set ((Z * Z) * MockServer) :=
  listener ← unwrap (tcp_bind (lit "127.0.0.1:0"));
  addr ← unwrap (local_addr listener);
  Ok (addr, mock_new).

(** [dummy_serve]: a task is spawned for each request a connection accepts, until the
    connection ends or accepting fails. The requests that get a task, and the result. *)
Fixpoint dummy_serve {E} (accepted : list (outcome E MockRequest))
    : list MockRequest * outcome E unit :=
  match accepted with
  | [] => ([], Ok tt)
  | Ok request :: accepted' =>
    let '(tasks, res) := dummy_serve accepted' in (request :: tasks, res)
  | Err e :: _ => ([], Err e)
  | Panic :: _ => ([], Panic)
  end.

(** Requests whose tasks take the lock one after the other, and what each of them got. *)
Fixpoint serve (rs : list MockRequest) (self : MockServer) : MockServer * list (list (Sent H)) :=
  match rs with
  | [] => (self, [])
  | request :: rs' =>
    let '(self1, sent, _) := dummy_handle_request request self in
    let '(self2, sents) := serve rs' self1 in
    (self2, sent :: sents)
  end.

(** What the test wants: each request that can be read is the next one expected, and its
    handler answers; the answers. *)
Fixpoint expected (es : list (bytes * bytes * HandleFn)) (rs : list MockRequest) {struct rs}
    : option (list (option (bytes * H))) :=
  match rs with
  | [] => Some []
  | (path, data) :: rs' =>
    match read_body [] data, es with
    | Ok body, (service, method, handler) :: es' =>
      if decide (path = format_grpc_path service method) then
        match handler path body with
        | Ok answer => cons (Some answer) <$> expected es' rs'
        | _ => None
        end
      else None
    | Ok _, [] => None
    | _, _ => cons None <$> expected es rs'
    end
  end.

(** Whether the body of a request can be read. *)
Definition readable (request : MockRequest) : Prop := None ∉ request.2.

#[global] Instance readable_dec request : Decision (readable request).
Proof. unfold readable. apply _. Defined.

Lemma read_body_spec full_body data :
  (None ∉ data ∧ ∃ body, read_body full_body data = Ok body) ∨ (None ∈ data ∧ read_body full_body data = Panic).
Proof.
  revert full_body. induction data as [|[d|] data IH]; intros full_body; simpl.
  - left. split; [set_solver|]. eauto.
  - destruct (IH (full_body ++ d)) as [[? ?]|[? ?]]; [left|right]; set_solver.
  - right. set_solver.
Qed.

Lemma respond_first body t : respond body t [] = Ok [SentResponse; SentData body; SentTrailers t].
Proof.
  unfold respond. rewrite send_response_first. simpl. rewrite send_data_open. simpl.
  by rewrite send_trailers_open.
Qed.

Lemma respond_again body t f fs : respond body t (f :: fs) = Panic.
Proof. unfold respond. by rewrite send_response_again. Qed.

(** Once the mutex is poisoned, or a request was not expected, [finish] fails. *)
Lemma serve_failed rs self :
  poisoned self = true ∨ (got_extra_requests self = true ∧ expects self = []) →
  finish (serve rs self).1 = Panic.
Proof.
  revert self. induction rs as [|request rs IH]; intros self Hf; simpl.
  - unfold finish, lock. destruct Hf as [->|[-> _]]; [done|]. by destruct (poisoned self).
  - assert (let self1 := (dummy_handle_request request self).1.1 in
            poisoned self1 = true ∨ (got_extra_requests self1 = true ∧ expects self1 = [])) as Hf'.
    { unfold dummy_handle_request. destruct (read_body [] request.2) as [body|e|]; [|done..].
      destruct (poisoned self) eqn:Hp; [by left|].
      destruct Hf as [?|[Hg He]]; [done|]. rewrite He, respond_again. by right. }
    destruct (dummy_handle_request request self) as [[self1 sent] r]. simpl in Hf'.
    specialize (IH self1 Hf'). by destruct (serve rs self1).
Qed.

(** The tasks of all connections. *)
Definition spawned {E} (connections : list (list (outcome E MockRequest))) : list MockRequest :=
  concat ((λ c, (dummy_serve c).1) <$> connections).

Lemma expected_length es rs : is_Some (expected es rs) → length (filter readable rs) ≤ length es.
Proof.
  revert es. induction rs as [|[path data] rs IH]; intros es; simpl; [lia|].
  rewrite filter_cons. unfold readable at 1. simpl.
  destruct (read_body_spec [] data) as [[Hd [body ->]]|[Hd ->]].
  - rewrite decide_True by done. destruct es as [|[[service method] handler] es]; [by intros []|].
    case_decide; [|by intros []]. destruct (handler path body); [|by intros []..].
    rewrite fmap_is_Some. intros ?%IH. simpl. lia.
  - rewrite decide_False by (intros Hn; by apply Hn). rewrite fmap_is_Some. apply IH.
Qed.

(** The frames a request gets: those of its answer, and none if it could not be read. *)
Definition frames (answer : option (bytes * H)) : list (Sent H) :=
  match answer with
  | Some (body, trailers) => [SentResponse; SentData body; SentTrailers trailers]
  | None => []
  end.

(** The verdict for requests in the order of their tasks. *)
Lemma serve_verdict es rs :
  let '(self, sents) := serve rs (mkMock false false es) in
  (finish self = Ok tt ↔ is_Some (expected es rs))
  ∧ ∀ answers, expected es rs = Some answers → sents = frames <$> answers.
Proof.
  revert es. induction rs as [|[path data] rs IH]; intros es; simpl.
  { split; [split; [eauto|done]|]. by intros answers [= <-]. }
  assert (∀ self (sent : list (Sent H)), finish (serve rs self).1 = Panic →
    let '(self2, sents) := (let '(self2, sents2) := serve rs self in (self2, sent :: sents2)) in
    (finish self2 = Ok tt ↔ is_Some (@None (list (option (bytes * H)))))
    ∧ ∀ answers, @None (list (option (bytes * H))) = Some answers → sents = frames <$> answers) as Hnone.
  { intros self sent Hf. destruct (serve rs self) as [self2 sents]. simpl in Hf. rewrite Hf.
    split; [split; [done|by intros []]|done]. }
  unfold dummy_handle_request. simpl. destruct (read_body_spec [] data) as [[_ [body ->]]|[_ ->]].
  2:{ specialize (IH es). destruct (serve rs _) as [self sents]. destruct IH as [Hv Hs].
      rewrite fmap_is_Some. split; [done|]. intros answers (as' & Has & ->)%fmap_Some. by rewrite (Hs as' Has). }
  destruct es as [|[[service method] handler] es].
  - rewrite respond_again. apply Hnone, serve_failed. by right.
  - case_decide as Hpath; simpl; [|apply Hnone, serve_failed; by left].
    destruct (handler path body) as [[rb rt]|[]|] eqn:Hh; [|apply Hnone, serve_failed; by left].
    rewrite respond_first, respond_again. specialize (IH es).
    destruct (serve rs (mkMock false false es)) as [self sents]. destruct IH as [Hv Hs].
    rewrite fmap_is_Some. split; [done|]. intros answers (as' & Has & ->)%fmap_Some.
    by rewrite (Hs as' Has).
Qed.

(** C39: The verdict of the mock server: whatever its connections accept, and in whatever
    order the tasks of the requests take the lock, [finish] succeeds exactly if the requests
    that could be read were, in this order, the first of the expected ones and each
    handler answered; then each of them got exactly the response, data and trailers of its
    handler, and there were no more of them than expected ones. (Expected requests that do
    not arrive are not noticed.) Each task that answers then panics when it responds a
    second time, without effect on the verdict. *)
Theorem mock_server_verdict {E} es (connections : list (list (outcome E MockRequest))) rs :
  rs ≡ₚ spawned connections →
  let '(self, sents) := serve rs (mkMock false false es) in
  (finish self = Ok tt ↔ is_Some (expected es rs))
  ∧ (∀ answers, expected es rs = Some answers → sents = frames <$> answers)
  ∧ (finish self = Ok tt → length (filter readable (spawned connections)) ≤ length es).
Proof.
  intros Hp. pose proof (serve_verdict es rs) as Hv. destruct (serve rs _) as [self sents].
  destruct Hv as [Hv Hs]. split_and!; [done..|]. rewrite <- Hp. intros ?%Hv. by apply expected_length.
Qed.
End server.

(** ** [request_with_passthrough_backend] *)

#[local] Instance list_h2 : H2 unit := {|
  send_response l := match l with [] => Some [SentResponse] | _ => None end;
  send_data b l := Some (l ++ [SentData b]);
  send_trailers t l := Some (l ++ [SentTrailers t]);
|}.

#[local] Instance list_h2_laws : H2Laws unit.
Proof. by split. Qed.

(** The body is a framed empty message. *)
Definition test_handler : HandleFn (H:=unit) :=
  λ _ body, if decide (body = grpc_frame []) then Ok (grpc_frame [], tt) else Panic.

Lemma mock_server_verdict_witness :
  let '(self, sents) := serve tt [(lit "/package.Service/Method", [Some (grpc_frame [])])]
    (mkMock false false [(lit "package.Service", lit "Method", test_handler)]) in
  finish self = Ok tt ∧ sents = [[SentResponse; SentData (grpc_frame []); SentTrailers tt]].
Proof.
  pose proof (mock_server_verdict (E:=unit) tt [(lit "package.Service", lit "Method", test_handler)]
    [[Ok (lit "/package.Service/Method", [Some (grpc_frame [])])]]
    [(lit "/package.Service/Method", [Some (grpc_frame [])])] (Permutation_refl _)) as Hv.
  assert (expected [(lit "package.Service", lit "Method", test_handler)]
    [(lit "/package.Service/Method", [Some (grpc_frame [])])] = Some [Some (grpc_frame [], tt)]) as He by vm_refl.
  destruct (serve tt _ _) as [self sents]. destruct Hv as (Hf & Hs & _). split.
  - apply Hf. rewrite He. eauto.
  - exact (Hs _ He).
Defined.

Lemma grpc_frame_round_trip_witness :
  grpc_unframe (grpc_frame (lit "hello") ++ lit "x") = Some (x00, lit "hello", lit "x").
Proof. apply (grpc_frame_round_trip (lit "hello") (lit "x")). simpl. lia. Defined.
