(* ===== verification/Cli.v ===== *)
(** * Cli: [grcache-cli/src/main.rs], the command line tool

    The tool has four commands, of which only [GenerateSchemas] is written: it puts the
    definition of the [GrcacheService] resource into a file, through a [BufWriter]. The file
    system is a map from paths to contents; whether a file can be created and how much of
    a write it takes, and the YAML serialiser, are the interface [SchemaEnv]. *)

From stdpp Require Import gmap strings list.
From Stdlib Require Import Strings.Byte.
From S2P Require Import Prelude Text Path.

Inductive Commands :=
| ValidateCluster
| Validate (descriptor_sets : list bytes)
| UploadDescriptors (config bucket_id descriptor_set : bytes)
| GenerateSchemas (out_dir : bytes).

(** [PathBuf::push] on Unix: an absolute path replaces, otherwise a separator is added
    unless there is one or the path is empty. *)
Definition path_push (path : bytes) (p : bytes) : bytes :=
  if decide (head p = Some slash) then p
  else if decide (path = [] ∨ last path = Some slash) then path ++ p
  else path ++ [slash] ++ p.

Class SchemaEnv (T : Type) := {
  (** [File::create]: whether the file can be created or emptied. *)
  can_create : bytes → gmap bytes bytes → bool;
  (** [File::write_all]: how many bytes are written; it fails if these are not all. *)
  accepts : bytes → gmap bytes bytes → bytes → nat;
  (** [serde_yaml::to_writer]: the pieces it writes one after the other, and whether the value
      can be serialised to its end. *)
  yaml_pieces : T → list bytes;
  yaml_ok : T → bool;
  (** [GrcacheService::crd()]. *)
  crd : T;
}.

Section cli.
Context {T : Type} `{!SchemaEnv T}.
Notation Fs := (gmap bytes bytes).
Implicit Types (fs : Fs) (path buf data : bytes) (pieces : list bytes).

(** ** [BufWriter] *)

Definition capacity : nat := N.to_nat 8192.

Lemma capacity_pos : 0 < capacity.
Proof. unfold capacity. lia. Qed.

#[local] Opaque capacity.

(** What the file did not take is left. *)
Definition file_write path data fs : Fs * bytes :=
  let n := accepts path fs data in
  (<[path := default [] (fs !! path) ++ take n data]> fs, drop n data).

(** Data that does not fit into an empty buffer goes to the file at once. *)
Definition buf_put path data fs buf : Fs * bytes * bool :=
  if (capacity <=? length data)%nat
  then let '(fs, rest) := file_write path data fs in (fs, buf, bool_decide (rest = []))
  else (fs, buf ++ data, true).

(** [BufWriter::write_all]: the file system, the buffer, and whether it succeeded. Data that
    does not fit makes it write out the buffer first; what cannot be written stays there. *)
Definition buf_write path data fs buf : Fs * bytes * bool :=
  let spare := capacity - length buf in
  if (length data <? spare)%nat then (fs, buf ++ data, true)
  else if (spare <? length data)%nat then
    let '(fs, rest) := file_write path buf fs in
    if decide (rest = []) then buf_put path data fs [] else (fs, rest, false)
  else buf_put path data fs buf.

Fixpoint write_pieces path pieces fs buf : Fs * bytes * bool :=
  match pieces with
  | [] => (fs, buf, true)
  | data :: pieces' =>
    let '(fs, buf, written) := buf_write path data fs buf in
    if written then write_pieces path pieces' fs buf else (fs, buf, false)
  end.

(** The file is created before the value is serialised. Dropping the writer writes out its
    buffer, and an error of that is ignored. *)
Definition write_yaml (out_dir name : bytes) (value : T) fs : Fs * outcome Empty_set unit :=
  let path := path_push [] out_dir in
  let path := path_push path name in
  if negb (can_create path fs) then (fs, Panic)
  else
    let '(fs, buf, written) := write_pieces path (yaml_pieces value) (<[path := []]> fs) [] in
    let '(fs, _) := file_write path buf fs in
    (fs, if written && yaml_ok value then Ok tt else Panic).

Definition cli_main (command : Commands) (fs : Fs) : Fs * outcome Empty_set unit :=
  match command with
  | ValidateCluster => (fs, Panic)
  | Validate _ => (fs, Panic)
  | UploadDescriptors _ _ _ => (fs, Panic)
  | GenerateSchemas out_dir => write_yaml out_dir (lit "grcache_service_crd.yaml") crd fs
  end.

(** Where the schema goes. *)
Definition schema_path (out_dir : bytes) : bytes :=
  if decide (out_dir = [] ∨ last out_dir = Some slash) then out_dir ++ lit "grcache_service_crd.yaml"
  else out_dir ++ lit "/grcache_service_crd.yaml".

Lemma schema_path_eq out_dir :
  path_push (path_push [] out_dir) (lit "grcache_service_crd.yaml") = schema_path out_dir.
Proof.
  assert (path_push [] out_dir = out_dir) as ->.
  { unfold path_push. case_decide; [done|]. by rewrite decide_True by auto. }
  unfold path_push, schema_path. rewrite decide_False by done. by case_decide.
Qed.

(** ** What is written *)

(** From [(fs, buf)], the data went to the file and the buffer in order: all of it, or a
    part if writing failed; other files are as they were. *)
Definition appended path fs buf data fs' buf' (all : bool) : Prop :=
  ∃ c c', fs !! path = Some c ∧ fs' !! path = Some c'
    ∧ (if all then c' ++ buf' = c ++ buf ++ data else c' ++ buf' `prefix_of` c ++ buf ++ data)
    ∧ ∀ p, p ≠ path → fs' !! p = fs !! p.

Lemma appended_trans path fs buf d1 fs1 buf1 d2 fs2 buf2 all :
  appended path fs buf d1 fs1 buf1 true → appended path fs1 buf1 d2 fs2 buf2 all →
  appended path fs buf (d1 ++ d2) fs2 buf2 all.
Proof.
  intros (c & c1 & Hc & Hc1 & H1 & Hp1) (c1' & c2 & Hc1' & Hc2 & H2 & Hp2).
  rewrite Hc1 in Hc1'. injection Hc1' as <-. exists c, c2. split_and!; [done..| |].
  - rewrite (assoc_L (++) c1), H1, <- !(assoc_L (++)) in H2. by destruct all.
  - intros p Hp. by rewrite Hp2, Hp1.
Qed.

Lemma appended_stop path fs buf d1 d2 fs' buf' :
  appended path fs buf d1 fs' buf' false → appended path fs buf (d1 ++ d2) fs' buf' false.
Proof.
  intros (c & c' & ? & ? & Hpre & ?). exists c, c'. split_and!; [done..| |done].
  etrans; [exact Hpre|]. rewrite !(assoc_L (++)). by apply prefix_app_r.
Qed.

Lemma file_write_appended path data fs :
  is_Some (fs !! path) →
  let '(fs', rest) := file_write path data fs in appended path fs data [] fs' rest true.
Proof.
  intros [c Hc]. unfold file_write. rewrite Hc. simpl. eexists c, _.
  split_and!; [done|apply lookup_insert_eq| |intros p Hp; by apply lookup_insert_ne].
  by rewrite <- (assoc_L (++)), take_drop, (right_id_L [] (++)).
Qed.

Lemma buf_put_appended path data fs buf :
  is_Some (fs !! path) → (capacity ≤ length data → buf = []) →
  let '(fs', buf', all) := buf_put path data fs buf in appended path fs buf data fs' buf' all.
Proof.
  intros Hsome Hbuf. unfold buf_put. destruct (Nat.leb_spec capacity (length data)) as [Hle|Hlt].
  - rewrite (Hbuf Hle). pose proof (file_write_appended path data fs Hsome) as Hw.
    destruct (file_write path data fs) as [fs' rest]. destruct Hw as (c & c' & Hc & Hc' & Heq & Hp).
    rewrite (right_id_L [] (++)) in Heq. exists c, c'. split_and!; [done..| |done].
    rewrite (right_id_L [] (++)), (left_id_L [] (++)), <- Heq. case_bool_decide as Hr.
    + by rewrite Hr, (right_id_L [] (++)).
    + by apply prefix_app_r.
  - destruct Hsome as [c Hc]. exists c, c. by rewrite (assoc_L (++)).
Qed.

Lemma appended_exists path fs buf data fs' buf' all :
  appended path fs buf data fs' buf' all → is_Some (fs' !! path).
Proof. intros (c & c' & _ & Hc' & _). eauto. Qed.

Lemma buf_write_appended path data fs buf :
  is_Some (fs !! path) →
  let '(fs', buf', all) := buf_write path data fs buf in appended path fs buf data fs' buf' all.
Proof.
  intros Hsome. unfold buf_write.
  destruct (Nat.ltb_spec (length data) (capacity - length buf)) as [_|Hge].
  { destruct Hsome as [c Hc]. exists c, c. by rewrite (assoc_L (++)). }
  destruct (Nat.ltb_spec (capacity - length buf) (length data)) as [Hgt|Hle].
  - pose proof (file_write_appended path buf fs Hsome) as Hw. destruct (file_write path buf fs) as [fs1 rest].
    case_decide as Hr.
    + subst rest. pose proof (buf_put_appended path data fs1 [] (appended_exists _ _ _ _ _ _ _ Hw)) as Hput.
      specialize (Hput ltac:(done)). destruct (buf_put path data fs1 []) as [[fs2 buf2] all].
      by apply (appended_trans _ _ _ [] fs1 []).
    + destruct Hw as (c & c' & Hc & Hc' & Heq & Hp). exists c, c'. split_and!; [done..| |done].
      rewrite Heq, (right_id_L [] (++)), (assoc_L (++)). by apply prefix_app_r.
  - apply buf_put_appended; [done|]. intros Hcap. destruct buf; [done|]. simpl in *. pose proof capacity_pos. lia.
Qed.

Lemma write_pieces_appended path pieces fs buf :
  is_Some (fs !! path) →
  let '(fs', buf', all) := write_pieces path pieces fs buf in
  appended path fs buf (concat pieces) fs' buf' all.
Proof.
  revert fs buf. induction pieces as [|data pieces IH]; intros fs buf Hsome; simpl.
  { destruct Hsome as [c Hc]. exists c, c. by rewrite !(right_id_L [] (++)). }
  pose proof (buf_write_appended path data fs buf Hsome) as Hw.
  destruct (buf_write path data fs buf) as [[fs1 buf1] [|]]; [|by apply appended_stop].
  specialize (IH fs1 buf1 (appended_exists _ _ _ _ _ _ _ Hw)).
  destruct (write_pieces path pieces fs1 buf1) as [[fs2 buf2] all]. by eapply appended_trans.
Qed.

(** A file that takes everything. *)
Definition takes_all path : Prop := ∀ fs data, length data ≤ accepts path fs data.

Lemma file_write_all path data fs : takes_all path → (file_write path data fs).2 = [].
Proof. intros Hall. simpl. apply drop_ge, Hall. Qed.

Lemma buf_write_all path data fs buf : takes_all path → (buf_write path data fs buf).2 = true.
Proof.
  intros Hall.
  assert (∀ fs buf, (buf_put path data fs buf).2 = true) as Hput.
  { intros fs' buf'. unfold buf_put. destruct (capacity <=? length data)%nat; [|done].
    pose proof (file_write_all path data fs' Hall). destruct (file_write path data fs').
    simpl in *. by apply bool_decide_eq_true. }
  unfold buf_write. destruct (_ <? _)%nat; [done|]. destruct (_ <? _)%nat; [|apply Hput].
  pose proof (file_write_all path buf fs Hall). destruct (file_write path buf fs) as [fs1 rest].
  simpl in *. subst rest. by rewrite decide_True.
Qed.

Lemma write_pieces_all path pieces fs buf : takes_all path → (write_pieces path pieces fs buf).2 = true.
Proof.
  intros Hall. revert fs buf. induction pieces as [|data pieces IH]; intros fs buf; simpl; [done|].
  pose proof (buf_write_all path data fs buf Hall) as Hw.
  destruct (buf_write path data fs buf) as [[fs1 buf1] w]. simpl in Hw. by subst w.
Qed.

(** What fits into the buffer is written when the writer is dropped. *)
Lemma write_pieces_small path pieces fs buf :
  length (buf ++ concat pieces) < capacity →
  write_pieces path pieces fs buf = (fs, buf ++ concat pieces, true).
Proof.
  revert buf. induction pieces as [|data pieces IH]; intros buf Hlen; simpl.
  { by rewrite (right_id_L [] (++)). }
  simpl in Hlen. rewrite !length_app in Hlen. unfold buf_write.
  destruct (Nat.ltb_spec (length data) (capacity - length buf)); [|lia].
  rewrite IH by (rewrite !length_app; lia). by rewrite (assoc_L (++)).
Qed.

(** C40: The command line tool writes at most one file, and what it holds afterwards is the
    beginning of what the serialiser wrote: all of it if the file takes every write, even
    if the serialiser fails in the end. [GenerateSchemas] then succeeds exactly if the file
    can be created and the definition serialised. But it cannot tell: for a text smaller
    than the buffer it succeeds under the same condition whatever the file takes, because
    the buffer is written when it is dropped and an error of that is ignored. In all other
    cases it panics, as do the other commands, which are not written and have no effect. *)
Theorem cli_writes_schema command fs :
  let '(fs', r) := cli_main command fs in
  (r = Ok tt ∨ r = Panic)
  ∧ match command with
    | GenerateSchemas out_dir =>
      let path := schema_path out_dir in let text := concat (yaml_pieces crd) in
      (∀ p, p ≠ path → fs' !! p = fs !! p)
      ∧ (can_create path fs = false → fs' = fs ∧ r = Panic)
      ∧ (can_create path fs = true →
         (∃ written, fs' !! path = Some written ∧ written `prefix_of` text)
         ∧ (yaml_ok crd = false → r = Panic)
         ∧ (takes_all path → fs' !! path = Some text ∧ (yaml_ok crd = true → r = Ok tt))
         ∧ (length text < capacity → yaml_ok crd = true → r = Ok tt))
    | _ => fs' = fs ∧ r = Panic
    end.
Proof.
  destruct command as [| | |out_dir]; simpl; [by auto..|].
  unfold write_yaml. rewrite schema_path_eq. set (path := schema_path out_dir).
  destruct (can_create path fs) eqn:Hc; cbn [negb]; [|split_and!; [by right|done..]].
  set (fs0 := <[path := []]> fs). assert (fs0 !! path = Some []) as Hfs0 by apply lookup_insert_eq.
  pose proof (write_pieces_appended path (yaml_pieces crd) fs0 [] ltac:(eauto)) as Hw.
  pose proof (write_pieces_all path (yaml_pieces crd) fs0 []) as Hall.
  pose proof (write_pieces_small path (yaml_pieces crd) fs0 []) as Hsmall.
  destruct (write_pieces path (yaml_pieces crd) fs0 []) as [[fs1 buf] all]. cbn [fst snd] in Hall.
  pose proof (file_write_appended path buf fs1 (appended_exists _ _ _ _ _ _ _ Hw)) as Hd.
  pose proof (file_write_all path buf fs1) as Hdrop.
  destruct (file_write path buf fs1) as [fs2 rest]. cbn [snd] in Hdrop.
  destruct Hw as (c & c1 & Hc0 & Hc1 & H1 & Hp1), Hd as (c1' & c2 & Hc1' & Hc2 & H2 & Hp2).
  rewrite Hfs0 in Hc0. injection Hc0 as <-. rewrite Hc1 in Hc1'. injection Hc1' as <-.
  rewrite !(left_id_L [] (++)) in H1. rewrite (right_id_L [] (++)) in H2.
  split; [destruct (all && yaml_ok crd); auto|]. split_and!; [|done|].
  - intros p Hp. unfold fs0 in Hp1. by rewrite Hp2, Hp1, lookup_insert_ne.
  - intros _. split_and!.
    + exists c2. split; [done|]. assert (c1 ++ buf `prefix_of` concat (yaml_pieces crd)) as Hpre
        by (destruct all; [by rewrite H1|done]).
      etrans; [|exact Hpre]. rewrite <- H2. by apply prefix_app_r.
    + intros ->. by rewrite andb_false_r.
    + intros Ht. rewrite (Hall Ht) in *. rewrite (Hdrop Ht), (right_id_L [] (++)) in H2.
      split; [by rewrite Hc2, H2, H1|]. by intros ->.
    + intros Hlen Hy. specialize (Hsmall Hlen). injection Hsmall as _ _ ->. by rewrite Hy.
Qed.
End cli.

(** The schema in a directory. *)
Example generate_into_dir :
  schema_path (lit "out") = lit "out/grcache_service_crd.yaml"
  ∧ schema_path (lit "out/") = lit "out/grcache_service_crd.yaml"
  ∧ schema_path [] = lit "grcache_service_crd.yaml".
Proof. split_and!; reflexivity. Qed.
