(* ===== verification/Unbuilt.v ===== *)
(** * Unbuilt: sources that are not part of the build

    [proxy/logic.rs], a state machine that was to take over the decisions of the proxy,
    and [cache/local.rs], a cache backend in memory. Both end in [todo!()], and their
    module declarations are commented out. The definitions show how far they go, and the
    theorems what would happen if they were used. *)

From stdpp Require Import gmap strings list.
From Stdlib Require Import Strings.Byte.
From S2P Require Import Prelude Text Headers Hash Status Path Crd ServiceSpec ServiceStore.
From S2P Require Import Discovery Cache Session StorageSpec Proxy ProxyProps Lifecycle LifecycleProps.

(** ** [proxy/logic.rs] *)

Inductive CacheState := mkCacheState.

Inductive ProxyLogicState :=
| Init
| DoCache (state : CacheState)
| Bypass.

Definition logic_init : ProxyLogicState := Init.

Definition process_req_headers {H} (self : ProxyLogicState) (header : RequestHeader H)
    : outcome PError ProxyLogicState :=
  '(service_name, method) ←
    map_err (λ _, mkPError (HTTPStatus 400) (lit "invalid grpc http path"))
      (parse_grpc_path (raw_path header));
  Panic.

(** ** [cache/local.rs] *)

(** [LocalCacheBackend]; the cache it holds is never used. *)
Inductive LocalCacheBackend := local_new.

(** Handlers are never made. *)
Definition local_storage {H} `{!PingoraCache H} : Storage H LocalCacheBackend := {|
  HitHandler := Empty_set;
  MissHandler := Empty_set;
  lookup_key _ _ := Panic;
  get_miss_handler _ _ _ := Panic;
  read_body h := match h with end;
  write_body _ _ m := m;
  finish_miss m _ := match m with end;
  purge _ _ := Panic;
  update_meta _ _ _ := Panic;
|}.

#[local] Existing Instance local_storage.

Section unbuilt.
Context {R : Reflection} {H S D LB Resp : Type}.
Context `{HL : HeaderMapLaws H, SL : SessionLaws H S, PL : PingoraCacheLaws H, !Digest D}.
Context `{!MetaClock H Resp}.

(** The state machine agrees with [request_filter] on paths: it refuses exactly the
    requests that are refused with 400, with the same error, and has not been written
    for the others. *)
Theorem logic_refuses_same_paths (services : gmap bytes (ServiceData LB)) (s : S) (c : RequestCtx LB) :
  match process_req_headers logic_init (req_header s) with
  | Err e => e = path_error ∧ (request_filter services s c).2 = Err e
  | Ok _ => False
  | Panic => (request_filter services s c).2 ≠ Err path_error ∨ failure s = Some path_error
  end.
Proof.
  pose proof (request_filter_cases services s c) as Hc.
  destruct (request_filter services s c) as [[s' c'] r]. simpl.
  unfold process_req_headers, routed_service in *.
  pose proof (parse_grpc_path_no_panic (raw_path (req_header s))) as Hnp.
  destruct (parse_grpc_path (raw_path (req_header s))) as [[service method]|e|]; simpl; [| |done].
  - destruct (match services !! service with Some d => _ | None => _ end) as [[d m]|e|] eqn:Hr.
    + destruct Hc as (vs & _ & _ & _ & Hc). destruct (positive_ttl _).
      * destruct Hc as [_ Hc]. destruct (failure s) as [e|]; [destruct Hc as [-> _]|left; case_decide; by destruct Hc as [-> _]].
        destruct (decide (e = path_error)); [right; congruence|left; congruence].
      * left. by destruct Hc as [-> _].
    + left. destruct Hc as [-> _].
      destruct (services !! service) as [d|]; [case_decide; [done|]|]; by injection Hr as <-.
    + done.
  - split; [done|]. by destruct Hc as [-> _].
Qed.

(** With the backend in memory every request with a body that is marked for caching panics
    as soon as its key is looked up. *)
Theorem local_cache_panics services (s s' : S) (c' : RequestCtx LB) :
  cache_enabled s = false → request_filter services s new_ctx = (s', c', Ok false) → do_cache c' = true →
  request_body s ≠ [] →
  ∃ r : Request H S LB LocalCacheBackend Resp,
    rtc (life_step (D:=D) local_new) (mkRequest Arrived s new_ctx []) r ∧ panics (D:=D) local_new r.
Proof. intros Hoff Hf Hdo Hbody. eexists. split; [by eapply keyed_run|done]. Qed.
End unbuilt.
